(** * FastVLM inference script: tokenizer, embedding fusion, sampler, decode loop

    A shallow embedding of [scripts/pc_fastvlm_infer.py].  Python strings are
    lists of code points, Python ints are [Z], dictionaries whose iteration
    order is observable are insertion-ordered association lists and pure
    lookup tables are [gmap]s.  Operations that can raise return an
    [outcome]; unbounded [while] loops carry fuel. *)

From Stdlib Require Import ZArith List Lia Ascii String QArith Lqa Floats.
From stdpp Require Import base option list gmap.

Local Open Scope Z_scope.

(** ** Python values and control *)

(** A Python [str] is a sequence of code points. *)
Abbreviation str := (list Z).

Definition str_of (s : string) : str :=
  List.map (fun a => Z.of_N (N_of_ascii a)) (list_ascii_of_string s).

Inductive exn : Set :=
| KeyError
| IndexError
| ValueError
| OverflowError
| UnicodeEncodeError
| UnicodeDecodeError.

Inductive outcome (A : Type) : Type :=
| Ok (a : A)
| Raise (e : exn)
| OutOfFuel.
Arguments Ok {A} a.
Arguments Raise {A} e.
Arguments OutOfFuel {A}.

Definition obind {A B} (m : outcome A) (k : A -> outcome B) : outcome B :=
  match m with
  | Ok a => k a
  | Raise e => Raise e
  | OutOfFuel => OutOfFuel
  end.

#[global] Instance outcome_ret : MRet outcome := fun _ a => Ok a.
#[global] Instance outcome_bind : MBind outcome := fun _ _ k m => obind m k.

Definition or_raise {A} (e : exn) (o : option A) : outcome A :=
  match o with
  | Some a => Ok a
  | None => Raise e
  end.

(** [for x in xs: acc = body(acc, x)] where the body may raise. *)
Fixpoint for_each {A S} (body : S -> A -> outcome S) (xs : list A) (acc : S) : outcome S :=
  match xs with
  | [] => Ok acc
  | x :: rest => acc' ← body acc x; for_each body rest acc'
  end.

(** [range(lo, hi)]. *)
Definition py_range (lo hi : Z) : list Z := seqZ lo (hi - lo).

(** [xs[i:j]] for [0 <= i <= j]. *)
Definition slice {A} (xs : list A) (i j : nat) : list A := take (j - i) (drop i xs).

(** *** Insertion-ordered dictionaries *)

Section Dict.
Context {K V : Type} `{EqDecision K}.

(** [d.get(k)] *)
Fixpoint dict_get (d : list (K * V)) (k : K) : option V :=
  match d with
  | [] => None
  | (k', v) :: rest => if decide (k' = k) then Some v else dict_get rest k
  end.

(** [d[k] = v]: an existing key keeps its position. *)
Fixpoint dict_set (d : list (K * V)) (k : K) (v : V) : list (K * V) :=
  match d with
  | [] => [(k, v)]
  | (k', v') :: rest =>
      if decide (k' = k) then (k, v) :: rest else (k', v') :: dict_set rest k v
  end.

(** [{k: v for k, v in items}] *)
Definition dict_comprehension (items : list (K * V)) : list (K * V) :=
  fold_left (fun d kv => dict_set d kv.1 kv.2) items [].
End Dict.

(** ** Byte-to-unicode codec ([_build_bytes_to_unicode], [__init__]) *)

Definition build_step (st : list Z * list Z * Z) (b : Z) : list Z * list Z * Z :=
  let '(bs, cs, n) := st in
  if bool_decide (b ∈ bs) then st else (bs ++ [b], cs ++ [256 + n], n + 1).

Definition _build_bytes_to_unicode : list (Z * Z) :=
  let bs := py_range 33 127 ++ py_range 161 173 ++ py_range 174 256 in
  let st := fold_left build_step (py_range 0 256) (bs, bs, 0) in
  dict_comprehension (zip st.1.1 st.1.2).

Definition byte_encoder : list (Z * Z) := _build_bytes_to_unicode.

Definition byte_decoder : list (Z * Z) :=
  dict_comprehension (List.map (fun kv => (kv.2, kv.1)) byte_encoder).

#[global] Arguments byte_encoder : simpl never.
#[global] Arguments byte_decoder : simpl never.

(** ** BPE merge ([_get_pairs], [_bpe]) *)

(** A Python [set] is given by the elements added to it, in the order of
    the [add] calls.  Iterating it yields its members, each once, in an
    order that is not specified. *)
Class SetIteration := {
  set_iter : list (str * str) -> list (str * str);
  set_iter_elem : forall added p, p ∈ set_iter added <-> p ∈ added;
  set_iter_once : forall added, NoDup (set_iter added)
}.

(** One such order: that of the first [add] of each member. *)
#[global, refine] Instance first_added_iteration : SetIteration :=
  {| set_iter := remove_dups |}.
Proof.
  - intros added p. apply elem_of_remove_dups.
  - intros added. apply NoDup_remove_dups.
Defined.

Fixpoint get_pairs_from (prev : option str) (word : list str)
    (pairs : list (str * str)) : list (str * str) :=
  match word with
  | [] => pairs
  | ch :: rest =>
      get_pairs_from (Some ch) rest
        (match prev with
         | Some p => pairs ++ [(p, ch)]
         | None => pairs
         end)
  end.

Definition _get_pairs (word : list str) : list (str * str) :=
  get_pairs_from None word [].

(** [min(xs, key=key)]: the first element whose key is minimal. *)
Definition py_min_by {A} (key : A -> Z) (xs : list A) : option A :=
  match xs with
  | [] => None
  | x :: rest => Some (fold_left (fun best y => if key y <? key best then y else best) rest x)
  end.

(** The rank [10**9] stands for "not in the table". *)
Definition absent_rank : Z := 10 ^ 9.

Definition rank_key (bpe_ranks : gmap (str * str) Z) (p : str * str) : Z :=
  default absent_rank (bpe_ranks !! p).

(** The inner [while j < len(word)] scan for [first], started at [j] on
    [suffix = word[j:]]. *)
Fixpoint scan_for (first : str) (suffix : list str) (j : nat) : option nat :=
  match suffix with
  | [] => None
  | x :: rest => if decide (x = first) then Some j else scan_for first rest (S j)
  end.

(** The [while i < len(word)] loop that builds [new_word]. *)
Fixpoint merge_loop (fuel : nat) (word : list str) (first second : str)
    (i : nat) (new_word : list str) : outcome (list str) :=
  if decide (i < length word)%nat then
    match fuel with
    | O => OutOfFuel
    | S fuel' =>
        match scan_for first (drop i word) i with
        | None => Ok (new_word ++ drop i word)
        | Some j =>
            let new_word := new_word ++ slice word i j in
            let i := j in
            x ← or_raise IndexError (word !! i);
            if (Z.of_nat i <? Z.of_nat (length word) - 1)
               && bool_decide (x = first)
               && bool_decide (word !! S i = Some second)
            then merge_loop fuel' word first second (i + 2) (new_word ++ [first ++ second])
            else merge_loop fuel' word first second (i + 1) (new_word ++ [x])
        end
    end
  else Ok new_word.

(** The [while True] loop of [_bpe]. *)
Fixpoint bpe_loop `{SetIteration} (fuel : nat) (bpe_ranks : gmap (str * str) Z)
    (word : list str) (pairs : list (str * str)) : outcome (list str) :=
  match fuel with
  | O => OutOfFuel
  | S fuel' =>
      bigram ← or_raise ValueError (py_min_by (rank_key bpe_ranks) (set_iter pairs));
      match bpe_ranks !! bigram with
      | None => Ok word
      | Some _ =>
          let '(first, second) := bigram in
          new_word ← merge_loop (length word) word first second 0 [];
          if decide (length new_word = 1%nat) then Ok new_word
          else bpe_loop fuel' bpe_ranks new_word (_get_pairs new_word)
      end
  end.

(** [_bpe]: every pass that does not leave the loop shortens [word], so
    [len(word)] passes are never used up. *)
Definition _bpe `{SetIteration} (bpe_ranks : gmap (str * str) Z)
    (token : str) : outcome (list str) :=
  match token with
  | [] => Ok []
  | _ =>
      let word := List.map (fun c => [c]) token in
      let pairs := _get_pairs word in
      if decide (pairs = []) then Ok [token]
      else bpe_loop (length word) bpe_ranks word pairs
  end.

(** The merge table as [_load_files] builds it from the rules of
    [merges.txt] (blank and comment lines already dropped, each line split
    at its space). *)
Definition load_merges (rules : list (str * str)) : gmap (str * str) Z :=
  (fold_left (fun st ab => (<[ab := st.2]> st.1, st.2 + 1)) rules (∅, 0)).1.

(** The table of the specification's example:
    [{("l","o"): 0, ("lo","w"): 1}]. *)
Definition example_ranks : gmap (str * str) Z :=
  <[(str_of "lo", str_of "w") := 1]> {[ (str_of "l", str_of "o") := 0 ]}.

(** The merge as the specification words it: every occurrence of the pair,
    left to right and without overlap, becomes the concatenation. *)
Fixpoint merge_pair_spec (a b : str) (w : list str) : list str :=
  match w with
  | x :: t =>
      match t with
      | y :: r =>
          if decide (x = a ∧ y = b) then (a ++ b) :: merge_pair_spec a b r
          else x :: merge_pair_spec a b t
      | [] => w
      end
  | [] => w
  end.

(** [a] is immediately followed by [b] somewhere in [w]. *)
Definition adjacent (a b : str) (w : list str) : Prop :=
  exists i : nat, w !! i = Some a ∧ w !! S i = Some b.

(** Greedy lowest-rank merging, as the specification words it. *)
Inductive bpe_merges (ranks : gmap (str * str) Z) :
    list str -> list str -> Prop :=
| bpe_one_symbol w :
    (length w <= 1)%nat -> bpe_merges ranks w w
| bpe_no_eligible w :
    (forall a b, adjacent a b w -> ranks !! (a, b) = None) -> bpe_merges ranks w w
| bpe_merge_lowest w a b r res :
    adjacent a b w ->
    ranks !! (a, b) = Some r ->
    (forall a' b' r', adjacent a' b' w -> ranks !! (a', b') = Some r' -> r <= r') ->
    bpe_merges ranks (merge_pair_spec a b w) res ->
    bpe_merges ranks w res.

(** ** The tokenizer object ([BpeTokenizerPy]) *)

(** The attributes the methods below read.  The compiled regular expression
    [self.pattern] belongs to the [regex] library; it is represented by what
    [finditer] yields, the matched pieces in order. *)
Record BpeTokenizerPy := {
  vocab : gmap str Z;
  id_to_token : gmap Z str;
  bpe_ranks : gmap (str * str) Z;
  special_to_id : list (str * Z);
  id_to_special : gmap Z str;
  pattern_finditer : str -> list str
}.

(** [ch.encode('utf-8')] for one code point; lone surrogates (and values
    that are no code points at all) cannot be encoded. *)
Definition utf8_encode_char (c : Z) : option (list Z) :=
  if c <? 0 then None
  else if c <? 128 then Some [c]
  else if c <? 2048 then Some [192 + c / 64; 128 + c mod 64]
  else if (55296 <=? c) && (c <=? 57343) then None
  else if c <? 65536 then Some [224 + c / 4096; 128 + (c / 64) mod 64; 128 + c mod 64]
  else if c <? 1114112 then
    Some [240 + c / 262144; 128 + (c / 4096) mod 64; 128 + (c / 64) mod 64; 128 + c mod 64]
  else None.

(** [s.encode('utf-8')] *)
Fixpoint utf8_encode (s : str) : option (list Z) :=
  match s with
  | [] => Some []
  | c :: rest =>
      match utf8_encode_char c, utf8_encode rest with
      | Some bs, Some bs' => Some (bs ++ bs')
      | _, _ => None
      end
  end.

Definition unk : str := str_of "<unk>".

(** [self.vocab.get(tok, self.vocab.get('<unk>', 0))] *)
Definition vocab_id (tk : BpeTokenizerPy) (tok : str) : Z :=
  default (default 0 (vocab tk !! unk)) (vocab tk !! tok).

(** [''.join(self.byte_encoder[b] for b in bytes)] *)
Definition byte_level_encode (bytes : list Z) : outcome str :=
  for_each (fun acc b => c ← or_raise KeyError (dict_get byte_encoder b); Ok (acc ++ [c]))
    bytes [].

(** The body of the [for m in self.pattern.finditer(segment)] loop. *)
Definition encode_piece `{SetIteration} (tk : BpeTokenizerPy)
    (out : list Z) (piece : str) : outcome (list Z) :=
  bytes ← or_raise UnicodeEncodeError (utf8_encode piece);
  encoded ← byte_level_encode bytes;
  toks ← _bpe (bpe_ranks tk) encoded;
  Ok (fold_left (fun out tok => out ++ [vocab_id tk tok]) toks out).

Definition _encode_segment `{SetIteration} (tk : BpeTokenizerPy)
    (segment : str) : outcome (list Z) :=
  match segment with
  | [] => Ok []
  | _ => for_each (encode_piece tk) (pattern_finditer tk segment) []
  end.

(** What [finditer] yields on a segment that the pattern matches whole (a
    run of letters, or a run of punctuation): that segment as the one
    piece.  Used to run the examples. *)
Definition one_piece (segment : str) : list str := [segment].

(** A tokenizer with an empty vocabulary and no merges. *)
Definition bare_tokenizer : BpeTokenizerPy :=
  {| vocab := ∅; id_to_token := ∅; bpe_ranks := ∅; special_to_id := [];
     id_to_special := ∅; pattern_finditer := one_piece |}.

(** *** [tokenize_to_ids] *)

Fixpoint is_prefix (sub s : str) : bool :=
  match sub, s with
  | [], _ => true
  | c :: sub', d :: s' => bool_decide (c = d) && is_prefix sub' s'
  | _ :: _, [] => false
  end.

(** Search for [sub] at positions [k, k+1, ...] of a text whose suffix from
    [k] is [suffix]. *)
Fixpoint find_at (sub suffix : str) (k : nat) : option nat :=
  if is_prefix sub suffix then Some k
  else match suffix with
       | [] => None
       | _ :: rest => find_at sub rest (S k)
       end.

(** [text.find(sub, start)] for [start >= 0]. *)
Definition py_find (text sub : str) (start : nat) : Z :=
  if decide (start <= length text)%nat then
    match find_at sub (drop start text) start with
    | Some k => Z.of_nat k
    | None => -1
    end
  else -1.

(** The [for tok in specials] scan; the state is [(next_pos, next_tok)]. *)
Definition scan_step (text : str) (i : nat) (st : option (Z * str)) (tok : str)
    : option (Z * str) :=
  let idx := py_find text tok i in
  if (0 <=? idx)
     && match st with
        | None => true
        | Some (next_pos, _) => idx <? next_pos
        end
  then Some (idx, tok)
  else st.

Definition next_special (specials : list str) (text : str) (i : nat)
    : option (Z * str) :=
  fold_left (scan_step text i) specials None.

(** The [while i < len(text)] loop. *)
Fixpoint tokenize_loop `{SetIteration} (fuel : nat) (tk : BpeTokenizerPy)
    (text : str) (i : nat) (ids : list Z) : outcome (list Z) :=
  if decide (i < length text)%nat then
    match fuel with
    | O => OutOfFuel
    | S fuel' =>
        match next_special (List.map fst (special_to_id tk)) text i with
        | None =>
            seg ← _encode_segment tk (drop i text);
            Ok (ids ++ seg)
        | Some (next_pos, next_tok) =>
            let next_pos := Z.to_nat next_pos in
            ids ← (if decide (i < next_pos)%nat
                   then seg ← _encode_segment tk (slice text i next_pos); Ok (ids ++ seg)
                   else Ok ids);
            sid ← or_raise KeyError (dict_get (special_to_id tk) next_tok);
            tokenize_loop fuel' tk text (next_pos + length next_tok) (ids ++ [sid])
        end
    end
  else Ok ids.

(** [np.array(ids, dtype=np.int64)] *)
Definition np_int64_array (ids : list Z) : outcome (list Z) :=
  if forallb (fun x => (- 2 ^ 63 <=? x) && (x <? 2 ^ 63)) ids then Ok ids
  else Raise OverflowError.

(** [tokenize_to_ids] with an explicit bound on the passes of its loop. *)
Definition tokenize_to_ids `{SetIteration} (fuel : nat) (tk : BpeTokenizerPy)
    (text : str) : outcome (list Z) :=
  ids ← tokenize_loop fuel tk text 0 [];
  np_int64_array ids.

(** What the scan over the markers settles on: nothing when no marker is
    found from [i] on, and otherwise the marker found at the smallest index,
    the one configured first among those found there. *)
Definition scan_settles (specials : list str) (text : str) (i : nat)
    (st : option (Z * str)) : Prop :=
  match st with
  | None => forall tok, tok ∈ specials -> py_find text tok i = -1
  | Some (pos, tok) =>
      0 <= pos ∧
      exists k : nat,
        specials !! k = Some tok ∧ py_find text tok i = pos ∧
        forall (j : nat) tok', specials !! j = Some tok' ->
          py_find text tok' i = -1 ∨ pos < py_find text tok' i
          ∨ (py_find text tok' i = pos ∧ (k <= j)%nat)
  end.

(** *** The marker scan as the specification words it *)

(** [tok] occurs in [text] starting at position [p]. *)
Definition occurs_at (tok text : str) (p : nat) : Prop :=
  exists pre post, text = pre ++ tok ++ post ∧ length pre = p.

Definition longer_first (a b : str) : bool := (length b <? length a)%nat.

(** Smallest start index, and among markers starting there the longest. *)
Definition leftmost_longest (specials : list str) (text : str)
    : option (nat * str) :=
  fold_left
    (fun best tok =>
       match find_at tok text 0, best with
       | None, _ => best
       | Some p, None => Some (p, tok)
       | Some p, Some (q, btok) =>
           if (p <? q)%nat || ((p =? q)%nat && longer_first tok btok)
           then Some (p, tok) else best
       end)
    specials None.

(** A tokenized text is a sequence of plain spans and markers. *)
Inductive chunk :=
| Plain (span : str)
| Marker (tok : str) (sid : Z).

(** Splitting on markers: the next marker is the one that starts first, and
    among those starting at the same place the one configured first. *)
Inductive marker_split (specials : list (str * Z)) : str -> list chunk -> Prop :=
| split_empty :
    marker_split specials [] []
| split_plain text :
    text <> [] ->
    (forall k tok sid p, specials !! k = Some (tok, sid) -> ~ occurs_at tok text p) ->
    marker_split specials text [Plain text]
| split_marker pre tok sid k rest chunks :
    specials !! k = Some (tok, sid) ->
    (forall j sid', (j < k)%nat -> specials !! j <> Some (tok, sid')) ->
    (forall j tok' sid' p, specials !! j = Some (tok', sid') ->
        occurs_at tok' (pre ++ tok ++ rest) p ->
        (length pre < p)%nat ∨ (p = length pre ∧ (k <= j)%nat)) ->
    marker_split specials rest chunks ->
    marker_split specials (pre ++ tok ++ rest)
      ((if decide (pre = []) then [] else [Plain pre]) ++ Marker tok sid :: chunks).

(** The ids of a chunk sequence: plain spans go through [_encode_segment],
    a marker is its reserved id. *)
Fixpoint chunk_ids `{SetIteration} (tk : BpeTokenizerPy) (chunks : list chunk)
    (ids : list Z) : outcome (list Z) :=
  match chunks with
  | [] => Ok ids
  | Plain span :: rest => seg ← _encode_segment tk span; chunk_ids tk rest (ids ++ seg)
  | Marker _ sid :: rest => chunk_ids tk rest (ids ++ [sid])
  end.

(** A tokenizer with two markers, "<a" configured before "<a>", and a
    vocabulary that knows ">". *)
Definition overlap_tokenizer : BpeTokenizerPy :=
  {| vocab := {[ str_of ">" := 5 ]}; id_to_token := {[ 5 := str_of ">" ]};
     bpe_ranks := ∅;
     special_to_id := [(str_of "<a", 1); (str_of "<a>", 2)];
     id_to_special := <[2 := str_of "<a>"]> {[ 1 := str_of "<a" ]};
     pattern_finditer := one_piece |}.

(** A tokenizer whose one marker is the empty string, which is what
    [_load_files] records for an added token without [content]. *)
Definition empty_marker_tokenizer : BpeTokenizerPy :=
  {| vocab := ∅; id_to_token := ∅; bpe_ranks := ∅;
     special_to_id := [([], 9)]; id_to_special := {[ 9 := [] ]};
     pattern_finditer := one_piece |}.

(** ** Detokenization ([decode]) *)

(** Python's UTF-8 codec: [bs.decode('utf-8')], which fails on malformed
    input, and [bs.decode(errors='ignore')], which drops what it cannot
    decode. *)
Record Utf8Decoder := {
  decode_strict : list Z -> option str;
  decode_ignore : list Z -> str
}.

(** [str.isspace] for one character. *)
Definition py_isspace (c : Z) : bool :=
  ((9 <=? c) && (c <=? 13)) || ((28 <=? c) && (c <=? 32))
  || (c =? 133) || (c =? 160) || (c =? 5760)
  || ((8192 <=? c) && (c <=? 8202))
  || (c =? 8232) || (c =? 8233) || (c =? 8239) || (c =? 8287) || (c =? 12288).

Fixpoint lstrip (s : str) : str :=
  match s with
  | c :: rest => if py_isspace c then lstrip rest else s
  | [] => []
  end.

(** [s.strip()] *)
Definition strip (s : str) : str := reverse (lstrip (reverse (lstrip s))).

(** The body of [for tid in ids]. *)
Definition decode_token (tk : BpeTokenizerPy) (bytes_list : list Z) (tid : Z) : list Z :=
  match id_to_special tk !! tid with
  | Some _ => bytes_list
  | None =>
      match id_to_token tk !! tid with
      | None => bytes_list
      | Some tok =>
          fold_left
            (fun acc ch =>
               match dict_get byte_decoder ch with
               | Some b => acc ++ [b]
               | None => acc
               end)
            tok bytes_list
      end
  end.

(** [bytes(bytearray(xs))] rejects values outside [range(256)]. *)
Definition py_bytes (xs : list Z) : outcome (list Z) :=
  if forallb (fun b => (0 <=? b) && (b <? 256)) xs then Ok xs else Raise ValueError.

Definition decode (codec : Utf8Decoder) (tk : BpeTokenizerPy) (ids : list Z)
    : outcome str :=
  let bytes_list := fold_left (decode_token tk) ids [] in
  match (raw ← py_bytes bytes_list;
         s ← or_raise UnicodeDecodeError (decode_strict codec raw);
         Ok (strip s)) with
  | Ok s => Ok s
  | Raise _ => raw ← py_bytes bytes_list; Ok (strip (decode_ignore codec raw))
  | OutOfFuel => OutOfFuel
  end.

(** The bytes one id stands for, as the specification words it. *)
Definition id_bytes (tk : BpeTokenizerPy) (tid : Z) : list Z :=
  if decide (is_Some (id_to_special tk !! tid)) then []
  else match id_to_token tk !! tid with
       | None => []
       | Some tok => omap (dict_get byte_decoder) tok
       end.


(** ** Numbers

    The sampler computes on [np.float64].  Its definitions are written over
    the operations they use, so that they can be read both in binary64,
    which is what the script runs on, and in exact rational arithmetic. *)

Record Arith := {
  num : Type;
  zero : num;
  tiny : num;                      (* the literal [1e-6] *)
  add : num -> num -> num;
  sub : num -> num -> num;
  mul : num -> num -> num;
  div : num -> num -> num;
  neg : num -> num;
  ltb : num -> num -> bool         (* [x < y] *)
}.

(** IEEE 754 binary64; [tiny] is the double nearest to [1e-6]. *)
Definition binary64 : Arith :=
  {| num := float; zero := 0%float; tiny := 0x1.0c6f7a0b5ed8dp-20%float;
     add := PrimFloat.add; sub := PrimFloat.sub; mul := PrimFloat.mul;
     div := PrimFloat.div; neg := PrimFloat.opp; ltb := PrimFloat.ltb |}.

(** Exact rational arithmetic. *)
Definition exact : Arith :=
  {| num := Q; zero := 0%Q; tiny := (1 # 1000000)%Q;
     add := Qplus; sub := Qminus; mul := Qmult; div := Qdiv; neg := Qopp;
     ltb := fun x y => negb (Qle_bool y x) |}.

(** The mass of a list of exact probabilities. *)
Definition total (probs : list Q) : Q := fold_right Qplus 0%Q probs.

(** ** The sampler ([top_p_sample]) *)

(** [a[i]] for an integer [i] on an axis of length [n]: negative indices
    count from the end. *)
Definition np_index (n : nat) (i : Z) : option nat :=
  if (0 <=? i) && (i <? Z.of_nat n) then Some (Z.to_nat i)
  else if (- Z.of_nat n <=? i) && (i <? 0) then Some (Z.to_nat (Z.of_nat n + i))
  else None.

(** [xs[idx]] for an index array [idx]. *)
Fixpoint np_take {X} (xs : list X) (idx : list nat) : outcome (list X) :=
  match idx with
  | [] => Ok []
  | i :: rest =>
      x ← or_raise IndexError (xs !! i);
      xs' ← np_take xs rest;
      Ok (x :: xs')
  end.

Section Sampler.
Context {A : Arith}.

(** The body of [for tid, cnt in seen.items()]. *)
Definition penalize (repetition_penalty : num A) (logits : list (num A))
    (entry : Z * Z) : outcome (list (num A)) :=
  let '(tid, cnt) := entry in
  if 0 <? cnt then
    k ← or_raise IndexError (np_index (length logits) tid);
    x ← or_raise IndexError (logits !! k);
    if ltb A (zero A) x
    then Ok (<[k := div A x repetition_penalty]> logits)
    else Ok (<[k := mul A x repetition_penalty]> logits)
  else Ok logits.

Definition apply_repetition_penalty (repetition_penalty : num A)
    (logits : list (num A)) (seen : list (Z * Z)) : outcome (list (num A)) :=
  for_each (penalize repetition_penalty) seen logits.

(** What the penalty makes of the logit [x] of an id seen [cnt] times, as
    the specification words it. *)
Definition penalized (repetition_penalty : num A) (cnt : option Z) (x : num A) : num A :=
  match cnt with
  | Some c =>
      if 0 <? c then
        if ltb A (zero A) x then div A x repetition_penalty
        else mul A x repetition_penalty
      else x
  | None => x
  end.

(** Python's [max(a, b)]. *)
Definition py_max (a b : num A) : num A := if ltb A a b then b else a.

Fixpoint cumsum_from (acc : num A) (xs : list (num A)) : list (num A) :=
  match xs with
  | [] => []
  | x :: rest => let s := add A acc x in s :: cumsum_from s rest
  end.

(** [np.cumsum]: the running sums, accumulated left to right. *)
Definition np_cumsum (xs : list (num A)) : list (num A) :=
  match xs with
  | [] => []
  | x :: rest => x :: cumsum_from x rest
  end.

(** [np.searchsorted(a, v)] on a nondecreasing array [a] (a running sum of
    probabilities is one): the number of elements below [v], which is the
    first index whose element is not below [v]. *)
Fixpoint np_searchsorted (a : list (num A)) (v : num A) : nat :=
  match a with
  | [] => O
  | x :: rest => if ltb A x v then S (np_searchsorted rest v) else O
  end.

(** The candidates that survive the top-p cut. *)
Definition top_p_keep (np_argsort : list (num A) -> list nat)
    (probs : list (num A)) (top_p : num A) : outcome (list nat) :=
  let idx := np_argsort (List.map (neg A) probs) in
  sorted ← np_take probs idx;
  let cumsum := np_cumsum sorted in
  let keep_n := (np_searchsorted cumsum top_p + 1)%nat in
  Ok (take keep_n idx).

(** What the script takes from NumPy besides arithmetic; [R] is the state
    of the random generator. *)
Record NumPy (R : Type) := {
  np_argsort : list (num A) -> list nat;
  np_exp : num A -> num A;
  np_max : list (num A) -> outcome (num A);
  np_sum : list (num A) -> num A;
  np_random_choice : R -> list nat -> list (num A) -> outcome nat * R
}.
Arguments np_argsort {R} _.
Arguments np_exp {R} _.
Arguments np_max {R} _.
Arguments np_sum {R} _.
Arguments np_random_choice {R} _.

Definition softmax {R} (NP : NumPy R) (logits : list (num A)) : outcome (list (num A)) :=
  m ← np_max NP logits;
  let probs := List.map (fun x => np_exp NP (sub A x m)) logits in
  let s := np_sum NP probs in
  Ok (List.map (fun p => div A p s) probs).

(** Everything of [top_p_sample] that follows the repetition penalty, up
    to the draw. *)
Definition candidates {R} (NP : NumPy R) (logits : list (num A))
    (top_p temperature : num A) : outcome (list nat * list (num A)) :=
  let t := py_max temperature (tiny A) in
  let logits := List.map (fun x => div A x t) logits in
  probs ← softmax NP logits;
  keep_idx ← top_p_keep (np_argsort NP) probs top_p;
  keep_probs ← np_take probs keep_idx;
  let s := np_sum NP keep_probs in
  Ok (keep_idx, List.map (fun p => div A p s) keep_probs).

Definition top_p_sample {R} (NP : NumPy R) (logits : list (num A))
    (top_p temperature repetition_penalty : num A) (seen : list (Z * Z)) (r : R)
    : outcome Z * R :=
  match (logits ← apply_repetition_penalty repetition_penalty logits seen;
         candidates NP logits top_p temperature) with
  | Ok (keep_idx, keep_probs) =>
      let '(choice, r') := np_random_choice NP r keep_idx keep_probs in
      (i ← choice; Ok (Z.of_nat i), r')
  | Raise e => (Raise e, r)
  | OutOfFuel => (OutOfFuel, r)
  end.

(** The contract of [np.argsort]: a permutation of the indices that puts
    the keys in nondecreasing order. *)
Definition argsort_ok (keys : list (num A)) (idx : list nat) : Prop :=
  idx ≡ₚ seq 0 (length keys)
  ∧ forall (i j : nat) (a b : nat) (x y : num A),
      (i < j)%nat -> idx !! i = Some a -> idx !! j = Some b ->
      keys !! a = Some x -> keys !! b = Some y -> ltb A y x = false.

(** The same contract as a test that can be run. *)
Fixpoint in_order (keys : list (num A)) (idx : list nat) : bool :=
  match idx with
  | [] => true
  | a :: rest =>
      forallb (fun b => match keys !! a, keys !! b with
                        | Some x, Some y => negb (ltb A y x)
                        | _, _ => true
                        end) rest
      && in_order keys rest
  end.

Definition argsort_okb (keys : list (num A)) (idx : list nat) : bool :=
  bool_decide (idx ≡ₚ seq 0 (length keys)) && in_order keys idx.

(** A stable insertion sort of the indices, one implementation of that
    contract; with keys that are all different every implementation
    returns the same array. *)
Fixpoint insert_index (keys : list (num A)) (i : nat) (sorted : list nat) : list nat :=
  match sorted with
  | [] => [i]
  | j :: rest =>
      match keys !! i, keys !! j with
      | Some x, Some y => if ltb A x y then i :: sorted else j :: insert_index keys i rest
      | _, _ => i :: sorted
      end
  end.

Definition stable_argsort (keys : list (num A)) : list nat :=
  fold_right (insert_index keys) [] (seq 0 (length keys)).
End Sampler.

(** ** Embedding fusion and the decode loop ([main]) *)

(** [np.where(xs == v)[0]], counting positions from [i]. *)
Fixpoint np_where_eq (xs : list Z) (v : Z) (i : nat) : list nat :=
  match xs with
  | [] => []
  | x :: rest =>
      if decide (x = v) then i :: np_where_eq rest v (S i) else np_where_eq rest v (S i)
  end.

Section Fusion.
Context {vec : Type}.

(** [arr[w:w+T] = rows] with [T = len(rows)]: the target slice is clipped to
    the array; the assignment needs it to have [T] rows, except that a
    single row is broadcast, also into an empty slice. *)
Definition assign_rows (arr : list vec) (w : nat) (rows : list vec) : outcome (list vec) :=
  let T := length rows in
  let k := (Nat.min (w + T) (length arr) - Nat.min w (length arr))%nat in
  if decide (k = T) then Ok (take w arr ++ rows ++ drop (w + T) arr)
  else if decide (T = 1%nat) then Ok arr
  else Raise ValueError.

(** The body of [for i in range(L)]; the state is [(inputs_embeds, w)]. *)
Definition fuse_step (image_pos : nat) (text_emb vis_proj : list vec)
    (st : list vec * nat) (i : nat) : outcome (list vec * nat) :=
  let '(inputs_embeds, w) := st in
  if decide (i = image_pos) then
    inputs_embeds ← assign_rows inputs_embeds w vis_proj;
    Ok (inputs_embeds, (w + length vis_proj)%nat)
  else
    row ← or_raise IndexError (text_emb !! i);
    if decide (w < length inputs_embeds)%nat
    then Ok (<[w := row]> inputs_embeds, (w + 1)%nat)
    else Raise IndexError.

Definition fuse_embeddings (zeros : vec) (image_pos : nat)
    (text_emb vis_proj : list vec) : outcome (list vec) :=
  let L := length text_emb in
  let T := length vis_proj in
  let total_len := Z.of_nat L - 1 + Z.of_nat T in
  if total_len <? 0 then Raise ValueError
  else
    let inputs_embeds := replicate (Z.to_nat total_len) zeros in
    st ← for_each (fuse_step image_pos text_emb vis_proj) (seq 0 L) (inputs_embeds, 0%nat);
    Ok st.1.
End Fusion.


(** *** The sessions, the trace of a run *)

(** What one call of the decoder session is fed, and what it returns:
    [out[0][0]], the logits with one row per position, and [out[1:]], the
    grown key and value tensors of every layer. *)
Record feed (vec kv : Type) := {
  inputs_embeds : list vec;
  attention_mask : nat;                 (* [np.ones((1, n))], given by [n] *)
  position_ids : list Z;
  past_key_values : list kv
}.
Arguments inputs_embeds {vec kv} _.
Arguments attention_mask {vec kv} _.
Arguments position_ids {vec kv} _.
Arguments past_key_values {vec kv} _.

Record dec_out (F kv : Type) := {
  logits : list (list F);
  present : list kv
}.
Arguments logits {F kv} _.
Arguments present {F kv} _.

(** The ONNX sessions, as far as the script looks at them. *)
Record Engine (A : Arith) := {
  vec : Type;                           (* one embedding row *)
  kv : Type;                            (* one key or value tensor *)
  zeros : vec;                          (* a row of [np.zeros] *)
  embed_run : list Z -> list vec;       (* [embed_sess.run] *)
  layer_inputs : list bool;             (* the inputs named [past_key_values.*]:
                                           is the name one that ends in [.key]? *)
  empty_kv : kv;                        (* [np.zeros((1, heads, 0, head_dim))] *)
  kv_len : kv -> nat;                   (* [shape[2]] *)
  dec_run : feed vec kv -> dec_out (num A) kv   (* [dec_sess.run] *)
}.
Arguments vec {A} _.
Arguments kv {A} _.
Arguments zeros {A} _.
Arguments embed_run {A} _.
Arguments layer_inputs {A} _.
Arguments empty_kv {A} _.
Arguments kv_len {A} _.
Arguments dec_run {A} _.

(** What a run does that can be observed from outside. *)
Inductive event :=
| EvWarning                                             (* the missing-placeholder message *)
| EvStep (step : nat) (nid : Z) (tok_text : str)     (* a [--verbose] line *)
| EvText (text : str)                                (* [print(text)] *)
| EvEmbed (ids : list Z)                                (* a call of the embedding session *)
| EvDecoder (n_embeds mask : nat) (positions : list Z) (n_past : nat)
                                                        (* a call of the decoder session *)
| EvSample (nid : Z).                                   (* a draw of [np.random.choice] *)

Definition is_print (e : event) : bool :=
  match e with
  | EvWarning | EvStep _ _ _ | EvText _ => true
  | _ => false
  end.

Definition samples_of (evs : list event) : list Z :=
  omap (fun e => match e with EvSample nid => Some nid | _ => None end) evs.

Record world (R : Type) := { rng : R; trace : list event }.
Arguments rng {R} _.
Arguments trace {R} _.

(** A computation that draws random numbers, leaves a trace and may raise;
    what it has traced stays when it raises. *)
Definition run (R X : Type) : Type := world R -> world R * outcome X.

#[global] Instance run_ret {R} : MRet (run R) := fun _ x w => (w, Ok x).
#[global] Instance run_bind {R} : MBind (run R) := fun _ _ k m w =>
  match m w with
  | (w', Ok x) => k x w'
  | (w', Raise e) => (w', Raise e)
  | (w', OutOfFuel) => (w', OutOfFuel)
  end.

Definition emit {R} (e : event) : run R unit :=
  fun w => ({| rng := rng w; trace := trace w ++ [e] |}, Ok tt).

Definition lift {R X} (o : outcome X) : run R X := fun w => (w, o).

(** [try: m except Exception: pass] *)
Definition try_pass {R} (m : run R unit) : run R unit :=
  fun w => ((m w).1, Ok tt).

(** The command line and [config.json]. *)
Record Args (A : Arith) := {
  temperature : num A;
  top_p : num A;
  repetition_penalty : num A;
  max_new_tokens : Z;
  verbose : bool
}.
Arguments temperature {A} _.
Arguments top_p {A} _.
Arguments repetition_penalty {A} _.
Arguments max_new_tokens {A} _.
Arguments verbose {A} _.

Record Config := {
  image_token_id : Z;
  eos_id : Z
}.

(** [xs.index(v)] *)
Fixpoint py_index (xs : list Z) (v : Z) : option nat :=
  match xs with
  | [] => None
  | x :: rest => if decide (x = v) then Some 0%nat else S <$> py_index rest v
  end.

(** [s.replace('\n', '\\n')] *)
Definition escape_newlines (s : str) : str :=
  flat_map (fun c => if decide (c = 10) then [92; 110] else [c]) s.

Section Main.
Context {A : Arith} (E : Engine A) {R : Type} (NP : @NumPy A R).
Context (codec : Utf8Decoder) (tokenizer : BpeTokenizerPy).
Context (args : Args A) (cfg : Config).

(** The variables of the generation loop. *)
Record loop_state := {
  last_logits : list (num A);
  out_present : list (kv E);
  seen : list (Z * Z);
  generated : list Z
}.

Definition num_layers : nat := Nat.max 1 (length (layer_inputs E) / 2).

Definition sample (logits : list (num A)) (seen : list (Z * Z)) : run R Z :=
  fun w =>
    let '(o, r) := top_p_sample NP logits (top_p args) (temperature args)
                     (repetition_penalty args) seen (rng w) in
    match o with
    | Ok nid => ({| rng := r; trace := trace w ++ [EvSample nid] |}, Ok nid)
    | _ => ({| rng := r; trace := trace w |}, o)
    end.

Definition embed (ids : list Z) : run R (list (vec E)) :=
  _ ← emit (EvEmbed ids); mret (embed_run E ids).

Definition decoder (f : feed (vec E) (kv E)) : run R (dec_out (num A) (kv E)) :=
  _ ← emit (EvDecoder (length (inputs_embeds f)) (attention_mask f) (position_ids f)
              (length (past_key_values f)));
  mret (dec_run E f).

(** The [if args.verbose] block. *)
Definition verbose_print (step : nat) (nid : Z) : run R unit :=
  if verbose args then
    try_pass (tok_text ← lift (decode codec tokenizer [nid]);
              emit (EvStep step nid (escape_newlines tok_text)))
  else mret tt.

(** The part of the loop body after the test for the end token: embed the
    new token and run the decoder on it with the cache of the last call;
    the result is the new [(last, out[1:])]. *)
Definition advance (cache : list (kv E)) (nid : Z)
    : run R (list (num A) * list (kv E)) :=
  tok_emb ← embed [nid];
  k0 ← lift (or_raise IndexError (cache !! 0%nat));
  let past_len := kv_len E k0 in
  past ← lift (np_take cache (seq 0 (2 * num_layers)));
  out ← decoder {| inputs_embeds := tok_emb;
                   attention_mask := past_len + 1;
                   position_ids := [Z.of_nat past_len];
                   past_key_values := past |};
  last' ← lift (or_raise IndexError (last (logits out)));
  mret (last', present out).

(** [for step in range(args.max_new_tokens)], with [n] passes left. *)
Fixpoint decode_steps (n : nat) (step : nat) (st : loop_state) : run R loop_state :=
  match n with
  | O => mret st
  | S n' =>
      nid ← sample (last_logits st) (seen st);
      let generated := generated st ++ [nid] in
      let seen := dict_set (seen st) nid (default 0 (dict_get (seen st) nid) + 1) in
      _ ← verbose_print step nid;
      if decide (nid = eos_id cfg) then
        mret {| last_logits := last_logits st; out_present := out_present st;
                seen := seen; generated := generated |}
      else
        next ← advance (out_present st) nid;
        decode_steps n' (S step)
          {| last_logits := next.1; out_present := next.2;
             seen := seen; generated := generated |}
  end.

(** [generated[:generated.index(eos_id)] if eos_id in generated else generated] *)
Definition cut_at_eos (generated : list Z) : list Z :=
  match py_index generated (eos_id cfg) with
  | Some i => take i generated
  | None => generated
  end.

(** [main] from the search for the placeholder on; [input_ids], [text_emb]
    and [vis_proj] are what the tokenizer, the embedding session and the
    vision encoder with its projector have produced before. *)
Definition main (input_ids : list Z) (text_emb vis_proj : list (vec E)) : run R unit :=
  match np_where_eq input_ids (image_token_id cfg) 0 with
  | [] => emit EvWarning
  | image_pos :: _ =>
      inputs_embeds ← lift (fuse_embeddings (zeros E) image_pos text_emb vis_proj);
      let total_len := length inputs_embeds in
      _ ← lift (or_raise IndexError (head (filter (fun b => b = true) (layer_inputs E))));
      out ← decoder {| inputs_embeds := inputs_embeds;
                       attention_mask := total_len;
                       position_ids := py_range 0 (Z.of_nat total_len);
                       past_key_values := replicate (2 * num_layers) (empty_kv E) |};
      last_row ← lift (or_raise IndexError (last (logits out)));
      st ← decode_steps (Z.to_nat (max_new_tokens args)) 0
             {| last_logits := last_row; out_present := present out;
                seen := []; generated := [] |};
      text ← lift (decode codec tokenizer (cut_at_eos (generated st)));
      emit (EvText text)
  end.
End Main.


(** After the end token has been drawn a run does nothing but print. *)
Fixpoint quiet_after (eos : Z) (evs : list event) : bool :=
  match evs with
  | [] => true
  | EvSample nid :: rest =>
      if decide (nid = eos) then forallb is_print rest else quiet_after eos rest
  | _ :: rest => quiet_after eos rest
  end.

(** The ids before the first [v], as the specification words the cut. *)
Fixpoint before_first (v : Z) (xs : list Z) : list Z :=
  match xs with
  | [] => []
  | x :: rest => if decide (x = v) then [] else x :: before_first v rest
  end.

(** *** Python's UTF-8 decoder

    One step of the decoder on the bytes that are left: a character and the
    bytes after it, or an error and the bytes at which decoding resumes
    when errors are ignored. *)
Inductive utf8_step :=
| U_char (c : Z) (rest : list Z)
| U_bad (rest : list Z).

Definition is_continuation (b : Z) : bool := (128 <=? b) && (b <? 192).

Definition utf8_next (ch : Z) (t1 : list Z) : utf8_step :=
  if ch <? 128 then U_char ch t1
  else if ch <? 194 then U_bad t1
  else if ch <? 224 then
    match t1 with
    | [] => U_bad []
    | ch2 :: t2 =>
        if is_continuation ch2 then U_char ((ch - 192) * 64 + (ch2 - 128)) t2
        else U_bad t1
    end
  else if ch <? 240 then
    match t1 with
    | [] => U_bad []
    | ch2 :: t2 =>
        if negb (is_continuation ch2) || (if ch2 <? 160 then ch =? 224 else ch =? 237)
        then U_bad t1
        else match t2 with
             | [] => U_bad []
             | ch3 :: t3 =>
                 if is_continuation ch3
                 then U_char ((ch - 224) * 4096 + (ch2 - 128) * 64 + (ch3 - 128)) t3
                 else U_bad t2
             end
    end
  else if ch <? 245 then
    match t1 with
    | [] => U_bad []
    | ch2 :: t2 =>
        if negb (is_continuation ch2) || (if ch2 <? 144 then ch =? 240 else ch =? 244)
        then U_bad t1
        else match t2 with
             | [] => U_bad []
             | ch3 :: t3 =>
                 if negb (is_continuation ch3) then U_bad t2
                 else match t3 with
                      | [] => U_bad []
                      | ch4 :: t4 =>
                          if is_continuation ch4
                          then U_char ((ch - 240) * 262144 + (ch2 - 128) * 4096
                                       + (ch3 - 128) * 64 + (ch4 - 128)) t4
                          else U_bad t3
                      end
             end
    end
  else U_bad t1.

(** Decoding, at most [fuel] steps; [strict] makes an error fatal. *)
Fixpoint utf8_decode (strict : bool) (fuel : nat) (bs : list Z) : option str :=
  match bs, fuel with
  | [], _ => Some []
  | _, O => None
  | ch :: t1, S fuel' =>
      match utf8_next ch t1 with
      | U_char c rest => cons c <$> utf8_decode strict fuel' rest
      | U_bad rest => if strict then None else utf8_decode strict fuel' rest
      end
  end.

(** Every step consumes a byte, so [len(bs)] steps are enough. *)
Definition python_utf8 : Utf8Decoder :=
  {| decode_strict := fun bs => utf8_decode true (length bs) bs;
     decode_ignore := fun bs => default [] (utf8_decode false (length bs) bs) |}.

(** *** A small instance to run the model on

    Exact arithmetic, a generator that cycles through the candidates, and
    sessions with one layer whose cache tensors are given by their length
    and whose logits do not depend on the input. *)

Definition seq_max {A : Arith} (xs : list (num A)) : outcome (num A) :=
  match xs with
  | [] => Raise ValueError
  | x :: rest => Ok (fold_left (fun m y => if ltb A m y then y else m) rest x)
  end.

Definition seq_sum {A : Arith} (xs : list (num A)) : num A :=
  fold_left (add A) xs (zero A).

(** [exp] is not rational; on the arguments of the softmax, which are not
    positive, this positive and increasing function stands for it. *)
Definition exp_rational (x : Q) : Q :=
  (1 / (1 - x + x * x / 2))%Q.

Definition cycling_numpy : @NumPy exact nat :=
  {| np_argsort := @stable_argsort exact;
     np_exp := exp_rational;
     np_max := @seq_max exact;
     np_sum := @seq_sum exact;
     np_random_choice := fun r keep_idx _ =>
       (or_raise ValueError (keep_idx !! (r mod (length keep_idx))%nat), S r) |}.

Definition small_engine : Engine exact :=
  {| vec := Z; kv := nat; zeros := 0;
     embed_run := fun ids => ids;
     layer_inputs := [true; false];
     empty_kv := 0%nat;
     kv_len := fun k => k;
     dec_run := fun f =>
       ({| logits := List.map (fun _ => [1%Q; 2%Q; 3%Q]) (inputs_embeds f);
           present := List.map (fun k => (k + length (inputs_embeds f))%nat)
                        (past_key_values f) |} : dec_out (num exact) nat) |}.

Definition small_args : Args exact :=
  Build_Args exact (7 # 10)%Q (95 # 100)%Q (11 # 10)%Q 4 true.

Definition small_config : Config := {| image_token_id := 7; eos_id := 2 |}.


(** ** Loading the tokenizer files ([_load_files]) *)

(** [s.split(sep)] for a separator of one character. *)
Fixpoint py_split (sep : Z) (s : str) : list str :=
  match s with
  | [] => [[]]
  | c :: rest =>
      if decide (c = sep) then [] :: py_split sep rest
      else match py_split sep rest with
           | field :: fields => (c :: field) :: fields
           | [] => [[c]]
           end
  end.

(** [not ln or ln.startswith('#')] *)
Definition blank_or_comment (ln : str) : bool :=
  bool_decide (ln = []) || is_prefix (str_of "#") ln.

(** The body of [for line in f] over [merges.txt]; the state is
    [(self.bpe_ranks, rank)].  Unpacking [a, b = ln.split(' ')] needs
    exactly two fields. *)
Definition merges_line (st : gmap (str * str) Z * Z) (line : str)
    : outcome (gmap (str * str) Z * Z) :=
  let ln := strip line in
  if blank_or_comment ln then Ok st
  else match py_split 32 ln with
       | [a; b] => Ok (<[(a, b) := st.2]> st.1, st.2 + 1)
       | _ => Raise ValueError
       end.

(** The merges part of [_load_files], on the lines of [merges.txt]. *)
Definition _load_files_merges (lines : list str) : outcome (gmap (str * str) Z) :=
  st ← for_each merges_line lines (∅, 0);
  Ok st.1.

(** The rule a line states: none for a blank line or a comment, and
    otherwise the two fields around its one space. *)
Inductive line_kind :=
| Skipped
| Rule (a b : str)
| Malformed.

Definition kind_of_line (line : str) : line_kind :=
  let ln := strip line in
  if blank_or_comment ln then Skipped
  else match py_split 32 ln with
       | [a; b] => Rule a b
       | _ => Malformed
       end.

Definition rules_of (lines : list str) : list (str * str) :=
  omap (fun line => match kind_of_line line with
                    | Rule a b => Some (a, b)
                    | _ => None
                    end) lines.

(** Another iteration order of a set: that of the last [add] first. *)
#[global, refine] Instance last_added_iteration : SetIteration :=
  {| set_iter := fun added => reverse (remove_dups added) |}.
Proof.
  - intros added p. rewrite elem_of_reverse. apply elem_of_remove_dups.
  - intros added. rewrite reverse_Permutation. apply NoDup_remove_dups.
Defined.

Definition well_formed (line : str) : bool :=
  match kind_of_line line with
  | Malformed => false
  | _ => true
  end.

(** The vocabulary part of [_load_files], on the items of the dictionary
    read from [vocab.json], whose ids are integers; the state is
    [(self.vocab, self.id_to_token)]. *)
Definition _load_files_vocab (vj : list (str * Z)) : gmap str Z * gmap Z str :=
  fold_left (fun st kv => (<[kv.1 := kv.2]> st.1, <[kv.2 := kv.1]> st.2)) vj (∅, ∅).

(** The special-token attributes that [_load_files] sets. *)
Record specials := {
  sp_special_to_id : list (str * Z);
  sp_id_to_special : gmap Z str;
  sp_image_id : option Z;
  sp_eos_id : option Z;
  sp_pad_id : option Z
}.

Definition no_specials : specials :=
  {| sp_special_to_id := []; sp_id_to_special := ∅; sp_image_id := None;
     sp_eos_id := None; sp_pad_id := None |}.

Section AddedTokens.
(** [int(k)] for a string [k]; [None] where it raises [ValueError]. *)
Variable py_int : str -> option Z.

(** The body of [for k, v in added.items()]: an entry is the key and
    [v.get('content')]. *)
Definition added_token (st : specials) (entry : str * option str) : outcome specials :=
  tid ← or_raise ValueError (py_int entry.1);
  let content := default [] entry.2 in
  Ok {| sp_special_to_id := dict_set (sp_special_to_id st) content tid;
        sp_id_to_special := <[tid := content]> (sp_id_to_special st);
        sp_image_id := if decide (content = str_of "<image>") then Some tid
                       else sp_image_id st;
        sp_eos_id := sp_eos_id st;
        sp_pad_id := sp_pad_id st |}.

(** [if name in sm: content = sm[name].get('content', ''); if content in
    self.special_to_id: ... = self.special_to_id[content]]; [entry] is
    [None] when [name] is not in [sm], and [sm[name].get('content')]
    otherwise. *)
Definition special_map_id (special_to_id : list (str * Z))
    (entry : option (option str)) (old : option Z) : option Z :=
  match entry with
  | None => old
  | Some content =>
      match dict_get special_to_id (default [] content) with
      | Some tid => Some tid
      | None => old
      end
  end.

(** The special-token part of [_load_files]: [tokenizer_config] is [None]
    when [tokenizer_config.json] does not exist and otherwise the items of
    its [added_tokens_decoder] (none when it has no such key);
    [special_tokens_map] is [None] when [special_tokens_map.json] does not
    exist and otherwise its entries for [eos_token] and [pad_token]. *)
Definition _load_files_specials
    (tokenizer_config : option (list (str * option str)))
    (special_tokens_map : option (option (option str) * option (option str)))
    : outcome specials :=
  st ← match tokenizer_config with
       | None => Ok no_specials
       | Some added => for_each added_token added no_specials
       end;
  match special_tokens_map with
  | None => Ok st
  | Some (eos_token, pad_token) =>
      Ok {| sp_special_to_id := sp_special_to_id st;
            sp_id_to_special := sp_id_to_special st;
            sp_image_id := sp_image_id st;
            sp_eos_id := special_map_id (sp_special_to_id st) eos_token (sp_eos_id st);
            sp_pad_id := special_map_id (sp_special_to_id st) pad_token (sp_pad_id st) |}
  end.

End AddedTokens.

(** [int] on the decimal numerals used below. *)
Definition decimal (s : str) : option Z :=
  if forallb (fun c => (48 <=? c) && (c <=? 57)) s && negb (bool_decide (s = []))
  then Some (fold_left (fun n c => 10 * n + (c - 48)) s 0)
  else None.

(** The added tokens of the model's [tokenizer_config.json] that the chat
    template uses. *)
Definition example_added_tokens : list (str * option str) :=
  [(str_of "151644", Some (str_of "<|im_start|>"));
   (str_of "151645", Some (str_of "<|im_end|>"));
   (str_of "151646", Some (str_of "<image>"))].

(** The text of a chunk sequence without its markers. *)
Definition plain_text (chunks : list chunk) : str :=
  flat_map (fun ch => match ch with Plain span => span | Marker _ _ => [] end) chunks.

(** ** The pre-tokenization pattern ([self.pattern])

    The part of the [regex] syntax that the pattern of [__init__] uses:
    alternation tries its branches in order, [?] and [+] take as much as
    they can and give it back when what follows fails, and [(?!...)] looks
    ahead without consuming. *)
Inductive regex :=
| Str (s : str)                    (* a literal string *)
| Class (p : Z -> bool)            (* one character of a class *)
| Seq (r1 r2 : regex)              (* [r1 r2] *)
| Alt (r1 r2 : regex)              (* [r1|r2] *)
| Opt (r : regex)                  (* [r?] *)
| Plus (p : Z -> bool)             (* [p+] for a character class [p] *)
| NotAhead (r : regex).            (* [(?!r)] *)

(** [p+] on [s], then [k] on what is left: the longest run first. *)
Fixpoint plus_class (p : Z -> bool) (s : str) (k : str -> option str) : option str :=
  match s with
  | c :: t =>
      if p c then
        match plus_class p t k with
        | Some rest => Some rest
        | None => k t
        end
      else None
  | [] => None
  end.

(** Matching [r] at the start of [s] and then [k] on what is left; the
    result is that of the first way to match on which [k] succeeds. *)
Fixpoint rmatch (r : regex) (s : str) (k : str -> option str) : option str :=
  match r with
  | Str lit => if is_prefix lit s then k (drop (length lit) s) else None
  | Class p =>
      match s with
      | c :: t => if p c then k t else None
      | [] => None
      end
  | Seq r1 r2 => rmatch r1 s (fun s' => rmatch r2 s' k)
  | Alt r1 r2 =>
      match rmatch r1 s k with
      | Some rest => Some rest
      | None => rmatch r2 s k
      end
  | Opt r =>
      match rmatch r s k with
      | Some rest => Some rest
      | None => k s
      end
  | Plus p => plus_class p s k
  | NotAhead r =>
      match rmatch r s Some with
      | Some _ => None
      | None => k s
      end
  end.

(** [m.group(0) for m in r.finditer(s)], for a pattern [r] that matches no
    empty string (for one that does, an empty match is passed over here):
    the scan resumes where a match ends and moves on by one character where
    there is none. *)
Fixpoint finditer (fuel : nat) (r : regex) (s : str) : list str :=
  match fuel, s with
  | S fuel', _ :: t =>
      match rmatch r s Some with
      | Some rest =>
          if decide (length rest < length s)%nat
          then take (length s - length rest) s :: finditer fuel' r rest
          else finditer fuel' r t
      | None => finditer fuel' r t
      end
  | _, _ => []
  end.

(** The character classes [\p{L}], [\p{N}] and [\s] of the [regex] library. *)
Record CharClasses := {
  is_letter : Z -> bool;
  is_number : Z -> bool;
  is_space : Z -> bool
}.

Section Pattern.
Variable classes : CharClasses.

Definition other (c : Z) : bool :=
  negb (is_space classes c || is_letter classes c || is_number classes c).

(** [''s|'t|'re|'ve|'m|'ll|'d| ?\p{L}+| ?\p{N}+| ?[^\s\p{L}\p{N}]+|\s+(?!\S)|\s+] *)
Definition pattern : regex :=
  Alt (Str (str_of "''s"))
  (Alt (Str (str_of "'t"))
  (Alt (Str (str_of "'re"))
  (Alt (Str (str_of "'ve"))
  (Alt (Str (str_of "'m"))
  (Alt (Str (str_of "'ll"))
  (Alt (Str (str_of "'d"))
  (Alt (Seq (Opt (Str (str_of " "))) (Plus (is_letter classes)))
  (Alt (Seq (Opt (Str (str_of " "))) (Plus (is_number classes)))
  (Alt (Seq (Opt (Str (str_of " "))) (Plus other))
  (Alt (Seq (Plus (is_space classes))
            (NotAhead (Class (fun c => negb (is_space classes c)))))
       (Plus (is_space classes)))))))))))).

(** [self.pattern.finditer(segment)] *)
Definition script_finditer (segment : str) : list str :=
  finditer (length segment) pattern segment.
End Pattern.

(** The markers of [st] are not empty and have their ids in its id table,
    which holds none of [vocab_ids]. *)
Definition markers_apart (vocab_ids : list Z) (st : specials) : Prop :=
  Forall (fun kv : str * Z => kv.1 <> [] ∧ is_Some (sp_id_to_special st !! kv.2))
         (sp_special_to_id st)
  ∧ forall v, is_Some (sp_id_to_special st !! v) -> v ∉ vocab_ids.

(** An added token with a content that is not empty and an id that is none
    of [vocab_ids]. *)
Definition added_apart (py_int : str -> option Z) (vocab_ids : list Z)
    (entry : str * option str) : Prop :=
  default [] entry.2 <> []
  ∧ forall tid, py_int entry.1 = Some tid -> tid ∉ vocab_ids.

(** ** The constructor ([__init__])

    What [__init__] leaves in the object, on the contents of the four files
    (the ids of [vocab.json] are integers) and for the classes of the
    [regex] library; the attributes that are not tables are returned
    beside it. *)
Definition load_tokenizer (py_int : str -> option Z) (classes : CharClasses)
    (vj : list (str * Z)) (merges : list str)
    (tokenizer_config : option (list (str * option str)))
    (special_tokens_map : option (option (option str) * option (option str)))
    : outcome (BpeTokenizerPy * specials) :=
  let tables := _load_files_vocab vj in
  ranks ← _load_files_merges merges;
  sp ← _load_files_specials py_int tokenizer_config special_tokens_map;
  Ok ({| vocab := tables.1; id_to_token := tables.2; bpe_ranks := ranks;
         special_to_id := sp_special_to_id sp; id_to_special := sp_id_to_special sp;
         pattern_finditer := script_finditer classes |}, sp).

(** The classes on ASCII, to run the pattern. *)
Definition ascii_classes : CharClasses :=
  {| is_letter := fun c => ((65 <=? c) && (c <=? 90)) || ((97 <=? c) && (c <=? 122));
     is_number := fun c => (48 <=? c) && (c <=? 57);
     is_space := py_isspace |}.

(** A pattern that can only match by taking at least one character. *)
Fixpoint consumes (r : regex) : bool :=
  match r with
  | Str lit => negb (bool_decide (lit = []))
  | Class _ | Plus _ => true
  | Seq r1 r2 => consumes r1 || consumes r2
  | Alt r1 r2 => consumes r1 && consumes r2
  | Opt _ | NotAhead _ => false
  end.

(** A tokenizer to run the round trip on: the 256 byte characters with the
    byte as id, the two merged symbols of the example with the ids 256 and
    257, the three markers of the chat template, and the pattern of the script
    on ASCII. *)
Definition byte_level_vocab : list (str * Z) :=
  List.map (fun bc : Z * Z => ([bc.2], bc.1)) byte_encoder
    ++ [(str_of "lo", 256); (str_of "low", 257)].

(** The lines of a [merges.txt] with the two rules of the example. *)
Definition example_merges_lines : list str :=
  [str_of "#version: 0.2" ++ [10]; str_of "l o" ++ [10]; str_of "lo w" ++ [10]].

Definition byte_tokenizer : BpeTokenizerPy :=
  let tables := _load_files_vocab byte_level_vocab in
  {| vocab := tables.1; id_to_token := tables.2; bpe_ranks := example_ranks;
     special_to_id := [(str_of "<|im_start|>", 151644); (str_of "<|im_end|>", 151645);
                       (str_of "<image>", 151646)];
     id_to_special := <[151646 := str_of "<image>"]>
                        (<[151645 := str_of "<|im_end|>"]>
                           {[ 151644 := str_of "<|im_start|>" ]});
     pattern_finditer := script_finditer ascii_classes |}.

(** ** The prompt ([apply_chat_template]) *)

Definition apply_chat_template (user_prompt : str) : str :=
  let system := str_of "<|im_start|>system" ++ [10]
                ++ str_of "You are a helpful assistant. Please answer in English only.<|im_end|>"
                ++ [10] in
  let user := str_of "<|im_start|>user" ++ [10] ++ str_of "<image>" ++ [10]
              ++ user_prompt ++ str_of "<|im_end|>" ++ [10] in
  let assistant_head := str_of "<|im_start|>assistant" ++ [10] in
  system ++ user ++ assistant_head.

(** A marker of the form [<...>] with no angle bracket inside. *)
Definition bracketed (m : str) : bool :=
  match m with
  | c :: rest =>
      (c =? 60)
      && match reverse rest with
         | d :: mid => (d =? 62) && forallb (fun x => negb ((x =? 60) || (x =? 62))) mid
         | [] => false
         end
  | [] => false
  end.

(** The ids of the prompt for the user text "hi". *)
Definition example_prompt_ids : list Z :=
  Eval vm_compute in
    match @tokenize_to_ids first_added_iteration 200 byte_tokenizer
            (apply_chat_template (str_of "hi")) with
    | Ok ids => ids
    | _ => []
    end.

(** ** Runs of the generation loop *)

(** [seen] holds, for every id generated so far, how often it was
    generated, and nothing else. *)
Definition counts_occurrences (seen : list (Z * Z)) (generated : list Z) : Prop :=
  NoDup seen.*1
  ∧ (forall nid, default 0 (dict_get seen nid) = Z.of_nat (count_occ Z.eq_dec generated nid))
  ∧ Forall (fun entry : Z * Z => 0 < entry.2) seen.

Definition is_step (e : event) : bool :=
  match e with
  | EvStep _ _ _ => true
  | _ => false
  end.

(** A trace without its [--verbose] lines. *)
Definition without_steps (evs : list event) : list event :=
  List.filter (fun e => negb (is_step e)) evs.

(** The same arguments without [--verbose]. *)
Definition quiet_args {A : Arith} (args : Args A) : Args A :=
  Build_Args A (temperature args) (top_p args) (repetition_penalty args)
    (max_new_tokens args) false.

(** A configuration whose end token is outside the small vocabulary, and four
    passes of the loop under it: the id 1 is drawn twice. *)
Definition endless_config : Config := {| image_token_id := 7; eos_id := 9 |}.

Definition small_loop_run : world nat * outcome (loop_state small_engine) :=
  Eval vm_compute in
    decode_steps small_engine cycling_numpy python_utf8 overlap_tokenizer small_args
      endless_config 4 0
      (@Build_loop_state exact small_engine [1%Q; 2%Q; 3%Q] [1%nat; 1%nat] [] [])
      {| rng := 4%nat; trace := [] |}.

(** The world without the lines of [--verbose]. *)
Definition quiet_world {R} (w : world R) : world R :=
  {| rng := rng w; trace := without_steps (trace w) |}.

(** ** The vision projector ([project_vision])

    What a call of [project_vision] does: it returns the projected rows, or
    raises [ValueError], or raises [ZeroDivisionError] at
    [l1_w_raw.size // hidden]. *)
Inductive projection (X : Type) :=
| Projected (y : list (list X))
| ProjectorValueError
| ProjectorZeroDivisionError.
Arguments Projected {X} y.
Arguments ProjectorValueError {X}.
Arguments ProjectorZeroDivisionError {X}.

Section Projector.
Context {X : Type}.
(** The arithmetic on the entries: the sum of products that [@] forms of a
    row and a row of weights, [+], [gelu] and [astype(np.float32)]. *)
Variable dot : list X -> list X -> X.
Variable add : X -> X -> X.
Variable gelu : X -> X.
Variable astype_float32 : X -> X.

(** The rows of [flat.reshape(rows, cols)]. *)
Fixpoint rows_of_flat (rows cols : nat) (flat : list X) : list (list X) :=
  match rows with
  | O => []
  | S rows' => take cols flat :: rows_of_flat rows' cols (drop cols flat)
  end.

(** [flat.reshape(rows, cols)]; [None] where it raises [ValueError]. *)
Definition reshape2 (flat : list X) (rows cols : nat) : option (list (list X)) :=
  if decide (length flat = (rows * cols)%nat) then Some (rows_of_flat rows cols flat)
  else None.

(** [flat.reshape(n)] *)
Definition reshape1 (flat : list X) (n : nat) : option (list X) :=
  if decide (length flat = n) then Some flat else None.

(** [x @ w.T + b] for [x] of shape [[T, k]], [w] of shape [[n, k]] and [b]
    of shape [[n]]. *)
Definition affine (x w : list (list X)) (b : list X) : list (list X) :=
  List.map (fun row => zip_with add (List.map (dot row) w) b) x.

(** [project_vision(x_2d, hidden_expected, mm_hidden_expected)], where
    [feat_dim] is [x_2d.shape[1]] and the four arrays are what
    [load_bin_f32] returns for the four weight files. *)
Definition project_vision (x_2d : list (list X)) (feat_dim : nat)
    (hidden_expected mm_hidden_expected : nat)
    (l1_w_raw l1_b_raw l2_w_raw l2_b_raw : list X) : projection X :=
  let hidden := length l1_b_raw in
  if decide (hidden = 0%nat) then ProjectorZeroDivisionError
  else
    let mm_hidden := (length l1_w_raw / hidden)%nat in
    match reshape2 l1_w_raw hidden mm_hidden with
    | None => ProjectorValueError
    | Some l1_w =>
        match reshape1 l1_b_raw hidden with
        | None => ProjectorValueError
        | Some l1_b =>
            match reshape2 l2_w_raw hidden hidden with
            | None => ProjectorValueError
            | Some l2_w =>
                match reshape1 l2_b_raw hidden with
                | None => ProjectorValueError
                | Some l2_b =>
                    if decide (feat_dim = mm_hidden) then
                      let y := affine x_2d l1_w l1_b in
                      let y := List.map (List.map gelu) y in
                      let y := affine y l2_w l2_b in
                      Projected (List.map (List.map astype_float32) y)
                    else ProjectorValueError
                end
            end
        end
    end.
End Projector.

(** ** The video-stream analyzer ([analyze_vehicle_video_stream.py]) *)

(** [sub in s] for strings. *)
Definition py_contains (sub s : str) : bool :=
  match find_at sub s 0 with
  | Some _ => true
  | None => false
  end.

(** What a call [subprocess.run(cmd, capture_output=True, text=True)] does:
    it completes with a return code and the captured output, or raises
    [FileNotFoundError] when there is no [adb] to run, or raises another
    exception. *)
Inductive completed :=
| Completed (returncode : Z) (stdout : str)
| FileNotFoundError
| OtherException.

(** The three messages of [check_adb_connection]. *)
Inductive adb_message :=
| AdbConnected
| NoDeviceDetected
| AdbToolMissing.

(** [check_adb_connection], on what [subprocess.run(['adb', 'devices'], ...)]
    does: the message printed and the value returned, or [None] where the
    exception is not caught. *)
Definition check_adb_connection (result : completed) : option (adb_message * bool) :=
  match result with
  | Completed _ stdout =>
      if py_contains (str_of "device") stdout
         && py_contains (str_of "List of devices") stdout
      then Some (AdbConnected, true)
      else Some (NoDeviceDetected, false)
  | FileNotFoundError => Some (AdbToolMissing, false)
  | OtherException => None
  end.

(** ** The decoder calls of a run

    For each call of the decoder session in a trace: the number of
    embedding rows, the length of the attention mask, the position ids and
    the number of cache tensors it is given. *)
Definition decoder_calls (evs : list event) : list (nat * nat * list Z * nat) :=
  omap (fun e => match e with
                 | EvDecoder n_embeds mask positions n_past =>
                     Some (n_embeds, mask, positions, n_past)
                 | _ => None
                 end) evs.

(** The call on a prompt of [total] rows, and the call on one new row after
    [past_len] rows, for a decoder of [layers] layers. *)
Definition prefill_call (layers total : nat) : nat * nat * list Z * nat :=
  (total, total, py_range 0 (Z.of_nat total), (2 * layers)%nat).

Definition step_call (layers past_len : nat) : nat * nat * list Z * nat :=
  (1%nat, (past_len + 1)%nat, [Z.of_nat past_len], (2 * layers)%nat).

Definition expected_calls (layers total m : nat) : list (nat * nat * list Z * nat) :=
  prefill_call layers total
    :: List.map (fun k => step_call layers (total + k)) (seq 0 m).

(** *** The analyses and the recommendations *)

(** [s.split()]: the runs of characters that are not white space. *)
Fixpoint py_split_whitespace (s : str) : list str :=
  match s with
  | [] => []
  | c :: rest =>
      if py_isspace c then py_split_whitespace rest
      else match rest with
           | d :: _ =>
               if py_isspace d then [c] :: py_split_whitespace rest
               else match py_split_whitespace rest with
                    | field :: fields => (c :: field) :: fields
                    | [] => [[c]]
                    end
           | [] => [[c]]
           end
  end.

(** The entries of [results['linux_video_devices']] and of
    [results['android_camera_devices']]. *)
Record video_device := {
  device : str;
  permissions : str;
  details : str
}.

Record camera_device := {
  camera_id : str;
  status : str
}.

(** The four dictionaries that [generate_recommendations] can append. *)
Inductive recommendation :=
| V4L2                   (* ['priority': 'High'] *)
| Camera2                (* ['priority': 'Medium'] *)
| MediaProjection        (* ['priority': 'Fallback'] *)
| SurfaceViewPreview.    (* ['priority': 'Alternative'] *)

Definition interface (rec : recommendation) : str :=
  match rec with
  | V4L2 => str_of "V4L2 (Video4Linux2)"
  | Camera2 => str_of "Android Camera2 API"
  | MediaProjection => str_of "MediaProjection API"
  | SurfaceViewPreview => str_of "SurfaceView + Camera Preview"
  end.

Definition priority (rec : recommendation) : str :=
  match rec with
  | V4L2 => str_of "High"
  | Camera2 => str_of "Medium"
  | MediaProjection => str_of "Fallback"
  | SurfaceViewPreview => str_of "Alternative"
  end.

(** [self.results]; nothing writes to [video_streams]. *)
Record results := {
  linux_video_devices : list video_device;
  android_camera_devices : list camera_device;
  video_streams : list unit;
  recommended_interfaces : list recommendation
}.

Record analyzer := {
  adb_available : bool;
  analysis : results
}.

(** What an analysis does that can be observed: the [adb shell] commands it
    runs and the lines it prints, each given by its kind and the values
    put into it. *)
Inductive analyzer_event :=
| Shell (command : str)
| LinuxHeader
| VideoDeviceFound (name : str)
| LinuxCheckFailed
| RelatedDevice (line : str)
| RelatedCheckFailed
| AndroidHeader
| CameraFound (id : str)
| AndroidCheckFailed
| AtrHeader
| AtrProperty (prop value : str)
| AtrPropertyFailed (prop : str)
| AtrPath (path found : str)
| HalHeader
| HalLibrary (lib : str)
| RecommendationsHeader
| Recommended (number : nat) (rec : recommendation).

Definition is_shell (e : analyzer_event) : bool :=
  match e with
  | Shell _ => true
  | _ => false
  end.

Section Analyzer.
(** What [subprocess.run(['adb', 'shell', command], capture_output=True,
    text=True)] does, and the class [\d] of [re]. *)
Variable adb_shell : str -> completed.
Variable is_digit : Z -> bool.

(** [for device in video_devices] in [analyze_linux_video_devices]; the
    state is the list of devices and what has been printed, and the flag
    says whether the loop was left by an exception. *)
Fixpoint record_video_devices (lines : list str)
    (st : list video_device * list analyzer_event)
    : list video_device * list analyzer_event * bool :=
  match lines with
  | [] => (st, false)
  | line :: rest =>
      if py_contains (str_of "/dev/video") line then
        match last (py_split_whitespace line), head (py_split_whitespace line) with
        | Some name, Some perms =>
            record_video_devices rest
              (st.1 ++ [{| device := name; permissions := perms; details := line |}],
               st.2 ++ [VideoDeviceFound name])
        | _, _ => (st, true)
        end
      else record_video_devices rest st
  end.

Definition list_video_command : str := str_of "ls -la /dev/video*".
(** The command [find /dev -name Q*cam*Q -o -name Q*video*Q 2>/dev/null]
    with a double quote for each [Q], by its code points. *)
Definition find_camera_command : str :=
  [102; 105; 110; 100; 32; 47; 100; 101; 118; 32; 45; 110; 97; 109; 101; 32; 34; 42;
   99; 97; 109; 42; 34; 32; 45; 111; 32; 45; 110; 97; 109; 101; 32; 34; 42; 118; 105;
   100; 101; 111; 42; 34; 32; 50; 62; 47; 100; 101; 118; 47; 110; 117; 108; 108].

Definition analyze_linux_video_devices (self : analyzer) : analyzer * list analyzer_event :=
  if negb (adb_available self) then (self, [])
  else
    let devices := linux_video_devices (analysis self) in
    (* the first [try] *)
    let first :=
      match adb_shell list_video_command with
      | Completed returncode stdout =>
          if decide (returncode = 0)
          then record_video_devices (py_split 10 (strip stdout)) (devices, [])
          else ((devices, []), false)
      | _ => ((devices, []), true)
      end in
    let printed1 := first.1.2 ++ (if first.2 then [LinuxCheckFailed] else []) in
    (* the second [try] *)
    let printed2 :=
      match adb_shell find_camera_command with
      | Completed returncode stdout =>
          if decide (returncode = 0)
          then List.map RelatedDevice
                 (List.filter (fun line => negb (bool_decide (line = []))
                                           && py_contains (str_of "/dev/") line)
                    (py_split 10 (strip stdout)))
          else []
      | _ => [RelatedCheckFailed]
      end in
    ({| adb_available := adb_available self;
        analysis := {| linux_video_devices := first.1.1;
                       android_camera_devices := android_camera_devices (analysis self);
                       video_streams := video_streams (analysis self);
                       recommended_interfaces := recommended_interfaces (analysis self) |} |},
     [LinuxHeader; Shell list_video_command] ++ printed1
       ++ [Shell find_camera_command] ++ printed2).

(** [re.findall(r'Camera (\d+)', camera_info)]: the digits of every match. *)
Definition camera_pattern : regex := Seq (Str (str_of "Camera ")) (Plus is_digit).

Definition find_camera_ids (camera_info : str) : list str :=
  List.map (drop (length (str_of "Camera ")))
    (finditer (length camera_info) camera_pattern camera_info).

Definition dumpsys_command : str := str_of "dumpsys media.camera".

Definition analyze_android_camera_interface (self : analyzer)
    : analyzer * list analyzer_event :=
  if negb (adb_available self) then (self, [])
  else
    let cameras := android_camera_devices (analysis self) in
    let found :=
      match adb_shell dumpsys_command with
      | Completed returncode stdout =>
          if decide (returncode = 0) then Some (find_camera_ids stdout) else Some []
      | _ => None
      end in
    ({| adb_available := adb_available self;
        analysis := {| linux_video_devices := linux_video_devices (analysis self);
                       android_camera_devices :=
                         cameras ++ List.map (fun id => {| camera_id := id;
                                                           status := str_of "available" |})
                                      (default [] found);
                       video_streams := video_streams (analysis self);
                       recommended_interfaces := recommended_interfaces (analysis self) |} |},
     [AndroidHeader; Shell dumpsys_command]
       ++ match found with
          | Some ids => List.map CameraFound ids
          | None => [AndroidCheckFailed]
          end).

Definition atr_properties : list str :=
  [str_of "ro.vendor.camera.atr"; str_of "persist.vendor.camera.atr";
   str_of "vendor.camera.atr.enable"; str_of "ro.hardware.camera.atr"].

Definition atr_paths : list str :=
  [str_of "/dev/atr"; str_of "/dev/atr0"; str_of "/dev/atr_camera";
   str_of "/sys/class/video4linux/*/name"].

Definition analyze_atr_interface (self : analyzer) : analyzer * list analyzer_event :=
  if negb (adb_available self) then (self, [AtrHeader])
  else
    (self,
     [AtrHeader]
       ++ flat_map (fun prop =>
                      let command := str_of "getprop " ++ prop in
                      Shell command ::
                        match adb_shell command with
                        | Completed _ stdout =>
                            if bool_decide (strip stdout = []) then []
                            else [AtrProperty prop (strip stdout)]
                        | _ => [AtrPropertyFailed prop]
                        end) atr_properties
       ++ flat_map (fun path =>
                      let command := str_of "ls -la " ++ path ++ str_of " 2>/dev/null" in
                      Shell command ::
                        match adb_shell command with
                        | Completed returncode stdout =>
                            if bool_decide (returncode = 0)
                               && negb (bool_decide (strip stdout = []))
                            then [AtrPath path (strip stdout)]
                            else []
                        | _ => []
                        end) atr_paths).

Definition hal_paths : list str :=
  [str_of "/vendor/lib64/hw/camera*"; str_of "/vendor/lib/hw/camera*";
   str_of "/system/lib64/hw/camera*"].

Definition check_hal_camera_interface (self : analyzer) : analyzer * list analyzer_event :=
  if negb (adb_available self) then (self, [HalHeader])
  else
    (self,
     [HalHeader]
       ++ flat_map (fun path =>
                      let command := str_of "ls " ++ path ++ str_of " 2>/dev/null" in
                      Shell command ::
                        match adb_shell command with
                        | Completed returncode stdout =>
                            if decide (returncode = 0)
                            then List.map HalLibrary
                                   (List.filter
                                      (fun lib => negb (bool_decide (lib = []))
                                                  && py_contains (str_of "camera") lib)
                                      (py_split 10 (strip stdout)))
                            else []
                        | _ => []
                        end) hal_paths).

Definition generate_recommendations (self : analyzer) : analyzer * list analyzer_event :=
  let recommendations :=
    (if bool_decide (linux_video_devices (analysis self) = []) then [] else [V4L2])
      ++ (if bool_decide (android_camera_devices (analysis self) = []) then []
          else [Camera2])
      ++ [MediaProjection; SurfaceViewPreview] in
  ({| adb_available := adb_available self;
      analysis := {| linux_video_devices := linux_video_devices (analysis self);
                     android_camera_devices := android_camera_devices (analysis self);
                     video_streams := video_streams (analysis self);
                     recommended_interfaces := recommendations |} |},
   RecommendationsHeader :: imap (fun i rec => Recommended (S i) rec) recommendations).

(** [__init__], on what [check_adb_connection] returned. *)
Definition new_analyzer (adb_ok : bool) : analyzer :=
  {| adb_available := adb_ok;
     analysis := {| linux_video_devices := []; android_camera_devices := [];
                    video_streams := []; recommended_interfaces := [] |} |}.

(** The five calls with which [run_analysis] begins. *)
Definition analyses (self : analyzer) : analyzer * list analyzer_event :=
  let r1 := analyze_linux_video_devices self in
  let r2 := analyze_android_camera_interface r1.1 in
  let r3 := analyze_atr_interface r2.1 in
  let r4 := check_hal_camera_interface r3.1 in
  let r5 := generate_recommendations r4.1 in
  (r5.1, r1.2 ++ r2.2 ++ r3.2 ++ r4.2 ++ r5.2).
End Analyzer.

(** The entry recorded for a line of the listing: its last field, its first
    field, and the line. *)
Definition listed_device (line : str) : video_device :=
  {| device := default [] (last (py_split_whitespace line));
     permissions := default [] (head (py_split_whitespace line));
     details := line |}.

(** The lines of the listing that name a video device. *)
Definition video_lines (stdout : str) : list str :=
  List.filter (fun line => py_contains (str_of "/dev/video") line)
    (py_split 10 (strip stdout)).
(* ------------------------------------------------------------------ *)
(** * Properties *)

(** ** Sequencing *)

Lemma bind_ok {A B} (a : A) (k : A -> outcome B) : (Ok a ≫= k) = k a.
Proof. reflexivity. Qed.

Lemma bind_raise {A B} (e : exn) (k : A -> outcome B) : (Raise e ≫= k) = Raise e.
Proof. reflexivity. Qed.

(** ** Insertion-ordered dictionaries *)

Section DictFacts.
Context {K V : Type} `{EqDecision K}.

Lemma dict_get_elem (d : list (K * V)) k v :
  dict_get d k = Some v -> (k, v) ∈ d.
Proof.
  induction d as [|[k' v'] d IH]; simpl; [discriminate|].
  destruct (decide (k' = k)) as [->|Hne].
  - intros [= ->]. apply list_elem_of_here.
  - intros Hget. apply list_elem_of_further, IH, Hget.
Qed.

Lemma dict_get_Forall (P : K * V -> Prop) (d : list (K * V)) k v :
  Forall P d -> dict_get d k = Some v -> P (k, v).
Proof.
  intros HP Hget. rewrite Forall_forall in HP.
  apply HP, dict_get_elem, Hget.
Qed.
End DictFacts.

(** ** The byte-to-unicode codec *)

Lemma byte_encoder_round_trip_all :
  Forall (fun b => dict_get byte_encoder b ≫= dict_get byte_decoder = Some b)
         (py_range 0 256).
Proof. apply (bool_decide_unpack _). vm_compute. exact I. Qed.

Lemma byte_encoder_keys_are_bytes :
  Forall (fun kv : Z * Z => 0 <= kv.1 < 256) byte_encoder.
Proof. apply (bool_decide_unpack _). vm_compute. exact I. Qed.

Lemma byte_decoder_inverts_encoder :
  Forall (fun kv : Z * Z => dict_get byte_encoder kv.2 = Some kv.1) byte_decoder.
Proof. apply (bool_decide_unpack _). vm_compute. exact I. Qed.

(** The space, the newline, "A", the first and the last byte, and the soft
    hyphen, which is the last byte to get a code point of its own. *)
Example byte_encoder_values :
  List.map (dict_get byte_encoder) [32; 10; 65; 0; 255; 173]
  = [Some 288; Some 266; Some 65; Some 256; Some 255; Some 323].
Proof. vm_compute. reflexivity. Qed.

Lemma py_range_elem (lo hi x : Z) : x ∈ py_range lo hi <-> lo <= x < hi.
Proof. unfold py_range. rewrite elem_of_seqZ. lia. Qed.

Lemma byte_encode_decode (b : Z) :
  0 <= b < 256 ->
  exists c, dict_get byte_encoder b = Some c ∧ dict_get byte_decoder c = Some b.
Proof.
  intros Hb.
  pose proof byte_encoder_round_trip_all as Hall.
  rewrite Forall_forall in Hall.
  specialize (Hall b (proj2 (py_range_elem 0 256 b) Hb)).
  apply bind_Some in Hall. exact Hall.
Qed.

Lemma byte_encoder_domain (b c : Z) :
  dict_get byte_encoder b = Some c -> 0 <= b < 256.
Proof. intros Hget. exact (dict_get_Forall _ _ _ _ byte_encoder_keys_are_bytes Hget). Qed.

Lemma byte_decoder_range (c b : Z) :
  dict_get byte_decoder c = Some b -> 0 <= b < 256.
Proof.
  intros Hget.
  pose proof (dict_get_Forall _ _ _ _ byte_decoder_inverts_encoder Hget) as Henc.
  exact (byte_encoder_domain _ _ Henc).
Qed.

(** C2. The byte-to-unicode codec is a bijection on the 256 byte values:
    every byte 0..255 has a character and decoding that character gives the
    byte back; nothing else is encoded; distinct bytes get distinct
    characters; and every character the decoder knows is the encoding of the
    byte it decodes to. *)
Theorem byte_unicode_codec_bijection :
  (forall b, 0 <= b < 256 ->
     exists c, dict_get byte_encoder b = Some c ∧ dict_get byte_decoder c = Some b)
  ∧ (forall b c, dict_get byte_encoder b = Some c -> 0 <= b < 256)
  ∧ (forall b1 b2 c,
       dict_get byte_encoder b1 = Some c -> dict_get byte_encoder b2 = Some c -> b1 = b2)
  ∧ (forall b c, dict_get byte_encoder b = Some c ->
       exists b', dict_get byte_decoder c = Some b' ∧ dict_get byte_encoder b' = Some c)
  ∧ (forall c b, dict_get byte_decoder c = Some b -> dict_get byte_encoder b = Some c).
Proof.
  assert (Hinv : forall b c, dict_get byte_encoder b = Some c -> dict_get byte_decoder c = Some b).
  { intros b c Hc.
    destruct (byte_encode_decode b (byte_encoder_domain _ _ Hc)) as (c' & Hc' & Hd).
    congruence. }
  split; [exact byte_encode_decode|].
  split; [exact byte_encoder_domain|].
  split.
  { intros b1 b2 c H1 H2. apply Hinv in H1, H2. congruence. }
  split.
  { intros b c Hc. exists b. split; [apply Hinv, Hc | exact Hc]. }
  intros c b Hget.
  exact (dict_get_Forall _ _ _ _ byte_decoder_inverts_encoder Hget).
Qed.

Lemma byte_unicode_codec_bijection_witness :
  exists c, dict_get byte_encoder 0 = Some c ∧ dict_get byte_decoder c = Some 0.
Proof. apply (proj1 byte_unicode_codec_bijection 0). lia. Defined.

(** ** The merge pass *)

Lemma merge_pair_spec_skip (a b : list Z) (pre s : list str) :
  Forall (fun x => x <> a) pre ->
  merge_pair_spec a b (pre ++ s) = pre ++ merge_pair_spec a b s.
Proof.
  induction 1 as [|x pre Hx _ IH]; [reflexivity|].
  change ((x :: pre) ++ s) with (x :: (pre ++ s)).
  change ((x :: pre) ++ merge_pair_spec a b s) with (x :: (pre ++ merge_pair_spec a b s)).
  rewrite <- IH. simpl.
  destruct (pre ++ s) as [|y r] eqn:Hps.
  - reflexivity.
  - destruct (decide (x = a ∧ y = b)) as [[Hxa _]|_]; [contradiction|reflexivity].
Qed.

Lemma merge_pair_spec_absent (a b : list Z) (w : list str) :
  Forall (fun x => x <> a) w -> merge_pair_spec a b w = w.
Proof.
  intros Hw. rewrite <- (app_nil_r w) at 1.
  rewrite merge_pair_spec_skip by assumption. simpl. apply app_nil_r.
Qed.

Lemma scan_for_found (a : list Z) (suffix : list str) (j j' : nat) :
  scan_for a suffix j = Some j' ->
  exists k : nat, j' = (j + k)%nat ∧ suffix !! k = Some a
             ∧ Forall (fun x => x <> a) (take k suffix).
Proof.
  revert j. induction suffix as [|x rest IH]; intros j; simpl; [discriminate|].
  destruct (decide (x = a)) as [->|Hne].
  - intros [= <-]. exists 0%nat. split; [lia|]. split; [reflexivity|constructor].
  - intros Hscan. destruct (IH _ Hscan) as (k & -> & Hk & Hpre).
    exists (S k). split; [lia|]. split; [exact Hk|].
    simpl. constructor; assumption.
Qed.

Lemma scan_for_absent (a : list Z) (suffix : list str) (j : nat) :
  scan_for a suffix j = None -> Forall (fun x => x <> a) suffix.
Proof.
  revert j. induction suffix as [|x rest IH]; intros j; simpl; [constructor|].
  destruct (decide (x = a)); [discriminate|].
  intros Hscan. constructor; [assumption | exact (IH _ Hscan)].
Qed.

(** The index loop of the source computes the left-to-right replacement. *)
Lemma merge_loop_spec (word : list str) (a b : list Z) (fuel i : nat)
    (acc : list str) :
  (length word - i <= fuel)%nat ->
  merge_loop fuel word a b i acc = Ok (acc ++ merge_pair_spec a b (drop i word)).
Proof.
  revert i acc. induction fuel as [|fuel IH]; intros i acc Hfuel.
  - simpl. destruct (decide (i < length word)%nat); [lia|].
    rewrite drop_ge by lia. simpl. by rewrite app_nil_r.
  - simpl. destruct (decide (i < length word)%nat) as [Hi|Hi].
    2:{ rewrite drop_ge by lia. simpl. by rewrite app_nil_r. }
    destruct (scan_for a (drop i word) i) as [j|] eqn:Hscan.
    2:{ apply scan_for_absent in Hscan.
        by rewrite merge_pair_spec_absent. }
    apply scan_for_found in Hscan as (k & -> & Hk & Hpre).
    rewrite lookup_drop in Hk.
    assert (Hsplit : drop i word = take k (drop i word) ++ drop (i + k) word).
    { rewrite <- (take_drop k (drop i word)) at 1. by rewrite drop_drop. }
    assert (Hm : merge_pair_spec a b (drop i word)
                 = take k (drop i word) ++ merge_pair_spec a b (drop (i + k) word)).
    { rewrite Hsplit at 1. by apply merge_pair_spec_skip. }
    rewrite Hm. clear Hm Hsplit.
    unfold slice. replace (i + k - i)%nat with k by lia.
    rewrite Hk. simpl.
    pose proof (lookup_lt_Some _ _ _ Hk) as Hlt.
    rewrite (drop_S _ _ _ Hk).
    rewrite bool_decide_eq_true_2 by reflexivity. rewrite andb_true_r.
    destruct (word !! S (i + k)) as [y|] eqn:Hy.
    + pose proof (lookup_lt_Some _ _ _ Hy) as Hlt'.
      rewrite (drop_S _ _ _ Hy).
      replace (Z.of_nat (i + k) <? Z.of_nat (length word) - 1) with true
        by (symmetry; apply Z.ltb_lt; lia).
      simpl. destruct (decide (a = a ∧ y = b)) as [[_ ->]|Hne].
      * rewrite bool_decide_eq_true_2 by reflexivity.
        rewrite IH by lia. rewrite <- !app_assoc. simpl.
        replace (i + k + 2)%nat with (S (S (i + k))) by lia. reflexivity.
      * rewrite bool_decide_eq_false_2 by (intros [= ->]; apply Hne; done).
        rewrite IH by lia. rewrite <- !app_assoc. simpl.
        replace (i + k + 1)%nat with (S (i + k)) by lia.
        rewrite (drop_S _ _ _ Hy). reflexivity.
    + rewrite bool_decide_eq_false_2 by discriminate. rewrite andb_false_r.
      rewrite IH by lia. rewrite <- !app_assoc. simpl.
      replace (i + k + 1)%nat with (S (i + k)) by lia.
      pose proof (lookup_ge_None_1 _ _ Hy) as Hge.
      rewrite (drop_ge word (S (i + k))) by lia. reflexivity.
Qed.

Lemma merge_pair_spec_length (a b : list Z) (w : list str) :
  (length (merge_pair_spec a b w) <= length w)%nat.
Proof.
  remember (length w) as n eqn:Hn. revert w Hn.
  induction n as [n IH] using lt_wf_ind. intros w ->.
  destruct w as [|x [|y r]]; simpl; [lia|lia|].
  destruct (decide (x = a ∧ y = b)).
  - simpl. specialize (IH (length r) ltac:(simpl; lia) r eq_refl). lia.
  - simpl. specialize (IH (length (y :: r)) ltac:(simpl; lia) (y :: r) eq_refl).
    simpl in IH. lia.
Qed.

Lemma merge_pair_spec_nonempty (a b : list Z) (w : list str) :
  w <> [] -> merge_pair_spec a b w <> [].
Proof.
  destruct w as [|x [|y r]]; simpl; [done|done|].
  destruct (decide (x = a ∧ y = b)); done.
Qed.

Lemma adjacent_cons (a b x y : list Z) (r : list str) :
  adjacent a b (x :: y :: r) <-> (a = x ∧ b = y) ∨ adjacent a b (y :: r).
Proof.
  unfold adjacent. split.
  - intros ([|i] & Ha & Hb); simpl in *.
    + left. split; congruence.
    + right. exists i. split; assumption.
  - intros [[-> ->]|(i & Ha & Hb)].
    + exists 0%nat. split; reflexivity.
    + exists (S i). split; assumption.
Qed.

Lemma adjacent_short (a b : list Z) (w : list str) :
  (length w <= 1)%nat -> ~ adjacent a b w.
Proof.
  intros Hlen (i & Ha & Hb). apply lookup_lt_Some in Hb. lia.
Qed.

Lemma merge_pair_spec_shrinks (a b : list Z) (w : list str) :
  adjacent a b w -> (length (merge_pair_spec a b w) < length w)%nat.
Proof.
  induction w as [|x w IH]; intros Hadj.
  - destruct (adjacent_short a b [] ltac:(simpl; lia) Hadj).
  - destruct w as [|y r].
    + destruct (adjacent_short a b [x] ltac:(simpl; lia) Hadj).
    + simpl. destruct (decide (x = a ∧ y = b)) as [_|Hne].
      * simpl. pose proof (merge_pair_spec_length a b r). lia.
      * apply adjacent_cons in Hadj as [[-> ->]|Hadj]; [by destruct Hne|].
        specialize (IH Hadj). simpl in *. lia.
Qed.

(** Occurrences are replaced from the left and do not overlap. *)
Example merge_loop_overlap :
  merge_loop 3 [[97]; [97]; [97]] [97] [97] 0 [] = Ok [[97; 97]; [97]]
  ∧ merge_loop 5 [[97]; [98]; [99]; [97]; [98]] [97] [98] 0 []
    = Ok [[97; 98]; [99]; [97; 98]].
Proof. split; reflexivity. Qed.

(** ** Choosing the bigram *)

Lemma fold_min_spec {A} (key : A -> Z) (rest : list A) (x : A) :
  let m := fold_left (fun best y => if key y <? key best then y else best) rest x in
  m ∈ x :: rest ∧ forall y, y ∈ x :: rest -> key m <= key y.
Proof.
  revert x. induction rest as [|z rest IH]; intros x; simpl.
  - split; [apply list_elem_of_here|].
    intros y Hy. apply list_elem_of_singleton in Hy as ->. lia.
  - destruct (Z.ltb_spec (key z) (key x)) as [Hlt|Hge].
    + destruct (IH z) as [Hin Hmin]. split.
      * apply list_elem_of_further. exact Hin.
      * intros y Hy. apply elem_of_cons in Hy as [->|Hy].
        -- specialize (Hmin z (list_elem_of_here _ _)). lia.
        -- apply Hmin, Hy.
    + destruct (IH x) as [Hin Hmin]. split.
      * apply elem_of_cons in Hin as [Hin|Hin].
        -- rewrite Hin. apply list_elem_of_here.
        -- do 2 apply list_elem_of_further. exact Hin.
      * intros y Hy. apply elem_of_cons in Hy as [->|Hy].
        -- apply Hmin, list_elem_of_here.
        -- apply elem_of_cons in Hy as [->|Hy].
           ++ specialize (Hmin x (list_elem_of_here _ _)). lia.
           ++ apply Hmin, list_elem_of_further, Hy.
Qed.

Lemma py_min_by_spec {A} (key : A -> Z) (xs : list A) :
  xs <> [] ->
  exists m, py_min_by key xs = Some m ∧ m ∈ xs ∧ forall y, y ∈ xs -> key m <= key y.
Proof.
  destruct xs as [|x rest]; [done|]. intros _.
  eexists. split; [reflexivity|]. apply fold_min_spec.
Qed.

Lemma get_pairs_from_spec (p : list Z) (w : list str)
    (acc : list (str * str)) (a b : list Z) :
  (a, b) ∈ get_pairs_from (Some p) w acc <-> (a, b) ∈ acc ∨ adjacent a b (p :: w).
Proof.
  revert p acc. induction w as [|ch rest IH]; intros p acc; simpl.
  - split; [by left|]. intros [Hin|Hadj]; [done|].
    destruct (adjacent_short a b [p] ltac:(simpl; lia) Hadj).
  - rewrite IH, adjacent_cons, elem_of_app, list_elem_of_singleton.
    split.
    + intros [[Hin|[= -> ->]]|Hadj]; auto.
    + intros [Hin|[[-> ->]|Hadj]]; auto.
Qed.

Lemma get_pairs_spec (w : list str) (a b : list Z) :
  (a, b) ∈ _get_pairs w <-> adjacent a b w.
Proof.
  unfold _get_pairs. destruct w as [|ch rest]; simpl.
  - split; [by intros Hin%elem_of_nil|]. intros Hadj.
    destruct (adjacent_short a b [] ltac:(simpl; lia) Hadj).
  - rewrite get_pairs_from_spec. split; [intros [Hin%elem_of_nil|Hadj]; done | by right].
Qed.

Lemma get_pairs_empty (w : list str) :
  _get_pairs w = [] <-> (length w <= 1)%nat.
Proof.
  split.
  - intros Hempty. destruct w as [|x [|y r]]; simpl; [lia|lia|].
    assert (Hin : (x, y) ∈ _get_pairs (x :: y :: r)).
    { apply get_pairs_spec, adjacent_cons. by left. }
    rewrite Hempty in Hin. by apply elem_of_nil in Hin.
  - intros Hlen. destruct (_get_pairs w) as [|[a b] rest] eqn:Hpairs; [reflexivity|].
    assert (Hin : (a, b) ∈ _get_pairs w) by (rewrite Hpairs; apply list_elem_of_here).
    apply get_pairs_spec in Hin. destruct (adjacent_short a b w Hlen Hin).
Qed.

(** ** The merge loop terminates and merges greedily by rank *)

Section Bpe.
Context `{SetIteration}.
Variable ranks : gmap (str * str) Z.
Hypothesis ranks_below_absent : map_Forall (fun _ r => r < absent_rank) ranks.

Lemma bpe_loop_spec (fuel : nat) (word : list str) :
  (2 <= length word <= fuel)%nat ->
  exists res, bpe_loop fuel ranks word (_get_pairs word) = Ok res
              ∧ bpe_merges ranks word res.
Proof.
  revert word. induction fuel as [|fuel IH]; intros word [Hlo Hhi]; [lia|].
  simpl.
  assert (Hne : set_iter (_get_pairs word) <> []).
  { destruct word as [|x [|y r]]; simpl in Hlo; [lia|lia|].
    assert (Hin : (x, y) ∈ _get_pairs (x :: y :: r)).
    { apply get_pairs_spec, adjacent_cons. by left. }
    apply set_iter_elem in Hin. intros Hnil. rewrite Hnil in Hin.
    by apply elem_of_nil in Hin. }
  destruct (py_min_by_spec (rank_key ranks) _ Hne) as ([a b] & -> & Hin & Hmin).
  simpl. apply set_iter_elem, get_pairs_spec in Hin.
  assert (Hmin' : forall a' b', adjacent a' b' word ->
                    rank_key ranks (a, b) <= rank_key ranks (a', b')).
  { intros a' b' Hadj. apply Hmin, set_iter_elem, get_pairs_spec, Hadj. }
  clear Hmin. unfold rank_key in Hmin'.
  destruct (ranks !! (a, b)) as [r|] eqn:Hr.
  - rewrite merge_loop_spec by lia. simpl. rewrite drop_0.
    pose proof (merge_pair_spec_shrinks a b word Hin) as Hshrink.
    assert (Hlowest : forall a' b' r', adjacent a' b' word ->
                        ranks !! (a', b') = Some r' -> r <= r').
    { intros a' b' r' Hadj Hr'. specialize (Hmin' a' b' Hadj).
      rewrite Hr' in Hmin'. exact Hmin'. }
    destruct (decide (length (merge_pair_spec a b word) = 1%nat)) as [Hone|Hmore].
    + eexists. split; [reflexivity|].
      eapply bpe_merge_lowest; eauto. apply bpe_one_symbol. lia.
    + assert (Hnonempty : merge_pair_spec a b word <> []).
      { apply merge_pair_spec_nonempty. intros ->. simpl in Hlo. lia. }
      assert (length (merge_pair_spec a b word) <> 0%nat)
        by (by destruct (merge_pair_spec a b word)).
      destruct (IH (merge_pair_spec a b word) ltac:(lia)) as (res & Hres & Hspec).
      exists res. split; [exact Hres|].
      eapply bpe_merge_lowest; eauto.
  - eexists. split; [reflexivity|].
    apply bpe_no_eligible. intros a' b' Hadj.
    destruct (ranks !! (a', b')) as [r'|] eqn:Hr'; [|reflexivity].
    specialize (Hmin' a' b' Hadj). rewrite Hr' in Hmin'. simpl in Hmin'.
    pose proof (ranks_below_absent _ _ Hr') as Hlt. simpl in Hlt. lia.
Qed.

Lemma bpe_spec (token : list Z) :
  exists res, _bpe ranks token = Ok res
              ∧ bpe_merges ranks (List.map (fun c => [c]) token) res.
Proof.
  destruct token as [|c token].
  - exists []. split; [reflexivity|]. apply bpe_one_symbol. simpl. lia.
  - unfold _bpe.
    destruct (decide (_get_pairs (List.map (fun c0 => [c0]) (c :: token)) = []))
      as [Hempty|Hpairs].
    + apply get_pairs_empty in Hempty. simpl in Hempty.
      destruct token; simpl in Hempty; [|lia].
      exists [[c]]. split; [reflexivity|]. apply bpe_one_symbol. simpl. lia.
    + apply bpe_loop_spec. split; [|lia].
      destruct (Nat.le_gt_cases 2 (length (List.map (fun c0 => [c0]) (c :: token))))
        as [Hge|Hlt]; [exact Hge|].
      exfalso. apply Hpairs, get_pairs_empty. lia.
Qed.
End Bpe.

(** Whatever the merge table, [_bpe] returns: its loop never runs out of
    the passes it is given and never raises. *)
Lemma bpe_returns `{SetIteration} (ranks : gmap (str * str) Z) (token : list Z) :
  exists res, _bpe ranks token = Ok res.
Proof.
  assert (Hloop : forall fuel word, (2 <= length word <= fuel)%nat ->
            exists res, bpe_loop fuel ranks word (_get_pairs word) = Ok res).
  { induction fuel as [|fuel IH]; intros word [Hlo Hhi]; [lia|].
    simpl.
    assert (Hne : set_iter (_get_pairs word) <> []).
    { destruct word as [|x [|y r]]; simpl in Hlo; [lia|lia|].
      assert (Hin : (x, y) ∈ _get_pairs (x :: y :: r)).
      { apply get_pairs_spec, adjacent_cons. by left. }
      apply set_iter_elem in Hin. intros Hnil. rewrite Hnil in Hin.
      by apply elem_of_nil in Hin. }
    destruct (py_min_by_spec (rank_key ranks) _ Hne) as ([a b] & -> & Hin & _).
    simpl. apply set_iter_elem, get_pairs_spec in Hin.
    destruct (ranks !! (a, b)); [|by eexists].
    rewrite merge_loop_spec by lia. simpl. rewrite drop_0.
    pose proof (merge_pair_spec_shrinks a b word Hin) as Hshrink.
    destruct (decide (length (merge_pair_spec a b word) = 1%nat)); [by eexists|].
    assert (merge_pair_spec a b word <> []).
    { apply merge_pair_spec_nonempty. intros ->. simpl in Hlo. lia. }
    assert (length (merge_pair_spec a b word) <> 0%nat)
      by (by destruct (merge_pair_spec a b word)).
    apply IH. lia. }
  destruct token as [|c token]; [by eexists|].
  unfold _bpe.
  destruct (decide (_get_pairs (List.map (fun c0 => [c0]) (c :: token)) = []))
    as [Hempty|Hpairs]; [by eexists|].
  apply Hloop. split; [|lia].
  destruct (Nat.le_gt_cases 2 (length (List.map (fun c0 => [c0]) (c :: token))))
    as [Hge|Hlt]; [exact Hge|].
  exfalso. apply Hpairs, get_pairs_empty. lia.
Qed.

(** The table [_load_files] builds has ranks [0 .. n-1]. *)
Lemma load_merges_ranks (rules : list (str * str)) :
  map_Forall (fun _ r => 0 <= r < Z.of_nat (length rules)) (load_merges rules).
Proof.
  unfold load_merges.
  assert (Hgen : forall (st : gmap (str * str) Z * Z),
            0 <= st.2 ->
            map_Forall (fun _ r => 0 <= r < st.2) st.1 ->
            let st' := fold_left (fun st ab => (<[ab := st.2]> st.1, st.2 + 1)) rules st in
            st'.2 = st.2 + Z.of_nat (length rules)
            ∧ map_Forall (fun _ r => 0 <= r < st'.2) st'.1).
  { induction rules as [|ab rules IH]; intros [m n] Hn Hm; simpl in *.
    - split; [lia|]. exact Hm.
    - destruct (IH (<[ab := n]> m, n + 1)) as [Hcount Hall]; simpl.
      + lia.
      + apply map_Forall_insert_2; [lia|].
        eapply map_Forall_impl; [exact Hm|]. simpl. intros; lia.
      + simpl in Hcount. split; [lia|exact Hall]. }
  destruct (Hgen (∅, 0)) as [Hcount Hall]; simpl; [lia|apply map_Forall_empty|].
  simpl in Hcount. rewrite Hcount in Hall. exact Hall.
Qed.

Corollary load_merges_below_absent (rules : list (str * str)) :
  Z.of_nat (length rules) <= absent_rank ->
  map_Forall (fun _ r => r < absent_rank) (load_merges rules).
Proof.
  intros Hlen. eapply map_Forall_impl; [apply load_merges_ranks|].
  simpl. intros; lia.
Qed.

(** ** The example of the specification: "low" *)

Ltac adjacent_cases H :=
  repeat (apply adjacent_cons in H as [[-> ->]|H]);
  try (exfalso; revert H; apply adjacent_short; simpl; lia).

Lemma example_ranks_below_absent :
  map_Forall (fun _ r => r < absent_rank) example_ranks.
Proof. apply (bool_decide_unpack _). vm_compute. exact I. Qed.

Lemma bpe_merges_low (res : list str) :
  bpe_merges example_ranks [[108]; [111]; [119]] res -> res = [[108; 111; 119]].
Proof.
  intros Hrun. inversion Hrun as [w Hlen|w Hnone|w a b r res' Hadj Hr _ Hnext]; subst.
  - simpl in Hlen. lia.
  - specialize (Hnone [108] [111] ltac:(by exists 0%nat)). discriminate Hnone.
  - adjacent_cases Hadj; [|discriminate Hr].
    change (merge_pair_spec [108] [111] [[108]; [111]; [119]])
      with [[108; 111]; [119]] in Hnext.
    clear Hrun Hr.
    inversion Hnext as [w Hlen|w Hnone|w a b r' res' Hadj Hr _ Hlast]; subst.
    + simpl in Hlen. lia.
    + specialize (Hnone [108; 111] [119] ltac:(by exists 0%nat)). discriminate Hnone.
    + adjacent_cases Hadj.
      change (merge_pair_spec [108; 111] [119] [[108; 111]; [119]])
        with [[108; 111; 119]] in Hlast.
      inversion Hlast as [w Hlen|w Hnone|w a b r'' res' Hadj _ _ _]; subst;
        [reflexivity|reflexivity|].
      adjacent_cases Hadj.
Qed.

Lemma fold_append_map {A B} (f : A -> B) (xs : list A) (out : list B) :
  fold_left (fun out x => out ++ [f x]) xs out = out ++ List.map f xs.
Proof.
  revert out. induction xs as [|x xs IH]; intros out; simpl.
  - by rewrite app_nil_r.
  - rewrite IH. by rewrite <- app_assoc.
Qed.

(** One pass of the loop over the pieces, once its three steps succeed. *)
Lemma encode_piece_ok `{SetIteration} (tk : BpeTokenizerPy)
    (out piece bytes encoded : list Z) (toks : list str) :
  utf8_encode piece = Some bytes ->
  byte_level_encode bytes = Ok encoded ->
  _bpe (bpe_ranks tk) encoded = Ok toks ->
  encode_piece tk out piece = Ok (out ++ List.map (vocab_id tk) toks).
Proof.
  intros Hbytes Henc Hbpe. unfold encode_piece.
  rewrite Hbytes. cbn [or_raise]. rewrite bind_ok, Henc, bind_ok, Hbpe, bind_ok.
  by rewrite fold_append_map.
Qed.

Lemma byte_level_encode_low : byte_level_encode [108; 111; 119] = Ok [108; 111; 119].
Proof. vm_compute. reflexivity. Qed.

(** C1. Under a merge table whose ranks lie below the rank [10**9] that the
    code gives to absent pairs, [_bpe] returns, and what it returns is
    reached from the single characters of the piece by repeatedly merging
    the adjacent pair of lowest rank among those in the table (every
    occurrence, left to right, without overlap), until one symbol remains or
    no adjacent pair is in the table.  With the table
    [{("l","o"): 0, ("lo","w"): 1}] the piece "low" becomes the single
    symbol "low" and is encoded as one id. *)
Theorem bpe_greedy_lowest_rank_merge `{SetIteration} :
  (forall (ranks : gmap (str * str) Z) (token : list Z),
      map_Forall (fun _ r => r < absent_rank) ranks ->
      exists res, _bpe ranks token = Ok res
                  ∧ bpe_merges ranks (List.map (fun c => [c]) token) res)
  ∧ (forall tk : BpeTokenizerPy,
        bpe_ranks tk = example_ranks ->
        pattern_finditer tk (str_of "low") = [str_of "low"] ->
        _bpe (bpe_ranks tk) (str_of "low") = Ok [str_of "low"]
        ∧ _encode_segment tk (str_of "low") = Ok [vocab_id tk (str_of "low")]).
Proof.
  split.
  - intros ranks token Hranks. by apply bpe_spec.
  - intros tk Hranks Hpieces.
    assert (Hlow : _bpe (bpe_ranks tk) (str_of "low") = Ok [str_of "low"]).
    { rewrite Hranks.
      destruct (bpe_spec example_ranks example_ranks_below_absent (str_of "low"))
        as (res & Hres & Hrun).
      rewrite Hres. f_equal. apply bpe_merges_low. exact Hrun. }
    split; [exact Hlow|].
    change (str_of "low") with [108; 111; 119] in *.
    unfold _encode_segment. rewrite Hpieces. cbn [for_each].
    rewrite (encode_piece_ok tk [] [108; 111; 119] [108; 111; 119] [108; 111; 119] [[108; 111; 119]]
               eq_refl byte_level_encode_low Hlow).
    reflexivity.
Qed.

Lemma bpe_greedy_lowest_rank_merge_witness :
  exists res, _bpe example_ranks (str_of "low") = Ok res
              ∧ bpe_merges example_ranks (List.map (fun c => [c]) (str_of "low")) res.
Proof.
  apply (proj1 bpe_greedy_lowest_rank_merge example_ranks (str_of "low")).
  apply (bool_decide_unpack _). vm_compute. exact I.
Defined.

(** ** Encoding a segment *)

Lemma utf8_encode_char_bytes (c : Z) (bs : list Z) :
  utf8_encode_char c = Some bs -> Forall (fun b => 0 <= b < 256) bs.
Proof.
  unfold utf8_encode_char.
  repeat match goal with
         | |- context [if ?t then _ else _] => destruct t eqn:?
         end; intros [= <-]; repeat constructor;
    repeat match goal with
           | Hc : (_ <? _) = _ |- _ =>
               first [apply Z.ltb_lt in Hc | apply Z.ltb_ge in Hc]
           end; Z.div_mod_to_equations; lia.
Qed.

Lemma utf8_encode_bytes (s bs : list Z) :
  utf8_encode s = Some bs -> Forall (fun b => 0 <= b < 256) bs.
Proof.
  revert bs. induction s as [|c s IH]; simpl; intros bs.
  - intros [= <-]. constructor.
  - destruct (utf8_encode_char c) as [b1|] eqn:Hc; [|discriminate].
    destruct (utf8_encode s) as [b2|]; [|discriminate].
    intros [= <-]. apply Forall_app. split.
    + by apply (utf8_encode_char_bytes c).
    + by apply IH.
Qed.

Lemma byte_level_encode_total (bytes : list Z) :
  Forall (fun b => 0 <= b < 256) bytes ->
  exists encoded, byte_level_encode bytes = Ok encoded.
Proof.
  intros Hbytes. unfold byte_level_encode.
  assert (Hgen : forall acc, exists encoded,
            for_each (fun acc b => c ← or_raise KeyError (dict_get byte_encoder b);
                                   Ok (acc ++ [c])) bytes acc = Ok encoded);
    [|apply Hgen].
  induction Hbytes as [|b bytes Hb _ IH]; intros acc; cbn [for_each]; [by eexists|].
  destruct (byte_encode_decode b Hb) as (c & Hc & _).
  rewrite Hc. cbn [or_raise]. rewrite !bind_ok. apply IH.
Qed.

Lemma for_each_pieces_ok `{SetIteration} (tk : BpeTokenizerPy) (pieces : list str) :
  Forall (fun piece => is_Some (utf8_encode piece)) pieces ->
  forall out, exists symss : list (list str),
    Forall2 (fun piece syms =>
               exists bytes encoded,
                 utf8_encode piece = Some bytes
                 ∧ byte_level_encode bytes = Ok encoded
                 ∧ _bpe (bpe_ranks tk) encoded = Ok syms) pieces symss
    ∧ for_each (encode_piece tk) pieces out
      = Ok (out ++ List.map (vocab_id tk) (concat symss)).
Proof.
  induction 1 as [|piece pieces [bytes Hbytes] _ IH]; intros out.
  - exists []. split; [constructor|]. simpl. by rewrite app_nil_r.
  - destruct (byte_level_encode_total bytes (utf8_encode_bytes _ _ Hbytes))
      as [encoded Henc].
    destruct (bpe_returns (bpe_ranks tk) encoded) as [syms Hsyms].
    destruct (IH (out ++ List.map (vocab_id tk) syms)) as (symss & Hall & Hrest).
    exists (syms :: symss). split.
    + constructor; [|exact Hall]. by exists bytes, encoded.
    + cbn [for_each].
      rewrite (encode_piece_ok tk out piece bytes encoded syms Hbytes Henc Hsyms).
      rewrite bind_ok, Hrest. simpl. by rewrite map_app, app_assoc.
Qed.

(** C5, as the code has it. The id of a symbol is its vocabulary id; a
    symbol without one gets the id of the vocabulary entry "<unk>" when
    there is one, and the id 0 otherwise.  Encoding a segment whose pieces
    can be UTF-8 encoded therefore always returns ids, one per symbol that
    the merges of its pieces produce: no unmapped symbol makes it fail. *)
Theorem unknown_symbol_falls_back `{SetIteration} (tk : BpeTokenizerPy)
    (segment : list Z) :
  segment <> [] ->
  Forall (fun piece => is_Some (utf8_encode piece)) (pattern_finditer tk segment) ->
  (forall tok,
      vocab_id tk tok =
        match vocab tk !! tok, vocab tk !! unk with
        | Some v, _ => v
        | None, Some u => u
        | None, None => 0
        end)
  ∧ exists symss : list (list str),
      Forall2 (fun piece syms =>
                 exists bytes encoded,
                   utf8_encode piece = Some bytes
                   ∧ byte_level_encode bytes = Ok encoded
                   ∧ _bpe (bpe_ranks tk) encoded = Ok syms)
              (pattern_finditer tk segment) symss
      ∧ _encode_segment tk segment = Ok (List.map (vocab_id tk) (concat symss)).
Proof.
  intros Hne Hpieces. split.
  - intros tok. unfold vocab_id.
    destruct (vocab tk !! tok), (vocab tk !! unk); reflexivity.
  - destruct (for_each_pieces_ok tk _ Hpieces []) as (symss & Hall & Hrun).
    exists symss. split; [exact Hall|].
    unfold _encode_segment. destruct segment; [done|]. exact Hrun.
Qed.

Lemma unknown_symbol_falls_back_witness :
  (forall tok,
      vocab_id bare_tokenizer tok =
        match vocab bare_tokenizer !! tok, vocab bare_tokenizer !! unk with
        | Some v, _ => v
        | None, Some u => u
        | None, None => 0
        end)
  ∧ exists symss : list (list str),
      Forall2 (fun piece syms =>
                 exists bytes encoded,
                   utf8_encode piece = Some bytes
                   ∧ byte_level_encode bytes = Ok encoded
                   ∧ _bpe (bpe_ranks bare_tokenizer) encoded = Ok syms)
              (pattern_finditer bare_tokenizer (str_of "a")) symss
      ∧ _encode_segment bare_tokenizer (str_of "a")
        = Ok (List.map (vocab_id bare_tokenizer) (concat symss)).
Proof.
  apply (unknown_symbol_falls_back bare_tokenizer (str_of "a")).
  - discriminate.
  - repeat constructor. by eexists.
Defined.

(** Against C5 as stated: the symbol "a" has no vocabulary id and
    the vocabulary has no "<unk>", yet the segment is encoded, with id 0. *)
Lemma unknown_symbol_without_unk_gets_zero :
  vocab bare_tokenizer !! str_of "a" = None
  ∧ vocab bare_tokenizer !! unk = None
  ∧ _bpe (bpe_ranks bare_tokenizer) (str_of "a") = Ok [str_of "a"]
  ∧ _encode_segment bare_tokenizer (str_of "a") = Ok [0].
Proof. vm_compute. repeat split; reflexivity. Qed.

(** ** Finding a marker *)

Lemma is_prefix_spec (sub s : list Z) :
  is_prefix sub s = true <-> exists post, s = sub ++ post.
Proof.
  revert s. induction sub as [|c sub IH]; intros s; simpl.
  - split; [by exists s | done].
  - destruct s as [|d s].
    + split; [done | intros [post Hpost]; discriminate Hpost].
    + rewrite andb_true_iff, bool_decide_eq_true, IH. split.
      * intros [-> [post ->]]. by exists post.
      * intros [post [= -> ->]]. split; [done | by exists post].
Qed.

Lemma occurs_at_prefix (tok text : list Z) (p : nat) :
  occurs_at tok text p <-> (p <= length text)%nat ∧ is_prefix tok (drop p text) = true.
Proof.
  unfold occurs_at. rewrite is_prefix_spec. split.
  - intros (pre & post & -> & <-). split.
    + rewrite length_app. lia.
    + exists post. by rewrite drop_app_length.
  - intros [Hp [post Hpost]]. exists (take p text), post. split.
    + by rewrite <- Hpost, take_drop.
    + rewrite length_take. lia.
Qed.

Lemma find_at_Some (sub s : list Z) (k k' : nat) :
  find_at sub s k = Some k' ->
  exists p : nat, k' = (k + p)%nat ∧ (p <= length s)%nat
    ∧ is_prefix sub (drop p s) = true
    ∧ forall q : nat, (q < p)%nat -> is_prefix sub (drop q s) = false.
Proof.
  revert k. induction s as [|c s IH]; intros k; simpl.
  - destruct (is_prefix sub []) eqn:Hpre; [|discriminate].
    intros [= <-]. exists 0%nat. repeat split; [lia|lia|exact Hpre|lia].
  - destruct (is_prefix sub (c :: s)) eqn:Hpre.
    + intros [= <-]. exists 0%nat. repeat split; [lia|lia|exact Hpre|lia].
    + intros Hfind. destruct (IH _ Hfind) as (p & -> & Hp & Hhit & Hmiss).
      exists (S p). repeat split; [lia|lia|exact Hhit|].
      intros [|q] Hq; [exact Hpre|]. simpl. apply Hmiss. lia.
Qed.

Lemma find_at_None (sub s : list Z) (k : nat) :
  find_at sub s k = None -> forall q : nat, is_prefix sub (drop q s) = false.
Proof.
  revert k. induction s as [|c s IH]; intros k; simpl.
  - destruct (is_prefix sub []) eqn:Hpre; [discriminate|].
    intros _ q. by rewrite drop_nil.
  - destruct (is_prefix sub (c :: s)) eqn:Hpre; [discriminate|].
    intros Hfind [|q]; [exact Hpre|]. simpl. by apply (IH (S k)).
Qed.

(** [text.find(tok, i)] is [-1] when [tok] does not occur from [i] on, and
    otherwise the index of its first occurrence from [i] on. *)
Lemma py_find_spec (text tok : list Z) (i : nat) :
  (i <= length text)%nat ->
  (py_find text tok i = -1 ∧ forall p, ~ occurs_at tok (drop i text) p)
  ∨ (exists p : nat, py_find text tok i = Z.of_nat (i + p)
        ∧ occurs_at tok (drop i text) p
        ∧ forall q, occurs_at tok (drop i text) q -> (p <= q)%nat).
Proof.
  intros Hi. unfold py_find. destruct (decide (i <= length text)%nat); [|lia].
  destruct (find_at tok (drop i text) i) as [k|] eqn:Hfind.
  - right. apply find_at_Some in Hfind as (p & -> & Hp & Hhit & Hmiss).
    exists p. split; [reflexivity|]. split.
    + apply occurs_at_prefix. by split.
    + intros q Hq. apply occurs_at_prefix in Hq as [_ Hq].
      destruct (Nat.le_gt_cases p q) as [Hle|Hlt]; [exact Hle|].
      rewrite (Hmiss q Hlt) in Hq. discriminate.
  - left. split; [reflexivity|]. intros p Hp.
    apply occurs_at_prefix in Hp as [_ Hp].
    rewrite (find_at_None _ _ _ Hfind p) in Hp. discriminate.
Qed.

Lemma py_find_range (text tok : list Z) (i : nat) :
  py_find text tok i = -1 ∨ Z.of_nat i <= py_find text tok i.
Proof.
  unfold py_find. destruct (decide (i <= length text)%nat); [|by left].
  destruct (find_at tok (drop i text) i) as [k|] eqn:Hfind; [|by left].
  apply find_at_Some in Hfind as (p & -> & _). right. lia.
Qed.

(** ** The scan over the markers *)

Lemma scan_step_settles (text : list Z) (i : nat) (seen : list str)
    (st : option (Z * list Z)) (tok : list Z) :
  scan_settles seen text i st ->
  scan_settles (seen ++ [tok]) text i (scan_step text i st tok).
Proof.
  intros Hst. unfold scan_step.
  pose proof (py_find_range text tok i) as Hrange.
  destruct st as [[pos btok]|]; simpl in *.
  - destruct Hst as (Hpos & k & Hk & Hfind & Hbest).
    pose proof (lookup_lt_Some _ _ _ Hk) as Hklt.
    destruct (Z.leb_spec 0 (py_find text tok i)) as [Hfound|Hnone];
      [destruct (Z.ltb_spec (py_find text tok i) pos) as [Hlt|Hge]|]; simpl.
    + split; [lia|]. exists (length seen). split; [by rewrite list_lookup_middle|].
      split; [reflexivity|]. intros j tok' Hj.
      destruct (decide (j < length seen)%nat) as [Hjlt|Hjge].
      * rewrite lookup_app_l in Hj by lia.
        destruct (Hbest j tok' Hj) as [?|[?|[? ?]]]; [by left|right; left; lia|right; left; lia].
      * pose proof (lookup_lt_Some _ _ _ Hj) as Hjlen.
        rewrite length_app in Hjlen. simpl in Hjlen.
        assert (j = length seen) as -> by lia.
        rewrite list_lookup_middle in Hj by reflexivity. injection Hj as <-.
        right; right. split; [reflexivity|lia].
    + split; [lia|]. exists k. split; [by rewrite lookup_app_l by lia|].
      split; [exact Hfind|]. intros j tok' Hj.
      destruct (decide (j < length seen)%nat) as [Hjlt|Hjge].
      * rewrite lookup_app_l in Hj by lia. by apply Hbest.
      * pose proof (lookup_lt_Some _ _ _ Hj) as Hjlen.
        rewrite length_app in Hjlen. simpl in Hjlen.
        assert (j = length seen) as -> by lia.
        rewrite list_lookup_middle in Hj by reflexivity. injection Hj as <-.
        destruct (decide (py_find text tok i = pos)); [right; right; split; [done|lia]|].
        right; left. lia.
    + split; [lia|]. exists k. split; [by rewrite lookup_app_l by lia|].
      split; [exact Hfind|]. intros j tok' Hj.
      destruct (decide (j < length seen)%nat) as [Hjlt|Hjge].
      * rewrite lookup_app_l in Hj by lia. by apply Hbest.
      * pose proof (lookup_lt_Some _ _ _ Hj) as Hjlen.
        rewrite length_app in Hjlen. simpl in Hjlen.
        assert (j = length seen) as -> by lia.
        rewrite list_lookup_middle in Hj by reflexivity. injection Hj as <-.
        left. lia.
  - destruct (Z.leb_spec 0 (py_find text tok i)) as [Hfound|Hnone]; simpl.
    + split; [lia|]. exists (length seen). split; [by rewrite list_lookup_middle|].
      split; [reflexivity|]. intros j tok' Hj.
      destruct (decide (j < length seen)%nat) as [Hjlt|Hjge].
      * rewrite lookup_app_l in Hj by lia. left. apply Hst.
        by apply list_elem_of_lookup_2 in Hj.
      * pose proof (lookup_lt_Some _ _ _ Hj) as Hjlen.
        rewrite length_app in Hjlen. simpl in Hjlen.
        assert (j = length seen) as -> by lia.
        rewrite list_lookup_middle in Hj by reflexivity. injection Hj as <-.
        right; right. split; [reflexivity|lia].
    + intros tok' Hin. apply elem_of_app in Hin as [Hin|Hin]; [by apply Hst|].
      apply list_elem_of_singleton in Hin as ->. lia.
Qed.

Lemma next_special_settles (specials : list str) (text : list Z) (i : nat) :
  scan_settles specials text i (next_special specials text i).
Proof.
  unfold next_special.
  assert (Hgen : forall rest seen st,
            scan_settles seen text i st ->
            scan_settles (seen ++ rest) text i (fold_left (scan_step text i) rest st)).
  { induction rest as [|tok rest IH]; intros seen st Hst; simpl.
    - by rewrite app_nil_r.
    - rewrite (cons_middle tok seen rest). rewrite app_assoc.
      apply IH. by apply scan_step_settles. }
  apply (Hgen specials [] None). simpl. intros tok Hin. by apply elem_of_nil in Hin.
Qed.

Lemma lookup_map_fst {V} (d : list (str * V)) (j : nat) (key : list Z) :
  List.map fst d !! j = Some key <-> exists v, d !! j = Some (key, v).
Proof.
  revert j. induction d as [|[key' v'] d IH]; intros j; simpl.
  - split; [done | by intros [v Hv]].
  - destruct j as [|j]; simpl; [|apply IH].
    split; [intros [= ->]; by exists v' | by intros [v [= -> _]]].
Qed.

Lemma dict_get_first {V} (d : list (str * V)) (k : nat) (key : list Z) :
  List.map fst d !! k = Some key ->
  (forall j : nat, (j < k)%nat -> List.map fst d !! j <> Some key) ->
  exists v, d !! k = Some (key, v) ∧ dict_get d key = Some v.
Proof.
  revert k. induction d as [|[key' v'] d IH]; intros k Hk Hfirst; [done|].
  destruct k as [|k]; simpl in *.
  - injection Hk as ->. exists v'. split; [reflexivity|].
    by destruct (decide (key = key)).
  - destruct (decide (key' = key)) as [->|Hne].
    + destruct (Hfirst 0%nat ltac:(lia)). reflexivity.
    + apply IH; [exact Hk|]. intros j Hj. apply (Hfirst (S j)). lia.
Qed.

(** ** Splitting a text on its markers *)

Lemma chunk_ids_plain `{SetIteration} (tk : BpeTokenizerPy) (span : list Z)
    (chunks : list chunk) (ids : list Z) :
  chunk_ids tk (Plain span :: chunks) ids
  = (seg ← _encode_segment tk span; chunk_ids tk chunks (ids ++ seg)).
Proof. reflexivity. Qed.

Section Tokenize.
Context `{SetIteration}.
Variable tk : BpeTokenizerPy.
Hypothesis markers_nonempty : Forall (fun kv => kv.1 <> []) (special_to_id tk).

Lemma tokenize_loop_spec (text : list Z) (fuel i : nat) :
  (i <= length text)%nat ->
  (length text - i <= fuel)%nat ->
  exists chunks,
    marker_split (special_to_id tk) (drop i text) chunks
    ∧ forall ids, tokenize_loop fuel tk text i ids = chunk_ids tk chunks ids.
Proof.
  revert i. induction fuel as [|fuel IH]; intros i Hi Hfuel.
  { exists []. rewrite drop_ge by lia. split; [constructor|].
    intros ids. simpl. destruct (decide (i < length text)%nat); [lia|reflexivity]. }
  cbn [tokenize_loop].
  destruct (decide (i < length text)%nat) as [Hlt|Hge].
  2:{ exists []. rewrite drop_ge by lia. split; [constructor|reflexivity]. }
  pose proof (next_special_settles (List.map fst (special_to_id tk)) text i) as Hscan.
  destruct (next_special (List.map fst (special_to_id tk)) text i)
    as [[pos tok]|]; cbn [scan_settles] in Hscan.
  - destruct Hscan as (Hpos & k & Hk & Hfind & Hbest).
    destruct (py_find_spec text tok i Hi) as [[Hnone _]|(p & Hp & Hocc & Hleast)];
      [lia|].
    assert (Hfirst : forall j : nat, (j < k)%nat ->
              List.map fst (special_to_id tk) !! j <> Some tok).
    { intros j Hj Hjtok.
      destruct (Hbest j tok Hjtok) as [?|[?|[_ ?]]]; lia. }
    destruct (dict_get_first _ _ _ Hk Hfirst) as (sid & Hsid & Hget).
    assert (Htok : tok <> []).
    { rewrite Forall_forall in markers_nonempty.
      apply (markers_nonempty (tok, sid)). by apply list_elem_of_lookup_2 in Hsid. }
    destruct Hocc as (pre & rest & Hsplit & Hpre).
    assert (Hpos' : Z.to_nat pos = (i + p)%nat) by lia.
    rewrite Hpos'.
    assert (Hslice : slice text i (i + p) = pre).
    { unfold slice. replace (i + p - i)%nat with p by lia.
      rewrite Hsplit, <- Hpre. by rewrite take_app_length. }
    assert (Hrest : drop (i + p + length tok) text = rest).
    { rewrite <- !drop_drop, Hsplit, <- Hpre, drop_app_length.
      by rewrite drop_app_length. }
    assert (Hlen : length (drop i text) = (p + length tok + length rest)%nat).
    { rewrite Hsplit, !length_app. lia. }
    rewrite length_drop in Hlen.
    assert (Htoklen : (0 < length tok)%nat) by (destruct tok; [done|simpl; lia]).
    destruct (IH (i + p + length tok)%nat ltac:(lia) ltac:(lia))
      as (chunks & Hchunks & Hloop).
    rewrite Hrest in Hchunks.
    exists ((if decide (pre = []) then [] else [Plain pre]) ++ Marker tok sid :: chunks).
    split.
    + rewrite Hsplit.
      apply (split_marker _ pre tok sid k rest chunks); [exact Hsid| | |exact Hchunks].
      * intros j sid' Hj Hjtok. apply (Hfirst j Hj).
        apply lookup_map_fst. by exists sid'.
      * intros j tok' sid' q Hj Hq. rewrite <- Hsplit in Hq.
        assert (Hj' : List.map fst (special_to_id tk) !! j = Some tok')
          by (apply lookup_map_fst; by exists sid').
        destruct (py_find_spec text tok' i Hi)
          as [[_ Hnone]|(p' & Hp' & _ & Hleast')]; [destruct (Hnone q Hq)|].
        specialize (Hleast' q Hq).
        destruct (Hbest j tok' Hj') as [?|[?|[? ?]]]; [lia|left; lia|].
        destruct (decide (q = length pre)); [right; split; [done|lia]|left; lia].
    + intros ids. rewrite Hget. cbn [or_raise].
      destruct (decide (i < i + p)%nat) as [Hgap|Hnogap].
      * destruct (decide (pre = [])) as [->|_]; [simpl in Hpre; lia|].
        rewrite Hslice. cbn [app]. rewrite chunk_ids_plain.
        destruct (_encode_segment tk pre) as [seg| |]; [|reflexivity|reflexivity].
        rewrite !bind_ok. apply Hloop.
      * destruct (decide (pre = [])) as [_|Hpre'].
        2:{ destruct pre; [done|simpl in Hpre; lia]. }
        rewrite !bind_ok. cbn [app chunk_ids]. apply Hloop.
  - exists [Plain (drop i text)]. split.
    + apply split_plain.
      * intros Hnil. apply (f_equal length) in Hnil.
        rewrite length_drop in Hnil. simpl in Hnil. lia.
      * intros k tok sid p Hk Hocc.
        assert (Hin : tok ∈ List.map fst (special_to_id tk)).
        { apply (list_elem_of_lookup_2 _ k), lookup_map_fst. by exists sid. }
        specialize (Hscan tok Hin).
        destruct (py_find_spec text tok i Hi) as [[_ Hnone]|(p' & Hp' & _)];
          [by apply (Hnone p)|lia].
    + intros ids. reflexivity.
Qed.
End Tokenize.

(** C4, as the code has it. When no marker is the empty string,
    [tokenize_to_ids] returns within [len(text)] passes of its loop, and its
    result is that of splitting the text on the markers, where at each scan
    position the next marker is the one whose first occurrence starts
    earliest and, among markers starting at the same index, the one
    configured first; a marker contributes its reserved id as it is, and
    only the text between markers goes through the segment encoder. *)
Theorem tokenize_splits_on_markers `{SetIteration} (tk : BpeTokenizerPy)
    (text : list Z) (fuel : nat) :
  Forall (fun kv => kv.1 <> []) (special_to_id tk) ->
  (length text <= fuel)%nat ->
  exists chunks,
    marker_split (special_to_id tk) text chunks
    ∧ tokenize_to_ids fuel tk text = (ids ← chunk_ids tk chunks []; np_int64_array ids).
Proof.
  intros Hmarkers Hfuel.
  destruct (tokenize_loop_spec tk Hmarkers text fuel 0 ltac:(lia) ltac:(lia))
    as (chunks & Hsplit & Hloop).
  exists chunks. split; [exact Hsplit|].
  unfold tokenize_to_ids. by rewrite Hloop.
Qed.

Lemma tokenize_splits_on_markers_witness :
  exists chunks,
    marker_split (special_to_id overlap_tokenizer) (str_of "<a>") chunks
    ∧ tokenize_to_ids 3 overlap_tokenizer (str_of "<a>")
      = (ids ← chunk_ids overlap_tokenizer chunks []; np_int64_array ids).
Proof.
  apply (tokenize_splits_on_markers overlap_tokenizer (str_of "<a>") 3).
  - repeat constructor; discriminate.
  - simpl. lia.
Defined.

(** Against C4 as stated: in "<a>" the markers "<a" and "<a>" both start
    at index 0; the longest is "<a>", with id 2, but the scan keeps "<a",
    the one configured first, so the text becomes the id 1 followed by the
    id of ">". *)
Lemma tie_goes_to_first_configured_marker :
  leftmost_longest (List.map fst (special_to_id overlap_tokenizer)) (str_of "<a>")
    = Some (0%nat, str_of "<a>")
  ∧ dict_get (special_to_id overlap_tokenizer) (str_of "<a>") = Some 2
  ∧ next_special (List.map fst (special_to_id overlap_tokenizer)) (str_of "<a>") 0
    = Some (0, str_of "<a")
  ∧ tokenize_to_ids 3 overlap_tokenizer (str_of "<a>") = Ok [1; 5].
Proof. vm_compute. repeat split; reflexivity. Qed.

(** With the empty string among the markers the loop finds it at the
    current position in every pass and never moves on. *)
Lemma empty_marker_never_ends (fuel : nat) (ids : list Z) :
  tokenize_loop fuel empty_marker_tokenizer (str_of "a") 0 ids = OutOfFuel.
Proof.
  revert ids. induction fuel as [|fuel IH]; intros ids; [reflexivity|].
  change (tokenize_loop (S fuel) empty_marker_tokenizer (str_of "a") 0 ids)
    with (tokenize_loop fuel empty_marker_tokenizer (str_of "a") 0 (ids ++ [9])).
  apply IH.
Qed.

(** ** Detokenization *)

Lemma decode_token_bytes (tk : BpeTokenizerPy) (bytes_list : list Z) (tid : Z) :
  decode_token tk bytes_list tid = bytes_list ++ id_bytes tk tid.
Proof.
  unfold decode_token, id_bytes.
  destruct (id_to_special tk !! tid) as [marker|].
  { destruct (decide (is_Some (Some marker))) as [_|Hno]; [by rewrite app_nil_r|].
    destruct Hno. by eexists. }
  destruct (decide (is_Some (@None (list Z)))) as [[? Hsome]|_]; [discriminate|].
  destruct (id_to_token tk !! tid) as [tok|]; [|by rewrite app_nil_r].
  revert bytes_list.
  induction tok as [|ch tok IH]; intros bytes_list; cbn [fold_left omap list_omap].
  - by rewrite app_nil_r.
  - rewrite IH. destruct (dict_get byte_decoder ch) as [b|].
    + by rewrite <- app_assoc.
    + reflexivity.
Qed.

Lemma decode_bytes_concat (tk : BpeTokenizerPy) (ids acc : list Z) :
  fold_left (decode_token tk) ids acc = acc ++ concat (List.map (id_bytes tk) ids).
Proof.
  revert acc. induction ids as [|tid ids IH]; intros acc; simpl.
  - by rewrite app_nil_r.
  - rewrite IH, decode_token_bytes. by rewrite <- app_assoc.
Qed.

Lemma id_bytes_are_bytes (tk : BpeTokenizerPy) (tid : Z) :
  Forall (fun b => 0 <= b < 256) (id_bytes tk tid).
Proof.
  unfold id_bytes. destruct (decide _); [constructor|].
  destruct (id_to_token tk !! tid) as [tok|]; [|constructor].
  induction tok as [|ch tok IH]; cbn [omap list_omap]; [constructor|].
  destruct (dict_get byte_decoder ch) as [b|] eqn:Hb; [|exact IH].
  constructor; [|exact IH]. by apply (byte_decoder_range ch).
Qed.

Lemma py_bytes_ok (xs : list Z) :
  Forall (fun b => 0 <= b < 256) xs -> py_bytes xs = Ok xs.
Proof.
  intros Hxs. unfold py_bytes.
  replace (forallb _ xs) with true; [reflexivity|].
  symmetry. apply forallb_forall. intros b Hb.
  rewrite Forall_forall in Hxs. apply list_elem_of_In, Hxs in Hb. simpl in Hb.
  apply andb_true_iff. split; [apply Z.leb_le|apply Z.ltb_lt]; lia.
Qed.

(** *** [strip] *)

Lemma lstrip_spec (s : list Z) :
  exists l, s = l ++ lstrip s
            ∧ Forall (fun c => py_isspace c = true) l
            ∧ forall c, head (lstrip s) = Some c -> py_isspace c = false.
Proof.
  induction s as [|c s (l & Hs & Hl & Hhead)]; simpl.
  - exists []. repeat split; [constructor|done].
  - destruct (py_isspace c) eqn:Hc.
    + exists (c :: l). split; [by rewrite Hs at 1|]. split; [by constructor|exact Hhead].
    + exists []. split; [reflexivity|]. split; [constructor|].
      simpl. by intros c' [= <-].
Qed.

Lemma strip_spec (s : list Z) :
  exists l r, s = l ++ strip s ++ r
    ∧ Forall (fun c => py_isspace c = true) l
    ∧ Forall (fun c => py_isspace c = true) r
    ∧ (forall c, head (strip s) = Some c -> py_isspace c = false)
    ∧ (forall c, last (strip s) = Some c -> py_isspace c = false).
Proof.
  unfold strip.
  destruct (lstrip_spec s) as (l & Hs & Hl & Hhead).
  destruct (lstrip_spec (reverse (lstrip s))) as (r & Hr & Hrsp & Hlast).
  assert (Ht : lstrip s = reverse (lstrip (reverse (lstrip s))) ++ reverse r).
  { rewrite <- reverse_app, <- Hr. by rewrite reverse_involutive. }
  exists l, (reverse r). split; [by rewrite <- Ht|].
  split; [exact Hl|]. split.
  { apply Forall_forall. intros c Hc. rewrite Forall_forall in Hrsp.
    apply Hrsp. by apply elem_of_reverse. }
  split.
  - intros c Hc. apply Hhead. rewrite Ht.
    destruct (reverse (lstrip (reverse (lstrip s)))); [discriminate|exact Hc].
  - intros c Hc. apply Hlast. by rewrite <- Hc, last_reverse.
Qed.

(** C10. [decode] returns a string for every list of ids.  The bytes it
    decodes are those of the ids in order, where an id of the special-token
    table and an id without a token contribute none and a character without
    a byte-decoder entry is skipped; all of them are byte values.  The text
    is their strict UTF-8 decoding when that succeeds and the decoding that
    ignores errors otherwise, with the white space at both ends removed. *)
Theorem decode_is_total (codec : Utf8Decoder) (tk : BpeTokenizerPy) (ids : list Z) :
  let raw := concat (List.map (id_bytes tk) ids) in
  let text := match decode_strict codec raw with
              | Some s => s
              | None => decode_ignore codec raw
              end in
  decode codec tk ids = Ok (strip text)
  ∧ Forall (fun b => 0 <= b < 256) raw
  ∧ (forall tid, is_Some (id_to_special tk !! tid) -> id_bytes tk tid = [])
  ∧ (forall tid, id_to_token tk !! tid = None -> id_bytes tk tid = [])
  ∧ (forall tid tok, id_to_special tk !! tid = None -> id_to_token tk !! tid = Some tok ->
       id_bytes tk tid = omap (dict_get byte_decoder) tok)
  ∧ (exists l r, text = l ++ strip text ++ r
       ∧ Forall (fun c => py_isspace c = true) l
       ∧ Forall (fun c => py_isspace c = true) r
       ∧ (forall c, head (strip text) = Some c -> py_isspace c = false)
       ∧ (forall c, last (strip text) = Some c -> py_isspace c = false)).
Proof.
  intros raw text.
  assert (Hraw : Forall (fun b => 0 <= b < 256) raw).
  { apply Forall_concat, Forall_forall. intros bs Hbs.
    apply list_elem_of_In, in_map_iff in Hbs as (tid & <- & _).
    apply id_bytes_are_bytes. }
  split.
  { unfold decode. rewrite decode_bytes_concat. cbn [app]. fold raw.
    rewrite (py_bytes_ok raw Hraw), !bind_ok. subst text.
    destruct (decode_strict codec raw); reflexivity. }
  split; [exact Hraw|].
  split.
  { intros tid Hsp. unfold id_bytes. by destruct (decide _). }
  split.
  { intros tid Hnone. unfold id_bytes. rewrite Hnone. by destruct (decide _). }
  split.
  { intros tid tok Hsp Htok. unfold id_bytes. rewrite Hsp, Htok.
    destruct (decide _) as [[? ?]|_]; [discriminate|reflexivity]. }
  apply strip_spec.
Qed.

(** The decoder on well-formed and on malformed bytes: "é", "a", the euro
    sign and an emoji; a stray 0xFF; and sequences cut short. *)
Example python_utf8_values :
  decode_strict python_utf8 [195; 169; 97; 226; 130; 172; 240; 159; 152; 128]
    = Some [233; 97; 8364; 128512]
  ∧ decode_strict python_utf8 [255; 97] = None
  ∧ decode_ignore python_utf8 [255; 97; 195] = [97]
  ∧ decode_ignore python_utf8 [224; 128; 97; 237; 160; 128; 98; 240; 159; 152; 99]
    = [97; 98; 99].
Proof. vm_compute. repeat split; reflexivity. Qed.

(** The id 5 is ">" and the id 1 is a marker: the marker and the unknown
    id 8 contribute nothing. *)
Example decode_skips :
  decode python_utf8 overlap_tokenizer [1; 5; 8; 5] = Ok (str_of ">>").
Proof. vm_compute. reflexivity. Qed.

(** ** The repetition penalty *)

Lemma np_index_in_range (n : nat) (i : Z) :
  0 <= i < Z.of_nat n -> np_index n i = Some (Z.to_nat i).
Proof.
  intros Hi. unfold np_index.
  destruct (Z.leb_spec 0 i); [|lia]. destruct (Z.ltb_spec i (Z.of_nat n)); [|lia].
  reflexivity.
Qed.

Lemma dict_get_absent {K V} `{EqDecision K} (d : list (K * V)) (k : K) :
  k ∉ List.map fst d -> dict_get d k = None.
Proof.
  induction d as [|[k' v] d IH]; simpl; [done|]. intros Hk.
  destruct (decide (k' = k)) as [->|_].
  - destruct Hk. apply list_elem_of_here.
  - apply IH. intros Hin. apply Hk. by apply list_elem_of_further.
Qed.

Section Penalty.
Context {A : Arith}.

Lemma apply_repetition_penalty_spec (rp : num A) (seen : list (Z * Z)) :
  forall logits : list (num A),
  NoDup (List.map fst seen) ->
  Forall (fun entry => 0 <= entry.1 < Z.of_nat (length logits)) seen ->
  exists out,
    apply_repetition_penalty rp logits seen = Ok out
    ∧ length out = length logits
    ∧ forall (k : nat) x, logits !! k = Some x ->
        out !! k = Some (penalized rp (dict_get seen (Z.of_nat k)) x).
Proof.
  unfold apply_repetition_penalty.
  induction seen as [|[tid cnt] seen IH]; intros logits Hkeys Hrange.
  { exists logits. split; [reflexivity|]. split; [reflexivity|]. by intros k x ->. }
  apply NoDup_cons in Hkeys as [Hfresh Hkeys].
  apply Forall_cons in Hrange as [Htid Hrange]. simpl in Htid, Hfresh.
  assert (Hfresh' : tid ∉ List.map fst seen) by exact Hfresh.
  cbn [for_each].
  assert (Hstep : exists logits1,
            penalize rp logits (tid, cnt) = Ok logits1
            ∧ length logits1 = length logits
            ∧ forall (k : nat) x, logits !! k = Some x ->
                logits1 !! k = Some (if decide (Z.of_nat k = tid)
                                     then penalized rp (Some cnt) x else x)).
  { unfold penalize. destruct (0 <? cnt) eqn:Hcnt.
    - rewrite np_index_in_range by exact Htid. cbn [or_raise]. rewrite bind_ok.
      destruct (lookup_lt_is_Some_2 logits (Z.to_nat tid) ltac:(lia)) as [x0 Hx0].
      rewrite Hx0. cbn [or_raise]. rewrite bind_ok.
      exists (<[Z.to_nat tid := penalized rp (Some cnt) x0]> logits).
      split; [unfold penalized; rewrite Hcnt; by destruct (ltb A (zero A) x0)|].
      split; [apply length_insert|]. intros k x Hk.
      destruct (decide (Z.of_nat k = tid)) as [<-|Hne].
      + rewrite Nat2Z.id in *. rewrite list_lookup_insert_eq by (by eapply lookup_lt_Some).
        congruence.
      + rewrite list_lookup_insert_ne by lia. exact Hk.
    - exists logits. split; [reflexivity|]. split; [reflexivity|].
      intros k x Hk. rewrite Hk. unfold penalized. rewrite Hcnt.
      by destruct (decide (Z.of_nat k = tid)). }
  destruct Hstep as (logits1 & -> & Hlen1 & Hval1). rewrite bind_ok.
  destruct (IH logits1 Hkeys) as (out & Hout & Hlen & Hval).
  { by rewrite Hlen1. }
  exists out. split; [exact Hout|]. split; [congruence|].
  intros k x Hk. rewrite (Hval k _ (Hval1 k x Hk)). cbn [dict_get].
  destruct (decide (tid = Z.of_nat k)) as [->|Hne].
  - destruct (decide (Z.of_nat k = Z.of_nat k)); [|done].
    by rewrite (dict_get_absent seen (Z.of_nat k) Hfresh').
  - by destruct (decide (Z.of_nat k = tid)); [congruence|].
Qed.

(** The rest of the sampler works on the penalized logits. *)
Lemma top_p_sample_after_penalty {R} (NP : NumPy R) (logits out : list (num A))
    (top_p temperature rp : num A) (seen : list (Z * Z)) (r : R) :
  apply_repetition_penalty rp logits seen = Ok out ->
  top_p_sample NP logits top_p temperature rp seen r
  = top_p_sample NP out top_p temperature rp [] r.
Proof.
  intros Hout. unfold top_p_sample. rewrite Hout.
  unfold apply_repetition_penalty. cbn [for_each]. reflexivity.
Qed.
End Penalty.

(** In exact arithmetic a positive logit divided by a larger penalty is
    smaller. *)
Lemma exact_quotient_decreases (x p1 p2 : Q) :
  (0 < x)%Q -> (1 < p1)%Q -> (p1 < p2)%Q -> (x / p2 < x / p1)%Q.
Proof.
  intros Hx Hp1 Hp12.
  assert (Hp1pos : (0 < p1)%Q) by (eapply Qlt_trans; [|exact Hp1]; reflexivity).
  assert (Hp2pos : (0 < p2)%Q) by (eapply Qlt_trans; eassumption).
  unfold Qdiv. apply Qmult_lt_l; [exact Hx|].
  by apply -> Qinv_lt_contravar.
Qed.

Lemma exact_positive (x : Q) : ltb exact (zero exact) x = true <-> (0 < x)%Q.
Proof.
  cbn [ltb zero exact]. rewrite negb_true_iff. split.
  - intros Hle. apply Qnot_le_lt. intros Hx. apply Qle_bool_iff in Hx. congruence.
  - intros Hx. destruct (Qle_bool x 0) eqn:Hle; [|reflexivity].
    apply Qle_bool_iff in Hle. by apply Qlt_not_le in Hx.
Qed.

(** C7, as the code has it. For every id of [seen] with a count above 0
    the sampler replaces a positive logit by its quotient by the penalty and
    any other logit by its product with the penalty, leaves the other logits
    as they are, and does so before anything else: the rest of the sampler,
    temperature first, works on the penalized logits.  In exact arithmetic
    the penalized value of a positive logit strictly decreases as the
    penalty grows above 1. *)
Theorem repetition_penalty_rule :
  (forall (A : Arith) (rp : num A) (logits : list (num A)) (seen : list (Z * Z)),
      NoDup (List.map fst seen) ->
      Forall (fun entry => 0 <= entry.1 < Z.of_nat (length logits)) seen ->
      exists out,
        apply_repetition_penalty rp logits seen = Ok out
        ∧ length out = length logits
        ∧ (forall (k : nat) x, logits !! k = Some x ->
             out !! k = Some (penalized rp (dict_get seen (Z.of_nat k)) x))
        ∧ (forall R (NP : NumPy R) top_p temperature r,
             top_p_sample NP logits top_p temperature rp seen r
             = top_p_sample NP out top_p temperature rp [] r))
  ∧ (forall (logits : list Q) (seen : list (Z * Z)) (k : nat) (cnt : Z) (x p1 p2 : Q),
      NoDup (List.map fst seen) ->
      Forall (fun entry => 0 <= entry.1 < Z.of_nat (length logits)) seen ->
      dict_get seen (Z.of_nat k) = Some cnt -> 0 < cnt ->
      logits !! k = Some x -> (0 < x)%Q -> (1 < p1)%Q -> (p1 < p2)%Q ->
      exists out1 out2,
        @apply_repetition_penalty exact p1 logits seen = Ok out1
        ∧ @apply_repetition_penalty exact p2 logits seen = Ok out2
        ∧ out1 !! k = Some (x / p1)%Q
        ∧ out2 !! k = Some (x / p2)%Q
        ∧ (x / p2 < x / p1)%Q).
Proof.
  split.
  - intros A rp logits seen Hkeys Hrange.
    destruct (apply_repetition_penalty_spec rp seen logits Hkeys Hrange)
      as (out & Hout & Hlen & Hval).
    exists out. repeat split; try assumption.
    intros R NP top_p temperature r. by apply top_p_sample_after_penalty.
  - intros logits seen k cnt x p1 p2 Hkeys Hrange Hcnt Hpos Hx Hxpos Hp1 Hp12.
    destruct (@apply_repetition_penalty_spec exact p1 seen logits Hkeys Hrange)
      as (out1 & Hout1 & _ & Hval1).
    destruct (@apply_repetition_penalty_spec exact p2 seen logits Hkeys Hrange)
      as (out2 & Hout2 & _ & Hval2).
    exists out1, out2.
    assert (Hpen : forall p, @penalized exact p (Some cnt) x = (x / p)%Q).
    { intros p. unfold penalized.
      destruct (Z.ltb_spec 0 cnt); [|lia].
      by rewrite (proj2 (exact_positive x) Hxpos). }
    split; [exact Hout1|]. split; [exact Hout2|].
    split; [rewrite <- (Hpen p1), <- Hcnt; exact (Hval1 k x Hx)|].
    split; [rewrite <- (Hpen p2), <- Hcnt; exact (Hval2 k x Hx)|].
    by apply exact_quotient_decreases.
Qed.

Lemma repetition_penalty_rule_witness :
  exists out1 out2,
    @apply_repetition_penalty exact (11 # 10)%Q [2%Q; (-1)%Q] [(0, 1)] = Ok out1
    ∧ @apply_repetition_penalty exact (12 # 10)%Q [2%Q; (-1)%Q] [(0, 1)] = Ok out2
    ∧ out1 !! 0%nat = Some (2 / (11 # 10))%Q
    ∧ out2 !! 0%nat = Some (2 / (12 # 10))%Q
    ∧ (2 / (12 # 10) < 2 / (11 # 10))%Q.
Proof.
  apply (proj2 repetition_penalty_rule [2%Q; (-1)%Q] [(0, 1)] 0%nat 1 2%Q
           (11 # 10)%Q (12 # 10)%Q).
  - repeat constructor. intros Hin. by apply elem_of_nil in Hin.
  - repeat constructor; simpl; lia.
  - reflexivity.
  - lia.
  - reflexivity.
  - reflexivity.
  - reflexivity.
  - reflexivity.
Defined.

(** Against C7 as stated, in binary64: the logit 1.0 of an id seen
    once is penalized to the same value 0.5000000000000001 under the penalty
    1.9999999999999996 and under the larger penalty 1.9999999999999998. *)
Lemma penalty_growth_can_leave_logit_unchanged :
  ltb binary64 (zero binary64) 1%float = true
  ∧ ltb binary64 1%float 0x1.ffffffffffffep+0%float = true
  ∧ ltb binary64 0x1.ffffffffffffep+0%float 0x1.fffffffffffffp+0%float = true
  ∧ @apply_repetition_penalty binary64 0x1.ffffffffffffep+0%float [1%float] [(0, 1)]
    = Ok [0x1.0000000000001p-1%float]
  ∧ @apply_repetition_penalty binary64 0x1.fffffffffffffp+0%float [1%float] [(0, 1)]
    = Ok [0x1.0000000000001p-1%float]
  ∧ ltb binary64 0x1.0000000000001p-1%float 0x1.0000000000001p-1%float = false.
Proof. vm_compute. repeat split; reflexivity. Qed.

(** ** The top-p cut *)

Lemma np_take_spec {X} (xs : list X) (idx : list nat) :
  Forall (fun i => (i < length xs)%nat) idx ->
  exists out, np_take xs idx = Ok out
    ∧ length out = length idx
    ∧ forall (j i : nat), idx !! j = Some i -> out !! j = xs !! i.
Proof.
  induction 1 as [|i idx Hi _ (out & Hout & Hlen & Hval)]; cbn [np_take].
  - exists []. repeat split. intros j i Hj. discriminate Hj.
  - destruct (lookup_lt_is_Some_2 xs i Hi) as [x Hx].
    rewrite Hx. cbn [or_raise]. rewrite bind_ok, Hout, bind_ok.
    exists (x :: out). split; [reflexivity|]. split; [simpl; by rewrite Hlen|].
    intros [|j] i' Hj; simpl in *.
    + injection Hj as <-. by rewrite Hx.
    + by apply Hval.
Qed.

Section TopP.
Context {A : Arith}.

Lemma cumsum_from_length (acc : num A) (xs : list (num A)) :
  length (cumsum_from acc xs) = length xs.
Proof.
  revert acc. induction xs as [|x xs IH]; intros acc; simpl; [reflexivity|].
  by rewrite IH.
Qed.

Lemma np_cumsum_length (xs : list (num A)) : length (np_cumsum xs) = length xs.
Proof. destruct xs; simpl; [reflexivity|]. by rewrite cumsum_from_length. Qed.

Lemma np_cumsum_first (xs : list (num A)) : np_cumsum xs !! 0%nat = xs !! 0%nat.
Proof. by destruct xs. Qed.

Lemma np_searchsorted_spec (a : list (num A)) (v : num A) :
  (np_searchsorted a v <= length a)%nat
  ∧ (forall (j : nat) m, (j < np_searchsorted a v)%nat -> a !! j = Some m ->
       ltb A m v = true)
  ∧ (forall m, a !! np_searchsorted a v = Some m -> ltb A m v = false).
Proof.
  induction a as [|x a (Hle & Hbelow & Hat)]; simpl.
  - repeat split; [lia|intros; lia|intros m Hm; discriminate Hm].
  - destruct (ltb A x v) eqn:Hx.
    + split; [lia|]. split.
      * intros [|j] m Hj Hm; simpl in Hm; [congruence|]. apply (Hbelow j); [lia|exact Hm].
      * intros m Hm. simpl in Hm. by apply Hat.
    + split; [lia|]. split; [intros; lia|].
      intros m Hm. simpl in Hm. congruence.
Qed.

Lemma in_order_spec (keys : list (num A)) (idx : list nat) :
  in_order keys idx = true ->
  forall (i j : nat) (a b : nat) (x y : num A),
    (i < j)%nat -> idx !! i = Some a -> idx !! j = Some b ->
    keys !! a = Some x -> keys !! b = Some y -> ltb A y x = false.
Proof.
  induction idx as [|a0 idx IH]; simpl; [intros _ i j a b x y _ Hi; discriminate Hi|].
  intros [Hhead Htail]%andb_true_iff i j a b x y Hij Hi Hj Hx Hy.
  destruct j as [|j]; [lia|]. simpl in Hj.
  destruct i as [|i]; simpl in Hi.
  - injection Hi as ->. rewrite forallb_forall in Hhead.
    specialize (Hhead b). rewrite Hx, Hy in Hhead.
    apply negb_true_iff, Hhead, list_elem_of_In. by eapply list_elem_of_lookup_2.
  - apply (IH Htail i j a b x y); [lia|assumption..].
Qed.

Lemma argsort_okb_spec (keys : list (num A)) (idx : list nat) :
  argsort_okb keys idx = true -> argsort_ok keys idx.
Proof.
  unfold argsort_okb. intros [Hperm Hord]%andb_true_iff. split.
  - by apply bool_decide_eq_true in Hperm.
  - by apply in_order_spec.
Qed.

Lemma top_p_keep_spec (np_argsort : list (num A) -> list nat)
    (probs : list (num A)) (top_p : num A) :
  probs <> [] ->
  argsort_ok (List.map (neg A) probs) (np_argsort (List.map (neg A) probs)) ->
  let idx := np_argsort (List.map (neg A) probs) in
  exists sorted first,
    np_take probs idx = Ok sorted
    ∧ length sorted = length probs
    ∧ idx !! 0%nat = Some first
    ∧ (forall (j i : nat), idx !! j = Some i -> sorted !! j = probs !! i)
    ∧ (forall (b : nat) x y, b <> first -> probs !! first = Some x -> probs !! b = Some y ->
         ltb A (neg A y) (neg A x) = false)
    ∧ top_p_keep np_argsort probs top_p
      = Ok (take (S (np_searchsorted (np_cumsum sorted) top_p)) idx).
Proof.
  intros Hne [Hperm Hord] idx. fold idx in Hperm, Hord.
  rewrite length_map in Hperm.
  assert (Hrange : Forall (fun i => (i < length probs)%nat) idx).
  { apply Forall_forall. intros i Hi. rewrite Hperm in Hi.
    apply elem_of_seq in Hi. lia. }
  assert (Hlen : length idx = length probs).
  { by rewrite Hperm, length_seq. }
  destruct (np_take_spec probs idx Hrange) as (sorted & Hsorted & Hslen & Hsval).
  destruct idx as [|first rest] eqn:Hidx.
  { destruct probs; [done|discriminate Hlen]. }
  exists sorted, first. split; [exact Hsorted|]. split; [congruence|].
  split; [reflexivity|]. split; [exact Hsval|]. split.
  - intros b x y Hb Hx Hy.
    assert (Hin : b ∈ first :: rest).
    { rewrite Hperm. apply elem_of_seq. apply lookup_lt_Some in Hy. lia. }
    apply list_elem_of_lookup in Hin as [j Hj].
    destruct j as [|j]; [simpl in Hj; congruence|].
    apply (Hord 0%nat (S j) first b (neg A x) (neg A y)); [lia|reflexivity|exact Hj| |].
    + change (List.map (neg A) probs) with (neg A <$> probs).
      by rewrite list_lookup_fmap, Hx.
    + change (List.map (neg A) probs) with (neg A <$> probs).
      by rewrite list_lookup_fmap, Hy.
  - unfold top_p_keep. fold idx. rewrite Hidx, Hsorted, bind_ok.
    by rewrite Nat.add_1_r.
Qed.
End TopP.

(** *** The cut in exact arithmetic *)

Lemma exact_below (x y : Q) : ltb exact x y = true <-> (x < y)%Q.
Proof.
  cbn [ltb exact]. rewrite negb_true_iff. split.
  - intros Hle. apply Qnot_le_lt. intros Hyx. apply Qle_bool_iff in Hyx. congruence.
  - intros Hlt. destruct (Qle_bool y x) eqn:Hle; [|reflexivity].
    apply Qle_bool_iff in Hle. by apply Qlt_not_le in Hlt.
Qed.

Lemma total_cons (x : Q) (l : list Q) : total (x :: l) = (x + total l)%Q.
Proof. reflexivity. Qed.

Lemma total_app (a b : list Q) : (total (a ++ b) == total a + total b)%Q.
Proof.
  induction a as [|x a IH].
  - change (total ([] ++ b)) with (total b). change (total []) with 0%Q. lra.
  - change ((x :: a) ++ b) with (x :: (a ++ b)). rewrite !total_cons, IH. lra.
Qed.

Lemma total_perm (a b : list Q) : a ≡ₚ b -> (total a == total b)%Q.
Proof.
  induction 1 as [|x a b _ IH|x y a|a b c _ IH1 _ IH2]; rewrite ?total_cons.
  - reflexivity.
  - rewrite IH. reflexivity.
  - lra.
  - by rewrite IH1.
Qed.

Lemma total_positive (l : list Q) :
  Forall (fun p => (0 < p)%Q) l -> l <> [] -> (0 < total l)%Q.
Proof.
  intros Hpos Hne. destruct Hpos as [|x l Hx Hl]; [done|]. rewrite total_cons.
  assert (Hrest : (0 <= total l)%Q).
  { clear Hne Hx. induction Hl as [|y l Hy _ IH]; [by compute|].
    rewrite total_cons. lra. }
  lra.
Qed.

Lemma cumsum_from_mass (acc : Q) (xs : list Q) (j : nat) (m : Q) :
  @cumsum_from exact acc xs !! j = Some m ->
  (m == acc + total (take (S j) xs))%Q.
Proof.
  revert acc j. induction xs as [|x xs IH]; intros acc j; [done|].
  change (take (S j) (x :: xs)) with (x :: take j xs). rewrite total_cons.
  destruct j as [|j]; cbn [cumsum_from lookup list_lookup].
  - intros [= <-]. change (total (take 0 xs)) with 0%Q. cbn [add exact]. lra.
  - intros Hm. apply IH in Hm. rewrite Hm. cbn [add exact]. lra.
Qed.

Lemma np_cumsum_mass (xs : list Q) (j : nat) (m : Q) :
  @np_cumsum exact xs !! j = Some m -> (m == total (take (S j) xs))%Q.
Proof.
  destruct xs as [|x xs]; [done|].
  change (take (S j) (x :: xs)) with (x :: take j xs). rewrite total_cons.
  destruct j as [|j]; cbn [np_cumsum lookup list_lookup].
  - intros [= <-]. change (total (take 0 xs)) with 0%Q. lra.
  - intros Hm. apply cumsum_from_mass in Hm. rewrite Hm. lra.
Qed.

Lemma taken_is_permutation {X} (xs out : list X) (idx : list nat) :
  idx ≡ₚ seq 0 (length xs) ->
  length out = length idx ->
  (forall (j i : nat), idx !! j = Some i -> out !! j = xs !! i) ->
  out ≡ₚ xs.
Proof.
  intros Hperm Hlen Hval.
  destruct xs as [|d xs'] eqn:Hxs.
  { apply Permutation_nil_r in Hperm. subst idx. by destruct out. }
  rewrite <- Hxs in *. clear xs' Hxs.
  assert (Hout : out = (fun i => default d (xs !! i)) <$> idx).
  { apply list_eq. intros j. rewrite list_lookup_fmap.
    destruct (idx !! j) as [i|] eqn:Hj; simpl.
    - rewrite (Hval j i Hj).
      assert (Hin : i ∈ idx) by (by eapply list_elem_of_lookup_2).
      rewrite Hperm in Hin. apply elem_of_seq in Hin.
      destruct (lookup_lt_is_Some_2 xs i ltac:(lia)) as [x ->]. reflexivity.
    - apply lookup_ge_None. apply lookup_ge_None in Hj. lia. }
  rewrite Hout, Hperm. clear.
  assert (Hgen : forall s, (fun i => default d (xs !! i)) <$> seq s (length xs - s)
                           = drop s xs).
  { intros s. remember (length xs - s)%nat as n eqn:Hn. revert s Hn.
    induction n as [|n IH]; intros s Hn; simpl.
    - by rewrite drop_ge by lia.
    - destruct (lookup_lt_is_Some_2 xs s ltac:(lia)) as [x Hx].
      rewrite Hx. simpl. rewrite (drop_S _ _ _ Hx). f_equal. apply IH. lia. }
  specialize (Hgen 0%nat). rewrite Nat.sub_0_r, drop_0 in Hgen. by rewrite Hgen.
Qed.

Lemma exact_top_p_one_keeps_all (np_argsort : list Q -> list nat) (probs : list Q) :
  probs <> [] ->
  @argsort_ok exact (List.map Qopp probs) (np_argsort (List.map Qopp probs)) ->
  Forall (fun p => (0 < p)%Q) probs ->
  (total probs == 1)%Q ->
  @top_p_keep exact np_argsort probs 1%Q = Ok (np_argsort (List.map Qopp probs)).
Proof.
  intros Hne Hok Hpos Hsum.
  destruct (@top_p_keep_spec exact np_argsort probs 1%Q Hne Hok)
    as (sorted & first & Hsorted & Hslen & Hfirst & Hsval & _ & Hkeep).
  cbn [neg exact] in *.
  set (idx := np_argsort (List.map Qopp probs)) in *.
  rewrite Hkeep. f_equal. apply take_ge.
  destruct Hok as [Hperm _]. rewrite length_map in Hperm.
  assert (Hidxlen : length idx = length probs) by (by rewrite Hperm, length_seq).
  assert (Hsp : sorted ≡ₚ probs).
  { apply (taken_is_permutation probs sorted idx Hperm); [|exact Hsval].
    exact (eq_trans Hslen (eq_sym Hidxlen)). }
  rewrite Hidxlen.
  destruct (@np_searchsorted_spec exact (np_cumsum sorted) 1%Q) as (_ & _ & Hat).
  destruct (Nat.le_gt_cases (length probs)
              (S (@np_searchsorted exact (np_cumsum sorted) 1%Q))) as [Hge|Hlt];
    [exact Hge|].
  exfalso.
  set (k := @np_searchsorted exact (np_cumsum sorted) 1%Q) in *.
  assert (Hin : (k < length (@np_cumsum exact sorted))%nat).
  { rewrite np_cumsum_length. unfold num, exact in *. lia. }
  destruct (lookup_lt_is_Some_2 _ _ Hin) as [m Hm].
  specialize (Hat m Hm).
  assert (Hbelow : (m < 1)%Q).
  { rewrite (np_cumsum_mass sorted k m Hm).
    assert (Hsplit : (total sorted == total (take (S k) sorted) + total (drop (S k) sorted))%Q).
    { rewrite <- total_app. by rewrite take_drop. }
    assert (Htail : (0 < total (drop (S k) sorted))%Q).
    { apply total_positive.
      - apply Forall_drop. by rewrite Hsp.
      - intros Hnil. apply (f_equal length) in Hnil.
        rewrite length_drop in Hnil. simpl in Hnil. unfold num, exact in *. lia. }
    rewrite (total_perm _ _ Hsp), Hsum in Hsplit.
    change (num exact) with Q in *. lra. }
  apply exact_below in Hbelow. congruence.
Qed.

Lemma top_p_keep_prefix {A : Arith} (np_argsort : list (num A) -> list nat)
    (probs : list (num A)) (top_p : num A) :
  probs <> [] ->
  argsort_ok (List.map (neg A) probs) (np_argsort (List.map (neg A) probs)) ->
  let idx := np_argsort (List.map (neg A) probs) in
  exists sorted first kept,
    np_take probs idx = Ok sorted
    ∧ idx !! 0%nat = Some first
    ∧ (forall (b : nat) x y, b <> first -> probs !! first = Some x -> probs !! b = Some y ->
         ltb A (neg A y) (neg A x) = false)
    ∧ top_p_keep np_argsort probs top_p = Ok kept
    ∧ let cum := np_cumsum sorted in
      let k := np_searchsorted cum top_p in
      kept = take (S k) idx
      ∧ (1 <= length kept)%nat
      ∧ (forall (j : nat) m, (j < k)%nat -> cum !! j = Some m -> ltb A m top_p = true)
      ∧ (forall m, cum !! k = Some m -> ltb A m top_p = false)
      ∧ (forall x, probs !! first = Some x -> ltb A x top_p = false -> kept = [first])
      ∧ ((forall (j : nat) m, (S j < length probs)%nat -> cum !! j = Some m ->
            ltb A m top_p = true) -> kept = idx).
Proof.
  intros Hne Hok idx.
  destruct (top_p_keep_spec np_argsort probs top_p Hne Hok)
    as (sorted & first & Hsorted & Hslen & Hfirst & Hsval & Hbest & Hkeep).
  fold idx in Hsorted, Hfirst, Hsval, Hkeep.
  exists sorted, first, (take (S (np_searchsorted (np_cumsum sorted) top_p)) idx).
  split; [exact Hsorted|]. split; [exact Hfirst|]. split; [exact Hbest|].
  split; [exact Hkeep|]. cbv zeta.
  destruct (np_searchsorted_spec (np_cumsum sorted) top_p) as (Hle & Hbelow & Hat).
  split; [reflexivity|]. split.
  { destruct idx; [discriminate Hfirst|]. simpl. lia. }
  split; [exact Hbelow|]. split; [exact Hat|]. split.
  - intros x Hx Hreach.
    assert (Hzero : np_searchsorted (np_cumsum sorted) top_p = 0%nat).
    { destruct (np_searchsorted (np_cumsum sorted) top_p) as [|k] eqn:Hk; [reflexivity|].
      assert (Hcum : np_cumsum sorted !! 0%nat = Some x).
      { by rewrite np_cumsum_first, (Hsval 0%nat first Hfirst). }
      rewrite (Hbelow 0%nat x ltac:(lia) Hcum) in Hreach. discriminate. }
    rewrite Hzero. destruct idx; [discriminate Hfirst|].
    simpl in Hfirst. injection Hfirst as ->. reflexivity.
  - intros Hall. apply take_ge.
    assert (Hidxlen : length idx = length probs).
    { destruct Hok as [Hperm _]. fold idx in Hperm.
      by rewrite Hperm, length_seq, length_map. }
    rewrite Hidxlen.
    destruct (Nat.le_gt_cases (length probs)
                (S (np_searchsorted (np_cumsum sorted) top_p))) as [Hge|Hlt];
      [exact Hge|].
    assert (Hin : (np_searchsorted (np_cumsum sorted) top_p
                   < length (np_cumsum sorted))%nat).
    { rewrite np_cumsum_length, Hslen. lia. }
    destruct (lookup_lt_is_Some_2 _ _ Hin) as [m Hm].
    specialize (Hat m Hm). rewrite (Hall _ m Hlt Hm) in Hat. discriminate.
Qed.

(** C6, as the code has it. For probabilities [probs], not empty, and an
    [argsort] that meets its contract on them: the ids are taken in
    descending order of probability, [first] being one of highest
    probability; the running sums of the probabilities in that order are
    compared with [top_p], and the kept ids are the prefix that ends at the
    first running sum that is not below [top_p], or all ids when every
    running sum is below it.  So at least one id is kept, every shorter
    prefix has a mass below [top_p], exactly [first] is kept when its
    probability is not below [top_p], and all ids are kept when every proper
    prefix has a mass below [top_p]; in exact arithmetic that is the case
    for [top_p = 1] and positive probabilities that sum to 1. *)
Theorem top_p_keeps_smallest_prefix :
  (forall (A : Arith) (np_argsort : list (num A) -> list nat)
          (probs : list (num A)) (top_p : num A),
      probs <> [] ->
      argsort_ok (List.map (neg A) probs) (np_argsort (List.map (neg A) probs)) ->
      let idx := np_argsort (List.map (neg A) probs) in
      exists sorted first kept,
        np_take probs idx = Ok sorted
        ∧ idx !! 0%nat = Some first
        ∧ (forall (b : nat) x y, b <> first -> probs !! first = Some x ->
             probs !! b = Some y -> ltb A (neg A y) (neg A x) = false)
        ∧ top_p_keep np_argsort probs top_p = Ok kept
        ∧ let cum := np_cumsum sorted in
          let k := np_searchsorted cum top_p in
          kept = take (S k) idx
          ∧ (1 <= length kept)%nat
          ∧ (forall (j : nat) m, (j < k)%nat -> cum !! j = Some m -> ltb A m top_p = true)
          ∧ (forall m, cum !! k = Some m -> ltb A m top_p = false)
          ∧ (forall x, probs !! first = Some x -> ltb A x top_p = false -> kept = [first])
          ∧ ((forall (j : nat) m, (S j < length probs)%nat -> cum !! j = Some m ->
                ltb A m top_p = true) -> kept = idx))
  ∧ (forall (np_argsort : list Q -> list nat) (probs : list Q),
      probs <> [] ->
      @argsort_ok exact (List.map Qopp probs) (np_argsort (List.map Qopp probs)) ->
      Forall (fun p => (0 < p)%Q) probs ->
      (total probs == 1)%Q ->
      @top_p_keep exact np_argsort probs 1%Q = Ok (np_argsort (List.map Qopp probs))).
Proof.
  split.
  - intros A np_argsort probs top_p. apply top_p_keep_prefix.
  - exact exact_top_p_one_keeps_all.
Qed.

Lemma top_p_keeps_smallest_prefix_witness :
  let probs := [(1 # 4)%Q; (1 # 2)%Q; (1 # 4)%Q] in
  let idx := @stable_argsort exact (List.map (neg exact) probs) in
  exists sorted first kept,
    np_take probs idx = Ok sorted
    ∧ idx !! 0%nat = Some first
    ∧ (forall (b : nat) x y, b <> first -> probs !! first = Some x -> probs !! b = Some y ->
         ltb exact (neg exact y) (neg exact x) = false)
    ∧ @top_p_keep exact (@stable_argsort exact) probs (3 # 5)%Q = Ok kept
    ∧ let cum := @np_cumsum exact sorted in
      let k := @np_searchsorted exact cum (3 # 5)%Q in
      kept = take (S k) idx
      ∧ (1 <= length kept)%nat
      ∧ (forall (j : nat) m, (j < k)%nat -> cum !! j = Some m ->
           ltb exact m (3 # 5)%Q = true)
      ∧ (forall m, cum !! k = Some m -> ltb exact m (3 # 5)%Q = false)
      ∧ (forall x, probs !! first = Some x -> ltb exact x (3 # 5)%Q = false ->
           kept = [first])
      ∧ ((forall (j : nat) m, (S j < length probs)%nat -> cum !! j = Some m ->
            ltb exact m (3 # 5)%Q = true) -> kept = idx).
Proof.
  apply (proj1 top_p_keeps_smallest_prefix exact (@stable_argsort exact)
           [(1 # 4)%Q; (1 # 2)%Q; (1 # 4)%Q] (3 # 5)%Q).
  - discriminate.
  - apply argsort_okb_spec. vm_compute. reflexivity.
Defined.

(** Against C6 as stated, in binary64: the probabilities 1.0 and
    2^-58 are both positive and their running sums are 1.0 and 1.0, so with
    [top_p = 1.0] the cut is made after the first id and the second id,
    which belongs to the distribution, is dropped. *)
Lemma top_p_one_can_drop_ids :
  let probs := [1%float; 0x1p-58%float] in
  ltb binary64 (zero binary64) 0x1p-58%float = true
  ∧ argsort_okb (A:=binary64) (List.map (neg binary64) probs)
      (@stable_argsort binary64 (List.map (neg binary64) probs)) = true
  ∧ @stable_argsort binary64 (List.map (neg binary64) probs) = [0%nat; 1%nat]
  ∧ @np_cumsum binary64 probs = [1%float; 1%float]
  ∧ @top_p_keep binary64 (@stable_argsort binary64) probs 1%float = Ok [0%nat].
Proof. vm_compute. repeat split; reflexivity. Qed.

(** ** Embedding fusion *)

Lemma np_where_eq_none (xs : list Z) (v : Z) (s : nat) :
  (forall q, xs !! q <> Some v) -> np_where_eq xs v s = [].
Proof.
  revert s. induction xs as [|x xs IH]; intros s Hno; simpl; [reflexivity|].
  destruct (decide (x = v)) as [->|_].
  - destruct (Hno 0%nat). reflexivity.
  - apply IH. intros q. apply (Hno (S q)).
Qed.

Lemma np_where_eq_unique (xs : list Z) (v : Z) (s p : nat) :
  xs !! p = Some v ->
  (forall q, xs !! q = Some v -> q = p) ->
  np_where_eq xs v s = [(s + p)%nat].
Proof.
  revert s p. induction xs as [|x xs IH]; intros s p Hp Honly; [done|].
  simpl. destruct (decide (x = v)) as [->|Hne].
  - assert (p = 0%nat) as -> by (symmetry; by apply Honly).
    rewrite np_where_eq_none; [by rewrite Nat.add_0_r|].
    intros q Hq. specialize (Honly (S q) Hq). discriminate.
  - destruct p as [|p]; [simpl in Hp; congruence|].
    rewrite (IH (S s) p); [f_equal; lia|exact Hp|].
    intros q Hq. specialize (Honly (S q) Hq). lia.
Qed.

Lemma for_each_seq_invariant {St} (body : St -> nat -> outcome St)
    (Inv : nat -> St -> Prop) (n : nat) :
  (forall i st, (i < n)%nat -> Inv i st -> exists st', body st i = Ok st' ∧ Inv (S i) st') ->
  forall st, Inv 0%nat st ->
  exists st', for_each body (seq 0 n) st = Ok st' ∧ Inv n st'.
Proof.
  intros Hstep.
  assert (Hgen : forall len start st, (start + len = n)%nat -> Inv start st ->
            exists st', for_each body (seq start len) st = Ok st' ∧ Inv n st').
  { induction len as [|len IH]; intros start st Hlen Hinv; simpl.
    - exists st. split; [reflexivity|]. by replace n with start by lia.
    - destruct (Hstep start st ltac:(lia) Hinv) as (st' & -> & Hinv').
      rewrite bind_ok. apply IH; [lia|exact Hinv']. }
  intros st Hinv. by apply Hgen.
Qed.

Section FusionFacts.
Context {vec : Type}.
Variables (zeros : vec) (text_emb vis_proj : list vec) (p : nat).
Hypothesis placeholder_in_range : (p < length text_emb)%nat.

(** What has been written after the positions [0 .. i-1] are done. *)
Let written (i : nat) : list vec :=
  take (Nat.min i p) text_emb
    ++ (if decide (p < i)%nat then vis_proj ++ slice text_emb (S p) i else []).

Let total_len : nat := (length text_emb - 1 + length vis_proj)%nat.

Lemma fuse_step_invariant (i : nat) (st : list vec * nat) :
  (i < length text_emb)%nat ->
  st = (written i ++ replicate (total_len - length (written i)) zeros, length (written i)) ->
  exists st', fuse_step p text_emb vis_proj st i = Ok st'
    ∧ st' = (written (S i) ++ replicate (total_len - length (written (S i))) zeros,
             length (written (S i))).
Proof.
  intros Hi ->. unfold fuse_step.
  destruct (lookup_lt_is_Some_2 text_emb i Hi) as [row Hrow].
  assert (Hlen : length (written i)
                 = if decide (p < i)%nat then (i - 1 + length vis_proj)%nat else i).
  { unfold written, slice. destruct (decide (p < i)%nat).
    - rewrite !length_app, !length_take, length_drop. lia.
    - rewrite length_app, length_take. simpl. lia. }
  destruct (decide (i = p)) as [->|Hip].
  - destruct (decide (p < p)%nat); [lia|].
    assert (Hw : written p = take p text_emb).
    { unfold written. rewrite Nat.min_id. destruct (decide (p < p)%nat); [lia|].
      by rewrite app_nil_r. }
    assert (Hw' : written (S p) = take p text_emb ++ vis_proj).
    { unfold written, slice. replace (Nat.min (S p) p) with p by lia.
      destruct (decide (p < S p)%nat); [|lia].
      replace (S p - S p)%nat with 0%nat by lia. by rewrite take_0, app_nil_r. }
    rewrite Hw, Hw'. clear Hw Hw' Hlen.
    assert (Htake : length (take p text_emb) = p) by (rewrite length_take; lia).
    rewrite Htake, length_app, Htake.
    unfold assign_rows.
    rewrite length_app, Htake, length_replicate.
    destruct (decide (_ = length vis_proj)) as [_|Hk]; [|unfold total_len in Hk; lia].
    rewrite bind_ok. eexists. split; [reflexivity|].
    f_equal.
    rewrite take_app_length' by (symmetry; exact Htake).
    rewrite drop_app_ge by lia. rewrite Htake, drop_replicate.
    rewrite <- app_assoc. do 3 f_equal. unfold total_len. lia.
  - rewrite Hrow. cbn [or_raise]. rewrite bind_ok.
    assert (Hnext : written (S i) = written i ++ [row]).
    { unfold written, slice. destruct (decide (p < i)%nat) as [Hpi|Hpi].
      - destruct (decide (p < S i)%nat); [|lia].
        replace (Nat.min (S i) p) with p by lia.
        replace (Nat.min i p) with p by lia.
        rewrite <- !app_assoc. do 2 f_equal.
        replace (S i - S p)%nat with (S (i - S p)) by lia.
        rewrite (take_S_r _ _ row); [reflexivity|].
        rewrite lookup_drop. by replace (S p + (i - S p))%nat with i by lia.
      - destruct (decide (p < S i)%nat); [lia|].
        replace (Nat.min (S i) p) with (S i) by lia.
        replace (Nat.min i p) with i by lia.
        rewrite !app_nil_r. by apply take_S_r. }
    rewrite length_app, length_replicate.
    assert (Hroom : (length (written i) < total_len)%nat).
    { rewrite Hlen. unfold total_len. destruct (decide (p < i)%nat); lia. }
    destruct (decide (length (written i) < _)%nat) as [_|Hfull]; [|lia].
    eexists. split; [reflexivity|]. f_equal.
    + rewrite Hnext, length_app. simpl.
      replace (total_len - length (written i))%nat
        with (S (total_len - (length (written i) + 1))) by lia.
      simpl. rewrite insert_app_r_alt by lia.
      replace (length (written i) - length (written i))%nat with 0%nat by lia.
      simpl. by rewrite <- app_assoc.
    + rewrite Hnext, length_app. simpl. lia.
Qed.

Lemma fuse_embeddings_spec :
  fuse_embeddings zeros p text_emb vis_proj
  = Ok (take p text_emb ++ vis_proj ++ drop (S p) text_emb).
Proof.
  unfold fuse_embeddings.
  destruct (Z.ltb_spec (Z.of_nat (length text_emb) - 1 + Z.of_nat (length vis_proj)) 0)
    as [Hneg|_]; [lia|].
  replace (Z.to_nat (Z.of_nat (length text_emb) - 1 + Z.of_nat (length vis_proj)))
    with total_len by (unfold total_len; lia).
  destruct (for_each_seq_invariant (fuse_step p text_emb vis_proj)
              (fun i st => st = (written i ++ replicate (total_len - length (written i)) zeros,
                                 length (written i)))
              (length text_emb)) with (st := (replicate total_len zeros, 0%nat))
    as (st' & -> & ->).
  - intros i st Hi Hst. by apply fuse_step_invariant.
  - unfold written. simpl. destruct (decide (p < 0)%nat); [lia|].
    simpl. by rewrite Nat.sub_0_r.
  - rewrite bind_ok. f_equal. cbn [fst].
    assert (Hall : written (length text_emb)
                   = take p text_emb ++ vis_proj ++ drop (S p) text_emb).
    { unfold written, slice. replace (Nat.min (length text_emb) p) with p by lia.
      destruct (decide (p < length text_emb)%nat); [|lia].
      rewrite (take_ge (drop (S p) text_emb)); [reflexivity|].
      rewrite length_drop. lia. }
    rewrite Hall. rewrite !length_app, length_take, length_drop.
    replace (total_len - _)%nat with 0%nat by (unfold total_len; lia).
    simpl. by rewrite app_nil_r.
Qed.
End FusionFacts.

(** C3. When the prompt has the image placeholder at exactly one position
    [p], that position is the one the script finds, and fusing [L] text
    embeddings with [T] vision rows gives [L - 1 + T] rows: the text rows
    before [p] unchanged, then the [T] vision rows in order, then the text
    rows after [p]. *)
Theorem fusion_splices_vision_rows {vec : Type} (zeros : vec) (input_ids : list Z)
    (image_token_id : Z) (text_emb vis_proj : list vec) (p : nat) :
  length text_emb = length input_ids ->
  input_ids !! p = Some image_token_id ->
  (forall q, input_ids !! q = Some image_token_id -> q = p) ->
  let L := length text_emb in
  let T := length vis_proj in
  np_where_eq input_ids image_token_id 0 = [p]
  ∧ exists fused,
      fuse_embeddings zeros p text_emb vis_proj = Ok fused
      ∧ fused = take p text_emb ++ vis_proj ++ drop (S p) text_emb
      ∧ length fused = (L - 1 + T)%nat
      ∧ (forall i, (i < p)%nat -> fused !! i = text_emb !! i)
      ∧ (forall j, (j < T)%nat -> fused !! (p + j)%nat = vis_proj !! j)
      ∧ (forall i, (p < i < L)%nat -> fused !! (i - 1 + T)%nat = text_emb !! i).
Proof.
  intros Hlen Hp Honly L T.
  pose proof (lookup_lt_Some _ _ _ Hp) as Hplt. rewrite <- Hlen in Hplt.
  split; [by apply (np_where_eq_unique input_ids image_token_id 0 p)|].
  exists (take p text_emb ++ vis_proj ++ drop (S p) text_emb).
  assert (Htake : length (take p text_emb) = p) by (rewrite length_take; lia).
  split; [by apply fuse_embeddings_spec|]. split; [reflexivity|]. split.
  { rewrite !length_app, Htake, length_drop. subst L T. lia. }
  split.
  { intros i Hi. rewrite lookup_app_l by lia. by rewrite lookup_take_lt. }
  split.
  { intros j Hj. rewrite lookup_app_r by lia. rewrite Htake.
    replace (p + j - p)%nat with j by lia. by rewrite lookup_app_l. }
  intros i [Hpi HiL]. rewrite lookup_app_r by lia. rewrite Htake.
  rewrite lookup_app_r by (subst T; lia). rewrite lookup_drop. f_equal. subst T. lia.
Qed.

Lemma fusion_splices_vision_rows_witness :
  np_where_eq [10; 11; 7; 12; 13] 7 0 = [2%nat]
  ∧ exists fused,
      fuse_embeddings 0 2 [100; 101; 102; 103; 104] [1; 2; 3] = Ok fused
      ∧ fused = take 2 [100; 101; 102; 103; 104] ++ [1; 2; 3]
                  ++ drop 3 [100; 101; 102; 103; 104]
      ∧ length fused = (5 - 1 + 3)%nat
      ∧ (forall i, (i < 2)%nat -> fused !! i = [100; 101; 102; 103; 104] !! i)
      ∧ (forall j, (j < 3)%nat -> fused !! (2 + j)%nat = [1; 2; 3] !! j)
      ∧ (forall i, (2 < i < 5)%nat ->
           fused !! (i - 1 + 3)%nat = [100; 101; 102; 103; 104] !! i).
Proof.
  apply (fusion_splices_vision_rows 0 [10; 11; 7; 12; 13] 7
           [100; 101; 102; 103; 104] [1; 2; 3] 2).
  - reflexivity.
  - reflexivity.
  - intros [|[|[|[|[|q]]]]] Hq; first [reflexivity | discriminate Hq].
Defined.

(** ** Runs of [main] *)

Lemma run_bind_unfold {R X Y} (m : run R X) (k : X -> run R Y) (w : world R) :
  (m ≫= k) w = match m w with
               | (w', Ok x) => k x w'
               | (w', Raise e) => (w', Raise e)
               | (w', OutOfFuel) => (w', OutOfFuel)
               end.
Proof. reflexivity. Qed.

(** C9. When the tokenized prompt has no image-placeholder id, [main]
    prints the missing-placeholder message and returns normally: nothing
    else is traced, so the decoder session is not called and no text is
    generated. *)
Theorem missing_placeholder_is_reported {A : Arith} (E : Engine A) {R : Type}
    (NP : @NumPy A R) (codec : Utf8Decoder) (tokenizer : BpeTokenizerPy)
    (args : Args A) (cfg : Config) (input_ids : list Z)
    (text_emb vis_proj : list (vec E)) (w : world R) :
  (forall q, input_ids !! q <> Some (image_token_id cfg)) ->
  main E NP codec tokenizer args cfg input_ids text_emb vis_proj w
  = ({| rng := rng w; trace := trace w ++ [EvWarning] |}, Ok tt).
Proof.
  intros Hmissing. unfold main.
  rewrite (np_where_eq_none input_ids (image_token_id cfg) 0 Hmissing).
  reflexivity.
Qed.

Lemma missing_placeholder_is_reported_witness :
  main small_engine cycling_numpy python_utf8 overlap_tokenizer small_args small_config
    [10; 11; 12] [100; 101; 102] [1; 2; 3] {| rng := 0%nat; trace := [] |}
  = ({| rng := 0%nat; trace := [] ++ [EvWarning] |}, Ok tt).
Proof.
  apply (missing_placeholder_is_reported small_engine cycling_numpy python_utf8
           overlap_tokenizer small_args small_config [10; 11; 12] [100; 101; 102]
           [1; 2; 3] {| rng := 0%nat; trace := [] |}).
  intros [|[|[|q]]] Hq; discriminate Hq.
Defined.

(** ** Traces *)

Lemma samples_of_app (a b : list event) :
  samples_of (a ++ b) = samples_of a ++ samples_of b.
Proof. unfold samples_of. apply omap_app. Qed.

Lemma prints_no_samples (pr : list event) :
  forallb is_print pr = true -> samples_of pr = [].
Proof.
  induction pr as [|e pr IH]; [reflexivity|]. simpl.
  intros [He Hpr]%andb_true_iff. destruct e; try discriminate; by apply IH.
Qed.

Lemma quiet_app_no_samples (eos : Z) (pre evs : list event) :
  samples_of pre = [] -> quiet_after eos (pre ++ evs) = quiet_after eos evs.
Proof.
  induction pre as [|e pre IH]; [reflexivity|]. simpl.
  destruct e; simpl; try exact IH. discriminate.
Qed.

Lemma quiet_app_prints (eos : Z) (evs pr : list event) :
  quiet_after eos evs = true -> forallb is_print pr = true ->
  quiet_after eos (evs ++ pr) = true.
Proof.
  intros Hq Hpr. induction evs as [|e evs IH]; simpl in *.
  - rewrite <- (app_nil_r pr). rewrite quiet_app_no_samples; [reflexivity|].
    by apply prints_no_samples.
  - destruct e; try (by apply IH).
    destruct (decide (nid = eos)); [|by apply IH].
    rewrite forallb_app. by rewrite Hq, Hpr.
Qed.

(** In a quiet trace the end token can only be the last id drawn, and what
    follows its draw is printing. *)
Lemma quiet_eos_is_last (eos : Z) (evs : list event) :
  quiet_after eos evs = true ->
  forall i : nat, samples_of evs !! i = Some eos -> S i = length (samples_of evs).
Proof.
  induction evs as [|e evs IH]; simpl; intros Hq i Hi; [done|].
  destruct e; try (by apply IH).
  simpl in Hi. destruct (decide (nid = eos)) as [->|Hne].
  - rewrite (prints_no_samples _ Hq) in *. by destruct i.
  - destruct i as [|i]; simpl in Hi; [congruence|].
    simpl. f_equal. by apply IH.
Qed.

Lemma quiet_after_eos_prints (eos : Z) (evs pre post : list event) :
  quiet_after eos evs = true ->
  evs = pre ++ EvSample eos :: post ->
  forallb is_print post = true.
Proof.
  intros Hq ->. induction pre as [|e pre IH]; simpl in Hq.
  - by destruct (decide (eos = eos)).
  - destruct e; try (by apply IH).
    destruct (decide (nid = eos)); [|by apply IH].
    rewrite forallb_app in Hq. apply andb_true_iff in Hq as [_ Hq].
    simpl in Hq. discriminate.
Qed.

Lemma cut_is_before_first (eos : Z) (xs : list Z) :
  match py_index xs eos with
  | Some i => take i xs
  | None => xs
  end = before_first eos xs.
Proof.
  induction xs as [|x xs IH]; simpl; [reflexivity|].
  destruct (decide (x = eos)); [reflexivity|].
  destruct (py_index xs eos); simpl; by rewrite <- IH.
Qed.

Lemma np_where_eq_some (xs : list Z) (v : Z) (s q : nat) :
  xs !! q = Some v -> np_where_eq xs v s <> [].
Proof.
  revert s q. induction xs as [|x xs IH]; intros s q Hq; [done|].
  simpl. destruct (decide (x = v)); [done|].
  destruct q as [|q]; simpl in Hq; [congruence|]. by apply (IH _ q).
Qed.

Section Generation.
Context {A : Arith} (E : Engine A) {R : Type} (NP : @NumPy A R).
Context (codec : Utf8Decoder) (tokenizer : BpeTokenizerPy).
Context (args : Args A) (cfg : Config).

Lemma world_eta (w : world R) : w = {| rng := rng w; trace := trace w ++ [] |}.
Proof. destruct w. simpl. by rewrite app_nil_r. Qed.

Lemma sample_spec (logits : list (num A)) (seen : list (Z * Z)) (w : world R) :
  exists r o,
    sample NP args logits seen w
    = ({| rng := r; trace := trace w ++ match o with Ok nid => [EvSample nid] | _ => [] end |},
       o).
Proof.
  unfold sample.
  destruct (top_p_sample NP logits (top_p args) (temperature args)
              (repetition_penalty args) seen (rng w)) as [[nid|e|] r].
  - by exists r, (Ok nid).
  - exists r, (Raise e). by rewrite app_nil_r.
  - exists r, OutOfFuel. by rewrite app_nil_r.
Qed.

Lemma verbose_print_spec (step : nat) (nid : Z) (w : world R) :
  exists pr,
    verbose_print codec tokenizer args step nid w
    = ({| rng := rng w; trace := trace w ++ pr |}, Ok tt)
    ∧ forallb is_print pr = true.
Proof.
  unfold verbose_print. destruct (verbose args).
  - unfold try_pass. rewrite run_bind_unfold. unfold lift.
    destruct (decode codec tokenizer [nid]) as [text|e|].
    + eexists. split; reflexivity.
    + exists []. split; [|reflexivity]. simpl. f_equal. apply world_eta.
    + exists []. split; [|reflexivity]. simpl. f_equal. apply world_eta.
  - exists []. split; [|reflexivity]. unfold mret, run_ret. f_equal. apply world_eta.
Qed.

Lemma advance_spec (cache : list (kv E)) (nid : Z) (w : world R) :
  exists mid o,
    advance E cache nid w = ({| rng := rng w; trace := trace w ++ mid |}, o)
    ∧ samples_of mid = [].
Proof.
  unfold advance, embed, decoder, emit, lift, mbind, run_bind, mret, run_ret.
  cbn [rng trace inputs_embeds attention_mask position_ids past_key_values].
  destruct (cache !! 0%nat) as [k0|]; cbn [or_raise].
  2:{ by exists [EvEmbed [nid]], (Raise IndexError). }
  destruct (np_take cache (seq 0 (2 * num_layers E))) as [past|e|].
  2:{ by exists [EvEmbed [nid]], (Raise e). }
  2:{ by exists [EvEmbed [nid]], OutOfFuel. }
  cbn [rng trace inputs_embeds attention_mask position_ids past_key_values].
  match goal with
  | |- context [last (logits ?out)] => destruct (last (logits out)) as [row|]
  end; cbn [or_raise]; rewrite <- app_assoc; eexists _, _; split; reflexivity.
Qed.

Lemma decode_steps_spec (n step : nat) (st : loop_state E) (w : world R) :
  exists evs r o,
    decode_steps E NP codec tokenizer args cfg n step st w
    = ({| rng := r; trace := trace w ++ evs |}, o)
    ∧ (length (samples_of evs) <= n)%nat
    ∧ quiet_after (eos_id cfg) evs = true
    ∧ forall st', o = Ok st' -> generated E st' = generated E st ++ samples_of evs.
Proof.
  revert step st w. induction n as [|n IH]; intros step st w.
  { exists [], (rng w), (Ok st). split; [|split; [simpl; lia|split; [reflexivity|]]].
    - cbn [decode_steps]. unfold mret, run_ret. f_equal. apply world_eta.
    - intros st' [= <-]. simpl. by rewrite app_nil_r. }
  cbn [decode_steps]. rewrite run_bind_unfold.
  destruct (sample_spec (last_logits E st) (seen E st) w) as (r1 & o1 & ->).
  destruct o1 as [nid|e|].
  2:{ exists [], r1, (Raise e). repeat split; [simpl; lia|]. intros st' [=]. }
  2:{ exists [], r1, OutOfFuel. repeat split; [simpl; lia|]. intros st' [=]. }
  rewrite run_bind_unfold.
  destruct (verbose_print_spec step nid
              {| rng := r1; trace := trace w ++ [EvSample nid] |}) as (pr & -> & Hpr).
  cbn [rng trace]. rewrite <- app_assoc.
  pose proof (prints_no_samples pr Hpr) as Hprs.
  destruct (decide (nid = eos_id cfg)) as [Heos|Hne].
  { exists ([EvSample nid] ++ pr), r1. eexists. split; [reflexivity|].
    rewrite samples_of_app, Hprs. simpl. split; [lia|]. split.
    - destruct (decide (nid = eos_id cfg)); [exact Hpr|done].
    - intros st' [= <-]. reflexivity. }
  rewrite run_bind_unfold.
  destruct (advance_spec (out_present E st) nid
              {| rng := r1; trace := trace w ++ [EvSample nid] ++ pr |})
    as (mid & o2 & -> & Hmid).
  cbn [rng trace]. rewrite <- app_assoc.
  assert (Hhead : samples_of ([EvSample nid] ++ pr ++ mid) = [nid]).
  { rewrite !samples_of_app, Hprs, Hmid. reflexivity. }
  assert (Hquiet : forall rest, quiet_after (eos_id cfg) rest = true ->
            quiet_after (eos_id cfg) ([EvSample nid] ++ pr ++ mid ++ rest) = true).
  { intros rest Hrest. simpl. destruct (decide (nid = eos_id cfg)); [done|].
    rewrite quiet_app_no_samples by exact Hprs.
    by rewrite quiet_app_no_samples by exact Hmid. }
  destruct o2 as [next|e|].
  2:{ exists ([EvSample nid] ++ pr ++ mid), r1, (Raise e).
      split; [by rewrite <- !app_assoc|]. rewrite Hhead. simpl. split; [lia|].
      split; [|intros st' [=]].
      rewrite <- (app_nil_r mid). by apply (Hquiet []). }
  2:{ exists ([EvSample nid] ++ pr ++ mid), r1, OutOfFuel.
      split; [by rewrite <- !app_assoc|]. rewrite Hhead. simpl. split; [lia|].
      split; [|intros st' [=]].
      rewrite <- (app_nil_r mid). by apply (Hquiet []). }
  match goal with
  | |- context [decode_steps E NP codec tokenizer args cfg n (S step) ?st1 ?w1] =>
      destruct (IH (S step) st1 w1) as (rest & r2 & o3 & -> & Hcount & Hrest & Hgen)
  end.
  cbn [rng trace].
  exists ([EvSample nid] ++ pr ++ mid ++ rest), r2, o3.
  split; [by rewrite <- !app_assoc|].
  assert (Hsamples : samples_of ([EvSample nid] ++ pr ++ mid ++ rest)
                     = nid :: samples_of rest).
  { rewrite !samples_of_app, Hprs, Hmid. reflexivity. }
  rewrite Hsamples. cbn [length]. split; [lia|]. split; [by apply Hquiet|].
  intros st' Hst'. rewrite (Hgen st' Hst'). cbn [generated].
  by rewrite <- app_assoc.
Qed.
End Generation.

(** C8. In every run of [main] at most [max_new_tokens] ids are drawn; once
    the end-of-sequence id is drawn nothing follows but printing, so that id
    can only be the last one drawn, and when it is the first one drawn it is
    the only one; and a run that returns normally on a prompt with the
    placeholder ends by printing the detokenization of the ids drawn before
    the first end-of-sequence id. *)
Theorem generation_stops_at_eos_or_budget {A : Arith} (E : Engine A) {R : Type}
    (NP : @NumPy A R) (codec : Utf8Decoder) (tokenizer : BpeTokenizerPy)
    (args : Args A) (cfg : Config) (input_ids : list Z)
    (text_emb vis_proj : list (vec E)) (w : world R) :
  exists evs r res,
    main E NP codec tokenizer args cfg input_ids text_emb vis_proj w
    = ({| rng := r; trace := trace w ++ evs |}, res)
    ∧ (length (samples_of evs) <= Z.to_nat (max_new_tokens args))%nat
    ∧ (forall pre post, evs = pre ++ EvSample (eos_id cfg) :: post ->
         forallb is_print post = true)
    ∧ (forall i : nat, samples_of evs !! i = Some (eos_id cfg) ->
         S i = length (samples_of evs))
    ∧ (head (samples_of evs) = Some (eos_id cfg) -> samples_of evs = [eos_id cfg])
    ∧ (res = Ok tt -> (exists q, input_ids !! q = Some (image_token_id cfg)) ->
         exists text,
           decode codec tokenizer (before_first (eos_id cfg) (samples_of evs)) = Ok text
           ∧ last evs = Some (EvText text)).
Proof.
  assert (Hmain : exists evs r res,
    main E NP codec tokenizer args cfg input_ids text_emb vis_proj w
    = ({| rng := r; trace := trace w ++ evs |}, res)
    ∧ (length (samples_of evs) <= Z.to_nat (max_new_tokens args))%nat
    ∧ quiet_after (eos_id cfg) evs = true
    ∧ (res = Ok tt -> (exists q, input_ids !! q = Some (image_token_id cfg)) ->
         exists text,
           decode codec tokenizer (before_first (eos_id cfg) (samples_of evs)) = Ok text
           ∧ last evs = Some (EvText text))).
  { unfold main.
    destruct (np_where_eq input_ids (image_token_id cfg) 0) as [|image_pos others] eqn:Hpos.
    { exists [EvWarning], (rng w), (Ok tt). split; [reflexivity|].
      split; [simpl; lia|]. split; [reflexivity|].
      intros _ [q Hq]. by destruct (np_where_eq_some _ _ 0%nat _ Hq). }
    unfold lift, decoder, emit, mbind, run_bind, mret, run_ret.
    cbn [rng trace inputs_embeds attention_mask position_ids past_key_values].
    destruct (fuse_embeddings (zeros E) image_pos text_emb vis_proj) as [embeds|e|].
    2:{ exists [], (rng w), (Raise e). split; [f_equal; apply world_eta|].
        repeat split; [simpl; lia|discriminate]. }
    2:{ exists [], (rng w), OutOfFuel. split; [f_equal; apply world_eta|].
        repeat split; [simpl; lia|discriminate]. }
    destruct (head (filter (fun b : bool => b = true) (layer_inputs E))) as [kv0|];
      cbn [or_raise].
    2:{ exists [], (rng w), (Raise IndexError). split; [f_equal; apply world_eta|].
        repeat split; [simpl; lia|discriminate]. }
    match goal with
    | |- context [last (logits ?out)] =>
        set (out0 := out); destruct (last (logits out0)) as [row|]
    end; cbn [or_raise].
    2:{ eexists [_], (rng w), (Raise IndexError). split; [reflexivity|].
        repeat split; [simpl; lia|discriminate]. }
    match goal with
    | |- context [decode_steps E NP codec tokenizer args cfg ?n ?s ?st1 ?w1] =>
        destruct (decode_steps_spec E NP codec tokenizer args cfg n s st1 w1)
          as (evs & r & o & -> & Hcount & Hquiet & Hgen)
    end.
    cbn [rng trace]. rewrite <- app_assoc.
    match goal with
    | |- context [[?e] ++ evs] => set (prefill := e)
    end.
    assert (Hpre : forall tail, samples_of ([prefill] ++ evs ++ tail)
                                = samples_of evs ++ samples_of tail).
    { intros tail. by rewrite !samples_of_app. }
    destruct o as [st|e|].
    2:{ exists ([prefill] ++ evs), r, (Raise e). split; [reflexivity|].
        rewrite <- (app_nil_r evs), Hpre, app_nil_r. split; [exact Hcount|].
        split; [|discriminate]. by rewrite app_nil_r. }
    2:{ exists ([prefill] ++ evs), r, OutOfFuel. split; [reflexivity|].
        rewrite <- (app_nil_r evs), Hpre, app_nil_r. split; [exact Hcount|].
        split; [|discriminate]. by rewrite app_nil_r. }
    specialize (Hgen st eq_refl). cbn [generated app] in Hgen.
    unfold cut_at_eos. rewrite cut_is_before_first, Hgen.
    destruct (decode codec tokenizer (before_first (eos_id cfg) (samples_of evs)))
      as [text|e|] eqn:Hdecode.
    - exists ([prefill] ++ evs ++ [EvText text]), r, (Ok tt).
      split; [cbn [rng trace]; by rewrite <- !app_assoc|].
      rewrite Hpre. change (samples_of [EvText text]) with (@nil Z).
      rewrite app_nil_r.
      split; [exact Hcount|]. split.
      + change ([prefill] ++ evs ++ [EvText text]) with (prefill :: (evs ++ [EvText text])).
        subst prefill. cbn [quiet_after]. by apply quiet_app_prints.
      + intros _ _. exists text. split; [exact Hdecode|].
        by rewrite !app_assoc, last_snoc.
    - exists ([prefill] ++ evs), r, (Raise e). split; [reflexivity|].
      rewrite <- (app_nil_r evs), Hpre, app_nil_r. split; [exact Hcount|].
      split; [|discriminate]. by rewrite app_nil_r.
    - exists ([prefill] ++ evs), r, OutOfFuel. split; [reflexivity|].
      rewrite <- (app_nil_r evs), Hpre, app_nil_r. split; [exact Hcount|].
      split; [|discriminate]. by rewrite app_nil_r. }
  destruct Hmain as (evs & r & res & Hrun & Hcount & Hquiet & Htext).
  exists evs, r, res. split; [exact Hrun|]. split; [exact Hcount|]. split.
  { intros pre post. by apply quiet_after_eos_prints. }
  split; [by apply quiet_eos_is_last|]. split; [|exact Htext].
  intros Hfirst. pose proof (quiet_eos_is_last _ _ Hquiet 0%nat) as Hlast.
  destruct (samples_of evs) as [|x [|y rest]]; [done| |].
  - simpl in Hfirst. congruence.
  - simpl in Hfirst. injection Hfirst as ->. specialize (Hlast eq_refl).
    simpl in Hlast. lia.
Qed.

(** Two runs on the small instance, which has the end token 2 and prints
    every step.  When the generator starts at 0 the first draw is the end
    token and the run ends at once; started at 1 it draws 1, 0 and then 2. *)
Example run_ends_at_first_draw :
  main small_engine cycling_numpy python_utf8 overlap_tokenizer small_args small_config
    [10; 11; 7; 12] [100; 101; 102; 103] [1; 2; 3] {| rng := 0%nat; trace := [] |}
  = ({| rng := 1%nat;
        trace := [EvDecoder 6 6 [0; 1; 2; 3; 4; 5] 2; EvSample 2; EvStep 0 2 [];
                  EvText []] |}, Ok tt).
Proof. vm_compute. reflexivity. Qed.

Example run_ends_at_third_draw :
  samples_of
    (trace (main small_engine cycling_numpy python_utf8 overlap_tokenizer small_args
              small_config [10; 11; 7; 12] [100; 101; 102; 103] [1; 2; 3]
              {| rng := 1%nat; trace := [] |}).1)
  = [1; 0; 2].
Proof. vm_compute. reflexivity. Qed.

(* ------------------------------------------------------------------ *)
(** * Further properties of the tokenizer *)

(** ** What the merges keep *)

Lemma merge_pair_spec_concat (a b : list Z) (w : list str) :
  concat (merge_pair_spec a b w) = concat w.
Proof.
  remember (length w) as n eqn:Hn. revert w Hn.
  induction n as [n IH] using lt_wf_ind. intros w ->.
  destruct w as [|x [|y r]]; [reflexivity|reflexivity|].
  simpl. destruct (decide (x = a ∧ y = b)) as [[-> ->]|_].
  - simpl. rewrite (IH (length r) ltac:(simpl; lia) r eq_refl).
    by rewrite <- app_assoc.
  - simpl. f_equal.
    exact (IH (length (y :: r)) ltac:(simpl; lia) (y :: r) eq_refl).
Qed.

Lemma merge_pair_spec_Forall (P : list Z -> Prop) (a b : list Z) (w : list str) :
  P (a ++ b) -> Forall P w -> Forall P (merge_pair_spec a b w).
Proof.
  intros Hab. remember (length w) as n eqn:Hn. revert w Hn.
  induction n as [n IH] using lt_wf_ind. intros w -> Hw.
  destruct w as [|x [|y r]]; [constructor|exact Hw|].
  simpl. destruct (decide (x = a ∧ y = b)) as [_|_].
  - constructor; [exact Hab|].
    apply (IH (length r) ltac:(simpl; lia) r eq_refl).
    by apply Forall_cons in Hw as [_ [_ Hr]%Forall_cons].
  - apply Forall_cons in Hw as [Hx Hw]. constructor; [exact Hx|].
    exact (IH (length (y :: r)) ltac:(simpl; lia) (y :: r) eq_refl Hw).
Qed.

Lemma adjacent_elem (a b : list Z) (w : list str) :
  adjacent a b w -> a ∈ w ∧ b ∈ w.
Proof.
  intros (i & Ha & Hb). split; eapply list_elem_of_lookup_2; eassumption.
Qed.

(** A property of the word that every merge of a ranked adjacent pair keeps
    holds of what [_bpe] returns. *)
Lemma bpe_loop_invariant `{SetIteration} (ranks : gmap (str * str) Z)
    (P : list str -> Prop) :
  (forall a b w, is_Some (ranks !! (a, b)) -> adjacent a b w -> P w ->
     P (merge_pair_spec a b w)) ->
  forall fuel word, (2 <= length word <= fuel)%nat -> P word ->
  exists res, bpe_loop fuel ranks word (_get_pairs word) = Ok res ∧ P res.
Proof.
  intros Hkeep. induction fuel as [|fuel IH]; intros word [Hlo Hhi] HP; [lia|].
  simpl.
  assert (Hne : set_iter (_get_pairs word) <> []).
  { destruct word as [|x [|y r]]; simpl in Hlo; [lia|lia|].
    assert (Hin : (x, y) ∈ _get_pairs (x :: y :: r)).
    { apply get_pairs_spec, adjacent_cons. by left. }
    apply set_iter_elem in Hin. intros Hnil. rewrite Hnil in Hin.
    by apply elem_of_nil in Hin. }
  destruct (py_min_by_spec (rank_key ranks) _ Hne) as ([a b] & -> & Hin & _).
  simpl. apply set_iter_elem, get_pairs_spec in Hin.
  destruct (ranks !! (a, b)) as [r|] eqn:Hr; [|by eexists].
  rewrite merge_loop_spec by lia. simpl. rewrite drop_0.
  pose proof (merge_pair_spec_shrinks a b word Hin) as Hshrink.
  assert (HP' : P (merge_pair_spec a b word)).
  { apply Hkeep; [by rewrite Hr|exact Hin|exact HP]. }
  destruct (decide (length (merge_pair_spec a b word) = 1%nat)); [by eexists|].
  assert (merge_pair_spec a b word <> []).
  { apply merge_pair_spec_nonempty. intros ->. simpl in Hlo. lia. }
  assert (length (merge_pair_spec a b word) <> 0%nat)
    by (by destruct (merge_pair_spec a b word)).
  apply IH; [lia|exact HP'].
Qed.

Lemma bpe_invariant `{SetIteration} (ranks : gmap (str * str) Z)
    (P : list str -> Prop) (token : list Z) :
  (forall a b w, is_Some (ranks !! (a, b)) -> adjacent a b w -> P w ->
     P (merge_pair_spec a b w)) ->
  P (List.map (fun c => [c]) token) ->
  exists res, _bpe ranks token = Ok res ∧ P res.
Proof.
  intros Hkeep HP. destruct token as [|c token]; [by exists []|].
  unfold _bpe.
  destruct (decide (_get_pairs (List.map (fun c0 => [c0]) (c :: token)) = []))
    as [Hempty|Hpairs].
  - apply get_pairs_empty in Hempty. simpl in Hempty.
    destruct token; simpl in Hempty; [|lia]. by exists [[c]].
  - apply bpe_loop_invariant; [exact Hkeep| |exact HP]. split; [|lia].
    destruct (Nat.le_gt_cases 2 (length (List.map (fun c0 => [c0]) (c :: token))))
      as [Hge|Hlt]; [exact Hge|].
    exfalso. apply Hpairs, get_pairs_empty. lia.
Qed.

Lemma concat_singletons {X} (xs : list X) : concat (List.map (fun c => [c]) xs) = xs.
Proof. induction xs as [|x xs IH]; simpl; [reflexivity|by rewrite IH]. Qed.

(** X1. Whatever the merge table and the order in which the set of pairs
    is iterated, [_bpe] returns symbols that, joined, are the token it was
    given: merging changes where the symbols are cut, never a character.
    No symbol is empty and there are at most as many as characters. *)
Theorem bpe_keeps_the_text `{SetIteration} (ranks : gmap (str * str) Z)
    (token : list Z) :
  exists word,
    _bpe ranks token = Ok word
    ∧ concat word = token
    ∧ Forall (fun s => (1 <= length s)%nat) word
    ∧ (length word <= length token)%nat.
Proof.
  destruct (bpe_invariant ranks
              (fun w => concat w = token
                        ∧ Forall (fun s => (1 <= length s)%nat) w
                        ∧ (length w <= length token)%nat) token)
    as (word & Hword & HP).
  - intros a b w _ Hadj (Hcat & Hne & Hlen).
    split; [by rewrite merge_pair_spec_concat|]. split.
    + apply merge_pair_spec_Forall; [|exact Hne].
      destruct (adjacent_elem a b w Hadj) as [Ha _].
      rewrite Forall_forall in Hne. specialize (Hne a Ha).
      rewrite length_app. lia.
    + pose proof (merge_pair_spec_length a b w). lia.
  - split; [apply concat_singletons|]. split.
    + apply Forall_forall. intros s Hs.
      apply list_elem_of_In, in_map_iff in Hs as (c & <- & _). simpl. lia.
    + by rewrite length_map.
  - by exists word.
Qed.

(** X2. Every symbol [_bpe] returns is a single character of the token or
    the concatenation of a pair of the merge table, so a vocabulary that
    holds the single characters and the merged pairs holds every symbol. *)
Theorem bpe_symbols_are_characters_or_merges `{SetIteration}
    (ranks : gmap (str * str) Z) (token : list Z) :
  exists word,
    _bpe ranks token = Ok word
    ∧ Forall (fun s => (exists c, c ∈ token ∧ s = [c])
                       ∨ (exists a b, is_Some (ranks !! (a, b)) ∧ s = a ++ b)) word.
Proof.
  apply bpe_invariant.
  - intros a b w Hab _ Hw. apply merge_pair_spec_Forall; [|exact Hw].
    right. by exists a, b.
  - apply Forall_forall. intros s Hs.
    apply list_elem_of_In, in_map_iff in Hs as (c & <- & Hc).
    left. exists c. split; [by apply list_elem_of_In|reflexivity].
Qed.

(** ** Reading [merges.txt] *)

Lemma py_split_fields (sep : Z) (s : list Z) :
  exists field fields, py_split sep s = field :: fields.
Proof.
  induction s as [|c s (f & fs & IH)]; simpl; [by eexists _, _|].
  destruct (decide (c = sep)); [by eexists _, _|].
  rewrite IH. by eexists _, _.
Qed.

Lemma py_split_one (sep : Z) (s a : list Z) :
  py_split sep s = [a] -> s = a ∧ (sep ∉ a).
Proof.
  revert a. induction s as [|c s IH]; intros a; simpl.
  - intros [= <-]. split; [reflexivity|apply not_elem_of_nil].
  - destruct (py_split_fields sep s) as (f & fs & Hs).
    destruct (decide (c = sep)) as [->|Hne]; rewrite Hs; [discriminate|].
    destruct fs; [|discriminate]. intros [= <-].
    destruct (IH f Hs) as [-> Hf]. split; [reflexivity|].
    by apply not_elem_of_cons.
Qed.

Lemma py_split_two (sep : Z) (s a b : list Z) :
  py_split sep s = [a; b] -> s = a ++ (sep :: b) ∧ (sep ∉ a) ∧ (sep ∉ b).
Proof.
  revert a b. induction s as [|c s IH]; intros a b; simpl; [discriminate|].
  destruct (py_split_fields sep s) as (f & fs & Hs).
  destruct (decide (c = sep)) as [->|Hne]; rewrite Hs.
  - intros [= <- -> ->]. destruct (py_split_one sep s b Hs) as [-> Hb].
    split; [reflexivity|]. split; [apply not_elem_of_nil|exact Hb].
  - destruct fs as [|g [|h fs]]; try discriminate. intros [= <- <-].
    destruct (IH f g Hs) as (-> & Hf & Hg).
    split; [reflexivity|]. split; [by apply not_elem_of_cons|exact Hg].
Qed.

Lemma kind_of_line_rule (line a b : list Z) :
  kind_of_line line = Rule a b ->
  strip line = a ++ (32 :: b) ∧ a <> [] ∧ b <> [] ∧ (32 ∉ a) ∧ (32 ∉ b).
Proof.
  unfold kind_of_line.
  destruct (blank_or_comment (strip line)); [discriminate|].
  destruct (py_split 32 (strip line)) as [|f [|g [|h fs]]] eqn:Hs; try discriminate.
  intros [= -> ->]. destruct (py_split_two _ _ _ _ Hs) as (Hln & Ha & Hb).
  split; [exact Hln|].
  destruct (strip_spec line) as (l & r & _ & _ & _ & Hhead & Hlast).
  rewrite Hln in Hhead, Hlast.
  split; [|split; [|by split]].
  - intros ->. by specialize (Hhead 32 eq_refl).
  - intros ->. specialize (Hlast 32).
    rewrite last_snoc in Hlast.
    by specialize (Hlast eq_refl).
Qed.

Lemma merges_line_kind (st : gmap (str * str) Z * Z) (line : list Z) :
  merges_line st line
  = match kind_of_line line with
    | Skipped => Ok st
    | Rule a b => Ok (<[(a, b) := st.2]> st.1, st.2 + 1)
    | Malformed => Raise ValueError
    end.
Proof.
  unfold merges_line, kind_of_line.
  destruct (blank_or_comment (strip line)); [reflexivity|].
  by destruct (py_split 32 (strip line)) as [|f [|g [|h fs]]].
Qed.

(** Reading the lines is loading the rules they state, unless a line is
    malformed. *)
Lemma for_each_merges_line (lines : list str) (st : gmap (str * str) Z * Z) :
  for_each merges_line lines st
  = if forallb well_formed lines
    then Ok (fold_left (fun st ab => (<[ab := st.2]> st.1, st.2 + 1)) (rules_of lines) st)
    else Raise ValueError.
Proof.
  revert st. induction lines as [|line lines IH]; intros st; [reflexivity|].
  cbn [for_each forallb]. rewrite merges_line_kind.
  unfold rules_of, well_formed. cbn [omap list_omap].
  destruct (kind_of_line line) as [|a b|]; cbn [andb].
  - rewrite bind_ok. apply IH.
  - rewrite bind_ok, IH. reflexivity.
  - reflexivity.
Qed.

(** The table after the rules [done]: a pair has the index of the last
    rule that names it. *)
Lemma load_merges_fold (rules : list (str * str)) :
  let st := fold_left (fun (st : gmap (str * str) Z * Z) ab =>
                         (<[ab := st.2]> st.1, st.2 + 1)) rules (∅, 0) in
  st.2 = Z.of_nat (length rules)
  ∧ forall p r, st.1 !! p = Some r <->
      exists i : nat, r = Z.of_nat i ∧ rules !! i = Some p
                      ∧ forall j : nat, (i < j)%nat -> rules !! j <> Some p.
Proof.
  induction rules as [|ab rules IH] using rev_ind.
  - split; [reflexivity|]. intros p r. simpl. rewrite lookup_empty. split; [done|].
    by intros (i & _ & Hi & _).
  - rewrite fold_left_app. cbn [fold_left].
    destruct (fold_left _ rules (∅, 0)) as [m n]. cbn [fst snd] in *.
    destruct IH as [-> IH]. split; [rewrite length_app; simpl; lia|].
    intros p r. destruct (decide (ab = p)) as [->|Hne].
    + rewrite lookup_insert_eq. split.
      * intros [= <-]. exists (length rules). split; [reflexivity|].
        split; [by rewrite lookup_app_r, Nat.sub_diag by lia|].
        intros j Hj Hp. apply lookup_lt_Some in Hp.
        rewrite length_app in Hp. simpl in Hp. lia.
      * intros (i & -> & Hi & Hlast). f_equal.
        destruct (decide (i = length rules)) as [->|Hi']; [reflexivity|].
        exfalso. apply (Hlast (length rules)).
        -- apply lookup_lt_Some in Hi. rewrite length_app in Hi. simpl in Hi. lia.
        -- by rewrite lookup_app_r, Nat.sub_diag by lia.
    + rewrite lookup_insert_ne by exact Hne. rewrite IH. split.
      * intros (i & -> & Hi & Hlast). exists i. split; [reflexivity|].
        pose proof (lookup_lt_Some _ _ _ Hi) as Hlt.
        split; [by rewrite lookup_app_l|].
        intros j Hj Hp. destruct (decide (j < length rules)%nat) as [Hjl|Hjl].
        -- rewrite lookup_app_l in Hp by exact Hjl. by apply (Hlast j).
        -- rewrite lookup_app_r in Hp by lia.
           destruct (j - length rules)%nat; simpl in Hp; [congruence|discriminate].
      * intros (i & -> & Hi & Hlast). exists i. split; [reflexivity|].
        destruct (decide (i < length rules)%nat) as [Hil|Hil].
        -- rewrite lookup_app_l in Hi by exact Hil. split; [exact Hi|].
           intros j Hj Hp. apply (Hlast j Hj).
           rewrite lookup_app_l; [exact Hp|]. by eapply lookup_lt_Some.
        -- rewrite lookup_app_r in Hi by lia.
           destruct (i - length rules)%nat; simpl in Hi; [congruence|discriminate].
Qed.

Lemma load_files_merges_spec (lines : list str) :
  _load_files_merges lines
  = if forallb well_formed lines then Ok (load_merges (rules_of lines))
    else Raise ValueError.
Proof.
  unfold _load_files_merges. rewrite for_each_merges_line.
  by destruct (forallb well_formed lines).
Qed.

Lemma rules_of_length (lines : list str) :
  (length (rules_of lines) <= length lines)%nat.
Proof.
  unfold rules_of. induction lines as [|line lines IH]; cbn [omap list_omap]; [done|].
  destruct (kind_of_line line); simpl; lia.
Qed.

Lemma rules_of_elem (lines : list str) (a b : list Z) :
  (a, b) ∈ rules_of lines <-> exists line, line ∈ lines ∧ kind_of_line line = Rule a b.
Proof.
  unfold rules_of. rewrite list_elem_of_omap. split.
  - intros (line & Hin & Hk). exists line. split; [exact Hin|].
    destruct (kind_of_line line); congruence.
  - intros (line & Hin & Hk). exists line. split; [exact Hin|]. by rewrite Hk.
Qed.

Lemma well_formed_all (lines : list str) :
  forallb well_formed lines = true
  <-> Forall (fun line => kind_of_line line <> Malformed) lines.
Proof.
  rewrite forallb_forall, Forall_forall. unfold well_formed.
  split; intros Hall line Hin.
  - apply list_elem_of_In, Hall in Hin. by destruct (kind_of_line line).
  - apply list_elem_of_In, Hall in Hin. by destruct (kind_of_line line).
Qed.

(** X3. Reading [merges.txt] succeeds exactly when every line is blank, a
    comment, or two fields around a single space; any other line makes it
    raise [ValueError].  The ranks then count the rule lines only: a pair
    has the position, among the rule lines, of the last line that states it,
    so blank lines and comments take no rank and a repeated rule moves to
    the later rank. *)
Theorem merges_ranks_count_rule_lines (lines : list str) :
  (_load_files_merges lines = Raise ValueError
   <-> exists line, line ∈ lines ∧ kind_of_line line = Malformed)
  ∧ (forall ranks,
       _load_files_merges lines = Ok ranks <->
       Forall (fun line => kind_of_line line <> Malformed) lines
       ∧ ranks = load_merges (rules_of lines))
  ∧ (forall ranks a b r,
       _load_files_merges lines = Ok ranks ->
       (ranks !! (a, b) = Some r <->
        exists i : nat, r = Z.of_nat i ∧ rules_of lines !! i = Some (a, b)
          ∧ forall j : nat, (i < j)%nat -> rules_of lines !! j <> Some (a, b))).
Proof.
  rewrite load_files_merges_spec.
  pose proof (well_formed_all lines) as Hwf.
  split; [|split].
  - destruct (forallb well_formed lines) eqn:Hall.
    + split; [discriminate|]. intros (line & Hin & Hk).
      destruct Hwf as [Hwf _]. specialize (Hwf eq_refl).
      rewrite Forall_forall in Hwf. by destruct (Hwf line Hin).
    + split; [intros _|reflexivity].
      clear Hwf. induction lines as [|line lines IH]; [discriminate|].
      cbn [forallb] in Hall. apply andb_false_iff in Hall as [Hline|Hrest].
      * exists line. split; [apply list_elem_of_here|].
        unfold well_formed in Hline. by destruct (kind_of_line line).
      * destruct (IH Hrest) as (bad & Hin & Hbad). exists bad.
        split; [by apply list_elem_of_further|exact Hbad].
  - intros ranks. destruct (forallb well_formed lines) eqn:Hall.
    + destruct Hwf as [Hwf _]. specialize (Hwf eq_refl).
      split; [by intros [= <-]|by intros [_ ->]].
    + split; [discriminate|]. intros [Hall' _]. apply Hwf in Hall'. discriminate.
  - intros ranks a b r. destruct (forallb well_formed lines); [|discriminate].
    intros [= <-]. unfold load_merges.
    apply (proj2 (load_merges_fold (rules_of lines))).
Qed.

(** X4. Every pair of a table read from [merges.txt] comes from a line
    that, stripped, is its two components around one space; neither
    component is empty or holds a space, and the rank is below the number of
    lines. *)
Theorem merge_rules_have_two_plain_fields (lines : list str)
    (ranks : gmap (str * str) Z) (a b : list Z) (r : Z) :
  _load_files_merges lines = Ok ranks ->
  ranks !! (a, b) = Some r ->
  (exists line, line ∈ lines ∧ strip line = a ++ (32 :: b))
  ∧ a <> [] ∧ b <> [] ∧ (32 ∉ a) ∧ (32 ∉ b)
  ∧ 0 <= r < Z.of_nat (length lines).
Proof.
  rewrite load_files_merges_spec.
  destruct (forallb well_formed lines); [|discriminate]. intros [= <-] Hr.
  apply (proj2 (load_merges_fold (rules_of lines))) in Hr as (i & -> & Hi & _).
  pose proof (lookup_lt_Some _ _ _ Hi) as Hlt.
  pose proof (rules_of_length lines) as Hlen.
  apply list_elem_of_lookup_2, rules_of_elem in Hi as (line & Hin & Hkind).
  destruct (kind_of_line_rule line a b Hkind) as (Hln & Ha & Hb & Hsa & Hsb).
  split; [by exists line|]. repeat split; try assumption; lia.
Qed.

Lemma merge_rules_have_two_plain_fields_witness :
  (exists line, line ∈ [str_of "#version: 0.2"; str_of " l o "; [108; 111; 32; 119; 10]]
                ∧ strip line = str_of "lo" ++ (32 :: str_of "w"))
  ∧ str_of "lo" <> [] ∧ str_of "w" <> [] ∧ (32 ∉ str_of "lo") ∧ (32 ∉ str_of "w")
  ∧ 0 <= 1 < Z.of_nat (length [str_of "#version: 0.2"; str_of " l o "; [108; 111; 32; 119; 10]]).
Proof.
  apply (merge_rules_have_two_plain_fields
           [str_of "#version: 0.2"; str_of " l o "; [108; 111; 32; 119; 10]]
           example_ranks (str_of "lo") (str_of "w") 1).
  - vm_compute. reflexivity.
  - vm_compute. reflexivity.
Defined.

(** ** The merges do not depend on the order of a set *)

Lemma bpe_merges_deterministic (ranks : gmap (str * str) Z) :
  (forall p q r, ranks !! p = Some r -> ranks !! q = Some r -> p = q) ->
  forall w res1 res2,
    bpe_merges ranks w res1 -> bpe_merges ranks w res2 -> res1 = res2.
Proof.
  intros Hinj w res1 res2 Hrun1. revert res2.
  induction Hrun1 as [w Hlen|w Hnone|w a b r res Hadj Hr Hlow Hrun1 IH];
    intros res2 Hrun2.
  - inversion Hrun2 as [| |w' a b r res' Hadj]; subst; try reflexivity.
    destruct (adjacent_short a b w Hlen Hadj).
  - inversion Hrun2 as [| |w' a b r res' Hadj Hr]; subst; try reflexivity.
    rewrite (Hnone a b Hadj) in Hr. discriminate.
  - inversion Hrun2 as [w' Hlen|w' Hnone|w' a' b' r' res' Hadj' Hr' Hlow' Hrun2'];
      subst.
    + destruct (adjacent_short a b _ Hlen Hadj).
    + rewrite (Hnone a b Hadj) in Hr. discriminate.
    + assert (r = r').
      { pose proof (Hlow a' b' r' Hadj' Hr'). pose proof (Hlow' a b r Hadj Hr). lia. }
      subst r'. assert (Heq : (a, b) = (a', b')) by (by apply (Hinj _ _ r)).
      injection Heq as <- <-. by apply IH.
Qed.

Lemma load_merges_injective (rules : list (str * str)) (p q : str * str) (r : Z) :
  load_merges rules !! p = Some r -> load_merges rules !! q = Some r -> p = q.
Proof.
  unfold load_merges. intros Hp Hq.
  apply (proj2 (load_merges_fold rules)) in Hp as (i & -> & Hi & _).
  apply (proj2 (load_merges_fold rules)) in Hq as (j & Hij & Hj & _).
  apply Nat2Z.inj in Hij as ->. congruence.
Qed.

(** X5. With a merge table read from a [merges.txt] of at most [10**9]
    lines, what [_bpe] returns does not depend on the order in which
    Python iterates the set of pairs: the ranks of such a table are all
    different and below the rank given to absent pairs, so the pair picked
    by [min] is the same in every order. *)
Theorem bpe_result_ignores_set_order (order1 order2 : SetIteration)
    (lines : list str) (ranks : gmap (str * str) Z) (token : list Z) :
  _load_files_merges lines = Ok ranks ->
  Z.of_nat (length lines) <= absent_rank ->
  @_bpe order1 ranks token = @_bpe order2 ranks token.
Proof.
  rewrite load_files_merges_spec.
  destruct (forallb well_formed lines); [|discriminate]. intros [= <-] Hlen.
  assert (Hbelow : map_Forall (fun _ r => r < absent_rank) (load_merges (rules_of lines))).
  { apply load_merges_below_absent. pose proof (rules_of_length lines). lia. }
  destruct (@bpe_spec order1 _ Hbelow token) as (res1 & -> & Hrun1).
  destruct (@bpe_spec order2 _ Hbelow token) as (res2 & -> & Hrun2).
  f_equal. eapply bpe_merges_deterministic; [|exact Hrun1|exact Hrun2].
  apply load_merges_injective.
Qed.

Lemma bpe_result_ignores_set_order_witness :
  @_bpe first_added_iteration example_ranks (str_of "lowlow")
  = @_bpe last_added_iteration example_ranks (str_of "lowlow").
Proof.
  apply (bpe_result_ignores_set_order first_added_iteration last_added_iteration
           [str_of "#version: 0.2"; str_of " l o "; [108; 111; 32; 119; 10]]).
  - vm_compute. reflexivity.
  - vm_compute. discriminate.
Defined.

(** With two pairs of the same rank, which no table read from a file has,
    the order decides: "abc" becomes "ab", "c" in one order and "a", "bc"
    in the other. *)
Example tied_ranks_depend_on_set_order :
  let tied : gmap (str * str) Z :=
    <[(str_of "b", str_of "c") := 0]> {[ (str_of "a", str_of "b") := 0 ]} in
  @_bpe first_added_iteration tied (str_of "abc") = Ok [str_of "ab"; str_of "c"]
  ∧ @_bpe last_added_iteration tied (str_of "abc") = Ok [str_of "a"; str_of "bc"].
Proof. vm_compute. split; reflexivity. Qed.

(** ** The tables read from [vocab.json] *)

Lemma load_files_vocab_snoc (vj : list (str * Z)) (kv : str * Z) :
  _load_files_vocab (vj ++ [kv])
  = (<[kv.1 := kv.2]> (_load_files_vocab vj).1, <[kv.2 := kv.1]> (_load_files_vocab vj).2).
Proof. unfold _load_files_vocab. by rewrite fold_left_app. Qed.

Lemma vocab_lookup (vj : list (str * Z)) :
  NoDup vj.*1 ->
  forall k v, (_load_files_vocab vj).1 !! k = Some v <-> (k, v) ∈ vj.
Proof.
  induction vj as [|[k0 v0] vj IH] using rev_ind; intros Hkeys k v.
  - cbn. rewrite lookup_empty. split; [done|by intros ?%elem_of_nil].
  - rewrite fmap_app in Hkeys. apply NoDup_app in Hkeys as (Hkeys & Hfresh & _).
    rewrite load_files_vocab_snoc, elem_of_app, list_elem_of_singleton. cbn [fst snd].
    destruct (decide (k0 = k)) as [->|Hne].
    + rewrite lookup_insert_eq. split.
      * intros [= ->]. by right.
      * intros [Hin|[= ->]]; [|reflexivity]. exfalso.
        apply (Hfresh k); [|apply list_elem_of_here].
        apply list_elem_of_fmap. by exists (k, v).
    + rewrite lookup_insert_ne by exact Hne. rewrite (IH Hkeys). split.
      * by left.
      * intros [Hin|[= -> _]]; [exact Hin|done].
Qed.

Lemma tokens_lookup (vj : list (str * Z)) (v : Z) (k : list Z) :
  (_load_files_vocab vj).2 !! v = Some k -> (k, v) ∈ vj.
Proof.
  revert k v. induction vj as [|[k0 v0] vj IH] using rev_ind; intros k v.
  - cbn. by rewrite lookup_empty.
  - rewrite load_files_vocab_snoc, elem_of_app, list_elem_of_singleton. cbn [fst snd].
    destruct (decide (v0 = v)) as [->|Hne].
    + rewrite lookup_insert_eq. intros [= ->]. by right.
    + rewrite lookup_insert_ne by exact Hne. intros Hk. left. by apply IH.
Qed.

Lemma tokens_lookup_last (vj : list (str * Z)) (v : Z) :
  is_Some ((_load_files_vocab vj).2 !! v) <-> v ∈ vj.*2.
Proof.
  induction vj as [|[k0 v0] vj IH] using rev_ind.
  - cbn. rewrite lookup_empty. split; [by intros [? ?]|by intros ?%elem_of_nil].
  - rewrite load_files_vocab_snoc, fmap_app, elem_of_app. cbn [fst snd fmap list_fmap].
    rewrite list_elem_of_singleton.
    destruct (decide (v0 = v)) as [->|Hne].
    + rewrite lookup_insert_eq. split; [by right|by eexists].
    + rewrite lookup_insert_ne by exact Hne. rewrite IH. split; [by left|].
      by intros [?|?].
Qed.

Lemma tokens_lookup_unique (vj : list (str * Z)) :
  NoDup vj.*2 ->
  forall k v, (k, v) ∈ vj -> (_load_files_vocab vj).2 !! v = Some k.
Proof.
  induction vj as [|[k0 v0] vj IH] using rev_ind; intros Hids k v.
  - by intros ?%elem_of_nil.
  - rewrite fmap_app in Hids. apply NoDup_app in Hids as (Hids & Hfresh & _).
    rewrite load_files_vocab_snoc, elem_of_app, list_elem_of_singleton. cbn [fst snd].
    intros [Hin|[= -> ->]]; [|by rewrite lookup_insert_eq].
    rewrite lookup_insert_ne; [by apply IH|]. intros ->.
    apply (Hfresh v); [|apply list_elem_of_here].
    apply list_elem_of_fmap. by exists (k, v).
Qed.

Lemma tokens_lookup_later (pre post : list (str * Z)) (k : list Z) (v : Z) :
  v ∉ post.*2 -> (_load_files_vocab (pre ++ (k, v) :: post)).2 !! v = Some k.
Proof.
  induction post as [|[k0 v0] post IH] using rev_ind; intros Hpost.
  - rewrite load_files_vocab_snoc. cbn [fst snd]. by rewrite lookup_insert_eq.
  - rewrite fmap_app in Hpost. apply not_elem_of_app in Hpost as [Hpost Hv0].
    change (pre ++ (k, v) :: post ++ [(k0, v0)])
      with (pre ++ ((k, v) :: post) ++ [(k0, v0)]).
    rewrite app_assoc, load_files_vocab_snoc. cbn [fst snd].
    rewrite lookup_insert_ne; [by apply IH|]. intros ->.
    apply Hv0, list_elem_of_here.
Qed.

(** X6. The two tables read from [vocab.json].  The vocabulary maps every
    token of the file to its id.  The id table maps an id only to a token
    that has this id, and it knows exactly the ids of the file; when several
    tokens share an id it records the last of them.  So the tables are
    inverse to each other exactly as far as the ids of the file are
    different, and fully when all of them are. *)
Theorem vocab_tables_are_inverse (vj : list (str * Z)) :
  NoDup vj.*1 ->
  let self_vocab := (_load_files_vocab vj).1 in
  let self_id_to_token := (_load_files_vocab vj).2 in
  (forall k v, self_vocab !! k = Some v <-> (k, v) ∈ vj)
  ∧ (forall v k, self_id_to_token !! v = Some k -> self_vocab !! k = Some v)
  ∧ (forall v, is_Some (self_id_to_token !! v) <-> exists k, self_vocab !! k = Some v)
  ∧ (forall pre k v post, vj = pre ++ (k, v) :: post -> v ∉ post.*2 ->
       self_id_to_token !! v = Some k)
  ∧ (NoDup vj.*2 ->
       forall k v, self_vocab !! k = Some v <-> self_id_to_token !! v = Some k).
Proof.
  intros Hkeys self_vocab self_id_to_token. subst self_vocab self_id_to_token.
  pose proof (vocab_lookup vj Hkeys) as Hvocab.
  split; [exact Hvocab|]. split.
  { intros v k Hk. by apply Hvocab, tokens_lookup. }
  split.
  { intros v. rewrite tokens_lookup_last, list_elem_of_fmap. split.
    - intros ([k v'] & -> & Hin). exists k. by apply Hvocab.
    - intros (k & Hk). exists (k, v). split; [reflexivity|by apply Hvocab]. }
  split.
  { intros pre k v post -> Hpost. by apply tokens_lookup_later. }
  intros Hids k v. split.
  - intros Hk. by apply tokens_lookup_unique, Hvocab.
  - intros Hk. by apply Hvocab, tokens_lookup.
Qed.

Lemma vocab_tables_are_inverse_witness :
  let vj := [(str_of "a", 1); (str_of "b", 2); (str_of "c", 2)] in
  let self_vocab := (_load_files_vocab vj).1 in
  let self_id_to_token := (_load_files_vocab vj).2 in
  (forall k v, self_vocab !! k = Some v <-> (k, v) ∈ vj)
  ∧ (forall v k, self_id_to_token !! v = Some k -> self_vocab !! k = Some v)
  ∧ (forall v, is_Some (self_id_to_token !! v) <-> exists k, self_vocab !! k = Some v)
  ∧ (forall pre k v post, vj = pre ++ (k, v) :: post -> v ∉ post.*2 ->
       self_id_to_token !! v = Some k)
  ∧ (NoDup vj.*2 ->
       forall k v, self_vocab !! k = Some v <-> self_id_to_token !! v = Some k).
Proof.
  apply (vocab_tables_are_inverse [(str_of "a", 1); (str_of "b", 2); (str_of "c", 2)]).
  apply (bool_decide_unpack _). vm_compute. exact I.
Defined.

(** Two tokens with the id 2: the vocabulary knows both, the id table only
    "c", so "b" is encoded as 2 and 2 is decoded as "c". *)
Example shared_id_decodes_to_later_token :
  let tables := _load_files_vocab [(str_of "a", 1); (str_of "b", 2); (str_of "c", 2)] in
  tables.1 !! str_of "b" = Some 2 ∧ tables.2 !! 2 = Some (str_of "c").
Proof. vm_compute. split; reflexivity. Qed.

(** ** The special-token tables *)

Lemma dict_get_set {K V} `{EqDecision K} (d : list (K * V)) (k k' : K) (v : V) :
  dict_get (dict_set d k v) k' = if decide (k = k') then Some v else dict_get d k'.
Proof.
  induction d as [|[k0 v0] d IH]; simpl.
  - by destruct (decide (k = k')).
  - destruct (decide (k0 = k)) as [->|Hne]; simpl.
    + by destruct (decide (k = k')).
    + destruct (decide (k0 = k')) as [->|Hne'].
      * by destruct (decide (k = k')); [congruence|].
      * exact IH.
Qed.

Lemma for_each_preserves {X S} (body : S -> X -> outcome S) (Inv : S -> Prop) :
  (forall st x st', body st x = Ok st' -> Inv st -> Inv st') ->
  forall xs st res, for_each body xs st = Ok res -> Inv st -> Inv res.
Proof.
  intros Hstep. induction xs as [|x xs IH]; intros st res; cbn [for_each].
  - by intros [= <-].
  - destruct (body st x) as [st'|e|] eqn:Hbody; [|discriminate..].
    rewrite bind_ok. intros Hrest Hst. eapply IH; [exact Hrest|].
    by eapply Hstep.
Qed.

Lemma special_map_id_marker (special_to_id : list (str * Z))
    (entry : option (option str)) (tid : Z) :
  special_map_id special_to_id entry None = Some tid ->
  exists content, dict_get special_to_id content = Some tid.
Proof.
  unfold special_map_id. destruct entry as [content|]; [|discriminate].
  destruct (dict_get special_to_id (default [] content)) as [tid'|] eqn:Hget;
    [|discriminate].
  intros [= <-]. by eexists.
Qed.

(** X7. The special-token attributes agree with each other.  Every id that
    the marker table gives to a marker is in the table of special ids, so
    [decode] skips what [tokenize_to_ids] emits for a marker; [image_id] is
    the id of the marker "<image>"; [eos_id] and [pad_id], when set, are ids
    of markers; and without a [tokenizer_config.json] there are no markers
    and neither id is set, whatever [special_tokens_map.json] names. *)
Theorem special_tables_agree (py_int : str -> option Z)
    (tokenizer_config : option (list (str * option str)))
    (special_tokens_map : option (option (option str) * option (option str)))
    (sp : specials) :
  _load_files_specials py_int tokenizer_config special_tokens_map = Ok sp ->
  (forall content tid, dict_get (sp_special_to_id sp) content = Some tid ->
     is_Some (sp_id_to_special sp !! tid))
  ∧ sp_image_id sp = dict_get (sp_special_to_id sp) (str_of "<image>")
  ∧ (forall tid, sp_eos_id sp = Some tid ∨ sp_pad_id sp = Some tid ->
       exists content, dict_get (sp_special_to_id sp) content = Some tid)
  ∧ (tokenizer_config = None ->
       sp_special_to_id sp = [] ∧ sp_eos_id sp = None ∧ sp_pad_id sp = None).
Proof.
  unfold _load_files_specials. intros Hload.
  assert (Hst : exists st,
            match tokenizer_config with
            | None => Ok no_specials
            | Some added => for_each (added_token py_int) added no_specials
            end = Ok st
            ∧ (forall content tid, dict_get (sp_special_to_id st) content = Some tid ->
                 is_Some (sp_id_to_special st !! tid))
            ∧ sp_image_id st = dict_get (sp_special_to_id st) (str_of "<image>")
            ∧ sp_eos_id st = None ∧ sp_pad_id st = None
            ∧ (tokenizer_config = None -> sp_special_to_id st = [])).
  { destruct tokenizer_config as [added|].
    - destruct (for_each (added_token py_int) added no_specials) as [st|e|] eqn:Hadded;
        [|discriminate..].
      exists st. split; [reflexivity|].
      apply (for_each_preserves (added_token py_int)
               (fun st => (forall content tid,
                             dict_get (sp_special_to_id st) content = Some tid ->
                             is_Some (sp_id_to_special st !! tid))
                          ∧ sp_image_id st = dict_get (sp_special_to_id st) (str_of "<image>")
                          ∧ sp_eos_id st = None ∧ sp_pad_id st = None
                          ∧ (Some added = None -> sp_special_to_id st = []))) in Hadded;
        [exact Hadded| |by repeat split].
      clear. intros st [k content] st' Hstep (Hids & Himage & Heos & Hpad & _).
      unfold added_token in Hstep. cbn [fst snd] in Hstep.
      destruct (py_int k) as [tid|]; cbn [or_raise] in Hstep; [|discriminate].
      rewrite bind_ok in Hstep. injection Hstep as <-.
      cbn [sp_special_to_id sp_id_to_special sp_image_id sp_eos_id sp_pad_id].
      split; [|split; [|by repeat split]].
      + intros c tid'. rewrite dict_get_set.
        destruct (decide (default [] content = c)) as [_|_].
        * intros [= <-]. rewrite lookup_insert_eq. by eexists.
        * intros Hc. apply lookup_insert_is_Some'. right. by eapply Hids.
      + rewrite dict_get_set. by destruct (decide (default [] content = str_of "<image>")).
    - exists no_specials. by repeat split. }
  destruct Hst as (st & Hst & Hids & Himage & Heos & Hpad & Hnone).
  rewrite Hst, bind_ok in Hload.
  destruct special_tokens_map as [[eos_token pad_token]|]; injection Hload as <-;
    cbn [sp_special_to_id sp_id_to_special sp_image_id sp_eos_id sp_pad_id].
  - split; [exact Hids|]. split; [exact Himage|]. rewrite Heos, Hpad. split.
    + intros tid [Htid|Htid]; by apply special_map_id_marker in Htid.
    + intros Hcfg. rewrite (Hnone Hcfg). split; [reflexivity|].
      unfold special_map_id. by destruct eos_token, pad_token.
  - split; [exact Hids|]. split; [exact Himage|]. rewrite Heos, Hpad. split.
    + by intros tid [?|?].
    + intros Hcfg. by rewrite (Hnone Hcfg).
Qed.

Lemma special_tables_agree_witness :
  let sp := {| sp_special_to_id := [(str_of "<|im_start|>", 151644);
                                    (str_of "<|im_end|>", 151645);
                                    (str_of "<image>", 151646)];
               sp_id_to_special := <[151646 := str_of "<image>"]>
                                     (<[151645 := str_of "<|im_end|>"]>
                                        {[ 151644 := str_of "<|im_start|>" ]});
               sp_image_id := Some 151646;
               sp_eos_id := Some 151645;
               sp_pad_id := None |} in
  (forall content tid, dict_get (sp_special_to_id sp) content = Some tid ->
     is_Some (sp_id_to_special sp !! tid))
  ∧ sp_image_id sp = dict_get (sp_special_to_id sp) (str_of "<image>")
  ∧ (forall tid, sp_eos_id sp = Some tid ∨ sp_pad_id sp = Some tid ->
       exists content, dict_get (sp_special_to_id sp) content = Some tid)
  ∧ (Some example_added_tokens = None ->
       sp_special_to_id sp = [] ∧ sp_eos_id sp = None ∧ sp_pad_id sp = None).
Proof.
  apply (special_tables_agree decimal (Some example_added_tokens)
           (Some (Some (Some (str_of "<|im_end|>")), Some (Some (str_of "<pad>"))))).
  vm_compute. reflexivity.
Defined.

(** ** The pre-tokenization pattern *)

(** The pattern on ASCII text: a word takes the space before it; of a run
    of spaces before a word the last one goes with the word; "'t" is a
    piece of its own, while "'s" is not, since the pattern asks for two
    apostrophes before the "s". *)
Example script_finditer_values :
  script_finditer ascii_classes (str_of "Hello world") = [str_of "Hello"; str_of " world"]
  ∧ script_finditer ascii_classes (str_of "a   b42 ")
    = [str_of "a"; str_of "  "; str_of " b"; str_of "42"; str_of " "]
  ∧ script_finditer ascii_classes (str_of "don't") = [str_of "don"; str_of "'t"]
  ∧ script_finditer ascii_classes (str_of "it's") = [str_of "it"; str_of "'"; str_of "s"]
  ∧ script_finditer ascii_classes (str_of "x, y!") = [str_of "x"; str_of ","; str_of " y"; str_of "!"].
Proof. vm_compute. repeat split; reflexivity. Qed.

Lemma plus_class_rest (p : Z -> bool) (s : list Z) (k : list Z -> option (list Z))
    (x : list Z) :
  plus_class p s k = Some x ->
  exists pre rest, s = pre ++ rest ∧ k rest = Some x ∧ pre <> [].
Proof.
  revert x. induction s as [|c t IH]; intros x; simpl; [discriminate|].
  destruct (p c); [|discriminate].
  destruct (plus_class p t k) as [y|] eqn:Hmore.
  - intros [= <-]. destruct (IH y eq_refl) as (pre & rest & -> & Hk & _).
    by exists (c :: pre), rest.
  - intros Hk. by exists [c], t.
Qed.

(** A match takes a prefix and hands the rest to what follows. *)
Lemma rmatch_rest (r : regex) :
  forall (s : list Z) (k : list Z -> option (list Z)) (x : list Z),
    rmatch r s k = Some x ->
    exists pre rest, s = pre ++ rest ∧ k rest = Some x
                     ∧ (consumes r = true -> pre <> []).
Proof.
  induction r as [lit|p|r1 IH1 r2 IH2|r1 IH1 r2 IH2|r IH|p|r IH]; intros s k x;
    cbn [rmatch consumes].
  - destruct (is_prefix lit s) eqn:Hpre; [|discriminate].
    apply is_prefix_spec in Hpre as [post ->]. rewrite drop_app_length.
    intros Hk. exists lit, post. split; [reflexivity|]. split; [exact Hk|].
    intros Hlit ->. discriminate Hlit.
  - destruct s as [|c t]; [discriminate|]. destruct (p c); [|discriminate].
    intros Hk. by exists [c], t.
  - intros Hrun. destruct (IH1 _ _ _ Hrun) as (pre1 & rest1 & -> & Hrun2 & Hc1).
    destruct (IH2 _ _ _ Hrun2) as (pre2 & rest2 & -> & Hk & Hc2).
    exists (pre1 ++ pre2), rest2. split; [by rewrite app_assoc|]. split; [exact Hk|].
    intros Hc Hnil. apply app_eq_nil in Hnil as [-> ->].
    apply orb_true_iff in Hc as [Hc|Hc]; [by apply Hc1|by apply Hc2].
  - destruct (rmatch r1 s k) as [y|] eqn:Hfirst.
    + intros [= <-]. destruct (IH1 _ _ _ Hfirst) as (pre & rest & -> & Hk & Hc).
      exists pre, rest. split; [reflexivity|]. split; [exact Hk|].
      intros [Hc1 _]%andb_true_iff. by apply Hc.
    + intros Hsecond. destruct (IH2 _ _ _ Hsecond) as (pre & rest & -> & Hk & Hc).
      exists pre, rest. split; [reflexivity|]. split; [exact Hk|].
      intros [_ Hc2]%andb_true_iff. by apply Hc.
  - destruct (rmatch r s k) as [y|] eqn:Hfirst.
    + intros [= <-]. destruct (IH _ _ _ Hfirst) as (pre & rest & -> & Hk & _).
      by exists pre, rest.
    + intros Hk. by exists [], s.
  - intros Hrun. destruct (plus_class_rest _ _ _ _ Hrun) as (pre & rest & -> & Hk & Hne).
    by exists pre, rest.
  - destruct (rmatch r s Some); [discriminate|]. intros Hk. by exists [], s.
Qed.

Lemma plus_class_matches (p : Z -> bool) (c : Z) (t : list Z) :
  p c = true -> is_Some (plus_class p (c :: t) Some).
Proof.
  intros Hc. simpl. rewrite Hc. by destruct (plus_class p t Some).
Qed.

Lemma optional_space_matches (p : Z -> bool) (c : Z) (t : list Z) :
  p c = true ->
  is_Some (rmatch (Seq (Opt (Str (str_of " "))) (Plus p)) (c :: t) Some).
Proof.
  intros Hc. cbn [rmatch].
  destruct (is_prefix (str_of " ") (c :: t)); [|by apply plus_class_matches].
  destruct (plus_class p (drop (length (str_of " ")) (c :: t)) Some); [by eexists|].
  by apply plus_class_matches.
Qed.

Lemma alt_matches (r1 r2 : regex) (s : list Z) :
  is_Some (rmatch r1 s Some) ∨ is_Some (rmatch r2 s Some) ->
  is_Some (rmatch (Alt r1 r2) s Some).
Proof.
  cbn [rmatch]. destruct (rmatch r1 s Some); [by eexists|]. by intros [[? ?]|?].
Qed.

(** At every character some branch of the pattern matches. *)
Lemma pattern_matches (classes : CharClasses) (c : Z) (t : list Z) :
  is_Some (rmatch (pattern classes) (c :: t) Some).
Proof.
  unfold pattern. do 7 (apply alt_matches; right).
  destruct (is_space classes c) eqn:Hspace.
  { do 4 (apply alt_matches; right). by apply plus_class_matches. }
  apply alt_matches. destruct (is_letter classes c) eqn:Hletter.
  { left. by apply optional_space_matches. }
  right. apply alt_matches. destruct (is_number classes c) eqn:Hnumber.
  { left. by apply optional_space_matches. }
  right. apply alt_matches. left. apply optional_space_matches.
  unfold other. by rewrite Hspace, Hletter, Hnumber.
Qed.

Lemma finditer_covers (classes : CharClasses) (fuel : nat) (s : list Z) :
  (length s <= fuel)%nat ->
  concat (finditer fuel (pattern classes) s) = s
  ∧ Forall (fun piece => piece <> []) (finditer fuel (pattern classes) s).
Proof.
  revert s. induction fuel as [|fuel IH]; intros s Hfuel.
  { destruct s; [by split|simpl in Hfuel; lia]. }
  destruct s as [|c t]; [by split|]. cbn [finditer].
  destruct (pattern_matches classes c t) as [rest Hrest]. rewrite Hrest.
  destruct (rmatch_rest _ _ _ _ Hrest) as (pre & rest' & Hs & [= ->] & Hne).
  specialize (Hne eq_refl). rewrite Hs, length_app.
  assert (0 < length pre)%nat by (destruct pre; [done|simpl; lia]).
  destruct (decide (length rest < length pre + length rest)%nat); [|lia].
  replace (length pre + length rest - length rest)%nat with (length pre) by lia.
  rewrite take_app_length.
  destruct (IH rest) as [Hcat Hpieces].
  { apply (f_equal length) in Hs. rewrite length_app in Hs. simpl in *. lia. }
  split; [by rewrite concat_cons, Hcat|]. by constructor.
Qed.

(** X8. The pattern of the tokenizer cuts a segment into pieces without
    losing a character, whatever the letters, the numbers and the white
    space of the [regex] library are: at every position one of its branches
    matches at least one character, so [finditer] skips nothing, no piece is
    empty, and the pieces joined are the segment. *)
Theorem pattern_pieces_cover_the_segment (classes : CharClasses) (segment : list Z) :
  concat (script_finditer classes segment) = segment
  ∧ Forall (fun piece => (1 <= length piece)%nat) (script_finditer classes segment)
  ∧ (length (script_finditer classes segment) <= length segment)%nat.
Proof.
  destruct (finditer_covers classes (length segment) segment (le_n _)) as [Hcat Hne].
  fold (script_finditer classes segment) in Hcat, Hne.
  assert (Hlen : Forall (fun piece => (1 <= length piece)%nat)
                        (script_finditer classes segment)).
  { eapply Forall_impl; [exact Hne|]. intros [|? ?] ?; [done|simpl; lia]. }
  split; [exact Hcat|]. split; [exact Hlen|].
  rewrite <- Hcat at 2. clear Hcat Hne.
  induction Hlen as [|piece pieces Hp _ IH]; simpl; [lia|].
  rewrite length_app. simpl in IH. lia.
Qed.

(** ** Encoding and decoding are inverse *)

Lemma utf8_next_encode (c : Z) (cb rest : list Z) :
  utf8_encode_char c = Some cb ->
  exists ch t, cb = ch :: t ∧ utf8_next ch (t ++ rest) = U_char c rest.
Proof.
  unfold utf8_encode_char.
  repeat match goal with
         | |- context [if ?t then _ else _] => destruct t eqn:?
         end; intros [= <-]; eexists _, _; (split; [reflexivity|]);
    repeat match goal with
           | Hc : (_ && _) = true |- _ => apply andb_true_iff in Hc as [? ?]
           | Hc : (_ && _) = false |- _ => apply andb_false_iff in Hc
           | Hc : (_ <? _) = _ |- _ =>
               first [apply Z.ltb_lt in Hc | apply Z.ltb_ge in Hc]
           | Hc : (_ <=? _) = _ |- _ =>
               first [apply Z.leb_le in Hc | apply Z.leb_gt in Hc]
           end;
    unfold utf8_next, is_continuation; cbn [app];
    repeat match goal with
           | |- context [?a <? ?b] =>
               destruct (Z.ltb_spec a b); try (exfalso; Z.div_mod_to_equations; lia)
           | |- context [?a <=? ?b] =>
               destruct (Z.leb_spec a b); try (exfalso; Z.div_mod_to_equations; lia)
           | |- context [?a =? ?b] =>
               destruct (Z.eqb_spec a b); try (exfalso; Z.div_mod_to_equations; lia)
           end; cbn [andb orb negb];
    try (f_equal; Z.div_mod_to_equations; lia).
Qed.

Lemma utf8_encode_char_length (c : Z) (cb : list Z) :
  utf8_encode_char c = Some cb -> (1 <= length cb)%nat.
Proof.
  intros Hc. destruct (utf8_next_encode c cb [] Hc) as (ch & t & -> & _). simpl. lia.
Qed.

Lemma utf8_decode_encode (strict : bool) (s bs : list Z) :
  utf8_encode s = Some bs ->
  forall fuel, (length s <= fuel)%nat -> utf8_decode strict fuel bs = Some s.
Proof.
  revert bs. induction s as [|c s IH]; intros bs; simpl.
  - intros [= <-] fuel _. by destruct fuel.
  - destruct (utf8_encode_char c) as [cb|] eqn:Hc; [|discriminate].
    destruct (utf8_encode s) as [bs'|]; [|discriminate].
    intros [= <-] [|fuel] Hfuel; [lia|].
    destruct (utf8_next_encode c cb bs' Hc) as (ch & t & -> & Hnext).
    cbn [app utf8_decode]. rewrite Hnext.
    by rewrite (IH bs' eq_refl fuel ltac:(lia)).
Qed.

Lemma utf8_encode_length (s bs : list Z) :
  utf8_encode s = Some bs -> (length s <= length bs)%nat.
Proof.
  revert bs. induction s as [|c s IH]; intros bs; simpl.
  - intros [= <-]. done.
  - destruct (utf8_encode_char c) as [cb|] eqn:Hc; [|discriminate].
    destruct (utf8_encode s) as [bs'|]; [|discriminate].
    intros [= <-]. rewrite length_app.
    pose proof (utf8_encode_char_length c cb Hc). specialize (IH bs' eq_refl). lia.
Qed.

(** Python's decoder gives back what its encoder was given. *)
Lemma python_utf8_decodes_encoded (s bs : list Z) :
  utf8_encode s = Some bs -> decode_strict python_utf8 bs = Some s.
Proof.
  intros Hs. cbn [decode_strict python_utf8].
  apply utf8_decode_encode; [exact Hs|]. by apply utf8_encode_length.
Qed.

Lemma utf8_encode_app (s1 s2 : list Z) :
  utf8_encode (s1 ++ s2)
  = match utf8_encode s1, utf8_encode s2 with
    | Some b1, Some b2 => Some (b1 ++ b2)
    | _, _ => None
    end.
Proof.
  induction s1 as [|c s1 IH]; simpl.
  - by destruct (utf8_encode s2).
  - rewrite IH. destruct (utf8_encode_char c) as [cb|]; [|reflexivity].
    destruct (utf8_encode s1) as [b1|]; [|reflexivity].
    destruct (utf8_encode s2) as [b2|]; [|reflexivity].
    by rewrite app_assoc.
Qed.

Lemma omap_concat {X Y} (f : X -> option Y) (ls : list (list X)) :
  omap f (concat ls) = concat (List.map (omap f) ls).
Proof.
  induction ls as [|l ls IH]; simpl; [reflexivity|].
  by rewrite omap_app, IH.
Qed.

(** The characters of a byte-level encoding decode to the bytes. *)
Lemma byte_level_encode_decode (bytes encoded : list Z) :
  byte_level_encode bytes = Ok encoded ->
  omap (dict_get byte_decoder) encoded = bytes
  ∧ Forall (fun c => exists b, dict_get byte_encoder b = Some c) encoded.
Proof.
  unfold byte_level_encode.
  assert (Hgen : forall acc encoded,
            for_each (fun acc b => c ← or_raise KeyError (dict_get byte_encoder b);
                                   Ok (acc ++ [c])) bytes acc = Ok encoded ->
            exists tail, encoded = acc ++ tail
              ∧ omap (dict_get byte_decoder) tail = bytes
              ∧ Forall (fun c => exists b, dict_get byte_encoder b = Some c) tail).
  { clear encoded. induction bytes as [|b bytes IH]; intros acc encoded; cbn [for_each].
    - intros [= <-]. exists []. by rewrite app_nil_r.
    - destruct (dict_get byte_encoder b) as [c|] eqn:Hc; cbn [or_raise];
        [|rewrite bind_raise; discriminate].
      rewrite !bind_ok. intros Hrest.
      destruct (IH _ _ Hrest) as (tail & -> & Hdec & Hall).
      exists (c :: tail). split; [by rewrite <- app_assoc|].
      destruct (byte_encode_decode b (byte_encoder_domain b c Hc)) as (c' & Hc' & Hb).
      assert (c' = c) by congruence. subst c'.
      split; [|constructor; [by exists b|exact Hall]].
      cbn [omap list_omap]. by rewrite Hb, Hdec. }
  intros Henc. destruct (Hgen [] encoded Henc) as (tail & -> & Hdec & Hall).
  by split.
Qed.

Lemma utf8_encode_concat (pieces : list str) :
  is_Some (utf8_encode (concat pieces)) ->
  Forall (fun piece => is_Some (utf8_encode piece)) pieces.
Proof.
  induction pieces as [|piece pieces IH]; simpl; [constructor|].
  rewrite utf8_encode_app. intros [bs Hbs].
  destruct (utf8_encode piece) as [b1|] eqn:Hb1; [|discriminate].
  destruct (utf8_encode (concat pieces)) as [b2|] eqn:Hb2; [|discriminate].
  constructor; [by rewrite Hb1|]. apply IH. by eexists.
Qed.

Section RoundTrip.
Context `{SetIteration}.
Variable tk : BpeTokenizerPy.
Hypothesis base_symbols :
  Forall (fun bc : Z * Z => is_Some (vocab tk !! [bc.2])) byte_encoder.
Hypothesis merged_symbols :
  map_Forall (fun (ab : str * str) (_ : Z) => is_Some (vocab tk !! (ab.1 ++ ab.2)))
             (bpe_ranks tk).
Hypothesis ids_decode :
  map_Forall (fun tok v => id_to_token tk !! v = Some tok ∧ id_to_special tk !! v = None)
             (vocab tk).

Lemma symbol_bytes (tok : list Z) :
  is_Some (vocab tk !! tok) ->
  id_bytes tk (vocab_id tk tok) = omap (dict_get byte_decoder) tok.
Proof.
  intros [v Hv]. unfold vocab_id. rewrite Hv.
  change (default (default 0 (vocab tk !! unk)) (Some v)) with v.
  destruct (ids_decode tok v Hv) as [Htok Hsp]. unfold id_bytes.
  rewrite Hsp, Htok. by destruct (decide (is_Some None)) as [[? ?]|_].
Qed.

Lemma piece_bytes (out piece ids : list Z) :
  encode_piece tk out piece = Ok ids ->
  exists bytes seg,
    utf8_encode piece = Some bytes ∧ ids = out ++ seg
    ∧ concat (List.map (id_bytes tk) seg) = bytes.
Proof.
  unfold encode_piece.
  destruct (utf8_encode piece) as [bytes|]; cbn [or_raise];
    [|rewrite bind_raise; discriminate].
  rewrite bind_ok.
  destruct (byte_level_encode bytes) as [encoded|e|] eqn:Henc; [|discriminate..].
  rewrite bind_ok.
  destruct (byte_level_encode_decode bytes encoded Henc) as [Hdec Himage].
  destruct (bpe_invariant (bpe_ranks tk)
              (fun w => concat w = encoded
                        ∧ Forall (fun s => is_Some (vocab tk !! s)) w) encoded)
    as (toks & -> & Hcat & Hvocab).
  { intros a b w [r Hab] _ [Hcat Hw]. split; [by rewrite merge_pair_spec_concat|].
    apply merge_pair_spec_Forall; [|exact Hw].
    exact (merged_symbols (a, b) r Hab). }
  { split; [apply concat_singletons|]. apply Forall_forall. intros s Hs.
    apply list_elem_of_In, in_map_iff in Hs as (c & <- & Hc).
    rewrite Forall_forall in Himage.
    destruct (Himage c (proj2 (list_elem_of_In _ _) Hc)) as (b & Hb).
    exact (dict_get_Forall _ _ _ _ base_symbols Hb). }
  rewrite bind_ok, fold_append_map. intros [= <-].
  exists bytes, (List.map (vocab_id tk) toks). split; [reflexivity|].
  split; [reflexivity|]. rewrite <- Hdec, <- Hcat, omap_concat. f_equal.
  rewrite map_map. apply map_ext_in. intros s Hs. apply symbol_bytes.
  rewrite Forall_forall in Hvocab. apply Hvocab. by apply list_elem_of_In.
Qed.

Lemma pieces_bytes (pieces : list str) (out ids : list Z) :
  for_each (encode_piece tk) pieces out = Ok ids ->
  exists bytes seg,
    utf8_encode (concat pieces) = Some bytes ∧ ids = out ++ seg
    ∧ concat (List.map (id_bytes tk) seg) = bytes.
Proof.
  revert out. induction pieces as [|piece pieces IH]; intros out; cbn [for_each].
  - intros [= <-]. exists [], []. by rewrite app_nil_r.
  - destruct (encode_piece tk out piece) as [out'|e|] eqn:Hpiece; [|discriminate..].
    rewrite bind_ok. intros Hrest.
    destruct (piece_bytes _ _ _ Hpiece) as (b1 & seg1 & Hb1 & -> & Hseg1).
    destruct (IH _ Hrest) as (b2 & seg2 & Hb2 & -> & Hseg2).
    exists (b1 ++ b2), (seg1 ++ seg2). simpl. rewrite utf8_encode_app, Hb1, Hb2.
    split; [reflexivity|]. split; [by rewrite app_assoc|].
    by rewrite map_app, concat_app, Hseg1, Hseg2.
Qed.

Lemma encode_segment_bytes (segment ids : list Z) :
  concat (pattern_finditer tk segment) = segment ->
  _encode_segment tk segment = Ok ids ->
  exists bytes,
    utf8_encode segment = Some bytes ∧ concat (List.map (id_bytes tk) ids) = bytes.
Proof.
  intros Hpieces. unfold _encode_segment. destruct segment as [|c segment].
  - intros [= <-]. by exists [].
  - intros Hrun. destruct (pieces_bytes _ _ _ Hrun) as (bytes & seg & Hb & -> & Hseg).
    rewrite Hpieces in Hb. by exists bytes.
Qed.

Lemma decode_of_bytes (ids s bytes : list Z) :
  utf8_encode s = Some bytes ->
  concat (List.map (id_bytes tk) ids) = bytes ->
  decode python_utf8 tk ids = Ok (strip s).
Proof.
  intros Hs Hbytes. unfold decode. rewrite decode_bytes_concat. cbn [app].
  rewrite Hbytes, (py_bytes_ok bytes (utf8_encode_bytes s bytes Hs)), !bind_ok.
  by rewrite (python_utf8_decodes_encoded s bytes Hs).
Qed.
End RoundTrip.

(** X9. Decoding inverts encoding.  For a tokenizer whose vocabulary holds
    the 256 byte characters and every merged pair, whose id table maps each
    vocabulary id back to its token and shares no id with the special
    tokens, and whose pattern cuts the segment into pieces that lose no
    character: a segment that can be UTF-8 encoded is encoded to ids, and
    decoding those ids gives the segment back, stripped of the white space
    at its ends. *)
Theorem decode_inverts_encode_segment `{SetIteration} (tk : BpeTokenizerPy)
    (segment : list Z) :
  Forall (fun bc : Z * Z => is_Some (vocab tk !! [bc.2])) byte_encoder ->
  map_Forall (fun (ab : str * str) (_ : Z) => is_Some (vocab tk !! (ab.1 ++ ab.2)))
             (bpe_ranks tk) ->
  map_Forall (fun tok v => id_to_token tk !! v = Some tok ∧ id_to_special tk !! v = None)
             (vocab tk) ->
  concat (pattern_finditer tk segment) = segment ->
  is_Some (utf8_encode segment) ->
  exists ids,
    _encode_segment tk segment = Ok ids
    ∧ decode python_utf8 tk ids = Ok (strip segment).
Proof.
  intros Hbase Hmerged Hids Hpieces [bytes Hbytes].
  assert (Hrun : exists ids, _encode_segment tk segment = Ok ids).
  { unfold _encode_segment. destruct segment as [|c segment]; [by eexists|].
    destruct (for_each_pieces_ok tk (pattern_finditer tk (c :: segment))) with (out := @nil Z)
      as (symss & _ & Hrun).
    - apply utf8_encode_concat. rewrite Hpieces. by eexists.
    - by eexists. }
  destruct Hrun as [ids Hrun]. exists ids. split; [exact Hrun|].
  destruct (encode_segment_bytes tk Hbase Hmerged Hids segment ids Hpieces Hrun)
    as (bytes' & Hb & Hcat).
  by apply (decode_of_bytes tk ids segment bytes').
Qed.

Lemma decode_inverts_encode_segment_witness :
  exists ids,
    _encode_segment byte_tokenizer (str_of " lower ") = Ok ids
    ∧ decode python_utf8 byte_tokenizer ids = Ok (strip (str_of " lower ")).
Proof.
  apply (decode_inverts_encode_segment byte_tokenizer (str_of " lower ")).
  - apply (bool_decide_unpack _). vm_compute. exact I.
  - apply (bool_decide_unpack _). vm_compute. exact I.
  - apply (bool_decide_unpack _). vm_compute. exact I.
  - vm_compute. reflexivity.
  - vm_compute. by eexists.
Defined.

Example round_trip_values :
  _encode_segment byte_tokenizer (str_of " lower ") = Ok [32; 257; 101; 114; 32]
  ∧ decode python_utf8 byte_tokenizer [32; 257; 101; 114; 32] = Ok (str_of "lower").
Proof. vm_compute. split; reflexivity. Qed.

(** ** Markers are dropped by [decode] *)

Lemma marker_split_markers (specials : list (str * Z)) (text : list Z)
    (chunks : list chunk) :
  marker_split specials text chunks ->
  Forall (fun ch => match ch with
                    | Marker tok sid => (tok, sid) ∈ specials
                    | Plain _ => True
                    end) chunks.
Proof.
  induction 1 as [|text _ _|pre tok sid k rest chunks Hk _ _ _ IH].
  - constructor.
  - by repeat constructor.
  - apply Forall_app. split; [destruct (decide (pre = [])); by repeat constructor|].
    constructor; [|exact IH]. by apply list_elem_of_lookup_2 in Hk.
Qed.

Section MarkersRoundTrip.
Context `{SetIteration}.
Variable tk : BpeTokenizerPy.
Hypothesis base_symbols :
  Forall (fun bc : Z * Z => is_Some (vocab tk !! [bc.2])) byte_encoder.
Hypothesis merged_symbols :
  map_Forall (fun (ab : str * str) (_ : Z) => is_Some (vocab tk !! (ab.1 ++ ab.2)))
             (bpe_ranks tk).
Hypothesis ids_decode :
  map_Forall (fun tok v => id_to_token tk !! v = Some tok ∧ id_to_special tk !! v = None)
             (vocab tk).
Hypothesis pieces_cover : forall seg, concat (pattern_finditer tk seg) = seg.
Hypothesis markers_skipped :
  Forall (fun kv : str * Z => is_Some (id_to_special tk !! kv.2)) (special_to_id tk).

Lemma chunk_ids_bytes (chunks : list chunk) :
  Forall (fun ch => match ch with
                    | Marker tok sid => (tok, sid) ∈ special_to_id tk
                    | Plain _ => True
                    end) chunks ->
  forall acc ids,
    chunk_ids tk chunks acc = Ok ids ->
    exists bytes seg,
      utf8_encode (plain_text chunks) = Some bytes ∧ ids = acc ++ seg
      ∧ concat (List.map (id_bytes tk) seg) = bytes.
Proof.
  induction 1 as [|[span|tok sid] chunks Hch _ IH]; intros acc ids; cbn [chunk_ids].
  - intros [= <-]. exists [], []. by rewrite app_nil_r.
  - destruct (_encode_segment tk span) as [seg1|e|] eqn:Hseg; [|discriminate..].
    rewrite bind_ok. intros Hrest.
    destruct (encode_segment_bytes tk base_symbols merged_symbols ids_decode
                span seg1 (pieces_cover span) Hseg) as (b1 & Hb1 & Hcat1).
    destruct (IH _ _ Hrest) as (b2 & seg2 & Hb2 & -> & Hcat2).
    exists (b1 ++ b2), (seg1 ++ seg2).
    change (plain_text (Plain span :: chunks)) with (span ++ plain_text chunks).
    rewrite utf8_encode_app, Hb1, Hb2. split; [reflexivity|].
    split; [by rewrite app_assoc|]. by rewrite map_app, concat_app, Hcat1, Hcat2.
  - intros Hrest. destruct (IH _ _ Hrest) as (b2 & seg2 & Hb2 & -> & Hcat2).
    exists b2, (sid :: seg2). split; [exact Hb2|]. split; [by rewrite <- app_assoc|].
    cbn [List.map concat].
    rewrite Forall_forall in markers_skipped. specialize (markers_skipped _ Hch).
    unfold id_bytes at 1. cbn [snd] in markers_skipped.
    destruct (decide (is_Some (id_to_special tk !! sid))); [exact Hcat2|done].
Qed.
End MarkersRoundTrip.

(** X10. Decoding a tokenized text gives the text without its markers.
    For a tokenizer whose vocabulary holds the 256 byte characters and
    every merged pair, whose id table maps each vocabulary id back to its
    token and shares no id with the special tokens, whose pattern loses no
    character, and whose markers are not empty and have their ids in the
    special-token table: when [tokenize_to_ids] returns ids for a text,
    decoding them gives the text between the markers, joined and stripped
    of the white space at its ends. *)
Theorem decode_drops_markers `{SetIteration} (tk : BpeTokenizerPy)
    (text ids : list Z) (fuel : nat) :
  Forall (fun bc : Z * Z => is_Some (vocab tk !! [bc.2])) byte_encoder ->
  map_Forall (fun (ab : str * str) (_ : Z) => is_Some (vocab tk !! (ab.1 ++ ab.2)))
             (bpe_ranks tk) ->
  map_Forall (fun tok v => id_to_token tk !! v = Some tok ∧ id_to_special tk !! v = None)
             (vocab tk) ->
  (forall seg, concat (pattern_finditer tk seg) = seg) ->
  Forall (fun kv : str * Z => kv.1 <> [] ∧ is_Some (id_to_special tk !! kv.2))
         (special_to_id tk) ->
  (length text <= fuel)%nat ->
  tokenize_to_ids fuel tk text = Ok ids ->
  exists chunks,
    marker_split (special_to_id tk) text chunks
    ∧ decode python_utf8 tk ids = Ok (strip (plain_text chunks)).
Proof.
  intros Hbase Hmerged Hids Hcover Hmarkers Hfuel Hrun.
  assert (Hnonempty : Forall (fun kv : str * Z => kv.1 <> []) (special_to_id tk)).
  { eapply Forall_impl; [exact Hmarkers|]. by intros kv [? _]. }
  assert (Hskipped : Forall (fun kv : str * Z => is_Some (id_to_special tk !! kv.2))
                            (special_to_id tk)).
  { eapply Forall_impl; [exact Hmarkers|]. by intros kv [_ ?]. }
  destruct (tokenize_loop_spec tk Hnonempty text fuel 0 ltac:(lia) ltac:(lia))
    as (chunks & Hsplit & Hloop).
  rewrite drop_0 in Hsplit. exists chunks. split; [exact Hsplit|].
  unfold tokenize_to_ids in Hrun. rewrite Hloop in Hrun.
  destruct (chunk_ids tk chunks []) as [ids'|e|] eqn:Hchunks; [|discriminate..].
  rewrite bind_ok in Hrun. unfold np_int64_array in Hrun.
  destruct (forallb _ ids'); [|discriminate]. injection Hrun as ->.
  destruct (chunk_ids_bytes tk Hbase Hmerged Hids Hcover Hskipped chunks
              (marker_split_markers _ _ _ Hsplit) [] ids Hchunks)
    as (bytes & seg & Hbytes & -> & Hcat).
  by apply (decode_of_bytes tk _ _ bytes).
Qed.

Lemma decode_drops_markers_witness :
  exists chunks,
    marker_split (special_to_id byte_tokenizer) (str_of "a <image> low") chunks
    ∧ decode python_utf8 byte_tokenizer [97; 32; 151646; 32; 257]
      = Ok (strip (plain_text chunks)).
Proof.
  apply (decode_drops_markers byte_tokenizer (str_of "a <image> low")
           [97; 32; 151646; 32; 257] 14).
  - apply (bool_decide_unpack _). vm_compute. exact I.
  - apply (bool_decide_unpack _). vm_compute. exact I.
  - apply (bool_decide_unpack _). vm_compute. exact I.
  - intros seg. apply (finditer_covers ascii_classes (length seg) seg (le_n _)).
  - apply (bool_decide_unpack _). vm_compute. exact I.
  - vm_compute. lia.
  - vm_compute. reflexivity.
Defined.

(** ** Markers in angle brackets *)

Lemma bracketed_spec (m : list Z) :
  bracketed m = true ->
  exists mid, m = 60 :: mid ++ [62] ∧ Forall (fun x => x <> 60 ∧ x <> 62) mid.
Proof.
  destruct m as [|c rest]; [discriminate|]. cbn [bracketed].
  intros [Hc Hrest]%andb_true_iff. apply Z.eqb_eq in Hc as ->.
  destruct (reverse rest) as [|d mid] eqn:Hrev; [discriminate|].
  apply andb_true_iff in Hrest as [Hd Hmid]. apply Z.eqb_eq in Hd as ->.
  exists (reverse mid). split.
  - f_equal. rewrite <- (reverse_involutive rest), Hrev. by rewrite reverse_cons.
  - apply Forall_forall. intros x Hx. rewrite elem_of_reverse in Hx.
    rewrite forallb_forall in Hmid. apply list_elem_of_In, Hmid in Hx.
    apply negb_true_iff, orb_false_iff in Hx as [H60 H62].
    split; [by apply Z.eqb_neq|by apply Z.eqb_neq].
Qed.

(** The characters of [<...>]: "<" first and nowhere else, ">" last and
    nowhere else. *)
Lemma bracketed_chars (m : list Z) :
  bracketed m = true ->
  (2 <= length m)%nat
  ∧ m !! 0%nat = Some 60
  ∧ (forall i : nat, (0 < i)%nat -> m !! i <> Some 60)
  ∧ m !! (length m - 1)%nat = Some 62
  ∧ (forall i : nat, (S i < length m)%nat -> m !! i <> Some 62).
Proof.
  intros (mid & -> & Hmid)%bracketed_spec. rewrite Forall_forall in Hmid.
  cbn [length]. rewrite length_app. cbn [length].
  split; [lia|]. split; [reflexivity|]. split; [|split].
  - intros [|i] Hi; [lia|]. intros Hx. simpl in Hx.
    destruct (decide (i < length mid)%nat) as [Hlt|Hge].
    + rewrite lookup_app_l in Hx by exact Hlt.
      apply list_elem_of_lookup_2, Hmid in Hx. by destruct Hx.
    + rewrite lookup_app_r in Hx by lia.
      destruct (i - length mid)%nat; simpl in Hx; discriminate.
  - replace (S (length mid + 1) - 1)%nat with (S (length mid)) by lia.
    simpl. by rewrite lookup_app_r, Nat.sub_diag by lia.
  - intros [|i] Hi; [discriminate|]. intros Hx. simpl in Hx.
    rewrite lookup_app_l in Hx by lia.
    apply list_elem_of_lookup_2, Hmid in Hx. by destruct Hx.
Qed.

Lemma occurs_at_lookup (tok text : list Z) (p i : nat) (c : Z) :
  occurs_at tok text p -> tok !! i = Some c -> text !! (p + i)%nat = Some c.
Proof.
  intros (pre & post & -> & <-) Hi.
  rewrite lookup_app_r by lia. replace (length pre + i - length pre)%nat with i by lia.
  by apply lookup_app_l_Some.
Qed.

(** Two bracketed markers in a text do not overlap: an occurrence that
    starts inside another one starts where that one does, and then the two
    markers are the same. *)
Lemma bracketed_apart (m1 m2 text : list Z) (p q : nat) :
  bracketed m1 = true -> bracketed m2 = true ->
  occurs_at m1 text p -> occurs_at m2 text q ->
  (p < q)%nat -> (p + length m1 <= q)%nat.
Proof.
  intros H1 H2 Ho1 Ho2 Hpq.
  destruct (bracketed_chars m1 H1) as (Hlen1 & _ & Hno & _ & _).
  destruct (bracketed_chars m2 H2) as (_ & Hfirst & _).
  destruct (Nat.le_gt_cases (p + length m1) q) as [Hok|Hin]; [exact Hok|].
  exfalso. pose proof (occurs_at_lookup m2 text q 0 60 Ho2 Hfirst) as Htext.
  destruct (lookup_lt_is_Some_2 m1 (q - p)) as [c Hc]; [lia|].
  pose proof (occurs_at_lookup m1 text p (q - p) c Ho1 Hc) as Htext'.
  replace (p + (q - p))%nat with (q + 0)%nat in Htext' by lia.
  rewrite Htext in Htext'. injection Htext' as <-.
  by apply (Hno (q - p)%nat ltac:(lia)).
Qed.

Lemma bracketed_same (m1 m2 text : list Z) (p : nat) :
  bracketed m1 = true -> bracketed m2 = true ->
  occurs_at m1 text p -> occurs_at m2 text p -> m1 = m2.
Proof.
  assert (Hle : forall m1 m2, bracketed m1 = true -> bracketed m2 = true ->
            occurs_at m1 text p -> occurs_at m2 text p ->
            (length m1 <= length m2)%nat -> length m1 = length m2).
  { clear. intros m1 m2 H1 H2 Ho1 Ho2 Hlen.
    destruct (bracketed_chars m1 H1) as (Hlen1 & _ & _ & Hlast & _).
    destruct (bracketed_chars m2 H2) as (_ & _ & _ & _ & Hno).
    destruct (decide (length m1 = length m2)) as [Heq|Hne]; [exact Heq|]. exfalso.
    pose proof (occurs_at_lookup m1 text p _ 62 Ho1 Hlast) as Htext.
    destruct (lookup_lt_is_Some_2 m2 (length m1 - 1)) as [c Hc]; [lia|].
    pose proof (occurs_at_lookup m2 text p _ c Ho2 Hc) as Htext'.
    rewrite Htext in Htext'. injection Htext' as <-.
    by apply (Hno (length m1 - 1)%nat ltac:(lia)). }
  intros H1 H2 Ho1 Ho2.
  assert (Hlen : length m1 = length m2).
  { destruct (Nat.le_ge_cases (length m1) (length m2)) as [Hlen|Hlen].
    - by apply Hle.
    - symmetry. by apply Hle. }
  destruct Ho1 as (pre1 & post1 & Ht1 & Hp1), Ho2 as (pre2 & post2 & Ht2 & Hp2).
  rewrite Ht1 in Ht2. apply app_inj_1 in Ht2 as [_ Ht2]; [|congruence].
  by apply app_inj_1 in Ht2 as [? _].
Qed.

Lemma occurs_at_after (head tok rest : list Z) (p : nat) :
  occurs_at tok (head ++ rest) p -> (length head <= p)%nat ->
  occurs_at tok rest (p - length head).
Proof.
  intros (pre & post & Htext & <-) Hlen.
  exists (drop (length head) pre), post. split.
  - apply (f_equal (drop (length head))) in Htext.
    rewrite drop_app_length in Htext. rewrite Htext.
    rewrite drop_app_le by exact Hlen. reflexivity.
  - by rewrite length_drop.
Qed.

(** With bracketed markers, splitting a text on them loses no occurrence
    of a marker. *)
Lemma marker_split_keeps_occurrences (specials : list (str * Z)) (text : list Z)
    (chunks : list chunk) :
  Forall (fun kv : str * Z => bracketed kv.1 = true) specials ->
  marker_split specials text chunks ->
  forall tok p, tok ∈ specials.*1 -> occurs_at tok text p ->
    exists sid, dict_get specials tok = Some sid ∧ Marker tok sid ∈ chunks.
Proof.
  intros Hbr. rewrite Forall_forall in Hbr.
  assert (Hbr' : forall (j : nat) tok sid, specials !! j = Some (tok, sid) ->
            bracketed tok = true).
  { intros j tok sid Hj. apply (Hbr (tok, sid)). by eapply list_elem_of_lookup_2. }
  induction 1 as [|text Hne Hnone|pre tok0 sid0 k rest chunks Hk Hfirst Hleft _ IH];
    intros tok p Htok Hocc.
  - exfalso. apply list_elem_of_fmap in Htok as ([tok' sid] & -> & Hin).
    apply list_elem_of_lookup_1 in Hin as [j Hj].
    destruct (bracketed_chars _ (Hbr' j _ _ Hj)) as (Hlen & _).
    destruct Hocc as (a & b & Htext & _). symmetry in Htext.
    apply app_eq_nil in Htext as [_ [Htok' _]%app_eq_nil]. cbn [fst] in *.
    rewrite Htok' in Hlen. simpl in Hlen. lia.
  - exfalso. apply list_elem_of_fmap in Htok as ([tok' sid] & -> & Hin).
    apply list_elem_of_lookup_1 in Hin as [j Hj]. by apply (Hnone j tok' sid p).
  - apply list_elem_of_fmap in Htok as ([tok' sid] & -> & Hin). cbn [fst] in *.
    apply list_elem_of_lookup_1 in Hin as [j Hj].
    assert (Hocc0 : occurs_at tok0 (pre ++ tok0 ++ rest) (length pre))
      by (by exists pre, rest).
    destruct (Hleft j tok' sid p Hj Hocc) as [Hlater|[-> _]].
    + pose proof (bracketed_apart tok0 tok' _ _ _ (Hbr' _ _ _ Hk) (Hbr' _ _ _ Hj)
                    Hocc0 Hocc Hlater) as Hapart.
      rewrite app_assoc in Hocc.
      apply occurs_at_after in Hocc; [|rewrite length_app; lia].
      destruct (IH tok' _ ltac:(apply list_elem_of_fmap; exists (tok', sid);
                                 split; [done|by eapply list_elem_of_lookup_2]) Hocc)
        as (sid' & Hget & Hin).
      exists sid'. split; [exact Hget|].
      apply elem_of_app. right. by apply list_elem_of_further.
    + assert (tok' = tok0) as ->
        by (eapply bracketed_same; eauto).
      destruct (dict_get_first specials k tok0) as (v & Hv & Hget).
      * apply lookup_map_fst. by exists sid0.
      * intros i Hi Hi'. apply lookup_map_fst in Hi' as [v Hv].
        by apply (Hfirst i v Hi).
      * assert (v = sid0) as -> by congruence.
        exists sid0. split; [exact Hget|].
        apply elem_of_app. right. apply list_elem_of_here.
Qed.

Lemma chunk_ids_markers `{SetIteration} (tk : BpeTokenizerPy) (chunks : list chunk) :
  forall acc ids,
    chunk_ids tk chunks acc = Ok ids ->
    exists tail, ids = acc ++ tail
                 ∧ forall tok sid, Marker tok sid ∈ chunks -> sid ∈ tail.
Proof.
  induction chunks as [|[span|tok0 sid0] chunks IH]; intros acc ids; cbn [chunk_ids].
  - intros [= <-]. exists []. split; [by rewrite app_nil_r|].
    by intros tok sid ?%elem_of_nil.
  - destruct (_encode_segment tk span) as [seg|e|]; [|discriminate..].
    rewrite bind_ok. intros Hrest. destruct (IH _ _ Hrest) as (tail & -> & Htail).
    exists (seg ++ tail). split; [by rewrite app_assoc|].
    intros tok sid [Hin|Hin]%elem_of_cons; [discriminate|].
    apply elem_of_app. right. by eapply Htail.
  - intros Hrest. destruct (IH _ _ Hrest) as (tail & -> & Htail).
    exists (sid0 :: tail). split; [by rewrite <- app_assoc|].
    intros tok sid [[= -> ->]|Hin]%elem_of_cons; [apply list_elem_of_here|].
    apply list_elem_of_further. by eapply Htail.
Qed.

Lemma bracketed_markers_are_all_found_aux `{SetIteration} (tk : BpeTokenizerPy)
    (text ids tok : list Z) (fuel p : nat) :
  Forall (fun kv : str * Z => bracketed kv.1 = true) (special_to_id tk) ->
  (length text <= fuel)%nat ->
  tokenize_to_ids fuel tk text = Ok ids ->
  tok ∈ (special_to_id tk).*1 ->
  occurs_at tok text p ->
  exists sid, dict_get (special_to_id tk) tok = Some sid ∧ sid ∈ ids.
Proof.
  intros Hbr Hfuel Hrun Htok Hocc.
  assert (Hnonempty : Forall (fun kv : str * Z => kv.1 <> []) (special_to_id tk)).
  { eapply Forall_impl; [exact Hbr|]. intros [m sid] Hm Hnil. cbn [fst] in *. subst m. discriminate Hm. }
  destruct (tokenize_loop_spec tk Hnonempty text fuel 0 ltac:(lia) ltac:(lia))
    as (chunks & Hsplit & Hloop).
  rewrite drop_0 in Hsplit.
  unfold tokenize_to_ids in Hrun. rewrite Hloop in Hrun.
  destruct (chunk_ids tk chunks []) as [ids'|e|] eqn:Hchunks; [|discriminate..].
  rewrite bind_ok in Hrun. unfold np_int64_array in Hrun.
  destruct (forallb _ ids'); [|discriminate]. injection Hrun as ->.
  destruct (marker_split_keeps_occurrences _ _ _ Hbr Hsplit tok p Htok Hocc)
    as (sid & Hget & Hin).
  destruct (chunk_ids_markers tk chunks [] ids Hchunks) as (tail & -> & Htail).
  exists sid. split; [exact Hget|]. by eapply Htail.
Qed.

(** X11. With markers of the form [<...>] no occurrence of a marker is
    lost: when [tokenize_to_ids] returns ids for a text in which a marker
    occurs, the id of that marker is among them. *)
Theorem bracketed_markers_are_all_found `{SetIteration} (tk : BpeTokenizerPy)
    (text ids tok : list Z) (fuel p : nat) :
  Forall (fun kv : str * Z => bracketed kv.1 = true) (special_to_id tk) ->
  (length text <= fuel)%nat ->
  tokenize_to_ids fuel tk text = Ok ids ->
  tok ∈ (special_to_id tk).*1 ->
  occurs_at tok text p ->
  exists sid, dict_get (special_to_id tk) tok = Some sid ∧ sid ∈ ids.
Proof. apply bracketed_markers_are_all_found_aux. Qed.

Lemma bracketed_markers_are_all_found_witness :
  exists sid, dict_get (special_to_id byte_tokenizer) (str_of "<image>") = Some sid
              ∧ sid ∈ [97; 32; 151646; 32; 257].
Proof.
  apply (bracketed_markers_are_all_found byte_tokenizer (str_of "a <image> low")
           [97; 32; 151646; 32; 257] (str_of "<image>") 14 2).
  - repeat constructor.
  - vm_compute. lia.
  - vm_compute. reflexivity.
  - do 2 apply list_elem_of_further. apply list_elem_of_here.
  - by exists (str_of "a "), (str_of " low").
Defined.

(** X12. The prompt that [apply_chat_template] builds always holds the
    image placeholder: for a tokenizer with bracketed markers of which
    "<image>" is one, the ids of the prompt, when [tokenize_to_ids] returns
    them, contain the id of "<image>" whatever the user wrote, so the
    search of [main] for the placeholder finds a position. *)
Theorem chat_prompt_has_the_placeholder `{SetIteration} (tk : BpeTokenizerPy)
    (user_prompt ids : list Z) (fuel : nat) (image_id : Z) :
  Forall (fun kv : str * Z => bracketed kv.1 = true) (special_to_id tk) ->
  dict_get (special_to_id tk) (str_of "<image>") = Some image_id ->
  (length (apply_chat_template user_prompt) <= fuel)%nat ->
  tokenize_to_ids fuel tk (apply_chat_template user_prompt) = Ok ids ->
  exists image_pos others, np_where_eq ids image_id 0 = image_pos :: others.
Proof.
  intros Hbr Himage Hfuel Hrun.
  assert (Hin : image_id ∈ ids).
  { assert (Hocc : occurs_at (str_of "<image>") (apply_chat_template user_prompt) 106).
    { unfold apply_chat_template.
      exists (str_of "<|im_start|>system" ++ [10]
              ++ str_of "You are a helpful assistant. Please answer in English only.<|im_end|>"
              ++ [10] ++ str_of "<|im_start|>user" ++ [10]),
             ([10] ++ user_prompt ++ str_of "<|im_end|>" ++ [10]
              ++ str_of "<|im_start|>assistant" ++ [10]).
      split; [|reflexivity]. by rewrite <- !app_assoc. }
    assert (Htok : str_of "<image>" ∈ (special_to_id tk).*1).
    { apply dict_get_elem in Himage. apply list_elem_of_fmap.
      by exists (str_of "<image>", image_id). }
    destruct (bracketed_markers_are_all_found_aux tk _ ids _ fuel 106 Hbr Hfuel Hrun Htok Hocc)
      as (sid & Hget & Hsid).
    congruence. }
  apply list_elem_of_lookup_1 in Hin as [q Hq].
  pose proof (np_where_eq_some ids image_id 0 q Hq) as Hfound.
  destruct (np_where_eq ids image_id 0) as [|image_pos others]; [done|].
  by eexists _, _.
Qed.

Lemma chat_prompt_has_the_placeholder_witness :
  exists image_pos others, np_where_eq example_prompt_ids 151646 0 = image_pos :: others.
Proof.
  apply (chat_prompt_has_the_placeholder byte_tokenizer (str_of "hi")
           example_prompt_ids 200 151646).
  - repeat constructor.
  - reflexivity.
  - vm_compute. lia.
  - vm_compute. reflexivity.
Defined.

(** The prompt for "hi": the placeholder is the id at position 75. *)
Example chat_prompt_values :
  length example_prompt_ids = 92%nat
  ∧ np_where_eq example_prompt_ids 151646 0 = [75%nat].
Proof. vm_compute. split; reflexivity. Qed.

(* ------------------------------------------------------------------ *)
(** * Further properties of the sampler *)

Lemma bind_ok_inv {X Y} (m : outcome X) (k : X -> outcome Y) (y : Y) :
  (m ≫= k) = Ok y -> exists x, m = Ok x ∧ k x = Ok y.
Proof. destruct m as [x|e|]; [by exists x|discriminate..]. Qed.

Lemma np_take_inv {X} (xs : list X) (idx : list nat) (out : list X) :
  np_take xs idx = Ok out ->
  length out = length idx ∧ Forall (fun i => (i < length xs)%nat) idx.
Proof.
  revert out. induction idx as [|i idx IH]; intros out; cbn [np_take].
  - intros [= <-]. by split.
  - intros (x & Hx & Hrest)%bind_ok_inv.
    apply bind_ok_inv in Hrest as (out' & Hout' & [= <-]).
    destruct (IH _ Hout') as [Hlen Hall]. split; [simpl; by rewrite Hlen|].
    constructor; [|exact Hall].
    destruct (xs !! i) eqn:Hi; [|discriminate]. by eapply lookup_lt_Some.
Qed.

Section SamplerFacts.
Context {A : Arith}.

Lemma penalize_length (rp : num A) (logits out : list (num A)) (entry : Z * Z) :
  penalize rp logits entry = Ok out -> length out = length logits.
Proof.
  unfold penalize. destruct entry as [tid cnt]. destruct (0 <? cnt); [|by intros [= <-]].
  intros (k & _ & Hrest)%bind_ok_inv. apply bind_ok_inv in Hrest as (x & _ & Hrest).
  destruct (ltb A (zero A) x); injection Hrest as <-; apply length_insert.
Qed.

Lemma apply_repetition_penalty_length (rp : num A) (seen : list (Z * Z))
    (logits out : list (num A)) :
  apply_repetition_penalty rp logits seen = Ok out -> length out = length logits.
Proof.
  unfold apply_repetition_penalty. revert logits.
  induction seen as [|entry seen IH]; intros logits; cbn [for_each].
  - by intros [= <-].
  - intros (logits1 & Hstep & Hrest)%bind_ok_inv.
    rewrite (IH _ Hrest). by eapply penalize_length.
Qed.

Lemma softmax_length {R} (NP : NumPy R) (logits probs : list (num A)) :
  softmax NP logits = Ok probs -> length probs = length logits.
Proof.
  unfold softmax. intros (m & _ & [= <-])%bind_ok_inv. by rewrite !length_map.
Qed.

(** The ids that survive the cut are indices of the probabilities. *)
Lemma top_p_keep_indices (np_argsort : list (num A) -> list nat)
    (probs : list (num A)) (top_p : num A) (kept : list nat) :
  np_argsort (List.map (neg A) probs) ≡ₚ seq 0 (length probs) ->
  top_p_keep np_argsort probs top_p = Ok kept ->
  Forall (fun i => (i < length probs)%nat) kept ∧ NoDup kept
  ∧ (probs <> [] -> kept <> []).
Proof.
  intros Hperm. unfold top_p_keep. intros (sorted & Hsorted & [= <-])%bind_ok_inv.
  assert (Hidx : Forall (fun i => (i < length probs)%nat)
                        (np_argsort (List.map (neg A) probs))).
  { rewrite Hperm. apply Forall_forall. intros i Hi%elem_of_seq. lia. }
  split; [by apply Forall_take|]. split.
  - apply (sublist_NoDup _ (np_argsort (List.map (neg A) probs))).
    + rewrite Hperm. apply NoDup_seq.
    + apply sublist_take.
  - intros Hne. destruct (np_argsort (List.map (neg A) probs)) as [|i idx] eqn:Hi.
    + apply Permutation_length in Hperm. rewrite length_seq in Hperm.
      destruct probs; [done|discriminate].
    + by rewrite Nat.add_1_r.
Qed.

Lemma candidates_indices {R} (NP : NumPy R) (logits : list (num A))
    (top_p temperature : num A) (keep_idx : list nat) (keep_probs : list (num A)) :
  (forall keys, np_argsort R NP keys ≡ₚ seq 0 (length keys)) ->
  candidates NP logits top_p temperature = Ok (keep_idx, keep_probs) ->
  Forall (fun i => (i < length logits)%nat) keep_idx ∧ NoDup keep_idx
  ∧ length keep_probs = length keep_idx
  ∧ (logits <> [] -> keep_idx <> []).
Proof.
  intros Hsort. unfold candidates.
  intros (probs & Hprobs & Hrest)%bind_ok_inv.
  apply bind_ok_inv in Hrest as (kept & Hkept & Hrest).
  apply bind_ok_inv in Hrest as (taken & Htaken & [= <- <-]).
  apply softmax_length in Hprobs. rewrite length_map in Hprobs.
  apply top_p_keep_indices in Hkept as (Hrange & Hnodup & Hne);
    [|by rewrite Hsort, length_map].
  rewrite Hprobs in Hrange. split; [exact Hrange|]. split; [exact Hnodup|].
  split; [rewrite length_map; by apply np_take_inv in Htaken as [? _]|].
  intros Hlogits. apply Hne. intros ->. by destruct logits.
Qed.
End SamplerFacts.

(** X13. The sampler returns an id of the vocabulary.  When [argsort]
    returns a permutation of the indices and [random.choice] one of the
    candidates it is given, an id that [top_p_sample] returns is a position
    of the logits. *)
Theorem sampled_id_is_in_the_vocabulary {A : Arith} {R : Type} (NP : @NumPy A R)
    (logits : list (num A)) (top_p temperature repetition_penalty : num A)
    (seen : list (Z * Z)) (r r' : R) (nid : Z) :
  (forall keys, np_argsort R NP keys ≡ₚ seq 0 (length keys)) ->
  (forall r0 candidates probs i r1,
      np_random_choice R NP r0 candidates probs = (Ok i, r1) -> i ∈ candidates) ->
  top_p_sample NP logits top_p temperature repetition_penalty seen r = (Ok nid, r') ->
  0 <= nid < Z.of_nat (length logits).
Proof.
  intros Hsort Hchoice. unfold top_p_sample.
  destruct (apply_repetition_penalty repetition_penalty logits seen
              ≫= (fun logits0 => candidates NP logits0 top_p temperature))
    as [[keep_idx keep_probs]|e|] eqn:Hrun; [|discriminate..].
  apply bind_ok_inv in Hrun as (logits1 & Hpen & Hcand).
  apply apply_repetition_penalty_length in Hpen.
  apply candidates_indices in Hcand as (Hrange & _); [|exact Hsort].
  destruct (np_random_choice R NP r keep_idx keep_probs) as [choice r1] eqn:Hdraw.
  intros [= Hnid <-]. apply bind_ok_inv in Hnid as (i & -> & [= <-]).
  apply Hchoice in Hdraw. rewrite Forall_forall in Hrange.
  specialize (Hrange i Hdraw). lia.
Qed.

Lemma insert_index_perm {A : Arith} (keys : list (num A)) (i : nat) (sorted : list nat) :
  insert_index keys i sorted ≡ₚ i :: sorted.
Proof.
  induction sorted as [|j sorted IH]; cbn [insert_index]; [done|].
  destruct (keys !! i) as [x|]; [|done]. destruct (keys !! j) as [y|]; [|done].
  destruct (ltb A x y); [done|]. rewrite IH. apply Permutation_swap.
Qed.

Lemma stable_argsort_perm {A : Arith} (keys : list (num A)) :
  stable_argsort keys ≡ₚ seq 0 (length keys).
Proof.
  unfold stable_argsort. induction (seq 0 (length keys)) as [|i l IH]; simpl; [done|].
  by rewrite insert_index_perm, IH.
Qed.

Lemma sampled_id_is_in_the_vocabulary_witness :
  0 <= 1 < Z.of_nat (length [1%Q; 2%Q; 3%Q]).
Proof.
  apply (sampled_id_is_in_the_vocabulary cycling_numpy [1%Q; 2%Q; 3%Q]
           (95 # 100)%Q (7 # 10)%Q (11 # 10)%Q [(2, 1)] 1%nat 2%nat 1).
  - intros keys. apply (@stable_argsort_perm exact).
  - intros r0 candidates probs i r1. cbn [np_random_choice cycling_numpy].
    intros [= Hi _]. destruct (candidates !! (r0 mod length candidates)%nat) eqn:Hc;
      [|discriminate].
    injection Hi as <-. by eapply list_elem_of_lookup_2.
  - vm_compute. reflexivity.
Defined.

(** ** Errors of the repetition penalty *)

Lemma np_index_spec (n : nat) (i : Z) :
  match np_index n i with
  | Some k => (k < n)%nat ∧ - Z.of_nat n <= i < Z.of_nat n
              ∧ Z.of_nat k = (if i <? 0 then Z.of_nat n + i else i)
  | None => i < - Z.of_nat n ∨ Z.of_nat n <= i
  end.
Proof.
  unfold np_index.
  destruct (Z.leb_spec 0 i), (Z.ltb_spec i (Z.of_nat n)); cbn [andb].
  - destruct (Z.ltb_spec i 0); lia.
  - destruct (Z.leb_spec (- Z.of_nat n) i), (Z.ltb_spec i 0); cbn [andb]; lia.
  - destruct (Z.leb_spec (- Z.of_nat n) i), (Z.ltb_spec i 0); cbn [andb]; lia.
  - destruct (Z.leb_spec (- Z.of_nat n) i), (Z.ltb_spec i 0); cbn [andb]; lia.
Qed.

(** X14. The repetition penalty fails exactly on an id out of range.  An
    entry of [seen] with a positive count whose id is below [-n] or not
    below [n], for [n] logits, makes the sampler raise [IndexError] (an id
    from [-n] to [-1] counts from the end, as NumPy has it); when there is
    no such entry the penalty returns logits, as many as it was given. *)
Theorem penalty_fails_on_ids_out_of_range {A : Arith} (rp : num A)
    (logits : list (num A)) (seen : list (Z * Z)) :
  let n := Z.of_nat (length logits) in
  let out_of_range (entry : Z * Z) := 0 < entry.2 ∧ (entry.1 < - n ∨ n <= entry.1) in
  (Exists out_of_range seen ->
     apply_repetition_penalty rp logits seen = Raise IndexError
     ∧ forall R (NP : NumPy R) top_p temperature r,
         top_p_sample NP logits top_p temperature rp seen r = (Raise IndexError, r))
  ∧ (Forall (fun entry => ~ out_of_range entry) seen ->
       exists out, apply_repetition_penalty rp logits seen = Ok out
                   ∧ length out = length logits).
Proof.
  intros n out_of_range.
  assert (Hstep : forall (logits0 : list (num A)) (entry : Z * Z),
            length logits0 = length logits ->
            (out_of_range entry ∧ penalize rp logits0 entry = Raise IndexError)
            ∨ (~ out_of_range entry
               ∧ exists logits1, penalize rp logits0 entry = Ok logits1
                                 ∧ length logits1 = length logits)).
  { intros logits0 [tid cnt] Hlen. unfold penalize, out_of_range. cbn [fst snd].
    destruct (Z.ltb_spec 0 cnt) as [Hcnt|Hcnt].
    2:{ right. split; [lia|]. by exists logits0. }
    pose proof (np_index_spec (length logits0) tid) as Hidx.
    destruct (np_index (length logits0) tid) as [k|]; cbn [or_raise].
    - right. destruct Hidx as (Hk & Htid & _). split; [subst n; lia|].
      destruct (lookup_lt_is_Some_2 logits0 k Hk) as [x Hx].
      rewrite bind_ok, Hx. cbn [or_raise]. rewrite bind_ok.
      destruct (ltb A (zero A) x); eexists; (split; [reflexivity|]);
        by rewrite length_insert.
    - left. split; [subst n; lia|reflexivity]. }
  assert (Hrun : forall logits0, length logits0 = length logits ->
            (Exists out_of_range seen
             ∧ for_each (penalize rp) seen logits0 = Raise IndexError)
            ∨ (Forall (fun entry => ~ out_of_range entry) seen
               ∧ exists out, for_each (penalize rp) seen logits0 = Ok out
                             ∧ length out = length logits)).
  { induction seen as [|entry seen IH]; intros logits0 Hlen; cbn [for_each].
    - right. split; [constructor|]. by exists logits0.
    - destruct (Hstep logits0 entry Hlen) as [[Hbad ->]|(Hok & logits1 & -> & Hlen1)].
      + left. split; [by left|reflexivity].
      + rewrite bind_ok. destruct (IH logits1 Hlen1) as [[Hbad Hraise]|[Hall Hout]].
        * left. split; [by right|exact Hraise].
        * right. split; [by constructor|exact Hout]. }
  unfold apply_repetition_penalty.
  destruct (Hrun logits eq_refl) as [[Hbad Hraise]|[Hall Hout]]; split.
  - intros _. split; [exact Hraise|]. intros R NP top_p temperature r.
    unfold top_p_sample, apply_repetition_penalty. by rewrite Hraise.
  - intros Hall. exfalso. apply Exists_exists in Hbad as (entry & Hin & Hbad).
    rewrite Forall_forall in Hall. by apply (Hall entry Hin).
  - intros Hbad. exfalso. apply Exists_exists in Hbad as (entry & Hin & Hbad).
    rewrite Forall_forall in Hall. by apply (Hall entry Hin).
  - intros _. exact Hout.
Qed.

(** Three logits: the id 3 is out of range, the id -1 is the last one. *)
Example penalty_index_values :
  @apply_repetition_penalty exact 2%Q [1%Q; 2%Q; 4%Q] [(3, 1)] = Raise IndexError
  ∧ @apply_repetition_penalty exact 2%Q [1%Q; 2%Q; 4%Q] [(3, 0)] = Ok [1%Q; 2%Q; 4%Q]
  ∧ @apply_repetition_penalty exact 2%Q [1%Q; 2%Q; 4%Q] [(-1, 1)]
    = Ok [1%Q; 2%Q; (4 / 2)%Q].
Proof. repeat split. Qed.

(** ** The candidates in exact arithmetic *)

Lemma np_take_elems {X} (xs : list X) (idx : list nat) (out : list X) :
  np_take xs idx = Ok out -> Forall (fun x => x ∈ xs) out.
Proof.
  revert out. induction idx as [|i idx IH]; intros out; cbn [np_take].
  - intros [= <-]. constructor.
  - intros (x & Hx & Hrest)%bind_ok_inv.
    apply bind_ok_inv in Hrest as (out' & Hout' & [= <-]).
    constructor; [|by apply IH].
    destruct (xs !! i) eqn:Hi; [|discriminate]. injection Hx as ->.
    by eapply list_elem_of_lookup_2.
Qed.

Lemma total_scaled (xs : list Q) (s : Q) :
  (total (List.map (fun p => p / s) xs) == total xs / s)%Q.
Proof.
  induction xs as [|x xs IH]; cbn [List.map].
  - change (total []) with 0%Q. unfold Qdiv. ring.
  - rewrite !total_cons, IH. unfold Qdiv. ring.
Qed.

Lemma scaled_positive (xs : list Q) (s : Q) :
  (0 < s)%Q -> Forall (fun p => (0 < p)%Q) xs ->
  Forall (fun p => (0 < p)%Q) (List.map (fun p => p / s)%Q xs).
Proof.
  intros Hs Hxs. apply Forall_forall. intros p Hp.
  apply list_elem_of_In, in_map_iff in Hp as (x & <- & Hx).
  rewrite Forall_forall in Hxs. apply list_elem_of_In, Hxs in Hx.
  apply Qlt_shift_div_l; [exact Hs|]. lra.
Qed.

(** X15. In exact arithmetic what the sampler hands to [random.choice] is
    a probability distribution over a non-empty set of distinct ids.  For
    logits that are not empty, an [exp] that is positive, a [sum] that is
    the sum, and an [argsort] that returns a permutation of the indices:
    the kept ids are distinct positions of the logits, there is at least
    one, each has one probability, the probabilities are positive and they
    sum to 1. *)
Theorem exact_candidates_form_a_distribution {R : Type} (NP : @NumPy exact R)
    (logits : list Q) (top_p temperature : Q)
    (keep_idx : list nat) (keep_probs : list Q) :
  logits <> [] ->
  (forall keys, np_argsort R NP keys ≡ₚ seq 0 (length keys)) ->
  (forall x, (0 < np_exp R NP x)%Q) ->
  (forall xs, (np_sum R NP xs == total xs)%Q) ->
  @candidates exact R NP logits top_p temperature = Ok (keep_idx, keep_probs) ->
  (1 <= length keep_idx)%nat
  ∧ NoDup keep_idx
  ∧ Forall (fun i => (i < length logits)%nat) keep_idx
  ∧ length keep_probs = length keep_idx
  ∧ Forall (fun p => (0 < p)%Q) keep_probs
  ∧ (total keep_probs == 1)%Q.
Proof.
  intros Hne Hsort Hexp Hsum Hrun.
  destruct (candidates_indices NP logits top_p temperature keep_idx keep_probs
              Hsort Hrun) as (Hrange & Hnodup & Hlen & Hkept).
  specialize (Hkept Hne).
  assert (Hone : (1 <= length keep_idx)%nat) by (destruct keep_idx; [done|simpl; lia]).
  split; [exact Hone|]. split; [exact Hnodup|]. split; [exact Hrange|].
  split; [exact Hlen|].
  unfold candidates in Hrun.
  apply bind_ok_inv in Hrun as (probs & Hprobs & Hrest).
  apply bind_ok_inv in Hrest as (kept & Hkeep & Hrest).
  apply bind_ok_inv in Hrest as (taken & Htaken & Hrest).
  injection Hrest as -> <-.
  unfold softmax in Hprobs. apply bind_ok_inv in Hprobs as (m & _ & Hprobs).
  injection Hprobs as <-. cbn [num exact div sub] in *.
  match type of Htaken with
  | np_take (List.map _ ?e) _ = _ => set (exps := e) in *
  end.
  assert (Hexps : Forall (fun p => (0 < p)%Q) exps).
  { apply Forall_forall. intros p Hp.
    apply list_elem_of_In, in_map_iff in Hp as (x & <- & _). apply Hexp. }
  assert (Hexps_ne : exps <> []).
  { subst exps. by destruct logits. }
  assert (Hmass : (0 < np_sum R NP exps)%Q).
  { rewrite Hsum. by apply total_positive. }
  pose proof (scaled_positive exps _ Hmass Hexps) as Hprobs.
  assert (Htaken_pos : Forall (fun p => (0 < p)%Q) taken).
  { eapply Forall_impl; [exact (np_take_elems _ _ _ Htaken)|].
    intros p Hp. rewrite Forall_forall in Hprobs. by apply Hprobs. }
  assert (Htaken_ne : taken <> []).
  { apply np_take_inv in Htaken as [Htl _]. intros ->.
    rewrite length_map in Hlen. simpl in *. lia. }
  assert (Hmass' : (0 < np_sum R NP taken)%Q).
  { rewrite Hsum. by apply total_positive. }
  split; [by apply scaled_positive|].
  rewrite total_scaled, <- (Hsum taken). field. lra.
Qed.

Lemma exp_rational_positive (x : Q) : (0 < exp_rational x)%Q.
Proof.
  unfold exp_rational.
  assert (Hsq : (0 <= (x - 1) * (x - 1))%Q).
  { generalize (x - 1)%Q. intros [n d]. unfold Qle, Qmult. cbn [Qnum Qden]. nia. }
  assert (Hden : ((x - 1) * (x - 1) == 2 * (1 - x + x * x / 2) - 1)%Q) by field.
  apply Qlt_shift_div_l; lra.
Qed.

Lemma exact_candidates_form_a_distribution_witness :
  (1 <= length [2%nat; 1%nat])%nat
  ∧ NoDup [2%nat; 1%nat]
  ∧ Forall (fun i => (i < length [0%Q; 1%Q; 2%Q])%nat) [2%nat; 1%nat]
  ∧ length [(51200000 # 71680000)%Q; (51200000 # 179200000)%Q] = length [2%nat; 1%nat]
  ∧ Forall (fun p => (0 < p)%Q) [(51200000 # 71680000)%Q; (51200000 # 179200000)%Q]
  ∧ (total [(51200000 # 71680000)%Q; (51200000 # 179200000)%Q] == 1)%Q.
Proof.
  apply (exact_candidates_form_a_distribution cycling_numpy [0%Q; 1%Q; 2%Q]
           (8 # 10)%Q 1%Q [2%nat; 1%nat] [(51200000 # 71680000)%Q; (51200000 # 179200000)%Q]).
  - discriminate.
  - intros keys. apply (@stable_argsort_perm exact).
  - intros x. apply exp_rational_positive.
  - intros xs. cbn [np_sum cycling_numpy]. unfold seq_sum.
    change (add exact) with Qplus. change (zero exact) with 0%Q.
    assert (Hgen : forall acc : Q, (fold_left Qplus xs acc == acc + total xs)%Q).
    { induction xs as [|x xs IH]; intros acc; cbn [fold_left].
      - change (total []) with 0%Q. lra.
      - rewrite IH, total_cons. lra. }
    rewrite Hgen. lra.
  - vm_compute. reflexivity.
Defined.

(** ** Raising [top_p] *)

Lemma exact_searchsorted_mono (a : list Q) (p p' : Q) :
  (p <= p')%Q -> (@np_searchsorted exact a p <= @np_searchsorted exact a p')%nat.
Proof.
  intros Hp. induction a as [|x a IH]; cbn [np_searchsorted]; [lia|].
  destruct (ltb exact x p) eqn:Hx; [|lia].
  apply exact_below in Hx.
  replace (ltb exact x p') with true; [lia|].
  symmetry. apply exact_below. lra.
Qed.

(** X16. In exact arithmetic a larger [top_p] never drops a candidate:
    the ids kept for [top_p] are a prefix, in the same order, of the ids
    kept for any larger value. *)
Theorem exact_top_p_is_monotone (np_argsort : list Q -> list nat)
    (probs : list Q) (p p' : Q) (kept : list nat) :
  (p <= p')%Q ->
  @top_p_keep exact np_argsort probs p = Ok kept ->
  exists kept', @top_p_keep exact np_argsort probs p' = Ok kept'
                ∧ kept `prefix_of` kept'.
Proof.
  intros Hp. unfold top_p_keep.
  intros (sorted & Hsorted & [= <-])%bind_ok_inv.
  rewrite Hsorted, bind_ok. eexists. split; [reflexivity|].
  pose proof (exact_searchsorted_mono (@np_cumsum exact sorted) p p' Hp) as Hk.
  set (k := @np_searchsorted exact (@np_cumsum exact sorted) p) in *.
  set (k' := @np_searchsorted exact (@np_cumsum exact sorted) p') in *.
  replace (k' + 1)%nat with ((k + 1) + (k' - k))%nat by lia.
  rewrite <- (take_take_drop _ (k + 1) (k' - k)). by apply prefix_app_r.
Qed.

Lemma exact_top_p_is_monotone_witness :
  exists kept', @top_p_keep exact (@stable_argsort exact) [(1 # 4)%Q; (1 # 2)%Q; (1 # 4)%Q]
                  (9 # 10)%Q = Ok kept'
                ∧ [1%nat; 2%nat] `prefix_of` kept'.
Proof.
  apply (exact_top_p_is_monotone (@stable_argsort exact)
           [(1 # 4)%Q; (1 # 2)%Q; (1 # 4)%Q] (6 # 10)%Q (9 # 10)%Q [1%nat; 2%nat]).
  - vm_compute. discriminate.
  - vm_compute. reflexivity.
Defined.

(* ------------------------------------------------------------------ *)
(** * Further properties of [main] *)

(** ** Several placeholders *)

Lemma np_where_eq_first (xs : list Z) (v : Z) (s p : nat) :
  xs !! p = Some v ->
  (forall q : nat, (q < p)%nat -> xs !! q <> Some v) ->
  exists others,
    np_where_eq xs v s = (s + p)%nat :: others
    ∧ forall q : nat, q ∈ others <-> exists i : nat, q = (s + i)%nat ∧ (p < i)%nat
                                                     ∧ xs !! i = Some v.
Proof.
  assert (Hall : forall xs s (q : nat),
            q ∈ np_where_eq xs v s <-> exists i : nat, q = (s + i)%nat ∧ xs !! i = Some v).
  { clear. induction xs as [|x xs IH]; intros s q; simpl.
    - split; [by intros ?%elem_of_nil|by intros (i & _ & ?)].
    - destruct (decide (x = v)) as [->|Hne].
      + rewrite elem_of_cons, IH. split.
        * intros [->|(i & -> & Hi)]; [exists 0%nat|exists (S i)]; split; try done; lia.
        * intros ([|i] & -> & Hi); [left; lia|right]. exists i. split; [lia|exact Hi].
      + rewrite IH. split.
        * intros (i & -> & Hi). exists (S i). split; [lia|exact Hi].
        * intros ([|i] & -> & Hi); [simpl in Hi; congruence|].
          exists i. split; [lia|exact Hi]. }
  revert s p. induction xs as [|x xs IH]; intros s p Hp Hfirst; [done|].
  simpl. destruct (decide (x = v)) as [->|Hne].
  - destruct p as [|p]; [|destruct (Hfirst 0%nat ltac:(lia) eq_refl)].
    exists (np_where_eq xs v (S s)). split; [by rewrite Nat.add_0_r|].
    intros q. rewrite Hall. split.
    + intros (i & -> & Hi). exists (S i). split; [lia|]. split; [lia|exact Hi].
    + intros ([|i] & -> & Hlt & Hi); [lia|]. exists i. split; [lia|exact Hi].
  - destruct p as [|p]; [simpl in Hp; congruence|].
    destruct (IH (S s) p Hp) as (others & -> & Hothers).
    { intros q Hq. apply (Hfirst (S q)). lia. }
    exists others. split; [f_equal; lia|]. intros q. rewrite Hothers. split.
    + intros (i & -> & Hlt & Hi). exists (S i). split; [lia|]. split; [lia|exact Hi].
    + intros ([|i] & -> & Hlt & Hi); [lia|]. exists i. split; [lia|]. split; [lia|exact Hi].
Qed.

(** X17. Of several image placeholders only the first is replaced.  The
    position [main] uses is that of the first placeholder id, and fusing
    gives the text rows before it, the vision rows, and the text rows after
    it, among them those of the later placeholders, which stay in the
    sequence as ordinary text rows. *)
Theorem fusion_replaces_only_the_first_placeholder {vec : Type} (zeros : vec)
    (input_ids : list Z) (image_token_id : Z) (text_emb vis_proj : list vec) (p : nat) :
  input_ids !! p = Some image_token_id ->
  (forall q : nat, (q < p)%nat -> input_ids !! q <> Some image_token_id) ->
  (p < length text_emb)%nat ->
  exists others fused,
    np_where_eq input_ids image_token_id 0 = p :: others
    ∧ (forall q : nat, q ∈ others <-> (p < q)%nat ∧ input_ids !! q = Some image_token_id)
    ∧ fuse_embeddings zeros p text_emb vis_proj = Ok fused
    ∧ fused = take p text_emb ++ vis_proj ++ drop (S p) text_emb
    ∧ forall q : nat, q ∈ others ->
        fused !! (q - 1 + length vis_proj)%nat = text_emb !! q.
Proof.
  intros Hp Hfirst Hlt.
  destruct (np_where_eq_first input_ids image_token_id 0 p Hp Hfirst)
    as (others & Hwhere & Hothers).
  exists others, (take p text_emb ++ vis_proj ++ drop (S p) text_emb).
  assert (Hlater : forall q : nat,
            q ∈ others <-> (p < q)%nat ∧ input_ids !! q = Some image_token_id).
  { intros q. rewrite Hothers. split.
    - intros (i & -> & Hi). exact Hi.
    - intros Hq. by exists q. }
  split; [exact Hwhere|]. split; [exact Hlater|].
  split; [by apply fuse_embeddings_spec|]. split; [reflexivity|].
  intros q [Hq _]%Hlater.
  assert (Htake : length (take p text_emb) = p) by (rewrite length_take; lia).
  rewrite lookup_app_r by lia. rewrite Htake.
  rewrite lookup_app_r by lia. rewrite lookup_drop. f_equal. lia.
Qed.

Lemma fusion_replaces_only_the_first_placeholder_witness :
  exists others fused,
    np_where_eq [10; 7; 11; 7] 7 0 = 1%nat :: others
    ∧ (forall q : nat, q ∈ others <-> (1 < q)%nat ∧ [10; 7; 11; 7] !! q = Some 7)
    ∧ fuse_embeddings 0 1 [100; 101; 102; 103] [1; 2] = Ok fused
    ∧ fused = take 1 [100; 101; 102; 103] ++ [1; 2] ++ drop 2 [100; 101; 102; 103]
    ∧ forall q : nat, q ∈ others ->
        fused !! (q - 1 + length [1; 2])%nat = [100; 101; 102; 103] !! q.
Proof.
  apply (fusion_replaces_only_the_first_placeholder 0 [10; 7; 11; 7] 7
           [100; 101; 102; 103] [1; 2] 1).
  - reflexivity.
  - intros [|q] Hq; [discriminate|lia].
  - simpl. lia.
Defined.

(** Two placeholders: the row of the second one, 103, stays. *)
Example fusion_with_two_placeholders :
  fuse_embeddings 0 1 [100; 101; 102; 103] [1; 2] = Ok [100; 1; 2; 102; 103].
Proof. reflexivity. Qed.

(** ** The repetition counts *)

Lemma dict_set_keys {K V} `{EqDecision K} (d : list (K * V)) (k : K) (v : V) :
  (k ∈ d.*1 ∧ (dict_set d k v).*1 = d.*1)
  ∨ ((k ∉ d.*1) ∧ (dict_set d k v).*1 = d.*1 ++ [k]).
Proof.
  induction d as [|[k0 v0] d IH]; cbn [dict_set].
  - right. split; [apply not_elem_of_nil|reflexivity].
  - destruct (decide (k0 = k)) as [->|Hne].
    + left. split; [apply list_elem_of_here|reflexivity].
    + destruct IH as [[Hin Heq]|[Hout Heq]].
      * left. split; [by apply list_elem_of_further|].
        rewrite !fmap_cons. by rewrite Heq.
      * right. split.
        -- rewrite fmap_cons. cbn [fst]. intros [?|?]%elem_of_cons; [congruence|done].
        -- rewrite !fmap_cons. by rewrite Heq.
Qed.

Lemma dict_set_Forall {K V} `{EqDecision K} (P : K * V -> Prop) (d : list (K * V))
    (k : K) (v : V) :
  Forall P d -> P (k, v) -> Forall P (dict_set d k v).
Proof.
  intros Hd Hkv. induction Hd as [|[k0 v0] d Hx Hd IH]; cbn [dict_set].
  - by constructor.
  - destruct (decide (k0 = k)); constructor; assumption.
Qed.

Lemma dict_get_present {K V} `{EqDecision K} (d : list (K * V)) (k : K) :
  k ∈ d.*1 -> exists v, dict_get d k = Some v.
Proof.
  induction d as [|[k0 v0] d IH]; cbn [dict_get].
  - intros Hin. by apply not_elem_of_nil in Hin.
  - rewrite fmap_cons. cbn [fst]. intros Hin.
    destruct (decide (k0 = k)) as [->|Hne]; [by eexists|].
    apply elem_of_cons in Hin as [?|Hin]; [congruence|]. by apply IH.
Qed.

Lemma counts_occurrences_step (seen : list (Z * Z)) (generated : list Z) (nid : Z) :
  counts_occurrences seen generated ->
  counts_occurrences (dict_set seen nid (default 0 (dict_get seen nid) + 1))
                     (generated ++ [nid]).
Proof.
  intros (Hkeys & Hcount & Hpos). split; [|split].
  - destruct (dict_set_keys seen nid (default 0 (dict_get seen nid) + 1))
      as [[_ ->]|[Hout ->]]; [exact Hkeys|].
    apply NoDup_app. split; [exact Hkeys|]. split; [|apply NoDup_singleton].
    intros k Hk ->%list_elem_of_singleton. done.
  - intros k. rewrite dict_get_set, count_occ_app. cbn [count_occ].
    pose proof (Hcount nid) as Hnid. pose proof (Hcount k) as Hk.
    destruct (decide (nid = k)) as [->|Hne].
    + destruct (Z.eq_dec k k); [|done]. unfold default, from_option, id in *.
      destruct (dict_get seen k); lia.
    + destruct (Z.eq_dec nid k); [done|]. lia.
  - apply dict_set_Forall; [exact Hpos|]. cbn [snd]. rewrite Hcount. lia.
Qed.

Lemma counts_occurrences_keys (seen : list (Z * Z)) (generated : list Z) (nid : Z) :
  counts_occurrences seen generated -> nid ∈ seen.*1 <-> nid ∈ generated.
Proof.
  intros (_ & Hcount & Hpos). specialize (Hcount nid).
  rewrite (list_elem_of_In generated), (count_occ_In Z.eq_dec). split.
  - intros [c Hget]%dict_get_present.
    pose proof (dict_get_Forall _ _ _ _ Hpos Hget) as Hc. cbn [snd] in Hc.
    rewrite Hget in Hcount. unfold default, from_option, id in Hcount. lia.
  - intros Hgt. destruct (decide (nid ∈ seen.*1)) as [|Hout]; [done|].
    rewrite (dict_get_absent seen nid Hout) in Hcount.
    unfold default, from_option in Hcount. lia.
Qed.

Section LoopFacts.
Context {A : Arith} (E : Engine A) {R : Type} (NP : @NumPy A R).
Context (codec : Utf8Decoder) (tokenizer : BpeTokenizerPy).
Context (args : Args A) (cfg : Config).

Lemma decode_steps_counts (n : nat) :
  forall (step : nat) (st st' : loop_state E) (w w' : world R),
    counts_occurrences (seen E st) (generated E st) ->
    decode_steps E NP codec tokenizer args cfg n step st w = (w', Ok st') ->
    counts_occurrences (seen E st') (generated E st').
Proof.
  induction n as [|n IH]; intros step st st' w w' Hst; cbn [decode_steps].
  { by intros [= _ <-]. }
  rewrite run_bind_unfold.
  destruct (sample NP args (last_logits E st) (seen E st) w) as [w1 [nid|e|]];
    [|discriminate..].
  rewrite run_bind_unfold.
  destruct (verbose_print_spec codec tokenizer args step nid w1) as (pr & Hprint & _).
  rewrite Hprint.
  pose proof (counts_occurrences_step _ _ nid Hst) as Hnext.
  destruct (decide (nid = eos_id cfg)).
  { intros [= _ <-]. exact Hnext. }
  rewrite run_bind_unfold.
  destruct (advance E (out_present E st) nid _) as [w3 [next|e|]]; [|discriminate..].
  intros Hrest. eapply IH; [|exact Hrest]. exact Hnext.
Qed.
End LoopFacts.

(** X18. The repetition counts are occurrence counts.  In the generation
    loop, started as [main] starts it with nothing seen and nothing
    generated, [seen] holds after any number of passes exactly the ids
    generated so far, each once and with the number of times it was
    generated; every count is positive, so the test [cnt > 0] of the
    sampler never fails on it. *)
Theorem repetition_counts_are_occurrence_counts {A : Arith} (E : Engine A) {R : Type}
    (NP : @NumPy A R) (codec : Utf8Decoder) (tokenizer : BpeTokenizerPy)
    (args : Args A) (cfg : Config) (n step : nat)
    (last : list (num A)) (cache : list (kv E)) (w w' : world R) (st' : loop_state E) :
  decode_steps E NP codec tokenizer args cfg n step
    (@Build_loop_state A E last cache [] []) w = (w', Ok st') ->
  NoDup (seen E st').*1
  ∧ (forall nid, nid ∈ (seen E st').*1 <-> nid ∈ generated E st')
  ∧ (forall nid, default 0 (dict_get (seen E st') nid)
                 = Z.of_nat (count_occ Z.eq_dec (generated E st') nid))
  ∧ Forall (fun entry : Z * Z => 0 < entry.2) (seen E st').
Proof.
  intros Hrun.
  assert (Hstart : counts_occurrences (seen E (@Build_loop_state A E last cache [] []))
                     (generated E (@Build_loop_state A E last cache [] []))).
  { split; [constructor|]. split; [done|constructor]. }
  pose proof (decode_steps_counts E NP codec tokenizer args cfg n step _ st' w w'
                Hstart Hrun) as Hinv.
  assert (Hkeys : forall nid, nid ∈ (seen E st').*1 <-> nid ∈ generated E st').
  { intros nid. by apply counts_occurrences_keys. }
  destruct Hinv as (Hnodup & Hcount & Hpos).
  split; [exact Hnodup|]. split; [exact Hkeys|]. split; [exact Hcount|exact Hpos].
Qed.

Lemma repetition_counts_are_occurrence_counts_witness :
  exists st' : loop_state small_engine,
    generated small_engine st' = [1; 0; 2; 1]
    ∧ NoDup (seen small_engine st').*1
    ∧ (forall nid, nid ∈ (seen small_engine st').*1 <-> nid ∈ generated small_engine st')
    ∧ (forall nid, default 0 (dict_get (seen small_engine st') nid)
                   = Z.of_nat (count_occ Z.eq_dec (generated small_engine st') nid))
    ∧ Forall (fun entry : Z * Z => 0 < entry.2) (seen small_engine st').
Proof.
  eexists. split; [|
    apply (repetition_counts_are_occurrence_counts small_engine cycling_numpy python_utf8
             overlap_tokenizer small_args endless_config 4 0 [1%Q; 2%Q; 3%Q]
             [1%nat; 1%nat] {| rng := 4%nat; trace := [] |} small_loop_run.1);
    vm_compute; reflexivity].
  reflexivity.
Defined.

(** ** The [--verbose] flag *)

Lemma without_steps_snoc (evs : list event) (e : event) :
  without_steps (evs ++ [e]) = without_steps evs ++ (if is_step e then [] else [e]).
Proof.
  unfold without_steps. rewrite List.filter_app. cbn [List.filter].
  by destruct (is_step e).
Qed.

Section Verbose.
Context {A : Arith} (E : Engine A) {R : Type} (NP : @NumPy A R).
Context (codec : Utf8Decoder) (tokenizer : BpeTokenizerPy).
Context (args : Args A) (cfg : Config).

Lemma emit_quiet (e : event) (w : world R) :
  is_step e = false ->
  emit e (quiet_world w) = (quiet_world (emit e w).1, (emit e w).2).
Proof.
  intros He. unfold emit, quiet_world. cbn [rng trace fst snd].
  by rewrite without_steps_snoc, He.
Qed.

Lemma sample_quiet (logits : list (num A)) (seen : list (Z * Z)) (w : world R) :
  sample NP (quiet_args args) logits seen (quiet_world w)
  = (quiet_world (sample NP args logits seen w).1, (sample NP args logits seen w).2).
Proof.
  unfold sample, quiet_args, quiet_world.
  cbn [rng trace top_p temperature repetition_penalty].
  destruct (top_p_sample NP logits (top_p args) (temperature args)
              (repetition_penalty args) seen (rng w)) as [[nid|e|] r];
    cbn [fst snd rng trace]; [|reflexivity..].
  by rewrite without_steps_snoc.
Qed.

Lemma verbose_print_quiet (step : nat) (nid : Z) (w : world R) :
  verbose_print codec tokenizer (quiet_args args) step nid (quiet_world w)
  = (quiet_world (verbose_print codec tokenizer args step nid w).1, Ok tt)
  ∧ (verbose_print codec tokenizer args step nid w).2 = Ok tt.
Proof.
  unfold verbose_print, quiet_args. cbn [verbose].
  destruct (verbose args); [|by split].
  unfold try_pass. rewrite run_bind_unfold. unfold lift, mret, run_ret.
  cbn [fst snd]. split; [|reflexivity].
  destruct (decode codec tokenizer [nid]) as [text|e|]; cbn [fst]; [|reflexivity..].
  unfold emit, quiet_world. cbn [fst rng trace].
  rewrite without_steps_snoc. cbn [is_step]. by rewrite app_nil_r.
Qed.

Lemma advance_quiet (cache : list (kv E)) (nid : Z) (w : world R) :
  advance E cache nid (quiet_world w)
  = (quiet_world (advance E cache nid w).1, (advance E cache nid w).2).
Proof.
  unfold advance, embed, decoder, emit, lift, mbind, run_bind, mret, run_ret, quiet_world.
  cbn [rng trace inputs_embeds attention_mask position_ids past_key_values fst snd].
  destruct (cache !! 0%nat) as [k0|]; cbn [or_raise].
  2:{ cbn [fst snd rng trace]. by rewrite without_steps_snoc. }
  destruct (np_take cache (seq 0 (2 * num_layers E))) as [past|e|].
  2,3: cbn [fst snd rng trace]; by rewrite without_steps_snoc.
  destruct (last (logits _)); cbn [or_raise fst snd rng trace];
    by rewrite !without_steps_snoc.
Qed.

Lemma decode_steps_quiet (n : nat) :
  forall (step : nat) (st : loop_state E) (w : world R),
    decode_steps E NP codec tokenizer (quiet_args args) cfg n step st (quiet_world w)
    = (quiet_world (decode_steps E NP codec tokenizer args cfg n step st w).1,
       (decode_steps E NP codec tokenizer args cfg n step st w).2).
Proof.
  induction n as [|n IH]; intros step st w; cbn [decode_steps]; [reflexivity|].
  rewrite !run_bind_unfold, sample_quiet.
  destruct (sample NP args (last_logits E st) (seen E st) w) as [w1 [nid|e|]];
    cbn [fst snd]; [|reflexivity..].
  rewrite !run_bind_unfold.
  destruct (verbose_print_quiet step nid w1) as [-> Hok].
  destruct (verbose_print codec tokenizer args step nid w1) as [w2 o2].
  cbn [fst snd] in *. subst o2.
  destruct (decide (nid = eos_id cfg)); [reflexivity|].
  rewrite !run_bind_unfold, advance_quiet.
  destruct (advance E (out_present E st) nid w2) as [w3 [next|e|]];
    cbn [fst snd]; [|reflexivity..].
  apply IH.
Qed.
End Verbose.

(** X19. [--verbose] changes only what is printed.  The generation loop run
    without the flag draws the same ids from the same random states, makes
    the same session calls in the same order and ends with the same result
    or the same exception as the run with it: its trace is that of the
    verbose run without the step lines.  This holds also where [decode]
    raises inside the verbose block, whose exceptions are swallowed. *)
Theorem verbose_only_adds_step_lines {A : Arith} (E : Engine A) {R : Type}
    (NP : @NumPy A R) (codec : Utf8Decoder) (tokenizer : BpeTokenizerPy)
    (args : Args A) (cfg : Config) (n step : nat) (st : loop_state E) (w : world R) :
  let loud := decode_steps E NP codec tokenizer args cfg n step st w in
  let quiet := decode_steps E NP codec tokenizer (quiet_args args) cfg n step st
                 (quiet_world w) in
  quiet.2 = loud.2
  ∧ rng quiet.1 = rng loud.1
  ∧ trace quiet.1 = without_steps (trace loud.1).
Proof.
  cbv zeta. rewrite decode_steps_quiet. by repeat split.
Qed.

Example verbose_run_values :
  trace small_loop_run.1
  = [EvSample 1; EvStep 0 1 []; EvEmbed [1]; EvDecoder 1 2 [1] 2;
     EvSample 0; EvStep 1 0 []; EvEmbed [0]; EvDecoder 1 3 [2] 2;
     EvSample 2; EvStep 2 2 []; EvEmbed [2]; EvDecoder 1 4 [3] 2;
     EvSample 1; EvStep 3 1 []; EvEmbed [1]; EvDecoder 1 5 [4] 2]
  ∧ trace (decode_steps small_engine cycling_numpy python_utf8 overlap_tokenizer
             (quiet_args small_args) endless_config 4 0
             (@Build_loop_state exact small_engine [1%Q; 2%Q; 3%Q] [1%nat; 1%nat] [] [])
             {| rng := 4%nat; trace := [] |}).1
    = [EvSample 1; EvEmbed [1]; EvDecoder 1 2 [1] 2;
       EvSample 0; EvEmbed [0]; EvDecoder 1 3 [2] 2;
       EvSample 2; EvEmbed [2]; EvDecoder 1 4 [3] 2;
       EvSample 1; EvEmbed [1]; EvDecoder 1 5 [4] 2].
Proof. split; vm_compute; reflexivity. Qed.

(** ** The decoder calls of a run *)

Lemma decoder_calls_app (evs1 evs2 : list event) :
  decoder_calls (evs1 ++ evs2) = decoder_calls evs1 ++ decoder_calls evs2.
Proof. apply omap_app. Qed.

Lemma prints_no_calls (pr : list event) :
  forallb is_print pr = true -> decoder_calls pr = [].
Proof.
  induction pr as [|e pr IH]; [reflexivity|]. cbn [forallb].
  intros [He Hpr]%andb_true_iff. destruct e; try discriminate; exact (IH Hpr).
Qed.

Lemma fuse_step_length {vec : Type} (p : nat) (text_emb vis_proj : list vec)
    (st st' : list vec * nat) (i : nat) :
  fuse_step p text_emb vis_proj st i = Ok st' -> length st'.1 = length st.1.
Proof.
  destruct st as [arr w]. unfold fuse_step, assign_rows. cbn [fst].
  destruct (decide (i = p)).
  - destruct (decide (_ = length vis_proj)) as [Hk|_].
    + rewrite bind_ok. intros [= <-]. cbn [fst].
      rewrite !length_app, length_take, length_drop. lia.
    + destruct (decide (length vis_proj = 1%nat)); [|discriminate].
      rewrite bind_ok. by intros [= <-].
  - destruct (text_emb !! i) as [row|]; [|discriminate]. cbn [or_raise].
    rewrite bind_ok. destruct (decide (w < length arr)%nat); [|discriminate].
    intros [= <-]. cbn [fst]. by rewrite length_insert.
Qed.

Lemma fuse_embeddings_length {vec : Type} (zeros : vec) (p : nat)
    (text_emb vis_proj fused : list vec) :
  fuse_embeddings zeros p text_emb vis_proj = Ok fused ->
  length fused
  = Z.to_nat (Z.of_nat (length text_emb) - 1 + Z.of_nat (length vis_proj)).
Proof.
  unfold fuse_embeddings. destruct (_ <? 0); [discriminate|].
  destruct (for_each _ _ _) as [st|e|] eqn:Hloop; [|discriminate..].
  rewrite bind_ok. intros [= <-].
  apply (for_each_preserves (fuse_step p text_emb vis_proj)
           (fun st => length st.1
                      = Z.to_nat (Z.of_nat (length text_emb) - 1
                                  + Z.of_nat (length vis_proj)))) in Hloop.
  - exact Hloop.
  - intros st0 i st1 Hstep Hst0. by rewrite (fuse_step_length _ _ _ _ _ _ Hstep).
  - cbn [fst]. apply length_replicate.
Qed.

Section Protocol.
Context {A : Arith} (E : Engine A) {R : Type} (NP : @NumPy A R).
Context (codec : Utf8Decoder) (tokenizer : BpeTokenizerPy).
Context (args : Args A) (cfg : Config).
Hypothesis embed_rows : forall ids, length (embed_run E ids) = length ids.
Hypothesis cache_grows : forall f : feed (vec E) (kv E),
  Forall2 (fun past now => kv_len E now = (kv_len E past + length (inputs_embeds f))%nat)
          (past_key_values f) (present (dec_run E f)).

Lemma present_head (f : feed (vec E) (kv E)) (k0 : kv E) :
  past_key_values f !! 0%nat = Some k0 ->
  forall k1, present (dec_run E f) !! 0%nat = Some k1 ->
             kv_len E k1 = (kv_len E k0 + length (inputs_embeds f))%nat.
Proof.
  intros Hk0 k1 Hk1. pose proof (cache_grows f) as Hgrow.
  destruct Hgrow as [|past now pasts nows Hhead _]; [discriminate|].
  cbn in Hk0, Hk1. by injection Hk0 as <-; injection Hk1 as <-.
Qed.

Lemma np_take_head {X} (xs : list X) (n : nat) (out : list X) :
  np_take xs (seq 0 (S n)) = Ok out -> out !! 0%nat = xs !! 0%nat.
Proof.
  cbn [seq np_take]. destruct (xs !! 0%nat) as [x|]; [|discriminate].
  cbn [or_raise]. rewrite bind_ok.
  destruct (np_take xs (seq 1 n)) as [rest|e|]; [|discriminate..].
  rewrite bind_ok. by intros [= <-].
Qed.

Lemma advance_calls (cache : list (kv E)) (nid : Z) (w : world R) (past_len : nat) :
  (forall k0, cache !! 0%nat = Some k0 -> kv_len E k0 = past_len) ->
  exists evs o,
    advance E cache nid w = ({| rng := rng w; trace := trace w ++ evs |}, o)
    ∧ samples_of evs = []
    ∧ ((decoder_calls evs = [] ∧ forall next, o <> Ok next)
       ∨ (decoder_calls evs = [step_call (num_layers E) past_len]
          ∧ forall next, o = Ok next ->
              forall k1, next.2 !! 0%nat = Some k1 -> kv_len E k1 = S past_len)).
Proof.
  intros Hlen.
  unfold advance, embed, decoder, emit, lift, mbind, run_bind, mret, run_ret.
  cbn [rng trace inputs_embeds attention_mask position_ids past_key_values].
  destruct (cache !! 0%nat) as [k0|] eqn:Hk0; cbn [or_raise].
  2:{ exists [EvEmbed [nid]], (Raise IndexError). split; [reflexivity|].
      split; [reflexivity|]. left. by split. }
  specialize (Hlen k0 eq_refl).
  assert (Hlayers : exists n, (2 * num_layers E)%nat = S n).
  { unfold num_layers. exists (2 * Nat.max 1 (length (layer_inputs E) / 2) - 1)%nat. lia. }
  destruct Hlayers as [n Hn].
  destruct (np_take cache (seq 0 (2 * num_layers E))) as [past|e|] eqn:Hpast.
  2:{ exists [EvEmbed [nid]], (Raise e). split; [reflexivity|].
      split; [reflexivity|]. left. by split. }
  2:{ exists [EvEmbed [nid]], OutOfFuel. split; [reflexivity|].
      split; [reflexivity|]. left. by split. }
  cbn [rng trace inputs_embeds attention_mask position_ids past_key_values].
  pose proof (np_take_inv _ _ _ Hpast) as [Hpast_len _]. rewrite length_seq in Hpast_len.
  rewrite Hn in Hpast. apply np_take_head in Hpast. rewrite Hk0 in Hpast.
  set (f := {| inputs_embeds := embed_run E [nid];
               attention_mask := (kv_len E k0 + 1)%nat;
               position_ids := [Z.of_nat (kv_len E k0)];
               past_key_values := past |}).
  assert (Hcall : decoder_calls
                    [EvEmbed [nid];
                     EvDecoder (length (embed_run E [nid])) (kv_len E k0 + 1)
                       [Z.of_nat (kv_len E k0)] (length past)]
                  = [step_call (num_layers E) past_len]).
  { cbn [decoder_calls omap]. unfold step_call.
    by rewrite embed_rows, Hpast_len, Hlen. }
  assert (Hnext : forall k1, present (dec_run E f) !! 0%nat = Some k1 ->
                             kv_len E k1 = S past_len).
  { intros k1 Hk1. rewrite (present_head f k0 Hpast k1 Hk1).
    cbn [inputs_embeds f]. rewrite embed_rows, Hlen. simpl. lia. }
  destruct (last (logits (dec_run E f))) as [row|]; cbn [or_raise];
    rewrite <- app_assoc; eexists _, _; (split; [reflexivity|]);
    (split; [reflexivity|]); right; (split; [exact Hcall|]).
  - intros next [= <-]. exact Hnext.
  - intros next [=].
Qed.

Lemma decode_steps_calls (n : nat) :
  forall (step : nat) (st : loop_state E) (w : world R) (past_len : nat),
    (forall k0, out_present E st !! 0%nat = Some k0 -> kv_len E k0 = past_len) ->
    exists evs r o m,
      decode_steps E NP codec tokenizer args cfg n step st w
      = ({| rng := r; trace := trace w ++ evs |}, o)
      ∧ (m <= n)%nat
      ∧ decoder_calls evs
        = List.map (fun k => step_call (num_layers E) (past_len + k)) (seq 0 m)
      ∧ (forall st', o = Ok st' ->
           m = length (before_first (eos_id cfg) (samples_of evs))).
Proof.
  induction n as [|n IH]; intros step st w past_len Hlen.
  { exists [], (rng w), (Ok st), 0%nat. split.
    - cbn [decode_steps]. unfold mret, run_ret. f_equal. apply world_eta.
    - split; [lia|]. split; [reflexivity|]. intros st' _. reflexivity. }
  cbn [decode_steps]. rewrite run_bind_unfold.
  destruct (sample_spec NP args (last_logits E st) (seen E st) w) as (r1 & o1 & ->).
  destruct o1 as [nid|e|].
  2:{ exists [], r1, (Raise e), 0%nat. split; [reflexivity|]. split; [lia|].
      split; [reflexivity|]. intros st' [=]. }
  2:{ exists [], r1, OutOfFuel, 0%nat. split; [reflexivity|]. split; [lia|].
      split; [reflexivity|]. intros st' [=]. }
  rewrite run_bind_unfold.
  destruct (verbose_print_spec codec tokenizer args step nid
              {| rng := r1; trace := trace w ++ [EvSample nid] |}) as (pr & -> & Hpr).
  cbn [rng trace]. rewrite <- app_assoc.
  pose proof (prints_no_calls pr Hpr) as Hprc.
  pose proof (prints_no_samples pr Hpr) as Hprs.
  destruct (decide (nid = eos_id cfg)) as [Heos|Hne].
  { exists ([EvSample nid] ++ pr), r1. eexists. exists 0%nat. split; [reflexivity|].
    split; [lia|]. rewrite decoder_calls_app, Hprc. split; [reflexivity|].
    intros st' _. rewrite samples_of_app, Hprs.
    change (samples_of [EvSample nid]) with [nid].
    cbn [app before_first]. by destruct (decide (nid = eos_id cfg)). }
  rewrite run_bind_unfold.
  destruct (advance_calls (out_present E st) nid
              {| rng := r1; trace := trace w ++ [EvSample nid] ++ pr |} past_len Hlen)
    as (mid & o2 & -> & Hmids & Hmid).
  cbn [rng trace]. rewrite <- !app_assoc.
  destruct o2 as [next|e|].
  2:{ exists ([EvSample nid] ++ pr ++ mid), r1, (Raise e).
      destruct Hmid as [[Hcalls _]|[Hcalls _]].
      - exists 0%nat. split; [reflexivity|]. split; [lia|].
        rewrite !decoder_calls_app, Hprc, Hcalls. split; [reflexivity|]. intros st' [=].
      - exists 1%nat. split; [reflexivity|]. split; [lia|].
        rewrite !decoder_calls_app, Hprc, Hcalls.
        change (decoder_calls [EvSample nid]) with (@nil (nat * nat * list Z * nat)).
        cbn [seq List.map app]. rewrite Nat.add_0_r. split; [reflexivity|].
        intros st' [=]. }
  2:{ exists ([EvSample nid] ++ pr ++ mid), r1, OutOfFuel.
      destruct Hmid as [[Hcalls _]|[Hcalls _]].
      - exists 0%nat. split; [reflexivity|]. split; [lia|].
        rewrite !decoder_calls_app, Hprc, Hcalls. split; [reflexivity|]. intros st' [=].
      - exists 1%nat. split; [reflexivity|]. split; [lia|].
        rewrite !decoder_calls_app, Hprc, Hcalls.
        change (decoder_calls [EvSample nid]) with (@nil (nat * nat * list Z * nat)).
        cbn [seq List.map app]. rewrite Nat.add_0_r. split; [reflexivity|].
        intros st' [=]. }
  destruct Hmid as [[_ Hno]|[Hcalls Hnext]]; [by destruct (Hno next)|].
  specialize (Hnext next eq_refl).
  match goal with
  | |- context [decode_steps E NP codec tokenizer args cfg n ?s ?st1 ?w1] =>
      destruct (IH s st1 w1 (S past_len) Hnext)
        as (evs & r & o & m & -> & Hm & Hrest & Hcount)
  end.
  cbn [rng trace]. rewrite <- !app_assoc.
  exists ([EvSample nid] ++ pr ++ mid ++ evs), r, o, (S m).
  split; [reflexivity|]. split; [lia|]. split.
  - rewrite !decoder_calls_app, Hprc, Hcalls, Hrest.
    change (decoder_calls [EvSample nid]) with (@nil (nat * nat * list Z * nat)).
    cbn [app seq List.map]. rewrite Nat.add_0_r. f_equal.
    rewrite <- seq_shift, List.map_map. apply List.map_ext. intros k. f_equal. lia.
  - intros st' Hst'. rewrite !samples_of_app, Hprs, Hmids.
    change (samples_of [EvSample nid]) with [nid]. cbn [app before_first].
    destruct (decide (nid = eos_id cfg)); [done|]. cbn [length]. f_equal.
    by apply (Hcount st').
Qed.
End Protocol.

(** X20. The positions the decoder is given.  Let the embedding session
    return one row for each id, the decoder session return each cache
    tensor longer by the number of rows it was given, and the empty cache
    have length 0.  Then the decoder calls of a run of [main] are an initial
    part of this sequence: the call on all [total = L - 1 + T] rows with
    [total] mask entries and the positions [0 .. total-1], and then, for
    [k = 0, 1, ...], a call on one row with [total + k + 1] mask entries and
    the one position [total + k]; each gets [2 * num_layers] cache tensors.
    A run that returns normally on a prompt with the placeholder has made
    the first call and one further call for each id drawn before the end
    token, at most [max_new_tokens]. *)
Theorem decoder_positions_are_consecutive {A : Arith} (E : Engine A) {R : Type}
    (NP : @NumPy A R) (codec : Utf8Decoder) (tokenizer : BpeTokenizerPy)
    (args : Args A) (cfg : Config) (input_ids : list Z)
    (text_emb vis_proj : list (vec E)) (w : world R) :
  kv_len E (empty_kv E) = 0%nat ->
  (forall ids, length (embed_run E ids) = length ids) ->
  (forall f : feed (vec E) (kv E),
      Forall2 (fun past now =>
                 kv_len E now = (kv_len E past + length (inputs_embeds f))%nat)
              (past_key_values f) (present (dec_run E f))) ->
  let total := Z.to_nat (Z.of_nat (length text_emb) - 1 + Z.of_nat (length vis_proj)) in
  let run := main E NP codec tokenizer args cfg input_ids text_emb vis_proj w in
  exists evs m,
    trace run.1 = trace w ++ evs
    ∧ (m <= Z.to_nat (max_new_tokens args))%nat
    ∧ (decoder_calls evs = [] ∨ decoder_calls evs = expected_calls (num_layers E) total m)
    ∧ (run.2 = Ok tt -> (exists q, input_ids !! q = Some (image_token_id cfg)) ->
         decoder_calls evs = expected_calls (num_layers E) total m
         ∧ m = length (before_first (eos_id cfg) (samples_of evs))).
Proof.
  intros Hempty Hembed Hgrow. cbv zeta. unfold main.
  destruct (np_where_eq input_ids (image_token_id cfg) 0) as [|image_pos others] eqn:Hpos.
  { exists [EvWarning], 0%nat. split; [reflexivity|]. split; [lia|]. split; [by left|].
    intros _ [q Hq]. by destruct (np_where_eq_some _ _ 0%nat _ Hq). }
  unfold lift, decoder, emit, mbind, run_bind, mret, run_ret.
  cbn [rng trace inputs_embeds attention_mask position_ids past_key_values].
  destruct (fuse_embeddings (zeros E) image_pos text_emb vis_proj) as [embeds|e|] eqn:Hfuse.
  2:{ exists [], 0%nat. cbn [fst snd trace]. rewrite app_nil_r.
      split; [reflexivity|]. split; [lia|]. split; [by left|]. intros [=]. }
  2:{ exists [], 0%nat. cbn [fst snd trace]. rewrite app_nil_r.
      split; [reflexivity|]. split; [lia|]. split; [by left|]. intros [=]. }
  apply fuse_embeddings_length in Hfuse.
  destruct (head (filter (fun b : bool => b = true) (layer_inputs E))) as [kv0|];
    cbn [or_raise].
  2:{ exists [], 0%nat. cbn [fst snd trace]. rewrite app_nil_r.
      split; [reflexivity|]. split; [lia|]. split; [by left|]. intros [=]. }
  set (f := {| inputs_embeds := embeds;
               attention_mask := length embeds;
               position_ids := py_range 0 (Z.of_nat (length embeds));
               past_key_values := replicate (2 * num_layers E) (empty_kv E) |}).
  assert (Hprefill : decoder_calls
                       [EvDecoder (length embeds) (length embeds)
                          (py_range 0 (Z.of_nat (length embeds)))
                          (length (replicate (2 * num_layers E) (empty_kv E)))]
                     = [prefill_call (num_layers E)
                          (Z.to_nat (Z.of_nat (length text_emb) - 1
                                     + Z.of_nat (length vis_proj)))]).
  { change (decoder_calls [EvDecoder ?a ?b ?c ?d]) with [(a, b, c, d)].
    unfold prefill_call. by rewrite length_replicate, Hfuse. }
  assert (Hcache : forall k0, present (dec_run E f) !! 0%nat = Some k0 ->
                     kv_len E k0 = length embeds).
  { intros k0 Hk0.
    assert (Hpast : past_key_values f !! 0%nat = Some (empty_kv E)).
    { cbn [past_key_values f]. apply lookup_replicate_2. unfold num_layers. lia. }
    rewrite (present_head E Hgrow f (empty_kv E) Hpast k0 Hk0).
    cbn [inputs_embeds f]. rewrite Hempty. reflexivity. }
  destruct (last (logits (dec_run E f))) as [row|]; cbn [or_raise].
  2:{ eexists [_], 0%nat. cbn [fst snd trace].
      split; [reflexivity|]. split; [lia|]. split; [right; exact Hprefill|]. intros [=]. }
  match goal with
  | |- context [decode_steps E NP codec tokenizer args cfg ?n ?s ?st1 ?w1] =>
      destruct (decode_steps_calls E NP codec tokenizer args cfg Hembed Hgrow
                  n s st1 w1 (length embeds) Hcache)
        as (evs & r & o & m & -> & Hm & Hcalls & Hcount)
  end.
  cbn [rng trace]. rewrite <- app_assoc. rewrite Hfuse in Hcalls.
  destruct o as [st'|e|].
  2:{ eexists _, m. cbn [fst snd trace]. split; [reflexivity|]. split; [exact Hm|].
      split; [|intros [=]]. right. rewrite decoder_calls_app, Hprefill, Hcalls.
      reflexivity. }
  2:{ eexists _, m. cbn [fst snd trace]. split; [reflexivity|]. split; [exact Hm|].
      split; [|intros [=]]. right. rewrite decoder_calls_app, Hprefill, Hcalls.
      reflexivity. }
  specialize (Hcount st' eq_refl).
  destruct (decode codec tokenizer (cut_at_eos cfg (generated E st'))) as [text|e|].
  - eexists _, m. cbn [fst snd trace]. rewrite <- !app_assoc.
    split; [reflexivity|]. split; [exact Hm|].
    assert (Hall : decoder_calls
                     ([EvDecoder (length embeds) (length embeds)
                         (py_range 0 (Z.of_nat (length embeds)))
                         (length (replicate (2 * num_layers E) (empty_kv E)))]
                        ++ evs ++ [EvText text])
                   = expected_calls (num_layers E)
                       (Z.to_nat (Z.of_nat (length text_emb) - 1
                                  + Z.of_nat (length vis_proj))) m).
    { rewrite !decoder_calls_app, Hprefill, Hcalls.
      change (decoder_calls [EvText text]) with (@nil (nat * nat * list Z * nat)).
      by rewrite app_nil_r. }
    split; [right; exact Hall|]. intros _ _. split; [exact Hall|].
    rewrite !samples_of_app.
    change (samples_of [EvText text]) with (@nil Z).
    change (samples_of [EvDecoder ?a ?b ?c ?d]) with (@nil Z).
    by rewrite app_nil_r.
  - eexists _, m. cbn [fst snd trace]. split; [reflexivity|]. split; [exact Hm|].
    split; [|intros [=]]. right. rewrite decoder_calls_app, Hprefill, Hcalls.
    reflexivity.
  - eexists _, m. cbn [fst snd trace]. split; [reflexivity|]. split; [exact Hm|].
    split; [|intros [=]]. right. rewrite decoder_calls_app, Hprefill, Hcalls.
    reflexivity.
Qed.

Lemma decoder_positions_are_consecutive_witness :
  exists evs m,
    trace (main small_engine cycling_numpy python_utf8 overlap_tokenizer small_args
             small_config [10; 7; 12] [100; 101; 102] [1; 2; 3]
             {| rng := 0%nat; trace := [] |}).1 = [] ++ evs
    ∧ (m <= 4)%nat
    ∧ (decoder_calls evs = [] ∨ decoder_calls evs = expected_calls 1 5 m)
    ∧ ((main small_engine cycling_numpy python_utf8 overlap_tokenizer small_args
          small_config [10; 7; 12] [100; 101; 102] [1; 2; 3]
          {| rng := 0%nat; trace := [] |}).2 = Ok tt ->
       (exists q : nat, [10; 7; 12] !! q = Some (image_token_id small_config)) ->
       decoder_calls evs = expected_calls 1 5 m
       ∧ m = length (before_first (eos_id small_config) (samples_of evs))).
Proof.
  apply (decoder_positions_are_consecutive small_engine cycling_numpy python_utf8
           overlap_tokenizer small_args small_config [10; 7; 12] [100; 101; 102]
           [1; 2; 3] {| rng := 0%nat; trace := [] |}).
  - reflexivity.
  - intros ids. reflexivity.
  - intros f. cbn [small_engine dec_run present kv_len].
    apply Forall2_fmap_r, Forall_Forall2_diag, Forall_forall. intros k _. reflexivity.
Defined.

Example decoder_calls_values :
  decoder_calls
    (trace (main small_engine cycling_numpy python_utf8 overlap_tokenizer small_args
              small_config [10; 7; 12] [100; 101; 102] [1; 2; 3]
              {| rng := 1%nat; trace := [] |}).1)
  = [(5%nat, 5%nat, [0; 1; 2; 3; 4], 2%nat); (1%nat, 6%nat, [5], 2%nat);
     (1%nat, 7%nat, [6], 2%nat)]
  ∧ samples_of
      (trace (main small_engine cycling_numpy python_utf8 overlap_tokenizer small_args
                small_config [10; 7; 12] [100; 101; 102] [1; 2; 3]
                {| rng := 1%nat; trace := [] |}).1)
    = [1; 0; 2].
Proof. split; vm_compute; reflexivity. Qed.

(** * Properties of the vision projector *)

Section ProjectorFacts.
Context {X : Type}.
Variable dot : list X -> list X -> X.
Variable add : X -> X -> X.
Variable gelu : X -> X.
Variable astype_float32 : X -> X.

Lemma rows_of_flat_length (rows cols : nat) (flat : list X) :
  length (rows_of_flat rows cols flat) = rows.
Proof.
  revert flat. induction rows as [|rows IH]; intros flat; simpl; [reflexivity|].
  by rewrite IH.
Qed.

Lemma rows_of_flat_rows (rows cols : nat) (flat : list X) :
  length flat = (rows * cols)%nat ->
  Forall (fun row => length row = cols) (rows_of_flat rows cols flat)
  ∧ concat (rows_of_flat rows cols flat) = flat.
Proof.
  revert flat. induction rows as [|rows IH]; intros flat Hlen; simpl in *.
  - split; [constructor|]. destruct flat; [reflexivity|discriminate].
  - destruct (IH (drop cols flat)) as [Hrows Hcat].
    { rewrite length_drop. lia. }
    split.
    + constructor; [|exact Hrows]. rewrite length_take. lia.
    + rewrite Hcat. apply take_drop.
Qed.

Lemma affine_shape (x w : list (list X)) (b : list X) :
  length w = length b ->
  length (affine dot add x w b) = length x
  ∧ Forall (fun row => length row = length b) (affine dot add x w b).
Proof.
  intros Hw. unfold affine. split; [by rewrite length_map|].
  apply Forall_forall. intros row Hrow. rewrite list_elem_of_In in Hrow.
  apply in_map_iff in Hrow as (r & <- & _).
  rewrite length_zip_with, length_map. lia.
Qed.
End ProjectorFacts.

(** X21. The shapes [project_vision] accepts and returns.  The projector
    takes its dimensions from the weight files alone: with [hidden] the
    number of entries of the first bias, it returns exactly when [hidden]
    is not zero, the first weight file has [hidden * feat_dim] entries, the
    second [hidden * hidden] and the second bias [hidden]; what it returns
    has one row for each row of the input, each of [hidden] entries.  An
    empty first bias raises [ZeroDivisionError], every other mismatch
    [ValueError].  [hidden_expected] and [mm_hidden_expected] play no part,
    so sizes that differ from those of [config.json] are not noticed. *)
Theorem project_vision_shapes {X : Type} (dot : list X -> list X -> X)
    (add : X -> X -> X) (gelu astype_float32 : X -> X)
    (x_2d : list (list X)) (feat_dim hidden_expected mm_hidden_expected : nat)
    (l1_w_raw l1_b_raw l2_w_raw l2_b_raw : list X) :
  let hidden := length l1_b_raw in
  let fits := hidden <> 0%nat
              ∧ length l1_w_raw = (hidden * feat_dim)%nat
              ∧ length l2_w_raw = (hidden * hidden)%nat
              ∧ length l2_b_raw = hidden in
  let result := project_vision dot add gelu astype_float32 x_2d feat_dim
                  hidden_expected mm_hidden_expected
                  l1_w_raw l1_b_raw l2_w_raw l2_b_raw in
  (fits -> exists y, result = Projected y
                     ∧ length y = length x_2d
                     ∧ Forall (fun row => length row = hidden) y)
  ∧ (hidden = 0%nat -> result = ProjectorZeroDivisionError)
  ∧ (hidden <> 0%nat -> ~ fits -> result = ProjectorValueError).
Proof.
  cbv zeta. unfold project_vision, reshape2, reshape1.
  set (hidden := length l1_b_raw).
  split; [|split].
  - intros (Hne & Hw1 & Hw2 & Hb2).
    destruct (decide (hidden = 0%nat)) as [|_]; [done|].
    assert (Hmm : (length l1_w_raw / hidden)%nat = feat_dim).
    { rewrite Hw1, Nat.mul_comm. by apply Nat.div_mul. }
    rewrite Hmm.
    destruct (decide (length l1_w_raw = (hidden * feat_dim)%nat)) as [_|]; [|done].
    destruct (decide (hidden = hidden)) as [_|]; [|done].
    destruct (decide (length l2_w_raw = (hidden * hidden)%nat)) as [_|]; [|done].
    destruct (decide (length l2_b_raw = hidden)) as [_|]; [|done].
    destruct (decide (feat_dim = feat_dim)) as [_|]; [|done].
    eexists. split; [reflexivity|].
    destruct (affine_shape dot add
                (List.map (List.map gelu)
                   (affine dot add x_2d (rows_of_flat hidden feat_dim l1_w_raw) l1_b_raw))
                (rows_of_flat hidden hidden l2_w_raw) l2_b_raw) as [Hrows Hcols].
    { by rewrite rows_of_flat_length. }
    split.
    + rewrite length_map, Hrows, length_map.
      unfold affine. by rewrite length_map.
    + rewrite Forall_map. eapply Forall_impl; [exact Hcols|].
      intros row Hrow. simpl. rewrite length_map, Hrow. exact Hb2.
  - intros Hzero. by destruct (decide (hidden = 0%nat)).
  - intros Hne Hfits.
    destruct (decide (hidden = 0%nat)) as [|_]; [done|].
    destruct (decide (length l1_w_raw = (hidden * (length l1_w_raw / hidden))%nat))
      as [Hw1|]; [|reflexivity].
    destruct (decide (hidden = hidden)) as [_|]; [|done].
    destruct (decide (length l2_w_raw = (hidden * hidden)%nat)) as [Hw2|]; [|reflexivity].
    destruct (decide (length l2_b_raw = hidden)) as [Hb2|]; [|reflexivity].
    destruct (decide (feat_dim = (length l1_w_raw / hidden)%nat)) as [Hfeat|];
      [|reflexivity].
    destruct Hfits. split; [exact Hne|]. split; [|by split].
    rewrite Hfeat. exact Hw1.
Qed.

Example project_vision_values :
  let dot (row weights : list Z) := fold_right Z.add 0 (zip_with Z.mul row weights) in
  project_vision dot Z.add (fun v => 2 * v) id [[1; 2; 3]; [0; 1; 0]] 3 5 7
    [1; 0; 0; 0; 1; 1] [10; 20] [1; 1; 1; -1] [0; 100]
  = Projected [[72; 72]; [62; 78]]
  ∧ project_vision dot Z.add (fun v => 2 * v) id [[1; 2; 3]] 3 2 3
      [1; 0; 0; 0; 1; 1] [] [1; 1; 1; -1] [0; 100]
    = ProjectorZeroDivisionError
  ∧ project_vision dot Z.add (fun v => 2 * v) id [[1; 2]] 2 2 3
      [1; 0; 0; 0; 1; 1] [10; 20] [1; 1; 1; -1] [0; 100]
    = ProjectorValueError.
Proof. cbv zeta. repeat split; vm_compute; reflexivity. Qed.

(** * A tokenizer read from its files *)

Lemma for_each_preserves_elem {X S} (body : S -> X -> outcome S) (Inv : S -> Prop)
    (xs : list X) :
  (forall st x st', x ∈ xs -> body st x = Ok st' -> Inv st -> Inv st') ->
  forall st res, for_each body xs st = Ok res -> Inv st -> Inv res.
Proof.
  induction xs as [|x xs IH]; intros Hbody st res; cbn [for_each].
  - by intros [= <-].
  - destruct (body st x) as [st1|e|] eqn:Hx; [|discriminate..]. rewrite bind_ok.
    intros Hrest Hst. apply (IH ltac:(intros ????; apply Hbody; by apply list_elem_of_further)
                               st1 res Hrest).
    apply (Hbody st x st1); [apply list_elem_of_here|exact Hx|exact Hst].
Qed.

Section LoadedSpecials.
Variable py_int : str -> option Z.
Variable vocab_ids : list Z.

Lemma added_token_apart (st st' : specials) (entry : str * option str) :
  added_apart py_int vocab_ids entry -> added_token py_int st entry = Ok st' ->
  markers_apart vocab_ids st -> markers_apart vocab_ids st'.
Proof.
  intros [Hcontent Hid] Hstep [Hmarkers Hids]. unfold added_token in Hstep.
  destruct (py_int entry.1) as [tid|] eqn:Htid; [|discriminate].
  cbn [or_raise] in Hstep. rewrite bind_ok in Hstep. injection Hstep as <-.
  split; cbn [sp_special_to_id sp_id_to_special].
  - apply dict_set_Forall.
    + eapply Forall_impl; [exact Hmarkers|]. intros kv [Hne Hkv]. split; [exact Hne|].
      rewrite lookup_insert_is_Some. destruct (decide (tid = kv.2)); [by left|by right].
    + split; [exact Hcontent|]. cbn [snd]. rewrite lookup_insert_eq. by eexists.
  - intros v. rewrite lookup_insert_is_Some. intros [<-|[_ Hv]]; [by apply Hid|by apply Hids].
Qed.

Lemma load_files_specials_apart (tokenizer_config : option (list (str * option str)))
    (special_tokens_map : option (option (option str) * option (option str)))
    (sp : specials) :
  Forall (added_apart py_int vocab_ids) (default [] tokenizer_config) ->
  _load_files_specials py_int tokenizer_config special_tokens_map = Ok sp ->
  markers_apart vocab_ids sp.
Proof.
  intros Hadded. unfold _load_files_specials.
  assert (Hempty : markers_apart vocab_ids no_specials).
  { split; [constructor|]. intros v [x Hx]. unfold no_specials in Hx.
    cbn [sp_id_to_special] in Hx. by rewrite lookup_empty in Hx. }
  assert (Hloop : forall st,
            match tokenizer_config with
            | None => Ok no_specials
            | Some added => for_each (added_token py_int) added no_specials
            end = Ok st -> markers_apart vocab_ids st).
  { destruct tokenizer_config as [added|]; [|by intros st [= <-]].
    intros st Hrun. cbn [default] in Hadded. rewrite Forall_forall in Hadded.
    apply (for_each_preserves_elem (added_token py_int) (markers_apart vocab_ids) added)
      with no_specials;
      [|exact Hrun|exact Hempty].
    intros st0 entry st1 Hin Hstep.
    apply (added_token_apart st0 st1 entry); [by apply Hadded|exact Hstep]. }
  destruct (match tokenizer_config with
            | None => Ok no_specials
            | Some added => for_each (added_token py_int) added no_specials
            end) as [st|e|]; [|discriminate..].
  rewrite bind_ok. specialize (Hloop st eq_refl).
  destruct special_tokens_map as [[eos_token pad_token]|]; intros [= <-]; exact Hloop.
Qed.
End LoadedSpecials.

(** X22. A tokenizer read from its files decodes what it tokenizes.  Let
    [vocab.json] have distinct tokens with distinct ids, among its tokens
    the 256 byte characters and [a+b] for every rule [a b] of [merges.txt],
    and let the added tokens of [tokenizer_config.json] have a content that
    is not empty and ids that are not ids of the vocabulary.  Then for the
    tokenizer that [__init__] builds, whatever the classes of the pattern
    and the iteration order of sets: when [tokenize_to_ids] returns ids for
    a text, [decode] gives for them the text between the markers, joined
    and stripped of the white space at its ends. *)
Theorem loaded_tokenizer_round_trips `{SetIteration} (py_int : str -> option Z)
    (classes : CharClasses) (vj : list (str * Z)) (merges : list str)
    (tokenizer_config : option (list (str * option str)))
    (special_tokens_map : option (option (option str) * option (option str)))
    (tk : BpeTokenizerPy) (sp : specials) (text ids : list Z) (fuel : nat) :
  load_tokenizer py_int classes vj merges tokenizer_config special_tokens_map
    = Ok (tk, sp) ->
  NoDup vj.*1 ->
  NoDup vj.*2 ->
  Forall (fun bc : Z * Z => [bc.2] ∈ vj.*1) byte_encoder ->
  Forall (fun ab : str * str => ab.1 ++ ab.2 ∈ vj.*1) (rules_of merges) ->
  Forall (fun entry : str * option str =>
            default [] entry.2 <> []
            ∧ forall tid, py_int entry.1 = Some tid -> tid ∉ vj.*2)
         (default [] tokenizer_config) ->
  (length text <= fuel)%nat ->
  tokenize_to_ids fuel tk text = Ok ids ->
  exists chunks,
    marker_split (special_to_id tk) text chunks
    ∧ decode python_utf8 tk ids = Ok (strip (plain_text chunks)).
Proof.
  intros Hload Htokens Hvids Hbytes Hrules Hadded Hfuel Hrun.
  unfold load_tokenizer in Hload.
  rewrite load_files_merges_spec in Hload.
  destruct (forallb well_formed merges); [|discriminate]. rewrite bind_ok in Hload.
  destruct (_load_files_specials py_int tokenizer_config special_tokens_map)
    as [sp0|e|] eqn:Hsp; [|discriminate..].
  rewrite bind_ok in Hload. injection Hload as <- <-.
  destruct (load_files_specials_apart py_int vj.*2 _ _ _ Hadded Hsp) as [Hmarkers Hapart].
  set (tk := {| vocab := (_load_files_vocab vj).1;
                id_to_token := (_load_files_vocab vj).2;
                bpe_ranks := load_merges (rules_of merges);
                special_to_id := sp_special_to_id sp0;
                id_to_special := sp_id_to_special sp0;
                pattern_finditer := script_finditer classes |}) in *.
  assert (Hin : forall tok, tok ∈ vj.*1 -> is_Some (vocab tk !! tok)).
  { intros tok Htok. apply list_elem_of_fmap in Htok as ([tok' v] & -> & Hkv).
    exists v. by apply vocab_lookup. }
  assert (Hbase : Forall (fun bc : Z * Z => is_Some (vocab tk !! [bc.2])) byte_encoder).
  { eapply Forall_impl; [exact Hbytes|]. intros bc Hbc. by apply Hin. }
  assert (Hmerged : map_Forall (fun (ab : str * str) (_ : Z) =>
                                  is_Some (vocab tk !! (ab.1 ++ ab.2))) (bpe_ranks tk)).
  { intros ab r Hab. apply Hin. rewrite Forall_forall in Hrules. apply Hrules.
    apply (load_merges_fold (rules_of merges)) in Hab as (i & _ & Hi & _).
    by eapply list_elem_of_lookup_2. }
  assert (Hids : map_Forall (fun tok v => id_to_token tk !! v = Some tok
                                          ∧ id_to_special tk !! v = None) (vocab tk)).
  { intros tok v Htok. apply vocab_lookup in Htok; [|exact Htokens]. split.
    - by apply tokens_lookup_unique.
    - apply eq_None_not_Some. intros Hsome. apply (Hapart v Hsome).
      apply list_elem_of_fmap. by exists (tok, v). }
  assert (Hcover : forall seg, concat (pattern_finditer tk seg) = seg).
  { intros seg. apply (finditer_covers classes (length seg) seg (le_n _)). }
  assert (Hnonempty : Forall (fun kv : str * Z => kv.1 <> []) (special_to_id tk)).
  { eapply Forall_impl; [exact Hmarkers|]. by intros kv [? _]. }
  assert (Hskipped : Forall (fun kv : str * Z => is_Some (id_to_special tk !! kv.2))
                            (special_to_id tk)).
  { eapply Forall_impl; [exact Hmarkers|]. by intros kv [_ ?]. }
  destruct (tokenize_loop_spec tk Hnonempty text fuel 0 ltac:(lia) ltac:(lia))
    as (chunks & Hsplit & Hloop).
  rewrite drop_0 in Hsplit. exists chunks. split; [exact Hsplit|].
  unfold tokenize_to_ids in Hrun. rewrite Hloop in Hrun.
  destruct (chunk_ids tk chunks []) as [ids'|e|] eqn:Hchunks; [|discriminate..].
  rewrite bind_ok in Hrun. unfold np_int64_array in Hrun.
  destruct (forallb _ ids'); [|discriminate]. injection Hrun as ->.
  destruct (chunk_ids_bytes tk Hbase Hmerged Hids Hcover Hskipped chunks
              (marker_split_markers _ _ _ Hsplit) [] ids Hchunks)
    as (bytes & seg & Hbytes' & -> & Hcat).
  by apply (decode_of_bytes tk _ _ bytes).
Qed.

Lemma loaded_tokenizer_round_trips_witness :
  exists chunks,
    marker_split (special_to_id byte_tokenizer) (str_of "a <image> low") chunks
    ∧ decode python_utf8 byte_tokenizer [97; 32; 151646; 32; 257]
      = Ok (strip (plain_text chunks)).
Proof.
  apply (loaded_tokenizer_round_trips decimal ascii_classes byte_level_vocab
           example_merges_lines (Some example_added_tokens) None byte_tokenizer
           {| sp_special_to_id := special_to_id byte_tokenizer;
              sp_id_to_special := id_to_special byte_tokenizer;
              sp_image_id := Some 151646; sp_eos_id := None; sp_pad_id := None |}
           (str_of "a <image> low") [97; 32; 151646; 32; 257] 14).
  - vm_compute. reflexivity.
  - apply (bool_decide_unpack _). vm_compute. exact I.
  - apply (bool_decide_unpack _). vm_compute. exact I.
  - apply (bool_decide_unpack _). vm_compute. exact I.
  - apply (bool_decide_unpack _). vm_compute. exact I.
  - repeat constructor; try (by vm_compute);
      intros tid [= <-]; apply (bool_decide_unpack _); vm_compute; exact I.
  - vm_compute. lia.
  - vm_compute. reflexivity.
Defined.

Example loaded_tokenizer_values :
  match load_tokenizer decimal ascii_classes byte_level_vocab example_merges_lines
          (Some example_added_tokens) None with
  | Ok (tk, sp) =>
      bpe_ranks tk = example_ranks
      ∧ special_to_id tk = [(str_of "<|im_start|>", 151644); (str_of "<|im_end|>", 151645);
                            (str_of "<image>", 151646)]
      ∧ sp_image_id sp = Some 151646
      ∧ tokenize_to_ids 14 tk (str_of "a <image> low") = Ok [97; 32; 151646; 32; 257]
  | _ => False
  end.
Proof. vm_compute. repeat split. Qed.

(** * Properties of the video-stream analyzer *)

Lemma py_contains_spec (sub s : str) :
  py_contains sub s = true <-> exists p, occurs_at sub s p.
Proof.
  unfold py_contains. destruct (find_at sub s 0) as [k|] eqn:Hfind.
  - apply find_at_Some in Hfind as (p & _ & Hp & Hhit & _).
    split; [|done]. intros _. exists p. apply occurs_at_prefix. by split.
  - split; [done|]. intros [p Hp]. apply occurs_at_prefix in Hp as [_ Hp].
    by rewrite (find_at_None _ _ _ Hfind p) in Hp.
Qed.

Lemma occurs_at_inside (pre tok post s : str) (p : nat) :
  occurs_at (pre ++ tok ++ post) s p -> occurs_at tok s (p + length pre).
Proof.
  intros (before & after & -> & <-).
  exists (before ++ pre), (post ++ after). split.
  - by rewrite <- !app_assoc.
  - by rewrite length_app.
Qed.

(** X23. [check_adb_connection] tests only for the header of [adb devices].
    It returns [True] exactly when [adb] ran and its output contains
    [List of devices]: the test for [device] adds nothing, because every
    text with the header contains that word.  So the connection is reported
    as good whenever the header line is printed, whatever follows it, also
    when no device is listed. *)
Theorem adb_check_only_tests_the_header (result : completed) (message : adb_message) :
  (check_adb_connection result = Some (message, true)
   <-> message = AdbConnected
       ∧ exists returncode stdout p,
           result = Completed returncode stdout
           ∧ occurs_at (str_of "List of devices") stdout p)
  ∧ forall returncode listed,
      check_adb_connection
        (Completed returncode (str_of "List of devices attached" ++ listed))
      = Some (AdbConnected, true).
Proof.
  assert (Hheader : forall returncode stdout p,
            occurs_at (str_of "List of devices") stdout p ->
            check_adb_connection (Completed returncode stdout) = Some (AdbConnected, true)).
  { intros returncode stdout p Hp. cbn [check_adb_connection].
    assert (Hword : py_contains (str_of "device") stdout = true).
    { apply py_contains_spec. exists (p + 8)%nat.
      apply (occurs_at_inside (str_of "List of ") (str_of "device") (str_of "s")).
      exact Hp. }
    assert (Hhead : py_contains (str_of "List of devices") stdout = true).
    { apply py_contains_spec. by exists p. }
    by rewrite Hword, Hhead. }
  split.
  - split.
    + destruct result as [returncode stdout| |]; cbn [check_adb_connection];
        [|discriminate..].
      destruct (py_contains (str_of "device") stdout); [|discriminate].
      destruct (py_contains (str_of "List of devices") stdout) eqn:Hhead;
        [|discriminate].
      intros [= <-]. split; [reflexivity|].
      apply py_contains_spec in Hhead as [p Hp]. by exists returncode, stdout, p.
    + intros (-> & returncode & stdout & p & -> & Hp). by eapply Hheader.
  - intros returncode listed. apply (Hheader _ _ 0%nat).
    exists [], (str_of " attached" ++ listed). split; reflexivity.
Qed.

Example adb_check_without_devices :
  check_adb_connection (Completed 0 (str_of "List of devices attached" ++ [10; 10]))
  = Some (AdbConnected, true)
  ∧ check_adb_connection (Completed 0 (str_of "no devices/emulators found"))
    = Some (NoDeviceDetected, false).
Proof. split; vm_compute; reflexivity. Qed.

(** *** The devices that are listed *)

Lemma py_split_whitespace_nil (s : str) :
  py_split_whitespace s = [] -> forallb py_isspace s = true.
Proof.
  induction s as [|c rest IH]; [reflexivity|]. cbn [py_split_whitespace forallb].
  destruct (py_isspace c); [exact IH|].
  destruct rest as [|d rest']; [discriminate|].
  destruct (py_isspace d); [discriminate|].
  destruct (py_split_whitespace (d :: rest')); discriminate.
Qed.

Lemma py_split_whitespace_fields (s : str) :
  Forall (fun field => field <> [] ∧ Forall (fun c => py_isspace c = false) field)
         (py_split_whitespace s).
Proof.
  induction s as [|c rest IH]; [constructor|]. cbn [py_split_whitespace].
  destruct (py_isspace c) eqn:Hc; [exact IH|].
  assert (Hone : [c] <> [] ∧ Forall (fun c => py_isspace c = false) [c]).
  { split; [done|]. constructor; [exact Hc|constructor]. }
  destruct rest as [|d rest']; [constructor; [exact Hone|constructor]|].
  destruct (py_isspace d); [constructor; [exact Hone|exact IH]|].
  destruct (py_split_whitespace (d :: rest')) as [|field fields];
    [constructor; [exact Hone|constructor]|].
  inversion IH as [|? ? (Hne & Hall) Hrest]; subst.
  constructor; [|exact Hrest]. split; [done|]. by constructor.
Qed.

Lemma video_line_has_fields (line : str) :
  py_contains (str_of "/dev/video") line = true ->
  exists first fields, py_split_whitespace line = first :: fields.
Proof.
  intros (p & pre & post & -> & _)%py_contains_spec.
  destruct (py_split_whitespace (pre ++ str_of "/dev/video" ++ post)) as [|first fields] eqn:Hs;
    [|by eexists _, _].
  apply py_split_whitespace_nil in Hs.
  rewrite forallb_app in Hs. apply andb_true_iff in Hs as [_ Hs]. discriminate Hs.
Qed.

Lemma record_video_devices_spec (lines : list str) :
  forall st : list video_device * list analyzer_event,
    let found := List.filter (fun line => py_contains (str_of "/dev/video") line) lines in
    record_video_devices lines st
    = (st.1 ++ List.map listed_device found,
       st.2 ++ List.map (fun line => VideoDeviceFound (device (listed_device line))) found,
       false).
Proof.
  induction lines as [|line lines IH]; intros [devices printed]; cbn [record_video_devices].
  - cbn [List.filter List.map fst snd]. by rewrite !app_nil_r.
  - cbn [List.filter]. destruct (py_contains (str_of "/dev/video") line) eqn:Hline.
    + destruct (video_line_has_fields line Hline) as (first & fields & Hfields).
      unfold listed_device at 1 2. rewrite Hfields.
      destruct (last (first :: fields)) as [name|] eqn:Hlast.
      2:{ by apply last_None in Hlast. }
      cbn [head]. rewrite IH. cbn [fst snd List.map default].
      rewrite <- !app_assoc. cbn [app]. do 2 f_equal.
      * f_equal. f_equal. unfold listed_device. by rewrite Hfields, Hlast.
      * f_equal. f_equal. unfold listed_device. cbn [device]. by rewrite Hfields, Hlast.
    + apply IH.
Qed.

(** *** The cameras that [dumpsys] reports *)

Lemma camera_pattern_matches (is_digit : Z -> bool) (s : str) :
  is_Some (rmatch (camera_pattern is_digit) s Some)
  <-> exists c t, s = str_of "Camera " ++ c :: t ∧ is_digit c = true.
Proof.
  unfold camera_pattern. cbn [rmatch].
  destruct (is_prefix (str_of "Camera ") s) eqn:Hpre.
  - apply is_prefix_spec in Hpre as [post ->]. rewrite drop_app_length.
    destruct post as [|c t].
    + split; [by intros [x Hx]|]. intros (c & t & Heq & _).
      apply app_inv_head in Heq. discriminate.
    + split.
      * intros Hrun. exists c, t. split; [reflexivity|].
        cbn [plus_class] in Hrun. destruct (is_digit c); [reflexivity|].
        by destruct Hrun.
      * intros (c' & t' & Heq & Hc). apply app_inv_head in Heq. injection Heq as <- <-.
        by apply plus_class_matches.
  - split; [by intros [x Hx]|]. intros (c & t & -> & _).
    assert (Hyes : is_prefix (str_of "Camera ") (str_of "Camera " ++ c :: t) = true).
    { apply is_prefix_spec. by eexists. }
    congruence.
Qed.

Lemma finditer_finds (r : regex) (fuel : nat) :
  consumes r = true ->
  forall s : str, (length s <= fuel)%nat ->
    finditer fuel r s <> []
    <-> exists p : nat, (p < length s)%nat ∧ is_Some (rmatch r (drop p s) Some).
Proof.
  intros Hr. induction fuel as [|fuel IH]; intros s Hfuel.
  { destruct s; [|simpl in Hfuel; lia]. split; [done|]. intros (p & Hp & _).
    simpl in Hp. lia. }
  destruct s as [|c t].
  { split; [done|]. intros (p & Hp & _). simpl in Hp. lia. }
  cbn [finditer]. destruct (rmatch r (c :: t) Some) as [rest|] eqn:Hrun.
  - destruct (rmatch_rest _ _ _ _ Hrun) as (pre & rest' & Hs & [= ->] & Hne).
    specialize (Hne Hr).
    assert (Hshort : (length rest < length (c :: t))%nat).
    { rewrite Hs, length_app. destruct pre; [done|]. simpl. lia. }
    destruct (decide (length rest < length (c :: t))%nat); [|done].
    split; [|done]. intros _. exists 0%nat. split; [simpl; lia|].
    rewrite drop_0, Hrun. by eexists.
  - rewrite IH by (simpl in Hfuel; lia). split.
    + intros (p & Hp & Hm). exists (S p). split; [simpl; lia|exact Hm].
    + intros ([|p] & Hp & Hm).
      * rewrite drop_0, Hrun in Hm. by destruct Hm.
      * exists p. split; [simpl in Hp; lia|exact Hm].
Qed.

Lemma find_camera_ids_found (is_digit : Z -> bool) (camera_info : str) :
  find_camera_ids is_digit camera_info <> []
  <-> exists (p : nat) (c : Z),
        occurs_at (str_of "Camera " ++ [c]) camera_info p ∧ is_digit c = true.
Proof.
  unfold find_camera_ids.
  assert (Hmap : forall (f : str -> str) (xs : list str), List.map f xs <> [] <-> xs <> []).
  { intros f [|x xs]; by split. }
  rewrite Hmap, (finditer_finds (camera_pattern is_digit) _ eq_refl camera_info (le_n _)).
  split.
  - intros (p & Hp & Hm). apply camera_pattern_matches in Hm as (c & t & Hdrop & Hc).
    exists p, c. split; [|exact Hc]. exists (take p camera_info), t. split.
    + rewrite <- (take_drop p camera_info) at 1. rewrite Hdrop.
      by rewrite <- !app_assoc.
    + rewrite length_take. lia.
  - intros (p & c & (pre & post & -> & <-) & Hc). exists (length pre). split.
    + rewrite !length_app. simpl. lia.
    + apply camera_pattern_matches. exists c, post. split; [|exact Hc].
      rewrite drop_app_length. by rewrite <- !app_assoc.
Qed.

Section AnalyzerFacts.
Variable adb_shell : str -> completed.
Variable is_digit : Z -> bool.

Lemma analyze_linux_video_devices_found (self : analyzer) :
  adb_available self = true ->
  linux_video_devices (analysis self) = [] ->
  let self' := (analyze_linux_video_devices adb_shell self).1 in
  adb_available self' = true
  ∧ android_camera_devices (analysis self') = android_camera_devices (analysis self)
  ∧ (linux_video_devices (analysis self') <> []
     <-> exists stdout line,
           adb_shell list_video_command = Completed 0 stdout
           ∧ line ∈ py_split 10 (strip stdout)
           ∧ py_contains (str_of "/dev/video") line = true).
Proof.
  intros Hadb Hnone. cbv zeta. unfold analyze_linux_video_devices.
  rewrite Hadb, Hnone. cbn [negb fst snd adb_available analysis linux_video_devices
                            android_camera_devices].
  split; [reflexivity|]. split; [reflexivity|].
  destruct (adb_shell list_video_command) as [returncode stdout| |]; cbn [fst snd].
  - destruct (decide (returncode = 0)) as [->|Hrc]; cbn [fst snd].
    + rewrite record_video_devices_spec. cbn [fst snd app]. split.
      * intros Hfound.
        destruct (List.filter _ (py_split 10 (strip stdout))) as [|line found] eqn:Hf;
          [done|].
        assert (Hin : In line (List.filter
                                 (fun line => py_contains (str_of "/dev/video") line)
                                 (py_split 10 (strip stdout)))).
        { rewrite Hf. by left. }
        apply filter_In in Hin as [Hin Hline]. exists stdout, line.
        split; [reflexivity|]. split; [by apply list_elem_of_In|exact Hline].
      * intros (out & line & [= <-] & Hin & Hline).
        assert (Hin' : In line (List.filter
                                  (fun line => py_contains (str_of "/dev/video") line)
                                  (py_split 10 (strip stdout)))).
        { apply filter_In. split; [by apply list_elem_of_In|exact Hline]. }
        destruct (List.filter _ (py_split 10 (strip stdout))); [done|discriminate].
    + split; [done|]. intros (out & line & [= ? ?] & _). done.
  - split; [done|]. intros (out & line & [=] & _).
  - split; [done|]. intros (out & line & [=] & _).
Qed.

Lemma analyze_android_camera_interface_found (self : analyzer) :
  adb_available self = true ->
  android_camera_devices (analysis self) = [] ->
  let self' := (analyze_android_camera_interface adb_shell is_digit self).1 in
  adb_available self' = true
  ∧ linux_video_devices (analysis self') = linux_video_devices (analysis self)
  ∧ (android_camera_devices (analysis self') <> []
     <-> exists stdout (p : nat) (c : Z),
           adb_shell dumpsys_command = Completed 0 stdout
           ∧ occurs_at (str_of "Camera " ++ [c]) stdout p ∧ is_digit c = true).
Proof.
  intros Hadb Hnone. cbv zeta. unfold analyze_android_camera_interface.
  rewrite Hadb, Hnone. cbn [negb fst snd adb_available analysis linux_video_devices
                            android_camera_devices app].
  split; [reflexivity|]. split; [reflexivity|].
  assert (Hmap : forall (xs : list str),
            List.map (fun id => {| camera_id := id; status := str_of "available" |}) xs <> []
            <-> xs <> []).
  { intros [|x xs]; by split. }
  rewrite Hmap.
  destruct (adb_shell dumpsys_command) as [returncode stdout| |].
  - destruct (decide (returncode = 0)) as [->|Hrc].
    + change (default [] (Some (find_camera_ids is_digit stdout)))
        with (find_camera_ids is_digit stdout).
      rewrite find_camera_ids_found. split.
      * intros (p & c & Hp & Hc). by exists stdout, p, c.
      * intros (out & p & c & [= <-] & Hp & Hc). by exists p, c.
    + split; [done|]. intros (out & p & c & [= ? ?] & _). done.
  - split; [done|]. intros (out & p & c & [=] & _).
  - split; [done|]. intros (out & p & c & [=] & _).
Qed.

Lemma analyze_atr_interface_state (self : analyzer) :
  (analyze_atr_interface adb_shell self).1 = self.
Proof. unfold analyze_atr_interface. by destruct (negb (adb_available self)). Qed.

Lemma check_hal_camera_interface_state (self : analyzer) :
  (check_hal_camera_interface adb_shell self).1 = self.
Proof. unfold check_hal_camera_interface. by destruct (negb (adb_available self)). Qed.
End AnalyzerFacts.

(** X24. Every listed video device is recorded.  When [adb] is available
    and the listing of [/dev/video*] completes with return code 0, then
    [analyze_linux_video_devices] appends one entry for every line of the
    stripped output that contains [/dev/video], in the order of the lines
    and without losing one to the exception handler: such a line has a
    field, so taking the last and the first field cannot fail and the
    failure message is not printed.  The name and the permissions of an
    entry are the last and the first white-space separated field of its
    line; they are not empty and hold no white space. *)
Theorem video_devices_are_all_recorded (adb_shell : str -> completed)
    (self : analyzer) (stdout : str) :
  adb_available self = true ->
  adb_shell list_video_command = Completed 0 stdout ->
  let run := analyze_linux_video_devices adb_shell self in
  linux_video_devices (analysis run.1)
  = linux_video_devices (analysis self) ++ List.map listed_device (video_lines stdout)
  ∧ (LinuxCheckFailed ∉ run.2)
  ∧ Forall (fun line =>
              exists first fields,
                py_split_whitespace line = first :: fields
                ∧ permissions (listed_device line) = first
                ∧ last (first :: fields) = Some (device (listed_device line))
                ∧ Forall (fun field => field <> []
                                       ∧ Forall (fun c => py_isspace c = false) field)
                         (first :: fields))
           (video_lines stdout).
Proof.
  intros Hadb Hls. cbv zeta. unfold analyze_linux_video_devices.
  rewrite Hadb, Hls. cbn [negb]. destruct (decide (0 = 0)) as [_|]; [|done].
  rewrite record_video_devices_spec. cbn [fst snd analysis linux_video_devices].
  split; [reflexivity|]. split.
  - rewrite app_nil_l, app_nil_r. intros Hin.
    apply elem_of_cons in Hin as [|Hin]; [done|].
    apply elem_of_cons in Hin as [|Hin]; [done|].
    apply elem_of_app in Hin as [Hin|Hin].
    + apply list_elem_of_In, in_map_iff in Hin as (line & Heq & _). discriminate.
    + apply elem_of_cons in Hin as [|Hin]; [done|].
      destruct (adb_shell find_camera_command) as [rc out| |].
      * destruct (decide (rc = 0)).
        -- apply list_elem_of_In, in_map_iff in Hin as (line & Heq & _). discriminate.
        -- by apply not_elem_of_nil in Hin.
      * apply list_elem_of_singleton in Hin. discriminate.
      * apply list_elem_of_singleton in Hin. discriminate.
  - apply Forall_forall. intros line Hline. unfold video_lines in Hline.
    apply list_elem_of_In, filter_In in Hline as [_ Hline].
    destruct (video_line_has_fields line Hline) as (first & fields & Hfields).
    exists first, fields. split; [exact Hfields|]. unfold listed_device.
    cbn [permissions device]. rewrite Hfields. split; [reflexivity|]. split.
    + destruct (last (first :: fields)) eqn:Hlast; [reflexivity|].
      by apply last_None in Hlast.
    + rewrite <- Hfields. apply py_split_whitespace_fields.
Qed.

Lemma video_devices_are_all_recorded_witness :
  let listing :=
    str_of "crw-rw---- 1 system camera 81, 0 /dev/video0" ++ [10]
      ++ str_of "total 0" ++ [10]
      ++ str_of "lrwxrwxrwx 1 root root 12 /dev/video1 -> v4l/cam" ++ [10] in
  let adb_shell (command : str) := Completed 0 listing in
  let run := analyze_linux_video_devices adb_shell (new_analyzer true) in
  linux_video_devices (analysis run.1)
  = linux_video_devices (analysis (new_analyzer true))
      ++ List.map listed_device (video_lines listing)
  ∧ (LinuxCheckFailed ∉ run.2)
  ∧ Forall (fun line =>
              exists first fields,
                py_split_whitespace line = first :: fields
                ∧ permissions (listed_device line) = first
                ∧ last (first :: fields) = Some (device (listed_device line))
                ∧ Forall (fun field => field <> []
                                       ∧ Forall (fun c => py_isspace c = false) field)
                         (first :: fields))
           (video_lines listing).
Proof.
  intros listing adb_shell.
  apply (video_devices_are_all_recorded adb_shell (new_analyzer true) listing);
    reflexivity.
Defined.

Example video_devices_values :
  let listing :=
    str_of "crw-rw---- 1 system camera 81, 0 /dev/video0" ++ [10]
      ++ str_of "total 0" ++ [10]
      ++ str_of "lrwxrwxrwx 1 root root 12 /dev/video1 -> v4l/cam" ++ [10] in
  List.map (fun d => (device d, permissions d))
    (linux_video_devices
       (analysis (analyze_linux_video_devices (fun _ => Completed 0 listing)
                    (new_analyzer true)).1))
  = [(str_of "/dev/video0", str_of "crw-rw----"); (str_of "v4l/cam", str_of "lrwxrwxrwx")].
Proof. vm_compute. reflexivity. Qed.

(** X25. What is recommended follows from what was found.  After the
    analyses of [run_analysis] on a new analyzer the recommendations are, in
    this order: the V4L2 interface exactly when [adb] is available and the
    listing of [/dev/video*] completes with return code 0 and has a line
    that contains [/dev/video]; the Camera2 interface exactly when [adb] is
    available and [dumpsys media.camera] completes with return code 0 and
    its output has [Camera ] followed by a digit; and always the
    MediaProjection and the SurfaceView entries.  Without [adb] no shell
    command is run. *)
Theorem recommendations_follow_the_devices (adb_shell : str -> completed)
    (is_digit : Z -> bool) (adb_ok : bool) :
  let run := analyses adb_shell is_digit (new_analyzer adb_ok) in
  let video :=
    adb_ok = true
    ∧ exists stdout line,
        adb_shell list_video_command = Completed 0 stdout
        ∧ line ∈ py_split 10 (strip stdout)
        ∧ exists p, occurs_at (str_of "/dev/video") line p in
  let camera :=
    adb_ok = true
    ∧ exists stdout (p : nat) (c : Z),
        adb_shell dumpsys_command = Completed 0 stdout
        ∧ occurs_at (str_of "Camera " ++ [c]) stdout p ∧ is_digit c = true in
  exists v c : bool,
    recommended_interfaces (analysis run.1)
    = (if v then [V4L2] else []) ++ (if c then [Camera2] else [])
        ++ [MediaProjection; SurfaceViewPreview]
    ∧ (v = true <-> video)
    ∧ (c = true <-> camera)
    ∧ (adb_ok = false -> Forall (fun e => is_shell e = false) run.2).
Proof.
  cbv zeta. unfold analyses. cbn [fst snd].
  rewrite check_hal_camera_interface_state, analyze_atr_interface_state.
  destruct adb_ok.
  - destruct (analyze_linux_video_devices_found adb_shell (new_analyzer true)
                eq_refl eq_refl) as (Hadb1 & Hcam1 & Hvideo).
    set (self1 := (analyze_linux_video_devices adb_shell (new_analyzer true)).1) in *.
    destruct (analyze_android_camera_interface_found adb_shell is_digit self1
                Hadb1 Hcam1) as (_ & Hlinux2 & Hcamera).
    set (self2 := (analyze_android_camera_interface adb_shell is_digit self1).1) in *.
    exists (negb (bool_decide (linux_video_devices (analysis self2) = []))),
           (negb (bool_decide (android_camera_devices (analysis self2) = []))).
    split.
    { unfold generate_recommendations. cbn [fst analysis recommended_interfaces].
      by do 2 case_bool_decide. }
    split; [|split; [|discriminate]].
    + rewrite Hlinux2, negb_true_iff, bool_decide_eq_false, Hvideo. split.
      * intros (stdout & line & Hls & Hin & Hline). split; [reflexivity|].
        exists stdout, line. split; [exact Hls|]. split; [exact Hin|].
        by apply py_contains_spec.
      * intros (_ & stdout & line & Hls & Hin & Hline). exists stdout, line.
        split; [exact Hls|]. split; [exact Hin|]. by apply py_contains_spec.
    + rewrite negb_true_iff, bool_decide_eq_false, Hcamera. split.
      * intros Hfound. by split.
      * by intros [_ Hfound].
  - exists false, false. split; [reflexivity|]. split; [|split].
    + split; [discriminate|]. by intros [? _].
    + split; [discriminate|]. by intros [? _].
    + intros _. by repeat constructor.
Qed.

Example recommendations_values :
  let adb_shell (command : str) :=
    if bool_decide (command = list_video_command)
    then Completed 0 (str_of "crw-rw---- 1 system camera 81, 0 /dev/video0" ++ [10])
    else if bool_decide (command = dumpsys_command)
    then Completed 0 (str_of "Camera 0 status" ++ [10] ++ str_of "Camera 12 status")
    else Completed 1 [] in
  let digit (c : Z) := (48 <=? c) && (c <=? 57) in
  recommended_interfaces (analysis (analyses adb_shell digit (new_analyzer true)).1)
  = [V4L2; Camera2; MediaProjection; SurfaceViewPreview]
  ∧ List.map camera_id
      (android_camera_devices (analysis (analyses adb_shell digit (new_analyzer true)).1))
    = [str_of "0"; str_of "12"]
  ∧ recommended_interfaces (analysis (analyses adb_shell digit (new_analyzer false)).1)
    = [MediaProjection; SurfaceViewPreview]
  ∧ (analyses adb_shell digit (new_analyzer false)).2
    = [AtrHeader; HalHeader; RecommendationsHeader;
       Recommended 1 MediaProjection; Recommended 2 SurfaceViewPreview].
Proof. cbv zeta. repeat split; vm_compute; reflexivity. Qed.
